(** * xpra video helper: the capability registry of [xpra/codecs/video_helper.py]

    A shallow embedding of the [VideoHelper] class and of the module level
    catalog functions, followed by the properties of the registry.

    Modelling choices.
    - Python dictionaries keep insertion order, so a [dict] is an association
      list; the three capability tables are nested mutable containers and
      live in a store ([heap]), addressed by location, so that sharing
      between two registries is expressible.
    - Code that can raise runs in the monad [M]: a state monad over the
      [World] whose results are [Ok v] or [Raise e].  [try: ... except
      Exception:] is [try_except].
    - The codec loader ([xpra.codecs.loader]) and the codec modules are
      external: the loader is a parameter of the development, a module
      handle is a record of its entry points.
    - Calls of the debug logger ([log(...)]) have no effect on the state and
      record nothing; what is kept of them is the evaluation of their
      arguments where it can raise (the loops at the end of
      [init_csc_options]).  [log.warn] and [log.error] are recorded in the
      world.
    - [with self._lock:] is not modelled: the embedding is sequential. *)

From stdpp Require Import base list strings.
From Stdlib Require Import String Ascii List Lia Permutation Sorted.
Import ListNotations.
Open Scope string_scope.
Open Scope list_scope.

(** ** Strings *)

(** [x.startswith(p)] *)
Definition startswith (x p : string) : bool := String.prefix p x.

(** [x[1:]] *)
Definition str_tail (x : string) : string :=
  match x with
  | EmptyString => EmptyString
  | String _ r => r
  end.

(** Truth value of a string: [if x]. *)
Definition nonempty (x : string) : bool := negb (x =? "")%string.

(** [x in l] for a list or tuple of strings. *)
Definition str_in (x : string) (l : list string) : bool :=
  existsb (String.eqb x) l.

(** [x.find(sub)], [None] standing for [-1]. *)
Definition str_find (x sub : string) : option nat := String.index 0 sub x.

(** [sorted(l)] on strings: a stable insertion sort by code point order. *)
Fixpoint insert_sorted (x : string) (l : list string) : list string :=
  match l with
  | [] => [x]
  | y :: r => if String.ltb x y then x :: y :: r else y :: insert_sorted x r
  end.

Definition sorted (l : list string) : list string :=
  fold_right insert_sorted [] l.

(** [sorted(d.items())] for a dictionary with string keys: keys are unique
    in a dictionary, so the order is decided by the keys alone. *)
Fixpoint insert_item {V} (x : string * V) (l : list (string * V)) :=
  match l with
  | [] => [x]
  | y :: r => if String.ltb (fst x) (fst y) then x :: y :: r
              else y :: insert_item x r
  end.

Definition sorted_items {V} (l : list (string * V)) : list (string * V) :=
  fold_right insert_item [] l.

(** Lookup in an association list (first binding). *)
Fixpoint assoc {V} (k : string) (d : list (string * V)) : option V :=
  match d with
  | [] => None
  | (k', v) :: r => if (k =? k')%string then Some v else assoc k r
  end.

(** ** Exceptions and results *)

Inductive exn : Type :=
| AssertionError (msg : string)
| AttributeError
| TypeError
| KeyError (key : string)
| ModuleError (msg : string).

Inductive Res (A : Type) : Type :=
| Ok (a : A)
| Raise (e : exn).
Arguments Ok {A} a.
Arguments Raise {A} e.

(** ** Codec modules *)

(** A capability spec: opaque to the registry but for its type tag.
    [spec_id] stands for the identity of the spec object. *)
Record Spec : Type := mkSpec { codec_type : string; spec_id : nat }.

(** A loaded codec module, as the entry points the registry calls.  Encoder
    and decoder modules answer [get_input_colorspaces(encoding)], csc
    modules answer [get_input_colorspaces()]: the two call shapes are two
    fields.  Every entry point may raise. *)
Module Codec.
Record module : Type := mk {
  name : string;
  get_type : Res string;
  get_encodings : Res (list string);
  get_input_colorspaces : string -> Res (list string);
  get_input_colorspaces0 : Res (list string);
  get_output_colorspaces : string -> Res (list string);
  get_output_colorspace : string -> string -> Res string;
  get_spec : string -> string -> Res Spec;
  Decoder : Res bool;
  cleanup_module : Res unit
}.
End Codec.

(** ** The store *)

Abbreviation loc := nat (only parsing).

(** What an inner list holds: an encoder or csc spec, or a decoder entry
    [(decoder_name, decoder_module)]. *)
Inductive leaf : Type :=
| LSpec (spec : Spec)
| LDecoder (decoder_name : string) (decoder_module : Codec.module).

Inductive obj : Type :=
| ODict (items : list (string * loc))
| OList (elems : list leaf).

(** Truth value of a container. *)
Definition truthy (o : obj) : bool :=
  match o with
  | ODict [] | OList [] => false
  | _ => true
  end.

(** ** Log records: [log.warn(fmt, *args)] and [log.error(fmt, *args)] *)

Inductive log_arg : Type :=
| AStr (s : string)
| ACsv (l : list string)
| AExn (e : exn)
| AModule (m : Codec.module).

Inductive log_record : Type :=
| Warn (fmt : string) (args : list log_arg)
| Error (fmt : string) (args : list log_arg).

(** ** The report of [get_info]: nested dictionaries of lists and strings *)

#[warnings="-register-all"]
Inductive info : Type :=
| IStr (s : string)
| IList (l : list string)
| IDict (d : list (string * info)).

(** ** The registry object *)

Record VideoHelper : Type := mkVideoHelper {
  _video_encoder_specs : loc;
  _csc_encoder_specs : loc;
  _video_decoder_specs : loc;
  video_encoders : list string;
  csc_modules : list string;
  video_decoders : list string;
  _cleanup_modules : list Codec.module;
  _initialized : bool
}.

Section Registry.

(** The codec loader: its state, [load_codec(name)] and [get_codec(name)];
    [importable] says whether [__import__] of a top module succeeds. *)
Context {Codecs : Type}.
Variable loader_load_codec : string -> Codecs -> Res unit * Codecs.
Variable loader_get_codec : string -> Codecs -> option Codec.module.
Variable importable : string -> bool.

Record World : Type := mkWorld {
  heap : list obj;
  codecs : Codecs;
  log : list log_record;
  teardowns : list Codec.module
}.

Definition set_heap (h : list obj) (w : World) : World :=
  mkWorld h (codecs w) (log w) (teardowns w).

(** ** The monad *)

Definition M (A : Type) : Type := World -> Res A * World.

Definition ret {A} (a : A) : M A := fun w => (Ok a, w).

Definition bind {A B} (m : M A) (k : A -> M B) : M B :=
  fun w => match m w with
           | (Ok a, w') => k a w'
           | (Raise e, w') => (Raise e, w')
           end.

Definition raise {A} (e : exn) : M A := fun w => (Raise e, w).

(** [try: body except Exception as e: handler(e)] *)
Definition try_except {A} (body : M A) (handler : exn -> M A) : M A :=
  fun w => match body w with
           | (Ok a, w') => (Ok a, w')
           | (Raise e, w') => handler e w'
           end.

(** Result of an external entry point. *)
Definition call {A} (r : Res A) : M A := fun w => (r, w).

#[local] Instance M_ret : MRet M := @ret.
#[local] Instance M_bind : MBind M := fun A B k m => bind m k.

(** [for x in xs: body(x)] *)
Fixpoint for_each {A} (xs : list A) (body : A -> M unit) : M unit :=
  match xs with
  | [] => ret tt
  | x :: r => body x ;; for_each r body
  end.

(** [assert c, msg] *)
Definition assert_ (c : bool) (msg : string) : M unit :=
  if c then ret tt else raise (AssertionError msg).

Definition log_warn (fmt : string) (args : list log_arg) : M unit :=
  fun w => (Ok tt, mkWorld (heap w) (codecs w) (log w ++ [Warn fmt args]) (teardowns w)).

Definition log_error (fmt : string) (args : list log_arg) : M unit :=
  fun w => (Ok tt, mkWorld (heap w) (codecs w) (log w ++ [Error fmt args]) (teardowns w)).

(** ** Store primitives

    The tables are dictionaries of dictionaries of lists.  Using an object
    of another kind where one of these is expected is reported as an
    exception of the model. *)

Definition load (l : loc) : M obj :=
  fun w => match heap w !! l with
           | Some o => (Ok o, w)
           | None => (Raise AttributeError, w)
           end.

Definition store (l : loc) (o : obj) : M unit :=
  fun w => (Ok tt, set_heap (<[l:=o]> (heap w)) w).

(** A new object, at the first unused location. *)
Definition alloc (o : obj) : M loc :=
  fun w => (Ok (length (heap w)), set_heap (heap w ++ [o]) w).

(** [d.items()], in insertion order. *)
Definition dict_items (d : loc) : M (list (string * loc)) :=
  o ← load d;
  match o with
  | ODict items => ret items
  | OList _ => raise AttributeError
  end.

(** The elements of [l], for [for v in l]. *)
Definition list_elems (l : loc) : M (list leaf) :=
  o ← load l;
  match o with
  | OList elems => ret elems
  | ODict _ => raise TypeError
  end.

(** [d.keys()] *)
Definition dict_keys (d : loc) : M (list string) :=
  items ← dict_items d; ret (map fst items).

(** [d.setdefault(k, mk)] where [mk] is a new empty container: the value
    under [k] when there is one, else the new container, stored under [k]
    at the end of [d].  (Python builds the default before the call; when
    [k] is present it is dropped at once and is not allocated here.) *)
Definition dict_setdefault (d : loc) (k : string) (mk : obj) : M loc :=
  items ← dict_items d;
  match assoc k items with
  | Some v => ret v
  | None => v ← alloc mk; store d (ODict (items ++ [(k, v)])) ;; ret v
  end.

(** [d.get(k, {})]: the default is returned, and so allocated, only when
    [k] is absent. *)
Definition dict_get_default (d : loc) (k : string) : M loc :=
  items ← dict_items d;
  match assoc k items with
  | Some v => ret v
  | None => alloc (ODict [])
  end.

(** [l.append(v)] *)
Definition list_append (l : loc) (v : leaf) : M unit :=
  o ← load l;
  match o with
  | OList elems => store l (OList (elems ++ [v]))
  | ODict _ => raise AttributeError
  end.

(** ** The codec loader *)

Definition load_codec (name : string) : M unit :=
  fun w => let (r, c) := loader_load_codec name (codecs w) in
           (r, mkWorld (heap w) c (log w) (teardowns w)).

Definition get_codec (name : string) : M (option Codec.module) :=
  fun w => (Ok (loader_get_codec name (codecs w)), w).

(** ** Module level: the catalog *)

Definition CODEC_TO_MODULE : list (string * string) :=
  [ ("vpx", "vpx"); ("x264", "enc_x264"); ("x265", "enc_x265");
    ("nvenc", "nvenc"); ("swscale", "csc_swscale"); ("cython", "csc_cython");
    ("libyuv", "csc_libyuv"); ("avcodec2", "dec_avcodec2");
    ("ffmpeg", "enc_ffmpeg") ].

Definition has_codec_module (module_name : string) : bool :=
  importable ("xpra.codecs." +:+ module_name).

(** [None] is the [KeyError] of [CODEC_TO_MODULE[codec_name]]. *)
Fixpoint try_import_modules (codec_names : list string) : option (list string) :=
  match codec_names with
  | [] => Some []
  | codec_name :: rest =>
      match assoc codec_name CODEC_TO_MODULE with
      | None => None
      | Some module_name =>
          match try_import_modules rest with
          | None => None
          | Some names =>
              Some (if has_codec_module module_name then codec_name :: names
                    else names)
          end
      end
  end.

Definition ALL_VIDEO_ENCODER_OPTIONS : list string :=
  default [] (try_import_modules ["x264"; "vpx"; "x265"; "nvenc"; "ffmpeg"]).
Definition HARDWARE_ENCODER_OPTIONS : list string :=
  default [] (try_import_modules ["nvenc"]).
Definition ALL_CSC_MODULE_OPTIONS : list string :=
  default [] (try_import_modules ["swscale"; "cython"; "libyuv"]).
Definition NO_GFX_CSC_OPTIONS : list string := [].
Definition ALL_VIDEO_DECODER_OPTIONS : list string :=
  default [] (try_import_modules ["avcodec2"; "vpx"]).

Definition PREFERRED_ENCODER_ORDER : list string := ["nvenc"; "x264"; "vpx"; "x265"].
Definition PREFERRED_DECODER_ORDER : list string := ["avcodec2"; "vpx"].

Definition get_encoder_module_name (x : string) : string :=
  match str_find x "enc" with
  | Some _ => x
  | None => "enc_" +:+ x
  end.

Definition get_decoder_module_name (x : string) : string := "dec_" +:+ x.

Definition get_csc_module_name (x : string) : string := "csc_" +:+ x.

(** The loop of [get_DEFAULT_VIDEO_ENCODERS]: it leaves at the first codec
    found ([break]). *)
Fixpoint default_encoders_loop (xs : list string) (encoders : list string)
  : M (list string) :=
  match xs with
  | [] => ret encoders
  | x :: rest =>
      c ← get_codec (get_encoder_module_name x);
      match c with
      | Some _ => ret (encoders ++ [x])
      | None => default_encoders_loop rest encoders
      end
  end.

Definition get_DEFAULT_VIDEO_ENCODERS : M (list string) :=
  default_encoders_loop ALL_VIDEO_ENCODER_OPTIONS [].

(** The loop shared in shape by [get_DEFAULT_CSC_MODULES] and
    [get_DEFAULT_VIDEO_DECODERS]: no [break]. *)
Fixpoint default_modules_loop (module_name_of : string -> string)
  (xs : list string) (found : list string) : M (list string) :=
  match xs with
  | [] => ret found
  | x :: rest =>
      c ← get_codec (module_name_of x);
      match c with
      | Some _ => default_modules_loop module_name_of rest (found ++ [x])
      | None => default_modules_loop module_name_of rest found
      end
  end.

Definition get_DEFAULT_CSC_MODULES : M (list string) :=
  default_modules_loop get_csc_module_name ALL_CSC_MODULE_OPTIONS [].

Definition get_DEFAULT_VIDEO_DECODERS : M (list string) :=
  default_modules_loop get_decoder_module_name ALL_VIDEO_DECODER_OPTIONS [].

(** [for x in xs: acc = body(x, acc)]: a loop that updates a local value. *)
Fixpoint fold_m {A S} (xs : list A) (acc : S) (body : A -> S -> M S) : M S :=
  match xs with
  | [] => ret acc
  | x :: r => acc' ← body x acc; fold_m r acc' body
  end.

(** ** class VideoHelper *)

(** [x or {}] for an optional constructor argument. *)
Definition or_new_dict (x : option loc) : M loc :=
  match x with
  | None => alloc (ODict [])
  | Some l => o ← load l; if truthy o then ret l else alloc (ODict [])
  end.

(** [VideoHelper.__init__(vencspecs, cscspecs, vdecspecs, init)] *)
Definition new_VideoHelper (vencspecs cscspecs vdecspecs : option loc)
  (init : bool) : M VideoHelper :=
  ves ← or_new_dict vencspecs;
  ces ← or_new_dict cscspecs;
  vds ← or_new_dict vdecspecs;
  ret (mkVideoHelper ves ces vds [] [] [] [] init).

(** The local function [filt] of [set_modules]. *)
Definition filt (name : string) (inlist all_list : list string) : M (list string) :=
  let exclist :=
    map str_tail (List.filter (fun x => nonempty x && startswith x "-") inlist) in
  let inclist :=
    List.filter (fun x => nonempty x && negb (startswith x "-")) inlist in
  inclist ←
    (if str_in "all" inclist then ret all_list
     else
       let notfound :=
         List.filter (fun x => nonempty x && negb (str_in x all_list))
                     (exclist ++ inclist) in
       match notfound with
       | [] => ret tt
       | _ :: _ => log_warn "Warning: ignoring unknown %s: %s" [AStr name; ACsv notfound]
       end ;;
       ret inclist);
  ret (List.filter (fun x => negb (str_in x exclist)) inclist).

(** Assignment of the three enabled-module lists. *)
Definition set_enabled (ve cm vd : list string) (self : VideoHelper) : VideoHelper :=
  mkVideoHelper (_video_encoder_specs self) (_csc_encoder_specs self)
    (_video_decoder_specs self) ve cm vd
    (_cleanup_modules self) (_initialized self).

Definition set_modules (self : VideoHelper)
  (video_encoders' csc_modules' video_decoders' : list string) : M VideoHelper :=
  assert_ (negb (_initialized self))
    "too late to set modules, the helper is already initialized!" ;;
  ve ← filt "video encoders" video_encoders' ALL_VIDEO_ENCODER_OPTIONS;
  cm ← filt "csc modules" csc_modules' ALL_CSC_MODULE_OPTIONS;
  vd ← filt "video decoders" video_decoders' ALL_VIDEO_DECODER_OPTIONS;
  ret (set_enabled ve cm vd self).

(** [module.cleanup_module()]: the call is recorded, then it returns or
    raises. *)
Definition teardown (module : Codec.module) : M unit :=
  fun w => (Codec.cleanup_module module,
            mkWorld (heap w) (codecs w) (log w) (teardowns w ++ [module])).

Definition cleanup (self : VideoHelper) : M VideoHelper :=
  if negb (_initialized self) then ret self
  else
    let cmods := _cleanup_modules self in
    for_each cmods (fun module =>
      try_except (teardown module)
        (fun _ => log_error "Error cleaning up %s" [AModule module])) ;;
    ves ← alloc (ODict []);
    ces ← alloc (ODict []);
    vds ← alloc (ODict []);
    ret (mkVideoHelper ves ces vds [] [] [] [] false).

Definition get_encodings (self : VideoHelper) : M (list string) :=
  dict_keys (_video_encoder_specs self).

Definition get_decodings (self : VideoHelper) : M (list string) :=
  dict_keys (_video_decoder_specs self).

Definition get_csc_inputs (self : VideoHelper) : M (list string) :=
  dict_keys (_csc_encoder_specs self).

Definition get_encoder_specs (self : VideoHelper) (encoding : string) : M loc :=
  dict_get_default (_video_encoder_specs self) encoding.

Definition get_csc_specs (self : VideoHelper) (src_format : string) : M loc :=
  dict_get_default (_csc_encoder_specs self) src_format.

Definition get_decoder_specs (self : VideoHelper) (encoding : string) : M loc :=
  dict_get_default (_video_decoder_specs self) encoding.

(** [table.setdefault(k1, {}).setdefault(k2, []).append(v)] *)
Definition table_add (table : loc) (k1 k2 : string) (v : leaf) : M unit :=
  d ← dict_setdefault table k1 (ODict []);
  l ← dict_setdefault d k2 (OList []);
  list_append l v.

Definition add_encoder_spec (self : VideoHelper) (encoding colorspace : string)
  (spec : Spec) : M unit :=
  table_add (_video_encoder_specs self) encoding colorspace (LSpec spec).

Definition add_csc_spec (self : VideoHelper) (in_csc out_csc : string)
  (spec : Spec) : M unit :=
  table_add (_csc_encoder_specs self) in_csc out_csc (LSpec spec).

Definition add_decoder (self : VideoHelper) (encoding colorspace : string)
  (decoder_name : string) (decoder_module : Codec.module) : M unit :=
  table_add (_video_decoder_specs self) encoding colorspace
    (LDecoder decoder_name decoder_module).

Definition init_video_encoder_option (self : VideoHelper) (encoder_name : string)
  : M unit :=
  encoder_module ← get_codec encoder_name;
  match encoder_module with
  | None => ret tt
  | Some encoder_module =>
      encoder_type ← call (Codec.get_type encoder_module);
      encodings ← call (Codec.get_encodings encoder_module);
      for_each encodings (fun encoding =>
        colorspaces ← call (Codec.get_input_colorspaces encoder_module encoding);
        for_each colorspaces (fun colorspace =>
          spec ← call (Codec.get_spec encoder_module encoding colorspace);
          add_encoder_spec self encoding colorspace spec))
  end.

Definition init_video_encoders_options (self : VideoHelper) : M unit :=
  for_each (video_encoders self) (fun x =>
    try_except
      (let mod_ := get_encoder_module_name x in
       load_codec mod_ ;;
       try_except (init_video_encoder_option self mod_)
         (fun e =>
            log_warn "Warning: cannot load %s video encoder:" [AStr mod_] ;;
            log_warn " %s" [AExn e]))
      (fun e => log_warn "Warning: cannot add %s encoder: %s" [AStr x; AExn e])).

Definition init_csc_option (self : VideoHelper) (csc_name : string) : M unit :=
  csc_module ← get_codec csc_name;
  match csc_module with
  | None => ret tt
  | Some csc_module =>
      in_cscs ← call (Codec.get_input_colorspaces0 csc_module);
      for_each in_cscs (fun in_csc =>
        out_cscs ← call (Codec.get_output_colorspaces csc_module in_csc);
        call (Codec.get_type csc_module) ;;
        for_each out_cscs (fun out_csc =>
          spec ← call (Codec.get_spec csc_module in_csc out_csc);
          add_csc_spec self in_csc out_csc spec))
  end.

(** [spec.codec_type]; a decoder entry is a tuple and has no such
    attribute. *)
Definition leaf_codec_type (v : leaf) : M string :=
  match v with
  | LSpec spec => ret (codec_type spec)
  | LDecoder _ _ => raise AttributeError
  end.

(** [[spec.codec_type for spec in specs]] *)
Fixpoint codec_types (specs : list leaf) : M (list string) :=
  match specs with
  | [] => ret []
  | spec :: r => t ← leaf_codec_type spec; ts ← codec_types r; ret (t :: ts)
  end.

(** [sorted(spec.codec_type for spec in specs)].  Iterating a dictionary
    gives its keys, and a string has no [codec_type]. *)
Definition sorted_codec_types (specs : loc) : M (list string) :=
  o ← load specs;
  match o with
  | OList elems => ts ← codec_types elems; ret (sorted ts)
  | ODict [] => ret []
  | ODict (_ :: _) => raise AttributeError
  end.

(** The loops at the end of [init_csc_options].  They only feed the debug
    logger, but the arguments of its calls are evaluated whether or not
    the message is printed, and no [try] is around them:
    [sorted(self._csc_encoder_specs.items())], [len(d)],
    [sorted(d.items())] and [sorted(spec.codec_type for spec in specs)]. *)
Definition log_csc_options (self : VideoHelper) : M unit :=
  items ← dict_items (_csc_encoder_specs self);
  for_each (sorted_items items) (fun '(src_format, d) =>
    ditems ← dict_items d;
    for_each (sorted_items ditems) (fun '(dst_format, specs) =>
      sorted_codec_types specs ;; ret tt)).

Definition init_csc_options (self : VideoHelper) : M unit :=
  for_each (csc_modules self) (fun x =>
    try_except
      (let mod_ := get_csc_module_name x in
       load_codec mod_ ;;
       init_csc_option self mod_)
      (fun _ => log_warn "init_csc_options() cannot add %s csc" [AStr x])) ;;
  log_csc_options self.

Definition init_video_decoder_option (self : VideoHelper) (decoder_name : string)
  : M unit :=
  decoder_module ← get_codec decoder_name;
  match decoder_module with
  | None => ret tt
  | Some decoder_module =>
      decoder_type ← call (Codec.get_type decoder_module);
      encodings ← call (Codec.get_encodings decoder_module);
      for_each encodings (fun encoding =>
        colorspaces ← call (Codec.get_input_colorspaces decoder_module encoding);
        for_each colorspaces (fun colorspace =>
          output_colorspace ←
            call (Codec.get_output_colorspace decoder_module encoding colorspace);
          try_except
            (has_decoder ← call (Codec.Decoder decoder_module);
             assert_ has_decoder "" ;;
             add_decoder self encoding colorspace decoder_name decoder_module)
            (fun e =>
               log_warn "failed to add decoder %s: %s"
                 [AModule decoder_module; AExn e])))
  end.

Definition init_video_decoders_options (self : VideoHelper) : M unit :=
  for_each (video_decoders self) (fun x =>
    try_except
      (let mod_ := get_decoder_module_name x in
       load_codec mod_ ;;
       init_video_decoder_option self mod_)
      (fun _ => log_warn "Warning: cannot add %s decoder" [AStr x])).

Definition set_initialized (b : bool) (self : VideoHelper) : VideoHelper :=
  mkVideoHelper (_video_encoder_specs self) (_csc_encoder_specs self)
    (_video_decoder_specs self) (video_encoders self) (csc_modules self)
    (video_decoders self) (_cleanup_modules self) b.

Definition init (self : VideoHelper) : M VideoHelper :=
  if _initialized self then ret self
  else
    init_video_encoders_options self ;;
    init_csc_options self ;;
    init_video_decoders_options self ;;
    ret (set_initialized true self).

(** The local function [deepish_clone_dict] of [clone]. *)
Definition deepish_clone_dict (indict : loc) : M loc :=
  outd ← alloc (ODict []);
  items ← dict_items indict;
  for_each items (fun '(enc, d) =>
    ditems ← dict_items d;
    for_each ditems (fun '(ifmt, l) =>
      vs ← list_elems l;
      for_each vs (fun v =>
        table_add outd enc ifmt v))) ;;
  ret outd.

(** [clone] returns the new registry; [self] may have been initialized on
    the way, so the updated [self] is returned with it. *)
Definition clone (self : VideoHelper) : M (VideoHelper * VideoHelper) :=
  self ← (if negb (_initialized self) then init self else ret self);
  ves ← deepish_clone_dict (_video_encoder_specs self);
  ces ← deepish_clone_dict (_csc_encoder_specs self);
  vds ← deepish_clone_dict (_video_decoder_specs self);
  c ← new_VideoHelper (Some ves) (Some ces) (Some vds) true;
  ret (self, c).

(** *** Negotiation

    The result [full_csc_modes] is a dictionary built and returned by the
    call, reachable from nowhere else while it is built: it is a value. *)

(** [encoding_colorspaces = full_csc_modes.setdefault(encoding, [])] then
    [if colorspace not in encoding_colorspaces:
       encoding_colorspaces.append(colorspace)] *)
Fixpoint assoc_set {V} (k : string) (v : V) (d : list (string * V)) :=
  match d with
  | [] => []
  | (k', v') :: r => if (k =? k')%string then (k', v) :: r
                     else (k', v') :: assoc_set k v r
  end.

Definition record_colorspace (full_csc_modes : list (string * list string))
  (encoding colorspace : string) : list (string * list string) :=
  match assoc encoding full_csc_modes with
  | None => full_csc_modes ++ [(encoding, [colorspace])]
  | Some encoding_colorspaces =>
      if str_in colorspace encoding_colorspaces then full_csc_modes
      else assoc_set encoding (encoding_colorspaces ++ [colorspace]) full_csc_modes
  end.

Definition get_server_full_csc_modes (self : VideoHelper)
  (client_supported_csc_modes : list string) : M (list (string * list string)) :=
  items ← dict_items (_video_decoder_specs self);
  fold_m items [] (fun '(encoding, encoding_specs) full_csc_modes =>
    inner ← dict_items encoding_specs;
    fold_m (sorted_items inner) full_csc_modes
      (fun '(colorspace, decoder_specs) full_csc_modes =>
         entries ← list_elems decoder_specs;
         fold_m entries full_csc_modes (fun entry full_csc_modes =>
           match entry with
           | LDecoder decoder_name decoder_module =>
               output_colorspace ←
                 call (Codec.get_output_colorspace decoder_module encoding colorspace);
               if str_in output_colorspace client_supported_csc_modes
               then ret (record_colorspace full_csc_modes encoding colorspace)
               else ret full_csc_modes
           | LSpec _ => raise TypeError
           end))).

(** The inner loop of [get_server_full_csc_modes_for_rgb], which leaves at
    the first match ([break]); [true] when [src_format] is appended. *)
Fixpoint csc_reaches (target_rgb_modes : list string)
  (specs : list (string * loc)) : M bool :=
  match specs with
  | [] => ret false
  | (dst_format, csc_specs) :: rest =>
      if str_in dst_format target_rgb_modes then
        o ← load csc_specs;
        if truthy o then ret true else csc_reaches target_rgb_modes rest
      else csc_reaches target_rgb_modes rest
  end.

(** The list [supported_csc_modes] before it is sorted. *)
Definition rgb_supported_csc_modes (self : VideoHelper)
  (target_rgb_modes : list string) : M (list string) :=
  items ← dict_items (_csc_encoder_specs self);
  fold_m items target_rgb_modes (fun '(src_format, specs) supported_csc_modes =>
    sitems ← dict_items specs;
    found ← csc_reaches target_rgb_modes sitems;
    ret (if (found : bool) then supported_csc_modes ++ [src_format]
         else supported_csc_modes)).

Definition get_server_full_csc_modes_for_rgb (self : VideoHelper)
  (target_rgb_modes : list string) : M (list (string * list string)) :=
  supported_csc_modes ← rgb_supported_csc_modes self target_rgb_modes;
  get_server_full_csc_modes self (sorted supported_csc_modes).

(** *** get_info

    The report and its sub-dictionaries are built and returned by the call:
    they are values.  [einfo], [dinfo] and [cinfo] are the dictionaries
    stored in [d] under "encoding", "decoding" and "csc". *)

(** [decoder[0]]; a spec cannot be indexed. *)
Definition leaf_decoder_name (v : leaf) : M string :=
  match v with
  | LDecoder decoder_name _ => ret decoder_name
  | LSpec _ => raise TypeError
  end.

(** [d[k] = v] *)
Definition assoc_put {V} (k : string) (v : V) (d : list (string * V)) :=
  match assoc k d with
  | Some _ => assoc_set k v d
  | None => d ++ [(k, v)]
  end.

(** [d.setdefault(k, []).append(v)] *)
Definition info_setdefault_append (d : list (string * info)) (k v : string)
  : M (list (string * info)) :=
  match assoc k d with
  | None => ret (d ++ [(k, IList [v])])
  | Some (IList l) => ret (assoc_set k (IList (l ++ [v])) d)
  | Some _ => raise AttributeError
  end.

(** [target[k] = v] *)
Definition info_setitem (target : info) (k : string) (v : info) : M info :=
  match target with
  | IDict d => ret (IDict (assoc_put k v d))
  | _ => raise TypeError
  end.

(** ["%s_to_%s" % (a, b)] *)
Definition fmt_to (a b : string) : string := a +:+ "_to_" +:+ b.

Definition modstatus (x : string) (def_list active_list : list string) : string :=
  if str_in x active_list then "active"
  else if str_in x def_list then "disabled"
  else "not found".

Definition get_info (self : VideoHelper) : M info :=
  eitems ← dict_items (_video_encoder_specs self);
  einfo ← fold_m eitems [] (fun '(encoding, encoder_specs) einfo =>
    inner ← dict_items encoder_specs;
    fold_m inner einfo (fun '(in_csc, specs) einfo =>
      elems ← list_elems specs;
      fold_m elems einfo (fun spec einfo =>
        t ← leaf_codec_type spec;
        info_setdefault_append einfo (fmt_to in_csc encoding) t)));
  citems ← dict_items (_csc_encoder_specs self);
  cinfo ← fold_m citems [] (fun '(in_csc, out_specs) cinfo =>
    inner ← dict_items out_specs;
    fold_m inner cinfo (fun '(out_csc, specs) cinfo =>
      elems ← list_elems specs;
      ts ← codec_types elems;
      ret (assoc_put (fmt_to in_csc out_csc) (IList ts) cinfo)));
  ditems ← dict_items (_video_decoder_specs self);
  dinfo ← fold_m ditems [] (fun '(encoding, decoder_specs) dinfo =>
    inner ← dict_items decoder_specs;
    fold_m inner dinfo (fun '(out_csc, decoders) dinfo =>
      elems ← list_elems decoders;
      fold_m elems dinfo (fun decoder dinfo =>
        decoder_name ← leaf_decoder_name decoder;
        info_setdefault_append dinfo (fmt_to encoding out_csc) decoder_name)));
  let venc := default (IDict []) (assoc "video-encoder" einfo) in
  let einfo := match assoc "video-encoder" einfo with
               | Some _ => einfo
               | None => einfo ++ [("video-encoder", venc)]
               end in
  venc ← fold_m ALL_VIDEO_ENCODER_OPTIONS venc (fun x venc =>
    def_list ← get_DEFAULT_VIDEO_ENCODERS;
    info_setitem venc x (IStr (modstatus x def_list (video_encoders self))));
  let einfo := assoc_set "video-encoder" venc einfo in
  let cscm := default (IDict []) (assoc "csc-module" einfo) in
  let einfo := match assoc "csc-module" einfo with
               | Some _ => einfo
               | None => einfo ++ [("csc-module", cscm)]
               end in
  cscm ← fold_m ALL_CSC_MODULE_OPTIONS cscm (fun x cscm =>
    def_list ← get_DEFAULT_CSC_MODULES;
    info_setitem cscm x (IStr (modstatus x def_list (csc_modules self))));
  let einfo := assoc_set "csc-module" cscm einfo in
  ret (IDict [("encoding", IDict einfo); ("decoding", IDict dinfo);
              ("csc", IDict cinfo)]).

(** * Properties *)

(** ** Strings and association lists *)

Lemma str_in_true (x : string) (l : list string) : str_in x l = true <-> In x l.
Proof.
  unfold str_in. rewrite existsb_exists. split.
  - intros (y & Hy & E). apply String.eqb_eq in E. now subst.
  - intros H. exists x. split; [done | apply String.eqb_refl].
Qed.

Lemma str_in_false (x : string) (l : list string) : str_in x l = false <-> ~ In x l.
Proof.
  rewrite <- str_in_true. destruct (str_in x l); split; congruence.
Qed.

Lemma str_in_app (x : string) (l1 l2 : list string) :
  str_in x (l1 ++ l2) = str_in x l1 || str_in x l2.
Proof. unfold str_in. apply existsb_app. Qed.

Lemma startswith_dash (x : string) : startswith ("-" +:+ x) "-" = true.
Proof. unfold startswith. simpl. now destruct x. Qed.

(** ** A program logic for [M]

    [hoare P m Q E]: from a world in [P], [m] ends in [Q] when it returns
    and in [E] when it raises. *)

Definition hoare {A} (P : World -> Prop) (m : M A)
  (Q : A -> World -> Prop) (E : exn -> World -> Prop) : Prop :=
  forall w, P w ->
    match m w with
    | (Ok a, w') => Q a w'
    | (Raise e, w') => E e w'
    end.

Lemma hoare_conseq {A} (P P' : World -> Prop) (m : M A) Q Q' E E' :
  hoare P' m Q' E' ->
  (forall w, P w -> P' w) ->
  (forall a w, Q' a w -> Q a w) ->
  (forall e w, E' e w -> E e w) ->
  hoare P m Q E.
Proof.
  intros H HP HQ HE w Hw. specialize (H w (HP w Hw)).
  destruct (m w) as [[a|e] w']; auto.
Qed.

Lemma hoare_ret {A} (P : World -> Prop) (a : A) Q E :
  (forall w, P w -> Q a w) -> hoare P (ret a) Q E.
Proof. intros H w Hw. simpl. auto. Qed.

Lemma hoare_raise {A} (P : World -> Prop) (e : exn) (Q : A -> World -> Prop) E :
  (forall w, P w -> E e w) -> hoare P (raise e) Q E.
Proof. intros H w Hw. simpl. auto. Qed.

Lemma hoare_bind {A B} (P : World -> Prop) (m : M A) (k : A -> M B) R Q E :
  hoare P m R E ->
  (forall a, hoare (R a) (k a) Q E) ->
  hoare P (m ≫= k) Q E.
Proof.
  intros Hm Hk w Hw. specialize (Hm w Hw).
  unfold mbind, M_bind, bind.
  destruct (m w) as [[a|e] w']; [apply (Hk a w' Hm) | exact Hm].
Qed.

Lemma hoare_try_except {A} (P : World -> Prop) (body : M A) handler Q E E' :
  hoare P body Q E' ->
  (forall e, hoare (E' e) (handler e) Q E) ->
  hoare P (try_except body handler) Q E.
Proof.
  intros Hb Hh w Hw. specialize (Hb w Hw). unfold try_except.
  destruct (body w) as [[a|e] w']; [exact Hb | apply (Hh e w' Hb)].
Qed.

Lemma hoare_for_each {A} (I : World -> Prop) (xs : list A) body E :
  (forall x, In x xs -> hoare I (body x) (fun _ => I) E) ->
  hoare I (for_each xs body) (fun _ => I) E.
Proof.
  induction xs as [|x r IH]; intros Hb.
  - apply hoare_ret. auto.
  - simpl. eapply hoare_bind.
    + apply Hb. now left.
    + intros u. apply IH. intros y Hy. apply Hb. now right.
Qed.

Lemma hoare_call {A} (P : World -> Prop) (r : Res A) Q E :
  (forall w, P w -> match r with Ok a => Q a w | Raise e => E e w end) ->
  hoare P (call r) Q E.
Proof. intros H w Hw. unfold call. specialize (H w Hw). now destruct r. Qed.

(** A computation that leaves a property of the store alone, whether it
    returns or raises. *)
Definition keeps {A} (I : list obj -> Prop) (m : M A) : Prop :=
  hoare (fun w => I (heap w)) m (fun _ w => I (heap w)) (fun _ w => I (heap w)).

(** A computation that always returns. *)
Definition returns {A} (m : M A) : Prop :=
  hoare (fun _ => True) m (fun _ _ => True) (fun _ _ => False).

(** ** set_modules *)

(** The names an input list excludes and includes, as [filt] splits it. *)
Definition excluded (inlist : list string) : list string :=
  map str_tail (List.filter (fun x => nonempty x && startswith x "-") inlist).

Definition included (inlist : list string) : list string :=
  List.filter (fun x => nonempty x && negb (startswith x "-")) inlist.

(** [l] without the name [X]. *)
Definition without (X : string) (l : list string) : list string :=
  List.filter (fun x => negb (x =? X)%string) l.

Lemma filt_all (name : string) (inlist all_list : list string) (w : World) :
  str_in "all" (included inlist) = true ->
  filt name inlist all_list w =
    (Ok (List.filter (fun x => negb (str_in x (excluded inlist))) all_list), w).
Proof.
  intros H. unfold filt. fold (excluded inlist). fold (included inlist).
  rewrite H. reflexivity.
Qed.

Lemma filter_all_true {A} (f : A -> bool) (l : list A) :
  (forall x, f x = true) -> List.filter f l = l.
Proof.
  intros H. induction l as [|x r IH]; simpl; [done|]. now rewrite H, IH.
Qed.

Lemma filt_only_all (name : string) (all_list : list string) (w : World) :
  filt name ["all"] all_list w = (Ok all_list, w).
Proof.
  rewrite filt_all by reflexivity. simpl.
  f_equal. f_equal. now apply filter_all_true.
Qed.

Lemma filt_all_minus (name X : string) (all_list : list string) (w : World) :
  filt name ["all"; "-" +:+ X] all_list w = (Ok (without X all_list), w) /\
  filt name ["-" +:+ X; "all"] all_list w = (Ok (without X all_list), w).
Proof.
  assert (E : forall x, negb (str_in x [X]) = negb (x =? X)%string).
  { intros x. unfold str_in. simpl. now rewrite orb_false_r. }
  split; (rewrite filt_all;
    [ unfold excluded, without; simpl; destruct X; simpl;
      f_equal; f_equal; apply filter_ext; exact E
    | unfold included; simpl; now destruct X ]).
Qed.

(** C5. In [set_modules] the token "all" stands for the whole catalog of
    its table, and exclusions apply after this expansion: on a registry not
    yet initialized, the selection {"all"} enables the full catalog of each
    table, and the selection {"all", "-X"}, in either order, enables the
    full catalog without [X]. *)
Theorem set_modules_all_then_exclusions (self : VideoHelper) (w : World)
  (Xe Xc Xd : string) :
  _initialized self = false ->
  set_modules self ["all"] ["all"] ["all"] w =
    (Ok (set_enabled ALL_VIDEO_ENCODER_OPTIONS ALL_CSC_MODULE_OPTIONS
           ALL_VIDEO_DECODER_OPTIONS self), w) /\
  set_modules self ["all"; "-" +:+ Xe] ["all"; "-" +:+ Xc] ["all"; "-" +:+ Xd] w =
    (Ok (set_enabled (without Xe ALL_VIDEO_ENCODER_OPTIONS)
           (without Xc ALL_CSC_MODULE_OPTIONS)
           (without Xd ALL_VIDEO_DECODER_OPTIONS) self), w) /\
  set_modules self ["-" +:+ Xe; "all"] ["-" +:+ Xc; "all"] ["-" +:+ Xd; "all"] w =
    (Ok (set_enabled (without Xe ALL_VIDEO_ENCODER_OPTIONS)
           (without Xc ALL_CSC_MODULE_OPTIONS)
           (without Xd ALL_VIDEO_DECODER_OPTIONS) self), w).
Proof.
  intros Hinit. unfold set_modules, mbind, M_bind, bind, assert_.
  rewrite Hinit. cbn [negb ret].
  repeat split.
  - now rewrite !filt_only_all.
  - now rewrite !(proj1 (filt_all_minus _ _ _ _)).
  - now rewrite !(proj2 (filt_all_minus _ _ _ _)).
Qed.

(** ** init *)

(** C6. [init] on a registry that is already initialized returns at once:
    the registry object, the three tables and every other part of the world
    are as before. *)
Theorem init_idempotent (self : VideoHelper) (w : World) :
  _initialized self = true ->
  init self w = (Ok self, w).
Proof. intros H. unfold init. now rewrite H. Qed.

(** ** cleanup *)

(** The errors logged by the teardown loop: one for each module of the
    cleanup list whose [cleanup_module] raises. *)
Definition teardown_errors (cmods : list Codec.module) : list log_record :=
  flat_map (fun module =>
              match Codec.cleanup_module module with
              | Ok _ => []
              | Raise _ => [Error "Error cleaning up %s" [AModule module]]
              end) cmods.

Lemma teardown_loop (cmods : list Codec.module) (w : World) :
  for_each cmods (fun module =>
    try_except (teardown module)
      (fun _ => log_error "Error cleaning up %s" [AModule module])) w =
  (Ok tt, mkWorld (heap w) (codecs w) (log w ++ teardown_errors cmods)
            (teardowns w ++ cmods)).
Proof.
  revert w. induction cmods as [|m r IH]; intros w.
  - simpl. unfold ret. destruct w; simpl. now rewrite !app_nil_r.
  - cbn [for_each]. unfold mbind, M_bind, bind, try_except, teardown.
    destruct (Codec.cleanup_module m) as [[]|e] eqn:Em.
    + rewrite IH. cbn. unfold teardown_errors. cbn. rewrite Em. cbn.
      now rewrite <- !app_assoc.
    + unfold log_error. rewrite IH. cbn. unfold teardown_errors. cbn.
      rewrite Em. cbn. now rewrite <- !app_assoc.
Qed.

(** The state [cleanup] leaves: empty tables, empty lists, not initialized. *)
Definition cleared (h : list obj) (self : VideoHelper) : Prop :=
  h !! _video_encoder_specs self = Some (ODict []) /\
  h !! _csc_encoder_specs self = Some (ODict []) /\
  h !! _video_decoder_specs self = Some (ODict []) /\
  video_encoders self = [] /\ csc_modules self = [] /\ video_decoders self = [] /\
  _cleanup_modules self = [] /\
  _initialized self = false.

Lemma lookup_snoc_new (h : list obj) (o : obj) : (h ++ [o]) !! length h = Some o.
Proof. now rewrite list_lookup_middle. Qed.

Lemma lookup_snoc_old (h : list obj) (o : obj) (l : nat) :
  l < length h -> (h ++ [o]) !! l = h !! l.
Proof. intros H. now apply lookup_app_l. Qed.

(** [cleanup] on an initialized registry calls [cleanup_module] of every
    module of the cleanup list [_cleanup_modules], in order and whether or
    not an earlier one raised (a failure is logged and the loop goes on);
    it then leaves the three tables empty, the three enabled-module lists
    empty and the registry not initialized, so that a second [cleanup]
    changes nothing.  On a registry that is not initialized [cleanup]
    changes nothing. *)
Theorem cleanup_tears_down_and_clears (self : VideoHelper) (w : World) :
  if _initialized self then
    exists self' w',
      cleanup self w = (Ok self', w') /\
      teardowns w' = teardowns w ++ _cleanup_modules self /\
      log w' = log w ++ teardown_errors (_cleanup_modules self) /\
      cleared (heap w') self' /\
      cleanup self' w' = (Ok self', w')
  else cleanup self w = (Ok self, w).
Proof.
  destruct (_initialized self) eqn:Hi; unfold cleanup; rewrite Hi; [|done].
  cbn [negb]. unfold mbind, M_bind, bind. rewrite teardown_loop.
  cbn. eexists _, _. split; [reflexivity|]. cbn.
  repeat split.
  - do 2 (rewrite lookup_snoc_old by (rewrite ?length_app; simpl; lia)).
    apply lookup_snoc_new.
  - rewrite lookup_snoc_old by (rewrite ?length_app; simpl; lia).
    apply lookup_snoc_new.
  - apply lookup_snoc_new.
Qed.

(** The cleanup list itself is set by the constructor and emptied by
    [cleanup]; [init] loads modules and fills the tables, and returns the
    registry with the cleanup list it was given. *)
Lemma init_keeps_cleanup_list (self s : VideoHelper) (w w' : World) :
  init self w = (Ok s, w') -> _cleanup_modules s = _cleanup_modules self.
Proof.
  unfold init. destruct (_initialized self).
  - now intros [= <- _].
  - unfold mbind, M_bind, bind.
    destruct (init_video_encoders_options self w) as [[u1|e1] w1];
      [|discriminate].
    destruct (init_csc_options self w1) as [[u2|e2] w2]; [|discriminate].
    destruct (init_video_decoders_options self w2) as [[u3|e3] w3];
      [|discriminate].
    now intros [= <- _].
Qed.

(** ** Reading a table out of the store *)

(** The content of a table: its keys and leaves, without the locations. *)
Definition inner_content : Type := list (string * list leaf).
Definition table_content : Type := list (string * inner_content).

Definition read_list (h : list obj) (l : loc) : option (list leaf) :=
  match h !! l with
  | Some (OList elems) => Some elems
  | _ => None
  end.

Definition read_dict (h : list obj) (d : loc) : option (list (string * loc)) :=
  match h !! d with
  | Some (ODict items) => Some items
  | _ => None
  end.

Fixpoint read_all {A B} (f : A -> option B) (items : list (string * A))
  : option (list (string * B)) :=
  match items with
  | [] => Some []
  | (k, a) :: r =>
      match f a, read_all f r with
      | Some b, Some r' => Some ((k, b) :: r')
      | _, _ => None
      end
  end.

Definition read_inner (h : list obj) (d : loc) : option inner_content :=
  match read_dict h d with
  | Some items => read_all (read_list h) items
  | None => None
  end.

Definition read_table (h : list obj) (t : loc) : option table_content :=
  match read_dict h t with
  | Some items => read_all (read_inner h) items
  | None => None
  end.

(** No key occurs twice, in the outer and in every inner dictionary. *)
Fixpoint nodupb (l : list string) : bool :=
  match l with
  | [] => true
  | x :: r => negb (str_in x r) && nodupb r
  end.

Definition table_wf (T : table_content) : bool :=
  nodupb (map fst T) && forallb (fun kv => nodupb (map fst (snd kv))) T.

Lemma nodupb_NoDup (l : list string) : nodupb l = true <-> List.NoDup l.
Proof.
  induction l as [|x r IH]; simpl.
  - split; [constructor | done].
  - rewrite andb_true_iff, negb_true_iff, str_in_false, IH.
    split; [intros [? ?]; now constructor | now inversion 1].
Qed.

Lemma dict_items_read (d : loc) (w : World) items :
  read_dict (heap w) d = Some items -> dict_items d w = (Ok items, w).
Proof.
  unfold read_dict, dict_items, mbind, M_bind, bind, load.
  destruct (heap w !! d) as [[?|?]|]; intros [= <-] || intros [=]; reflexivity.
Qed.

Lemma list_elems_read (l : loc) (w : World) elems :
  read_list (heap w) l = Some elems -> list_elems l w = (Ok elems, w).
Proof.
  unfold read_list, list_elems, mbind, M_bind, bind, load.
  destruct (heap w !! l) as [[?|?]|]; intros [= <-] || intros [=]; reflexivity.
Qed.

Lemma read_all_cons {A B} (f : A -> option B) k a r T :
  read_all f ((k, a) :: r) = Some T ->
  exists b T', f a = Some b /\ read_all f r = Some T' /\ T = (k, b) :: T'.
Proof.
  simpl. destruct (f a) as [b|]; [|done].
  destruct (read_all f r) as [T'|]; [|done].
  intros [= <-]. eauto.
Qed.

Lemma read_all_keys {A B} (f : A -> option B) items T :
  read_all f items = Some T -> map fst T = map fst items.
Proof.
  revert T. induction items as [|[k a] r IH]; intros T.
  - now intros [= <-].
  - intros (b & T' & _ & Hr & ->)%read_all_cons. simpl. f_equal. auto.
Qed.

Lemma read_all_insert_item {A B} (f : A -> option B) k a b items T :
  f a = Some b -> read_all f items = Some T ->
  read_all f (insert_item (k, a) items) = Some (insert_item (k, b) T).
Proof.
  intros Ha. revert T. induction items as [|[k' a'] r IH]; intros T.
  - intros [= <-]. simpl. now rewrite Ha.
  - intros (b' & T' & Hb' & Hr & ->)%read_all_cons. simpl.
    destruct (String.ltb k k').
    + simpl. now rewrite Ha, Hb', Hr.
    + simpl. now rewrite Hb', (IH _ Hr).
Qed.

Lemma read_all_sorted_items {A B} (f : A -> option B) items T :
  read_all f items = Some T ->
  read_all f (sorted_items items) = Some (sorted_items T).
Proof.
  revert T. induction items as [|[k a] r IH]; intros T.
  - now intros [= <-].
  - intros (b & T' & Hb & Hr & ->)%read_all_cons. simpl.
    now apply read_all_insert_item; [|apply IH].
Qed.

(** Loops whose steps do not touch the world. *)
Lemma fold_m_pure {A S} (xs : list A) (acc : S) body (g : S -> A -> S) (w : World) :
  (forall x a, In x xs -> body x a w = (Ok (g a x), w)) ->
  fold_m xs acc body w = (Ok (fold_left g xs acc), w).
Proof.
  revert acc. induction xs as [|x r IH]; intros acc Hb; [done|].
  cbn [fold_m fold_left]. unfold mbind, M_bind, bind.
  rewrite Hb by now left. apply IH. intros y a Hy. apply Hb. now right.
Qed.

Lemma fold_m_read {A B S} (f : A -> option B) (xs : list (string * A))
  (ys : list (string * B)) (acc : S) body (g : S -> string * B -> S) (w : World) :
  read_all f xs = Some ys ->
  (forall k a b s, f a = Some b -> In (k, b) ys ->
     body (k, a) s w = (Ok (g s (k, b)), w)) ->
  fold_m xs acc body w = (Ok (fold_left g ys acc), w).
Proof.
  revert ys acc. induction xs as [|[k a] r IH]; intros ys acc.
  - now intros [= <-] _.
  - intros (b & T' & Hb & Hr & ->)%read_all_cons Hbody.
    cbn [fold_m fold_left]. unfold mbind, M_bind, bind.
    rewrite (Hbody k a b acc Hb) by now left.
    apply IH; [done|]. intros k' a' b' s Hf Hin. apply Hbody; [done | now right].
Qed.

Lemma forallb_insert_item {V} (p : string * V -> bool) x l :
  forallb p (insert_item x l) = p x && forallb p l.
Proof.
  induction l as [|y r IH]; simpl; [done|].
  destruct (String.ltb (fst x) (fst y)); simpl; [done|].
  rewrite IH. now destruct (p x), (p y).
Qed.

Lemma forallb_sorted_items {V} (p : string * V -> bool) l :
  forallb p (sorted_items l) = forallb p l.
Proof.
  induction l as [|x r IH]; simpl; [done|].
  now rewrite forallb_insert_item, IH.
Qed.

(** ** get_server_full_csc_modes *)

(** The output colorspace a decoder entry answers for [(encoding,
    colorspace)]; [None] when the query raises or the leaf is no decoder
    entry. *)
Definition output_of (encoding colorspace : string) (entry : leaf) : option string :=
  match entry with
  | LDecoder _ decoder_module =>
      match Codec.get_output_colorspace decoder_module encoding colorspace with
      | Ok out => Some out
      | Raise _ => None
      end
  | LSpec _ => None
  end.

(** Every leaf of the table is a decoder entry whose query returns. *)
Definition decoders_answer (T : table_content) : bool :=
  forallb (fun kv =>
    forallb (fun kv' =>
      forallb (fun entry => bool_decide (is_Some (output_of (fst kv) (fst kv') entry)))
              (snd kv'))
      (snd kv)) T.

Definition entry_step (modes : list string) (encoding colorspace : string)
  (full_csc_modes : list (string * list string)) (entry : leaf) :=
  match output_of encoding colorspace entry with
  | Some out =>
      if str_in out modes then record_colorspace full_csc_modes encoding colorspace
      else full_csc_modes
  | None => full_csc_modes
  end.

(** The three loops of [get_server_full_csc_modes] over the content of the
    decoder table. *)
Definition full_csc_modes_of (modes : list string) (T : table_content)
  : list (string * list string) :=
  fold_left (fun acc kv =>
    fold_left (fun acc kv' =>
      fold_left (entry_step modes (fst kv) (fst kv')) (snd kv') acc)
      (sorted_items (snd kv)) acc) T [].

Lemma get_server_full_csc_modes_run (self : VideoHelper) (modes : list string)
  (w : World) (T : table_content) :
  read_table (heap w) (_video_decoder_specs self) = Some T ->
  decoders_answer T = true ->
  get_server_full_csc_modes self modes w = (Ok (full_csc_modes_of modes T), w).
Proof.
  unfold read_table. destruct (read_dict _ _) as [items|] eqn:Hd; [|done].
  intros HT Hans. unfold get_server_full_csc_modes, mbind, M_bind, bind.
  rewrite (dict_items_read _ _ _ Hd).
  unfold full_csc_modes_of.
  apply (fold_m_read (read_inner (heap w))); [exact HT|].
  intros e d inner acc Hinner Hin.
  unfold read_inner in Hinner.
  destruct (read_dict _ d) as [ditems|] eqn:Hdd; [|done].
  rewrite (dict_items_read _ _ _ Hdd).
  unfold decoders_answer in Hans. rewrite forallb_forall in Hans.
  specialize (Hans _ Hin). cbn [fst snd] in Hans.
  rewrite <- forallb_sorted_items in Hans. rewrite forallb_forall in Hans.
  cbn [fst snd].
  apply (fold_m_read (read_list (heap w))); [now apply read_all_sorted_items|].
  intros cs l entries acc' Hl Hin'.
  rewrite (list_elems_read _ _ _ Hl).
  specialize (Hans _ Hin'). cbn [fst snd] in Hans. rewrite forallb_forall in Hans.
  cbn [fst snd]. apply fold_m_pure.
  intros entry a Hentry. specialize (Hans _ Hentry).
  apply bool_decide_eq_true in Hans. destruct Hans as [out Hout].
  unfold entry_step. rewrite Hout. unfold output_of in Hout.
  destruct entry as [?|nm m]; [done|].
  unfold call. destruct (Codec.get_output_colorspace m e cs) as [o|]; [|done].
  injection Hout as ->. now destruct (str_in out modes).
Qed.

(** Some entry under [(encoding, colorspace)] outputs a colorspace of
    [modes]. *)
Definition viable (modes : list string) (encoding colorspace : string)
  (entries : list leaf) : bool :=
  existsb (fun entry =>
             match output_of encoding colorspace entry with
             | Some out => str_in out modes
             | None => false
             end) entries.

(** Appending unless already there. *)
Definition add_new (l : list string) (x : string) : list string :=
  if str_in x l then l else l ++ [x].

(** Duplicates dropped, the first occurrence kept in place. *)
Definition dedup_first (l : list string) : list string := fold_left add_new l [].

(** The viable input colorspaces of an encoding, in the order the loop
    visits them. *)
Definition viable_colorspaces (modes : list string) (encoding : string)
  (inner : inner_content) : list string :=
  map fst (List.filter (fun kv => viable modes encoding (fst kv) (snd kv))
             (sorted_items inner)).

Definition opt_entry (encoding : string) (l : list string)
  : list (string * list string) :=
  match l with
  | [] => []
  | _ :: _ => [(encoding, l)]
  end.

(** The mapping the query is to return. *)
Definition expected_csc_modes (modes : list string) (T : table_content)
  : list (string * list string) :=
  flat_map (fun kv =>
    opt_entry (fst kv) (dedup_first (viable_colorspaces modes (fst kv) (snd kv)))) T.

Lemma assoc_app_None {V} (k : string) (d1 d2 : list (string * V)) :
  assoc k d1 = None -> assoc k (d1 ++ d2) = assoc k d2.
Proof.
  induction d1 as [|[k' v] r IH]; simpl; [done|].
  destruct (k =? k')%string; [done | exact IH].
Qed.

Lemma assoc_set_app_None {V} (k : string) (v : V) (d1 d2 : list (string * V)) :
  assoc k d1 = None -> assoc_set k v (d1 ++ d2) = d1 ++ assoc_set k v d2.
Proof.
  induction d1 as [|[k' v'] r IH]; simpl; [done|].
  destruct (k =? k')%string; [done|]. intros H. now rewrite IH.
Qed.

Lemma add_new_not_nil (l : list string) (x : string) : add_new l x <> [].
Proof.
  unfold add_new. destruct (str_in x l) eqn:E.
  - destruct l; [done | done].
  - now destruct l.
Qed.

Lemma add_new_idem (l : list string) (x : string) :
  add_new (add_new l x) x = add_new l x.
Proof.
  unfold add_new at 2. destruct (str_in x l) eqn:E.
  - unfold add_new. now rewrite E.
  - unfold add_new. rewrite str_in_app, E. simpl.
    now rewrite String.eqb_refl.
Qed.

Lemma record_colorspace_entry (acc0 : list (string * list string))
  (e cs : string) (l : list string) :
  assoc e acc0 = None ->
  record_colorspace (acc0 ++ opt_entry e l) e cs = acc0 ++ opt_entry e (add_new l cs).
Proof.
  intros H0. unfold record_colorspace. rewrite (assoc_app_None _ _ _ H0).
  destruct l as [|y l'].
  - simpl. now rewrite app_nil_r.
  - cbn [opt_entry assoc]. rewrite String.eqb_refl.
    destruct (add_new (y :: l') cs) as [|z l2] eqn:E2;
      [now apply add_new_not_nil in E2|].
    rewrite <- E2. unfold add_new in *.
    destruct (str_in cs (y :: l')) eqn:E; [now rewrite E2|].
    rewrite (assoc_set_app_None _ _ _ _ H0). cbn [assoc_set].
    rewrite String.eqb_refl. rewrite E2. simpl. now rewrite <- E2.
Qed.

Lemma entries_loop_entry (modes : list string) (e cs : string)
  (entries : list leaf) acc0 (l : list string) :
  assoc e acc0 = None ->
  fold_left (entry_step modes e cs) entries (acc0 ++ opt_entry e l) =
  acc0 ++ opt_entry e (if viable modes e cs entries then add_new l cs else l).
Proof.
  intros H0. revert l. induction entries as [|entry r IH]; intros l; [done|].
  cbn [fold_left]. unfold viable. cbn [existsb]. fold (viable modes e cs r).
  unfold entry_step at 2.
  destruct (output_of e cs entry) as [out|]; [|apply IH].
  destruct (str_in out modes); [|apply IH].
  rewrite (record_colorspace_entry _ _ _ _ H0), IH. cbn [orb].
  destruct (viable modes e cs r); [now rewrite add_new_idem | done].
Qed.

Lemma colorspaces_loop_entry (modes : list string) (e : string)
  (xs : inner_content) acc0 (l : list string) :
  assoc e acc0 = None ->
  fold_left (fun acc kv' => fold_left (entry_step modes e (fst kv')) (snd kv') acc)
    xs (acc0 ++ opt_entry e l) =
  acc0 ++ opt_entry e
    (fold_left add_new
       (map fst (List.filter (fun kv => viable modes e (fst kv) (snd kv)) xs)) l).
Proof.
  intros H0. revert l. induction xs as [|[cs entries] r IH]; intros l; [done|].
  cbn [fold_left fst snd List.filter].
  rewrite (entries_loop_entry _ _ _ _ _ _ H0), IH.
  now destruct (viable modes e cs entries).
Qed.

Lemma assoc_opt_entry_other (k e : string) (l : list string) :
  k <> e -> assoc k (opt_entry e l) = None.
Proof.
  intros Hne. destruct l; simpl; [done|].
  now apply String.eqb_neq in Hne as ->.
Qed.

Lemma encodings_loop_expected (modes : list string) (T : table_content) acc :
  List.NoDup (map fst T) ->
  (forall k, In k (map fst T) -> assoc k acc = None) ->
  fold_left (fun acc kv =>
    fold_left (fun acc kv' =>
      fold_left (entry_step modes (fst kv) (fst kv')) (snd kv') acc)
      (sorted_items (snd kv)) acc) T acc =
  acc ++ expected_csc_modes modes T.
Proof.
  revert acc. induction T as [|[e inner] r IH]; intros acc Hnd Hacc.
  - simpl. now rewrite app_nil_r.
  - cbn [fold_left fst snd]. inversion Hnd as [|? ? Hnotin Hnd']; subst.
    assert (H0 : assoc e acc = None) by (apply Hacc; now left).
    pose proof (colorspaces_loop_entry modes e (sorted_items inner) acc [] H0) as E.
    cbn [opt_entry] in E. rewrite app_nil_r in E. rewrite E.
    rewrite IH; [| done |].
    + unfold expected_csc_modes. cbn [flat_map fst snd].
      now rewrite <- app_assoc.
    + intros k Hk. rewrite assoc_app_None by (apply Hacc; now right).
      apply assoc_opt_entry_other. intros ->. contradiction.
Qed.

Lemma full_csc_modes_of_expected (modes : list string) (T : table_content) :
  List.NoDup (map fst T) ->
  full_csc_modes_of modes T = expected_csc_modes modes T.
Proof.
  intros Hnd. unfold full_csc_modes_of.
  now rewrite encodings_loop_expected.
Qed.

Lemma insert_item_perm {V} (x : string * V) (l : list (string * V)) :
  Permutation (insert_item x l) (x :: l).
Proof.
  induction l as [|y r IH]; simpl; [done|].
  destruct (String.ltb (fst x) (fst y)); [done|].
  rewrite IH. apply perm_swap.
Qed.

Lemma sorted_items_perm {V} (l : list (string * V)) :
  Permutation (sorted_items l) l.
Proof.
  induction l as [|x r IH]; simpl; [done|].
  rewrite insert_item_perm. now constructor.
Qed.

Lemma insert_sorted_perm (x : string) (l : list string) :
  Permutation (insert_sorted x l) (x :: l).
Proof.
  induction l as [|y r IH]; simpl; [done|].
  destruct (String.ltb x y); [done|].
  rewrite IH. apply perm_swap.
Qed.

Lemma sorted_perm (l : list string) : Permutation (sorted l) l.
Proof.
  induction l as [|x r IH]; simpl; [done|].
  rewrite insert_sorted_perm. now constructor.
Qed.

Lemma assoc_None_keys {V} (k : string) (d : list (string * V)) :
  assoc k d = None <-> ~ In k (map fst d).
Proof.
  induction d as [|[k' v] r IH]; simpl; [tauto|].
  destruct (String.eqb_spec k k') as [->|Hne].
  - split; [done | intros H; exfalso; apply H; now left].
  - rewrite IH. split; [intros H [E|Hin]; [congruence | tauto] | tauto].
Qed.

Lemma assoc_Some_In {V} (k : string) (v : V) (d : list (string * V)) :
  List.NoDup (map fst d) -> (assoc k d = Some v <-> In (k, v) d).
Proof.
  induction d as [|[k' v'] r IH]; simpl; intros Hnd; [split; [done | tauto]|].
  inversion Hnd as [|? ? Hnotin Hnd']; subst.
  destruct (String.eqb_spec k k') as [->|Hne].
  - split; [intros [= ->]; now left|].
    intros [[= ->]|Hin]; [done|].
    exfalso. apply Hnotin. apply (in_map fst) in Hin. exact Hin.
  - rewrite (IH Hnd'). split; [tauto|]. intros [[= -> ->]|Hin]; [done | exact Hin].
Qed.

Lemma fold_add_new_NoDup (l acc : list string) :
  List.NoDup (acc ++ l) -> fold_left add_new l acc = acc ++ l.
Proof.
  revert acc. induction l as [|x r IH]; intros acc Hnd; simpl.
  - now rewrite app_nil_r.
  - assert (Hx : str_in x acc = false).
    { apply str_in_false. intros Hin.
      apply NoDup_remove_2 in Hnd. apply Hnd. apply in_or_app. now left. }
    unfold add_new at 2. rewrite Hx.
    rewrite IH; rewrite <- app_assoc; [done | exact Hnd].
Qed.

Lemma dedup_first_NoDup (l : list string) : List.NoDup l -> dedup_first l = l.
Proof. intros H. unfold dedup_first. now rewrite fold_add_new_NoDup. Qed.

Lemma NoDup_map_fst_filter {V} (p : string * V -> bool) (l : list (string * V)) :
  List.NoDup (map fst l) -> List.NoDup (map fst (List.filter p l)).
Proof.
  induction l as [|x r IH]; simpl; intros Hnd; [constructor|].
  inversion Hnd as [|? ? Hnotin Hnd']; subst.
  destruct (p x); simpl; [|auto]. constructor; [|auto].
  intros Hin. apply Hnotin. apply in_map_iff in Hin as (y & <- & Hy).
  apply filter_In in Hy as [Hy _]. now apply in_map.
Qed.

Lemma viable_colorspaces_NoDup (modes : list string) (e : string)
  (inner : inner_content) :
  List.NoDup (map fst inner) -> List.NoDup (viable_colorspaces modes e inner).
Proof.
  intros Hnd. unfold viable_colorspaces. apply NoDup_map_fst_filter.
  eapply Permutation_NoDup; [|exact Hnd].
  apply Permutation_map, Permutation_sym, sorted_items_perm.
Qed.

Lemma viable_true (modes : list string) (e cs : string) (entries : list leaf) :
  viable modes e cs entries = true <->
  exists decoder_name decoder_module out,
    In (LDecoder decoder_name decoder_module) entries /\
    Codec.get_output_colorspace decoder_module e cs = Ok out /\ In out modes.
Proof.
  unfold viable. rewrite existsb_exists. split.
  - intros ([sp|nm m] & Hin & H); simpl in H; [done|].
    destruct (Codec.get_output_colorspace m e cs) as [out|] eqn:E; [|done].
    apply str_in_true in H. eauto 10.
  - intros (nm & m & out & Hin & E & Hout).
    exists (LDecoder nm m). split; [done|]. simpl. rewrite E.
    now apply str_in_true.
Qed.

Lemma viable_colorspaces_In (modes : list string) (e cs : string)
  (inner : inner_content) :
  In cs (viable_colorspaces modes e inner) <->
  exists entries, In (cs, entries) inner /\ viable modes e cs entries = true.
Proof.
  unfold viable_colorspaces. rewrite in_map_iff. split.
  - intros ([cs' entries] & <- & Hin). apply filter_In in Hin as [Hin Hv].
    exists entries. split; [|exact Hv].
    eapply Permutation_in; [apply sorted_items_perm | exact Hin].
  - intros (entries & Hin & Hv). exists (cs, entries). split; [done|].
    apply filter_In. split; [|exact Hv].
    eapply Permutation_in; [apply Permutation_sym, sorted_items_perm | exact Hin].
Qed.

Lemma expected_csc_modes_keys (modes : list string) (T : table_content) (k : string) :
  In k (map fst (expected_csc_modes modes T)) -> In k (map fst T).
Proof.
  induction T as [|[e inner] r IH]; simpl; [done|].
  unfold expected_csc_modes in *. cbn [flat_map fst snd].
  rewrite map_app, in_app_iff. intros [H|H]; [|right; auto].
  left. destruct (dedup_first _); simpl in H; [done | tauto].
Qed.

Lemma expected_csc_modes_assoc (modes : list string) (T : table_content)
  (e : string) (l : list string) :
  table_wf T = true ->
  assoc e (expected_csc_modes modes T) = Some l <->
  exists inner, In (e, inner) T /\ l = viable_colorspaces modes e inner /\ l <> [].
Proof.
  unfold table_wf. rewrite andb_true_iff, nodupb_NoDup, forallb_forall.
  intros [Hnd Hinner].
  induction T as [|[k inner] r IH]; [simpl; split; [done | intros (? & [] & _)]|].
  inversion Hnd as [|? ? Hnotin Hnd']; subst.
  assert (Hk : List.NoDup (map fst inner)).
  { apply nodupb_NoDup. apply (Hinner (k, inner)). now left. }
  unfold expected_csc_modes. cbn [flat_map fst snd].
  fold (expected_csc_modes modes r).
  rewrite (dedup_first_NoDup _ (viable_colorspaces_NoDup modes k inner Hk)).
  specialize (IH Hnd' (fun x Hx => Hinner x (or_intror Hx))).
  destruct (String.eqb_spec e k) as [->|Hne].
  - assert (Hr : assoc k (expected_csc_modes modes r) = None).
    { apply assoc_None_keys. intros H. apply Hnotin.
      now apply expected_csc_modes_keys in H. }
    destruct (viable_colorspaces modes k inner) as [|c cs] eqn:Ev.
    + cbn [opt_entry app]. rewrite Hr. split; [done|].
      intros (inner' & [[= ->]|Hin] & -> & Hnil); [congruence|].
      exfalso. apply Hnotin. now apply (in_map fst) in Hin.
    + cbn [opt_entry app assoc]. rewrite String.eqb_refl. split.
      * intros [= <-]. exists inner. split; [now left|]. now rewrite Ev.
      * intros (inner' & [[= ->]|Hin] & -> & _); [now rewrite Ev|].
        exfalso. apply Hnotin. now apply (in_map fst) in Hin.
  - rewrite assoc_app_None by now apply assoc_opt_entry_other.
    rewrite IH. split; intros (inner' & Hin & Hl); exists inner'.
    + split; [now right | done].
    + split; [|done]. destruct Hin as [[= -> ->]|Hin]; [done | exact Hin].
Qed.

Lemma expected_csc_modes_NoDup (modes : list string) (T : table_content) :
  List.NoDup (map fst T) -> List.NoDup (map fst (expected_csc_modes modes T)).
Proof.
  induction T as [|[e inner] r IH]; simpl; intros Hnd; [constructor|].
  inversion Hnd as [|? ? Hnotin Hnd']; subst.
  unfold expected_csc_modes. cbn [flat_map fst snd].
  fold (expected_csc_modes modes r).
  destruct (dedup_first _); cbn [opt_entry app map fst]; [auto|].
  constructor; [|auto]. intros H. apply Hnotin.
  now apply expected_csc_modes_keys in H.
Qed.

(** C1. On a registry whose decoder table is well formed and whose decoder
    entries all answer the output colorspace query,
    [get_server_full_csc_modes] returns, without changing the world, a
    mapping [res] such that: an encoding [e] is a key of [res] exactly when
    some decoder entry under some [(e, cs)] of the table outputs a
    colorspace of the peer set; the value of [e] is the list of those input
    colorspaces [cs], each once, in the order the loop sees them first
    (sorted by name); no key has an empty value and no key occurs twice.
    With the single entry ("V1", "YUV420P") whose output is "RGB", the
    peer set {"RGB"} gives {"V1": ["YUV420P"]} and {"RGB2"} gives {}. *)
Theorem get_server_full_csc_modes_spec (self : VideoHelper) (w : World)
  (modes : list string) (T : table_content) :
  read_table (heap w) (_video_decoder_specs self) = Some T ->
  table_wf T = true ->
  decoders_answer T = true ->
  exists res,
    get_server_full_csc_modes self modes w = (Ok res, w) /\
    (forall e, is_Some (assoc e res) <->
       exists inner cs entries decoder_name decoder_module out,
         In (e, inner) T /\ In (cs, entries) inner /\
         In (LDecoder decoder_name decoder_module) entries /\
         Codec.get_output_colorspace decoder_module e cs = Ok out /\
         In out modes) /\
    (forall e l, assoc e res = Some l <->
       exists inner, In (e, inner) T /\
                     l = viable_colorspaces modes e inner /\ l <> []) /\
    (forall e inner, In (e, inner) T ->
       List.NoDup (viable_colorspaces modes e inner) /\
       forall cs, In cs (viable_colorspaces modes e inner) <->
         exists entries decoder_name decoder_module out,
           In (cs, entries) inner /\
           In (LDecoder decoder_name decoder_module) entries /\
           Codec.get_output_colorspace decoder_module e cs = Ok out /\
           In out modes) /\
    List.NoDup (map fst res) /\
    (forall decoder_name decoder_module,
       T = [("V1", [("YUV420P", [LDecoder decoder_name decoder_module])])] ->
       Codec.get_output_colorspace decoder_module "V1" "YUV420P" = Ok "RGB" ->
       (modes = ["RGB"] -> res = [("V1", ["YUV420P"])]) /\
       (modes = ["RGB2"] -> res = [])).
Proof.
  intros Hread Hwf Hans.
  exists (full_csc_modes_of modes T).
  split; [now apply get_server_full_csc_modes_run|].
  pose proof Hwf as Hwf'. unfold table_wf in Hwf'.
  apply andb_true_iff in Hwf' as [Hnd Hinner].
  apply nodupb_NoDup in Hnd. rewrite forallb_forall in Hinner.
  assert (Hvc : forall e inner, In (e, inner) T ->
            List.NoDup (viable_colorspaces modes e inner) /\
            forall cs, In cs (viable_colorspaces modes e inner) <->
              exists entries decoder_name decoder_module out,
                In (cs, entries) inner /\
                In (LDecoder decoder_name decoder_module) entries /\
                Codec.get_output_colorspace decoder_module e cs = Ok out /\
                In out modes).
  { intros e inner Hin. split.
    - apply viable_colorspaces_NoDup, nodupb_NoDup. exact (Hinner _ Hin).
    - intros cs. rewrite viable_colorspaces_In. split.
      + intros (entries & Hi & (nm & m & out & H1 & H2 & H3)%viable_true).
        eauto 10.
      + intros (entries & nm & m & out & Hi & H1 & H2 & H3).
        exists entries. split; [done|]. apply viable_true. eauto 10. }
  assert (Hval : forall e l,
            assoc e (full_csc_modes_of modes T) = Some l <->
            exists inner, In (e, inner) T /\
                          l = viable_colorspaces modes e inner /\ l <> []).
  { intros e l. rewrite (full_csc_modes_of_expected _ _ Hnd).
    now apply expected_csc_modes_assoc. }
  split; [|split; [exact Hval | split; [exact Hvc | split]]].
  - intros e. split.
    + intros [l (inner & Hin & -> & Hne)%Hval].
      destruct (viable_colorspaces modes e inner) as [|cs r] eqn:Ev; [done|].
      assert (Hcs : In cs (viable_colorspaces modes e inner))
        by (rewrite Ev; now left).
      apply (proj2 (Hvc e inner Hin)) in Hcs
        as (entries & nm & m & out & H1 & H2 & H3 & H4).
      exists inner, cs, entries, nm, m, out. auto.
    + intros (inner & cs & entries & nm & m & out & Hin & H1 & H2 & H3 & H4).
      exists (viable_colorspaces modes e inner). apply Hval.
      exists inner. split; [done|]. split; [done|].
      assert (Hcs : In cs (viable_colorspaces modes e inner)).
      { apply (proj2 (Hvc e inner Hin)). eauto 10. }
      intros E. now rewrite E in Hcs.
  - rewrite (full_csc_modes_of_expected _ _ Hnd).
    now apply expected_csc_modes_NoDup.
  - intros nm m -> Hout. unfold full_csc_modes_of.
    split; intros ->; cbn; unfold entry_step, output_of; rewrite Hout; reflexivity.
Qed.

(** ** get_server_full_csc_modes_for_rgb *)

(** Some conversion of [inner] ends in a format of [rgb] and has a spec. *)
Definition reaches_rgb (rgb : list string) (inner : inner_content) : bool :=
  existsb (fun kv => str_in (fst kv) rgb &&
                     match snd kv with [] => false | _ :: _ => true end) inner.

(** The csc input colorspaces one conversion away from [rgb], in table
    order. *)
Definition rgb_sources (rgb : list string) (T : table_content) : list string :=
  map fst (List.filter (fun kv => reaches_rgb rgb (snd kv)) T).

(** The extended colorspace set in the words of the specification: the
    given formats and the sources, without duplicates, sorted. *)
Definition extended_colorspaces (rgb : list string) (T : table_content)
  : list string :=
  sorted (dedup_first (rgb ++ rgb_sources rgb T)).

Lemma csc_reaches_run (rgb : list string) (sitems : list (string * loc))
  (inner : inner_content) (w : World) :
  read_all (read_list (heap w)) sitems = Some inner ->
  csc_reaches rgb sitems w = (Ok (reaches_rgb rgb inner), w).
Proof.
  revert inner. induction sitems as [|[dst l] r IH]; intros inner.
  - now intros [= <-].
  - intros (elems & I' & Hl & Hr & ->)%read_all_cons.
    cbn [csc_reaches reaches_rgb existsb fst snd].
    fold (reaches_rgb rgb I').
    destruct (str_in dst rgb); cbn [andb orb]; [|now apply IH].
    unfold mbind, M_bind, bind, load. unfold read_list in Hl.
    destruct (heap w !! l) as [[?|elems']|]; [done| |done].
    injection Hl as ->. destruct elems; cbn; [now apply IH | done].
Qed.

Lemma rgb_sources_fold (rgb : list string) (T : table_content) (acc : list string) :
  fold_left (fun acc kv =>
               if reaches_rgb rgb (snd kv) then acc ++ [fst kv] else acc) T acc =
  acc ++ rgb_sources rgb T.
Proof.
  revert acc. induction T as [|[src inner] r IH]; intros acc.
  - simpl. now rewrite app_nil_r.
  - cbn [fold_left fst snd]. rewrite IH. unfold rgb_sources.
    cbn [List.filter snd]. destruct (reaches_rgb rgb inner); [|done].
    cbn [map fst]. now rewrite <- app_assoc.
Qed.

Lemma rgb_supported_csc_modes_run (self : VideoHelper) (rgb : list string)
  (w : World) (T : table_content) :
  read_table (heap w) (_csc_encoder_specs self) = Some T ->
  rgb_supported_csc_modes self rgb w = (Ok (rgb ++ rgb_sources rgb T), w).
Proof.
  unfold read_table. destruct (read_dict _ _) as [items|] eqn:Hd; [|done].
  intros HT. unfold rgb_supported_csc_modes, mbind, M_bind, bind.
  rewrite (dict_items_read _ _ _ Hd).
  rewrite <- rgb_sources_fold.
  apply (fold_m_read (read_inner (heap w))); [exact HT|].
  intros src d inner acc Hinner Hin.
  unfold read_inner in Hinner.
  destruct (read_dict _ d) as [ditems|] eqn:Hdd; [|done].
  rewrite (dict_items_read _ _ _ Hdd).
  now rewrite (csc_reaches_run _ _ _ _ Hinner).
Qed.

Lemma fold_m_ext {A S} (xs : list A) (b1 b2 : A -> S -> M S) :
  (forall x acc w, b1 x acc w = b2 x acc w) ->
  forall acc w, fold_m xs acc b1 w = fold_m xs acc b2 w.
Proof.
  intros Hb. induction xs as [|x r IH]; intros acc w; [done|].
  cbn [fold_m]. unfold mbind, M_bind, bind. rewrite Hb.
  destruct (b2 x acc w) as [[a|e] w']; [apply IH | done].
Qed.

Lemma bind_ext {A B} (m : M A) (k1 k2 : A -> M B) (w : World) :
  (forall a w', k1 a w' = k2 a w') -> (m ≫= k1) w = (m ≫= k2) w.
Proof.
  intros H. unfold mbind, M_bind, bind.
  destruct (m w) as [[a|e] w']; [apply H | done].
Qed.

(** The query uses the peer set through membership only. *)
Lemma get_server_full_csc_modes_ext (self : VideoHelper) (m1 m2 : list string)
  (w : World) :
  (forall x, str_in x m1 = str_in x m2) ->
  get_server_full_csc_modes self m1 w = get_server_full_csc_modes self m2 w.
Proof.
  intros H. unfold get_server_full_csc_modes.
  apply bind_ext. intros items w1. apply fold_m_ext.
  intros [e d] acc w2. apply bind_ext. intros inner w3. apply fold_m_ext.
  intros [cs l] acc' w4. apply bind_ext. intros entries w5. apply fold_m_ext.
  intros [sp|nm m] acc'' w6; [done|]. apply bind_ext. intros out w7.
  now rewrite H.
Qed.

Lemma str_in_ext (l1 l2 : list string) :
  (forall x, In x l1 <-> In x l2) -> forall x, str_in x l1 = str_in x l2.
Proof.
  intros H x. destruct (str_in x l2) eqn:E.
  - apply str_in_true, H, str_in_true, E.
  - apply str_in_false. intros Hin. apply H in Hin.
    apply str_in_true in Hin. congruence.
Qed.

Lemma fold_add_new_In (l acc : list string) (x : string) :
  In x (fold_left add_new l acc) <-> In x acc \/ In x l.
Proof.
  revert acc. induction l as [|y r IH]; intros acc; simpl; [tauto|].
  rewrite IH. unfold add_new. destruct (str_in y acc) eqn:E.
  - apply str_in_true in E. split; [tauto|].
    intros [H|[->|H]]; tauto.
  - rewrite in_app_iff. simpl. tauto.
Qed.

Lemma fold_add_new_keeps_NoDup (l acc : list string) :
  List.NoDup acc -> List.NoDup (fold_left add_new l acc).
Proof.
  revert acc. induction l as [|y r IH]; intros acc Hnd; simpl; [done|].
  apply IH. unfold add_new. destruct (str_in y acc) eqn:E; [done|].
  apply str_in_false in E. apply NoDup_app.
  - exact Hnd.
  - constructor; [simpl; tauto | constructor].
  - intros x Hx [->|[]]. contradiction.
Qed.

Lemma dedup_first_In (l : list string) (x : string) : In x (dedup_first l) <-> In x l.
Proof. unfold dedup_first. rewrite fold_add_new_In. simpl. tauto. Qed.

Lemma sorted_In (l : list string) (x : string) : In x (sorted l) <-> In x l.
Proof.
  split; apply Permutation_in;
    [apply sorted_perm | apply Permutation_sym, sorted_perm].
Qed.

(** [sorted] sorts: neighbours are in order. *)
Lemma ltb_leb (x y : string) : String.ltb x y = true -> String.leb x y = true.
Proof.
  unfold String.ltb, String.leb. now destruct (String.compare x y).
Qed.

Lemma not_ltb_leb (x y : string) : String.ltb x y = false -> String.leb y x = true.
Proof.
  unfold String.ltb, String.leb. rewrite (String.compare_antisym x y).
  now destruct (String.compare y x).
Qed.

Lemma insert_sorted_Sorted (x : string) (l : list string) :
  Sorted (fun a b => String.leb a b = true) l ->
  Sorted (fun a b => String.leb a b = true) (insert_sorted x l).
Proof.
  induction l as [|y r IH]; simpl; intros Hs.
  - repeat constructor.
  - destruct (String.ltb x y) eqn:E.
    + constructor; [exact Hs|]. constructor. now apply ltb_leb.
    + inversion Hs as [|? ? Hs' Hhd]; subst.
      constructor; [auto|].
      destruct r as [|z r']; simpl.
      * constructor. now apply not_ltb_leb.
      * destruct (String.ltb x z); constructor;
          [now apply not_ltb_leb | now inversion Hhd].
Qed.

Lemma sorted_Sorted (l : list string) :
  Sorted (fun a b => String.leb a b = true) (sorted l).
Proof.
  induction l as [|x r IH]; simpl; [constructor|].
  now apply insert_sorted_Sorted.
Qed.

Lemma reaches_rgb_true (rgb : list string) (inner : inner_content) :
  reaches_rgb rgb inner = true <->
  exists dst specs, In (dst, specs) inner /\ In dst rgb /\ specs <> [].
Proof.
  unfold reaches_rgb. rewrite existsb_exists. split.
  - intros ([dst specs] & Hin & H). cbn [fst snd] in H.
    apply andb_true_iff in H as [H1 H2]. apply str_in_true in H1.
    exists dst, specs. repeat split; [done | done |]. now destruct specs.
  - intros (dst & specs & Hin & Hd & Hs). exists (dst, specs).
    split; [done|]. cbn [fst snd]. apply andb_true_iff.
    split; [now apply str_in_true | now destruct specs].
Qed.

Lemma rgb_sources_In (rgb : list string) (T : table_content) (x : string) :
  In x (rgb_sources rgb T) <->
  exists inner dst specs,
    In (x, inner) T /\ In (dst, specs) inner /\ In dst rgb /\ specs <> [].
Proof.
  unfold rgb_sources. rewrite in_map_iff. split.
  - intros ([x' inner] & <- & Hin). apply filter_In in Hin as [Hin Hr].
    apply reaches_rgb_true in Hr as (dst & specs & H1 & H2 & H3).
    exists inner, dst, specs. auto.
  - intros (inner & dst & specs & Hin & H1 & H2 & H3).
    exists (x, inner). split; [done|]. apply filter_In. split; [done|].
    apply reaches_rgb_true. eauto.
Qed.

Lemma extended_colorspaces_In (rgb : list string) (T : table_content) (x : string) :
  In x (extended_colorspaces rgb T) <-> In x rgb \/ In x (rgb_sources rgb T).
Proof.
  unfold extended_colorspaces.
  now rewrite sorted_In, dedup_first_In, in_app_iff.
Qed.

(** C2. With the csc table readable, [get_server_full_csc_modes_for_rgb]
    returns exactly what [get_server_full_csc_modes] returns for the
    extended colorspace set: the given RGB formats and every csc input
    colorspace that has a non-empty list of specs towards one of them,
    without duplicates and sorted.  (The code sorts its list without
    removing duplicates; the query only tests membership, so the result is
    the same.)  A csc spec "YUV444P" -> "RGB" thus puts "YUV444P" in the
    extended set of the query {"RGB"}, and in the list the code passes. *)
Theorem get_server_full_csc_modes_for_rgb_spec (self : VideoHelper) (w : World)
  (rgb : list string) (T : table_content) :
  read_table (heap w) (_csc_encoder_specs self) = Some T ->
  get_server_full_csc_modes_for_rgb self rgb w =
    get_server_full_csc_modes self (extended_colorspaces rgb T) w /\
  (forall x, In x (extended_colorspaces rgb T) <->
     In x rgb \/
     exists inner dst specs,
       In (x, inner) T /\ In (dst, specs) inner /\ In dst rgb /\ specs <> []) /\
  List.NoDup (extended_colorspaces rgb T) /\
  Sorted (fun a b => String.leb a b = true) (extended_colorspaces rgb T) /\
  (exists supported,
     rgb_supported_csc_modes self rgb w = (Ok supported, w) /\
     forall x, In x (sorted supported) <-> In x (extended_colorspaces rgb T)) /\
  (rgb = ["RGB"] ->
   forall inner specs,
     In ("YUV444P", inner) T -> In ("RGB", specs) inner -> specs <> [] ->
     In "YUV444P" (extended_colorspaces rgb T)).
Proof.
  intros Hread.
  pose proof (rgb_supported_csc_modes_run self rgb w T Hread) as Hrun.
  assert (Hmem : forall x,
            In x (sorted (rgb ++ rgb_sources rgb T)) <->
            In x (extended_colorspaces rgb T)).
  { intros x. unfold extended_colorspaces.
    now rewrite !sorted_In, dedup_first_In. }
  repeat split.
  - unfold get_server_full_csc_modes_for_rgb, mbind, M_bind, bind.
    rewrite Hrun. apply get_server_full_csc_modes_ext.
    apply str_in_ext. exact Hmem.
  - rewrite extended_colorspaces_In, rgb_sources_In. tauto.
  - rewrite extended_colorspaces_In, rgb_sources_In. tauto.
  - unfold extended_colorspaces. eapply Permutation_NoDup.
    + apply Permutation_sym, sorted_perm.
    + apply fold_add_new_keeps_NoDup. constructor.
  - apply sorted_Sorted.
  - exists (rgb ++ rgb_sources rgb T). split; [exact Hrun | exact Hmem].
  - intros -> inner specs H1 H2 H3.
    apply extended_colorspaces_In. right. apply rgb_sources_In.
    exists inner, "RGB", specs. repeat split; [done | done | now left | done].
Qed.

(** ** Invariants of the store through [init] *)

(** [safe I m]: [m] keeps [I] and always returns. *)
Definition safe {A} (I : list obj -> Prop) (m : M A) : Prop :=
  hoare (fun w => I (heap w)) m (fun _ w => I (heap w)) (fun _ _ => False).

Lemma safe_keeps {A} (I : list obj -> Prop) (m : M A) : safe I m -> keeps I m.
Proof.
  intros H. eapply hoare_conseq; [exact H | auto | auto | contradiction].
Qed.

Lemma keeps_bind {A B} (I : list obj -> Prop) (m : M A) (k : A -> M B) :
  keeps I m -> (forall a, keeps I (k a)) -> keeps I (m ≫= k).
Proof. intros Hm Hk. eapply hoare_bind; [exact Hm | exact Hk]. Qed.

Lemma safe_bind {A B} (I : list obj -> Prop) (m : M A) (k : A -> M B) :
  safe I m -> (forall a, safe I (k a)) -> safe I (m ≫= k).
Proof. intros Hm Hk. eapply hoare_bind; [exact Hm | exact Hk]. Qed.

Lemma keeps_ret {A} (I : list obj -> Prop) (a : A) : keeps I (ret a).
Proof. apply hoare_ret. auto. Qed.

Lemma safe_ret {A} (I : list obj -> Prop) (a : A) : safe I (ret a).
Proof. apply hoare_ret. auto. Qed.

Lemma keeps_raise {A} (I : list obj -> Prop) (e : exn) : keeps I (@raise A e).
Proof. apply hoare_raise. auto. Qed.

Lemma keeps_call {A} (I : list obj -> Prop) (r : Res A) : keeps I (call r).
Proof. apply hoare_call. intros w Hw. now destruct r. Qed.

Lemma keeps_assert (I : list obj -> Prop) (c : bool) (msg : string) :
  keeps I (assert_ c msg).
Proof. destruct c; [apply keeps_ret | apply keeps_raise]. Qed.

Lemma keeps_for_each {A} (I : list obj -> Prop) (xs : list A) body :
  (forall x, keeps I (body x)) -> keeps I (for_each xs body).
Proof. intros H. apply hoare_for_each. intros x _. apply H. Qed.

Lemma safe_for_each {A} (I : list obj -> Prop) (xs : list A) body :
  (forall x, safe I (body x)) -> safe I (for_each xs body).
Proof. intros H. apply hoare_for_each. intros x _. apply H. Qed.

Lemma keeps_try_except {A} (I : list obj -> Prop) (body : M A) handler :
  keeps I body -> (forall e, keeps I (handler e)) -> keeps I (try_except body handler).
Proof. intros Hb Hh. eapply hoare_try_except; [exact Hb | exact Hh]. Qed.

Lemma safe_try_except {A} (I : list obj -> Prop) (body : M A) handler :
  keeps I body -> (forall e, safe I (handler e)) -> safe I (try_except body handler).
Proof. intros Hb Hh. eapply hoare_try_except; [exact Hb | exact Hh]. Qed.

Lemma safe_log_warn (I : list obj -> Prop) fmt args : safe I (log_warn fmt args).
Proof. intros w Hw. exact Hw. Qed.

Lemma keeps_get_codec (I : list obj -> Prop) (name : string) : keeps I (get_codec name).
Proof. intros w Hw. exact Hw. Qed.

Lemma keeps_load_codec (I : list obj -> Prop) (name : string) : keeps I (load_codec name).
Proof.
  intros w Hw. unfold load_codec.
  destruct (loader_load_codec name (codecs w)) as [[u|e] c]; exact Hw.
Qed.

Ltac keeps_step :=
  match goal with
  | |- keeps _ (_ ≫= _) => apply keeps_bind; [|intros ?]
  | |- safe _ (_ ≫= _) => apply safe_bind; [|intros ?]
  | |- keeps _ (for_each _ _) => apply keeps_for_each; intros ?
  | |- safe _ (for_each _ _) => apply safe_for_each; intros ?
  | |- keeps _ (try_except _ _) => apply keeps_try_except; [|intros ?]
  | |- safe _ (try_except _ _) => apply safe_try_except; [|intros ?]
  | |- keeps _ (call _) => apply keeps_call
  | |- keeps _ (ret _) => apply keeps_ret
  | |- safe _ (ret _) => apply safe_ret
  | |- keeps _ (raise _) => apply keeps_raise
  | |- keeps _ (assert_ _ _) => apply keeps_assert
  | |- keeps _ (log_warn _ _) => apply safe_keeps, safe_log_warn
  | |- safe _ (log_warn _ _) => apply safe_log_warn
  | |- keeps _ (get_codec _) => apply keeps_get_codec
  | |- keeps _ (load_codec _) => apply keeps_load_codec
  | |- keeps _ (match ?x with _ => _ end) => destruct x
  | |- safe _ (match ?x with _ => _ end) => destruct x
  end.

(** The loops at the end of [init_csc_options] read the store and change
    nothing, whether they return or raise. *)
Lemma for_each_world {A} (xs : list A) (body : A -> M unit) :
  (forall x w, snd (body x w) = w) -> forall w, snd (for_each xs body w) = w.
Proof.
  intros Hb. induction xs as [|x r IH]; intros w; [done|].
  cbn [for_each]. unfold mbind, M_bind, bind. specialize (Hb x w).
  destruct (body x w) as [[u|e] w']; cbn [snd] in Hb; subst w'; [apply IH | done].
Qed.

Lemma dict_items_world (d : loc) (w : World) : snd (dict_items d w) = w.
Proof.
  unfold dict_items, mbind, M_bind, bind, load.
  now destruct (heap w !! d) as [[?|?]|].
Qed.

Lemma codec_types_world (elems : list leaf) (w : World) :
  snd (codec_types elems w) = w.
Proof.
  induction elems as [|[sp|nm m] r IH]; cbn [codec_types]; [done| |done].
  unfold mbind, M_bind, bind. cbn [leaf_codec_type ret].
  destruct (codec_types r w) as [[ts|e] w']; cbn [snd] in *; now subst.
Qed.

Lemma sorted_codec_types_world (specs : loc) (w : World) :
  snd (sorted_codec_types specs w) = w.
Proof.
  unfold sorted_codec_types, mbind, M_bind, bind, load.
  destruct (heap w !! specs) as [[[|? ?]|elems]|]; try done.
  pose proof (codec_types_world elems w) as H.
  destruct (codec_types elems w) as [[ts|e] w']; cbn [snd] in *; now subst.
Qed.

Lemma log_csc_options_world (self : VideoHelper) (w : World) :
  snd (log_csc_options self w) = w.
Proof.
  unfold log_csc_options. unfold mbind at 1, M_bind at 1, bind at 1.
  pose proof (dict_items_world (_csc_encoder_specs self) w) as H.
  destruct (dict_items (_csc_encoder_specs self) w) as [[items|e] w'];
    cbn [snd] in H; subst w'; [|done].
  apply for_each_world. clear w. intros [src d] w.
  unfold mbind at 1, M_bind at 1, bind at 1.
  pose proof (dict_items_world d w) as H.
  destruct (dict_items d w) as [[ditems|e] w']; cbn [snd] in H; subst w'; [|done].
  apply for_each_world. clear w. intros [dst specs] w.
  unfold mbind, M_bind, bind.
  pose proof (sorted_codec_types_world specs w) as H.
  destruct (sorted_codec_types specs w) as [[ts|e] w']; cbn [snd] in H; now subst w'.
Qed.

Lemma log_csc_options_keeps (I : list obj -> Prop) (self : VideoHelper) :
  keeps I (log_csc_options self).
Proof.
  intros w Hw. pose proof (log_csc_options_world self w) as H.
  destruct (log_csc_options self w) as [[u|e] w']; cbn [snd] in H; now subst w'.
Qed.

Section InitKeeps.

(** Any property of the store that [table_add] keeps on the tables of
    [self]. *)
Variable I : list obj -> Prop.
Variable self : VideoHelper.
Hypothesis table_add_keeps :
  forall t k1 k2 v,
    In t [_video_encoder_specs self; _csc_encoder_specs self;
          _video_decoder_specs self] ->
    keeps I (table_add t k1 k2 v).

Lemma init_video_encoder_option_keeps name :
  keeps I (init_video_encoder_option self name).
Proof.
  unfold init_video_encoder_option, add_encoder_spec.
  repeat keeps_step; apply table_add_keeps; simpl; tauto.
Qed.

Lemma init_csc_option_keeps name : keeps I (init_csc_option self name).
Proof.
  unfold init_csc_option, add_csc_spec.
  repeat keeps_step; apply table_add_keeps; simpl; tauto.
Qed.

Lemma init_video_decoder_option_keeps name :
  keeps I (init_video_decoder_option self name).
Proof.
  unfold init_video_decoder_option, add_decoder.
  repeat keeps_step; apply table_add_keeps; simpl; tauto.
Qed.

Lemma init_video_encoders_options_safe :
  safe I (init_video_encoders_options self).
Proof.
  unfold init_video_encoders_options. cbv zeta.
  repeat keeps_step; apply init_video_encoder_option_keeps.
Qed.

Lemma init_csc_options_keeps : keeps I (init_csc_options self).
Proof.
  unfold init_csc_options. cbv zeta.
  apply keeps_bind; [|intros ?; apply log_csc_options_keeps].
  apply safe_keeps. repeat keeps_step; apply init_csc_option_keeps.
Qed.

Lemma init_video_decoders_options_safe :
  safe I (init_video_decoders_options self).
Proof.
  unfold init_video_decoders_options. cbv zeta.
  repeat keeps_step; apply init_video_decoder_option_keeps.
Qed.

(** [init] keeps [I], whether it returns or raises; when it returns, the
    registry is marked initialized and its table fields are unchanged. *)
Lemma init_hoare :
  hoare (fun w => I (heap w)) (init self)
    (fun s w => s = set_initialized true self /\ I (heap w))
    (fun _ w => I (heap w)).
Proof.
  unfold init. destruct (_initialized self) eqn:Hi.
  - apply hoare_ret. intros w Hw. split; [|done].
    destruct self; simpl in *. now subst.
  - eapply hoare_bind;
      [apply safe_keeps, init_video_encoders_options_safe | intros ?].
    eapply hoare_bind; [apply init_csc_options_keeps | intros ?].
    eapply hoare_bind;
      [apply safe_keeps, init_video_decoders_options_safe | intros ?].
    apply hoare_ret. auto.
Qed.

Lemma init_returned (w w' : World) (s : VideoHelper) :
  I (heap w) -> init self w = (Ok s, w') ->
  s = set_initialized true self /\ I (heap w').
Proof.
  intros Hw Hrun. pose proof (init_hoare w Hw) as H. now rewrite Hrun in H.
Qed.

End InitKeeps.

(** ** Objects keep their kind *)

Definition same_kind (o o' : obj) : Prop :=
  match o, o' with
  | ODict _, ODict _ => True
  | OList _, OList _ => True
  | _, _ => False
  end.

(** Every object of [h0] is still there in [h], a dictionary still a
    dictionary and a list still a list. *)
Definition kinds_kept (h0 h : list obj) : Prop :=
  forall l o, h0 !! l = Some o -> exists o', h !! l = Some o' /\ same_kind o o'.

Lemma same_kind_refl (o : obj) : same_kind o o.
Proof. now destruct o. Qed.

Lemma same_kind_trans (o1 o2 o3 : obj) :
  same_kind o1 o2 -> same_kind o2 o3 -> same_kind o1 o3.
Proof. now destruct o1, o2, o3. Qed.

Lemma kinds_kept_refl (h : list obj) : kinds_kept h h.
Proof. intros l o Hl. exists o. split; [done | apply same_kind_refl]. Qed.

Lemma kinds_kept_snoc (h0 h : list obj) (o : obj) :
  kinds_kept h0 h -> kinds_kept h0 (h ++ [o]).
Proof.
  intros H l o0 Hl. destruct (H l o0 Hl) as (o' & Ho' & Hk).
  exists o'. split; [|done]. rewrite lookup_app_l; [done|].
  now apply lookup_lt_Some in Ho'.
Qed.

Lemma kinds_kept_insert (h0 h : list obj) (l : loc) (o1 o2 : obj) :
  kinds_kept h0 h -> h !! l = Some o1 -> same_kind o1 o2 ->
  kinds_kept h0 (<[l:=o2]> h).
Proof.
  intros H Hl Hk l' o Hl'. destruct (H l' o Hl') as (o' & Ho' & Hk').
  destruct (decide (l = l')) as [E|Hne]; [subst l'|].
  - exists o2. split.
    + apply list_lookup_insert_eq. now apply lookup_lt_Some in Hl.
    + assert (E' : Some o' = Some o1) by (rewrite <- Ho'; exact Hl).
      injection E' as ->. eapply same_kind_trans; eauto.
  - exists o'. split; [|done]. now rewrite list_lookup_insert_ne.
Qed.

Lemma dict_setdefault_keeps_kinds (h0 : list obj) (d : loc) (k : string) (mk : obj) :
  keeps (kinds_kept h0) (dict_setdefault d k mk).
Proof.
  intros w Hw. unfold dict_setdefault, dict_items, mbind, M_bind, bind, load.
  destruct (heap w !! d) as [[items|elems]|] eqn:Hd; cbn; try exact Hw.
  destruct (assoc k items); cbn; [exact Hw|].
  apply kinds_kept_insert with (o1 := ODict items);
    [now apply kinds_kept_snoc | | exact I].
  rewrite lookup_app_l; [exact Hd | now apply lookup_lt_Some in Hd].
Qed.

Lemma list_append_keeps_kinds (h0 : list obj) (l : loc) (v : leaf) :
  keeps (kinds_kept h0) (list_append l v).
Proof.
  intros w Hw. unfold list_append, mbind, M_bind, bind, load.
  destruct (heap w !! l) as [[items|elems]|] eqn:Hl; cbn; try exact Hw.
  apply kinds_kept_insert with (o1 := OList elems); [exact Hw | exact Hl | exact I].
Qed.

Lemma table_add_keeps_kinds (h0 : list obj) t k1 k2 v :
  keeps (kinds_kept h0) (table_add t k1 k2 v).
Proof.
  unfold table_add.
  apply keeps_bind; [apply dict_setdefault_keeps_kinds | intros d].
  apply keeps_bind; [apply dict_setdefault_keeps_kinds | intros l].
  apply list_append_keeps_kinds.
Qed.

(** ** The accessors *)

Definition is_dict (h : list obj) (l : loc) : bool :=
  match h !! l with
  | Some (ODict _) => true
  | _ => false
  end.

(** The three table fields hold dictionaries. *)
Definition has_tables (h : list obj) (self : VideoHelper) : bool :=
  is_dict h (_video_encoder_specs self) && is_dict h (_csc_encoder_specs self)
  && is_dict h (_video_decoder_specs self).

(** [m] returns the value stored under [key] in the dictionary [d] and
    leaves the world alone or, when [d] has no such key, returns a new
    empty dictionary and leaves every older object alone. *)
Definition returns_inner_or_empty (d : loc) (key : string) (m : M loc)
  (w : World) : Prop :=
  exists items l w',
    read_dict (heap w) d = Some items /\
    m w = (Ok l, w') /\
    match assoc key items with
    | Some inner => l = inner /\ w' = w
    | None =>
        read_dict (heap w') l = Some [] /\
        forall l', l' < length (heap w) -> heap w' !! l' = heap w !! l'
    end.

Lemma is_dict_read (h : list obj) (d : loc) :
  is_dict h d = true -> exists items, read_dict h d = Some items.
Proof.
  unfold is_dict, read_dict. destruct (h !! d) as [[items|?]|]; [eauto|done|done].
Qed.

Lemma dict_get_default_spec (d : loc) (key : string) (w : World) :
  is_dict (heap w) d = true ->
  returns_inner_or_empty d key (dict_get_default d key) w.
Proof.
  intros (items & Hd)%is_dict_read. unfold returns_inner_or_empty.
  unfold dict_get_default, mbind, M_bind, bind.
  rewrite (dict_items_read _ _ _ Hd).
  destruct (assoc key items) as [inner|] eqn:E.
  - exists items, inner, w. rewrite E. auto.
  - exists items, (length (heap w)), (set_heap (heap w ++ [ODict []]) w).
    rewrite E. repeat split; [done| |].
    + unfold read_dict. cbn. now rewrite lookup_snoc_new.
    + intros l' Hl'. cbn. now apply lookup_snoc_old.
Qed.

Lemma is_dict_kept (h0 h : list obj) (l : loc) :
  kinds_kept h0 h -> is_dict h0 l = true -> is_dict h l = true.
Proof.
  unfold is_dict. intros H. destruct (h0 !! l) as [[items|?]|] eqn:E; [|done|done].
  destruct (H l _ E) as (o' & -> & Hk). now destruct o'.
Qed.

(** ** The defaults probes *)

(** [get_codec] finds the module of [x]. *)
Definition installed (module_name_of : string -> string) (c : Codecs)
  (x : string) : bool :=
  match loader_get_codec (module_name_of x) c with
  | Some _ => true
  | None => false
  end.

(** The first installed encoder of the catalog, as a list. *)
Definition first_installed_encoder (c : Codecs) : list string :=
  match List.find (installed get_encoder_module_name c) ALL_VIDEO_ENCODER_OPTIONS with
  | Some x => [x]
  | None => []
  end.

Lemma default_encoders_loop_run (xs encoders : list string) (w : World) :
  default_encoders_loop xs encoders w =
  (Ok (match List.find (installed get_encoder_module_name (codecs w)) xs with
       | Some x => encoders ++ [x]
       | None => encoders
       end), w).
Proof.
  induction xs as [|x r IH]; [done|].
  cbn [default_encoders_loop List.find]. unfold mbind, M_bind, bind, get_codec, installed.
  destruct (loader_get_codec (get_encoder_module_name x) (codecs w)); [done|].
  exact IH.
Qed.

Lemma default_modules_loop_run (f : string -> string) (xs found : list string)
  (w : World) :
  default_modules_loop f xs found w =
  (Ok (found ++ List.filter (installed f (codecs w)) xs), w).
Proof.
  revert found. induction xs as [|x r IH]; intros found.
  - simpl. unfold ret. now rewrite app_nil_r.
  - cbn [default_modules_loop List.filter].
    unfold mbind, M_bind, bind, get_codec, installed.
    destruct (loader_get_codec (f x) (codecs w)); rewrite IH; [|done].
    now rewrite <- app_assoc.
Qed.

Lemma get_DEFAULT_VIDEO_ENCODERS_run (w : World) :
  get_DEFAULT_VIDEO_ENCODERS w = (Ok (first_installed_encoder (codecs w)), w).
Proof.
  unfold get_DEFAULT_VIDEO_ENCODERS, first_installed_encoder.
  rewrite default_encoders_loop_run. now destruct (List.find _ _).
Qed.

Lemma get_DEFAULT_CSC_MODULES_run (w : World) :
  get_DEFAULT_CSC_MODULES w =
  (Ok (List.filter (installed get_csc_module_name (codecs w)) ALL_CSC_MODULE_OPTIONS), w).
Proof. unfold get_DEFAULT_CSC_MODULES. now rewrite default_modules_loop_run. Qed.

Lemma get_DEFAULT_VIDEO_DECODERS_run (w : World) :
  get_DEFAULT_VIDEO_DECODERS w =
  (Ok (List.filter (installed get_decoder_module_name (codecs w))
         ALL_VIDEO_DECODER_OPTIONS), w).
Proof. unfold get_DEFAULT_VIDEO_DECODERS. now rewrite default_modules_loop_run. Qed.

(** ** get_info *)

Definition is_spec (v : leaf) : bool :=
  match v with LSpec _ => true | LDecoder _ _ => false end.

Definition is_decoder (v : leaf) : bool :=
  match v with LDecoder _ _ => true | LSpec _ => false end.

(** Every leaf of the table satisfies [kind]. *)
Definition leaves_are (kind : leaf -> bool) (T : table_content) : bool :=
  forallb (fun kv => forallb (fun kv' => forallb kind (snd kv')) (snd kv)) T.

(** The three tables can be read and hold what the registry puts in them:
    specs in the encoder and csc tables, decoder entries in the decoder
    table. *)
Definition registry_typed (h : list obj) (self : VideoHelper) : bool :=
  match read_table h (_video_encoder_specs self),
        read_table h (_csc_encoder_specs self),
        read_table h (_video_decoder_specs self) with
  | Some Te, Some Tc, Some Td =>
      leaves_are is_spec Te && leaves_are is_spec Tc && leaves_are is_decoder Td
  | _, _, _ => false
  end.

(** [k] has the substring "_to_". *)
Fixpoint has_to (k : string) : bool :=
  startswith k "_to_" ||
  match k with
  | EmptyString => false
  | String _ r => has_to r
  end.

Lemma has_to_fmt_to (a b : string) : has_to (fmt_to a b) = true.
Proof.
  unfold fmt_to. induction a as [|c a IH].
  - simpl. now destruct b.
  - change (has_to (String c a +:+ "_to_" +:+ b)) with
      (startswith (String c a +:+ "_to_" +:+ b) "_to_" || has_to (a +:+ "_to_" +:+ b)).
    rewrite IH. apply orb_true_r.
Qed.

(** The state of [einfo] and [dinfo] in the first loops: keys made by
    [fmt_to], values lists. *)
Definition pairs_only (d : list (string * info)) : Prop :=
  forall k v, In (k, v) d -> has_to k = true /\ exists l, v = IList l.

Lemma assoc_In {V} (k : string) (v : V) (d : list (string * V)) :
  assoc k d = Some v -> In (k, v) d.
Proof.
  induction d as [|[k' v'] r IH]; simpl; [done|].
  destruct (String.eqb_spec k k') as [->|Hne]; [intros [= ->]; now left | auto].
Qed.

Lemma In_assoc_set {V} (k k0 : string) (v v0 : V) (d : list (string * V)) :
  In (k0, v0) (assoc_set k v d) -> (k0 = k /\ v0 = v) \/ In (k0, v0) d.
Proof.
  induction d as [|[k' v'] r IH]; simpl; [tauto|].
  destruct (String.eqb_spec k k') as [->|Hne]; simpl.
  - intros [[= <- <-]|H]; tauto.
  - intros [H|H]; [tauto|]. apply IH in H. tauto.
Qed.

Lemma info_setdefault_append_pairs (d : list (string * info)) (a b v : string)
  (w : World) :
  pairs_only d ->
  exists d', info_setdefault_append d (fmt_to a b) v w = (Ok d', w) /\ pairs_only d'.
Proof.
  intros Hd. unfold info_setdefault_append.
  destruct (assoc (fmt_to a b) d) as [i|] eqn:E.
  - apply assoc_In in E. destruct (Hd _ _ E) as [_ [l ->]].
    eexists. split; [reflexivity|].
    intros k0 v0 [[-> ->]|H]%In_assoc_set; [|auto].
    split; [apply has_to_fmt_to | eauto].
  - eexists. split; [reflexivity|].
    intros k0 v0 [H|[[= <- <-]|[]]]%in_app_or; [auto|].
    split; [apply has_to_fmt_to | eauto].
Qed.

Lemma fold_m_inv {A S} (J : S -> Prop) (xs : list A) (acc : S) body (w : World) :
  J acc ->
  (forall x s, In x xs -> J s -> exists s', body x s w = (Ok s', w) /\ J s') ->
  exists s', fold_m xs acc body w = (Ok s', w) /\ J s'.
Proof.
  revert acc. induction xs as [|x r IH]; intros acc Hacc Hb.
  - exists acc. split; [done | exact Hacc].
  - destruct (Hb x acc (or_introl eq_refl) Hacc) as (s1 & E1 & H1).
    cbn [fold_m]. unfold mbind, M_bind, bind. rewrite E1.
    apply IH; [exact H1|]. intros y s Hy. apply Hb. now right.
Qed.

Lemma fold_m_read_inv {A B S} (J : S -> Prop) (f : A -> option B)
  (xs : list (string * A)) (ys : list (string * B)) (acc : S) body (w : World) :
  read_all f xs = Some ys ->
  J acc ->
  (forall k a b s, f a = Some b -> In (k, b) ys -> J s ->
     exists s', body (k, a) s w = (Ok s', w) /\ J s') ->
  exists s', fold_m xs acc body w = (Ok s', w) /\ J s'.
Proof.
  revert ys acc. induction xs as [|[k a] r IH]; intros ys acc.
  - intros [= <-] Hacc _. exists acc. split; [done | exact Hacc].
  - intros (b & T' & Hb & Hr & ->)%read_all_cons Hacc Hbody.
    destruct (Hbody k a b acc Hb (or_introl eq_refl) Hacc) as (s1 & E1 & H1).
    cbn [fold_m]. unfold mbind, M_bind, bind. rewrite E1.
    apply (IH T'); [done | exact H1|].
    intros k' a' b' s Hf Hin. apply (Hbody k' a' b' s Hf). now right.
Qed.

Lemma assoc_assoc_put_eq {V} (k : string) (v : V) (d : list (string * V)) :
  assoc k (assoc_put k v d) = Some v.
Proof.
  unfold assoc_put. destruct (assoc k d) as [v0|] eqn:E.
  - induction d as [|[k' v'] r IH]; simpl in *; [done|].
    destruct (String.eqb_spec k k') as [->|Hne]; simpl.
    + now rewrite String.eqb_refl.
    + apply String.eqb_neq in Hne as ->. auto.
  - rewrite (assoc_app_None _ _ _ E). simpl. now rewrite String.eqb_refl.
Qed.

Lemma assoc_assoc_put_ne {V} (k k' : string) (v : V) (d : list (string * V)) :
  k' <> k -> assoc k' (assoc_put k v d) = assoc k' d.
Proof.
  intros Hne. unfold assoc_put. destruct (assoc k d) as [v0|] eqn:E.
  - clear E. induction d as [|[k0 v0'] r IH]; simpl; [done|].
    destruct (String.eqb_spec k k0) as [->|Hne0]; simpl.
    + now apply String.eqb_neq in Hne as ->.
    + destruct (k' =? k0)%string; [done | exact IH].
  - induction d as [|[k0 v0'] r IH]; simpl in *.
    + now apply String.eqb_neq in Hne as ->.
    + destruct (k =? k0)%string; [done|]. destruct (k' =? k0)%string; auto.
Qed.

(** The status dictionary after the loop over the catalog [xs]. *)
Definition statuses (xs def_list active_list : list string)
  (d : list (string * info)) : list (string * info) :=
  fold_left (fun d x => assoc_put x (IStr (modstatus x def_list active_list)) d) xs d.

Lemma statuses_assoc_other (xs def_list active_list : list string) d (x : string) :
  ~ In x xs -> assoc x (statuses xs def_list active_list d) = assoc x d.
Proof.
  unfold statuses. revert d. induction xs as [|y r IH]; intros d Hx; [done|].
  cbn [fold_left].
  rewrite IH by (intros H; apply Hx; now right).
  apply assoc_assoc_put_ne. intros ->. apply Hx. now left.
Qed.

Lemma statuses_assoc (xs def_list active_list : list string) d (x : string) :
  In x xs ->
  assoc x (statuses xs def_list active_list d) =
  Some (IStr (modstatus x def_list active_list)).
Proof.
  revert d. induction xs as [|y r IH]; intros d Hx; [done|].
  change (statuses (y :: r) def_list active_list d) with
    (statuses r def_list active_list
       (assoc_put y (IStr (modstatus y def_list active_list)) d)).
  destruct (in_dec string_dec x r) as [Hr|Hr]; [now apply IH|].
  destruct Hx as [->|Hx]; [|contradiction].
  rewrite statuses_assoc_other by exact Hr. apply assoc_assoc_put_eq.
Qed.

Lemma status_loop_run (probe : M (list string)) (def_list active_list : list string)
  (xs : list string) (d : list (string * info)) (w : World) :
  probe w = (Ok def_list, w) ->
  fold_m xs (IDict d) (fun x venc =>
    def_list ← probe;
    info_setitem venc x (IStr (modstatus x def_list active_list))) w =
  (Ok (IDict (statuses xs def_list active_list d)), w).
Proof.
  intros Hp. revert d. induction xs as [|x r IH]; intros d; [done|].
  cbn [fold_m]. unfold mbind at 1, M_bind at 1, bind at 1.
  unfold mbind at 1, M_bind at 1, bind at 1. rewrite Hp.
  cbn [info_setitem ret]. apply IH.
Qed.

Lemma pairs_only_assoc_None (d : list (string * info)) (k : string) :
  pairs_only d -> has_to k = false -> assoc k d = None.
Proof.
  intros Hd Hk. destruct (assoc k d) as [v|] eqn:E; [|done].
  apply assoc_In in E. destruct (Hd _ _ E) as [H _]. congruence.
Qed.

Lemma codec_types_run (elems : list leaf) (w : World) :
  forallb is_spec elems = true ->
  exists ts, codec_types elems w = (Ok ts, w).
Proof.
  induction elems as [|[sp|nm m] r IH]; cbn [forallb is_spec andb];
    [intros _; now exists [] | | done].
  intros (ts & E)%IH. exists (codec_type sp :: ts).
  cbn [codec_types]. unfold mbind, M_bind, bind. cbn [leaf_codec_type ret].
  now rewrite E.
Qed.

(** The first loop of [get_info], over the encoder table, and the third,
    over the decoder table, return a dictionary of lists under keys made by
    [fmt_to]. *)
Lemma leaves_loop_run (kind : leaf -> bool) (read : leaf -> M string)
  (swap : bool) (items : list (string * loc)) (T : table_content) (w : World) :
  (forall v w', kind v = true -> exists s, read v w' = (Ok s, w')) ->
  read_all (read_inner (heap w)) items = Some T ->
  leaves_are kind T = true ->
  exists d,
    fold_m items [] (fun '(k1, inner_loc) acc =>
      inner ← dict_items inner_loc;
      fold_m inner acc (fun '(k2, elems_loc) acc =>
        elems ← list_elems elems_loc;
        fold_m elems acc (fun v acc =>
          t ← read v;
          info_setdefault_append acc
            (if swap then fmt_to k2 k1 else fmt_to k1 k2) t))) w = (Ok d, w) /\
    pairs_only d.
Proof.
  intros Hread HT Hk. unfold leaves_are in Hk. rewrite forallb_forall in Hk.
  apply (fold_m_read_inv pairs_only (read_inner (heap w)) items T); [exact HT | |].
  { intros k v []. }
  intros k1 d1 inner acc Hinner Hin Hacc.
  unfold read_inner in Hinner.
  destruct (read_dict _ d1) as [ditems|] eqn:Hdd; [|done].
  unfold mbind at 1, M_bind at 1, bind at 1.
  rewrite (dict_items_read _ _ _ Hdd).
  specialize (Hk _ Hin). cbn [snd] in Hk. rewrite forallb_forall in Hk.
  apply (fold_m_read_inv pairs_only (read_list (heap w)) ditems inner);
    [exact Hinner | exact Hacc |].
  intros k2 l elems acc2 Hl Hin2 Hacc2.
  unfold mbind at 1, M_bind at 1, bind at 1.
  rewrite (list_elems_read _ _ _ Hl).
  specialize (Hk _ Hin2). cbn [snd] in Hk. rewrite forallb_forall in Hk.
  apply fold_m_inv; [exact Hacc2|].
  intros v acc3 Hv Hacc3. destruct (Hread v w (Hk _ Hv)) as (t & Et).
  unfold mbind, M_bind, bind. rewrite Et.
  destruct swap; now apply info_setdefault_append_pairs.
Qed.

Lemma csc_loop_run (items : list (string * loc)) (T : table_content) (w : World) :
  read_all (read_inner (heap w)) items = Some T ->
  leaves_are is_spec T = true ->
  exists d,
    fold_m items [] (fun '(in_csc, out_specs) cinfo =>
      inner ← dict_items out_specs;
      fold_m inner cinfo (fun '(out_csc, specs) cinfo =>
        elems ← list_elems specs;
        ts ← codec_types elems;
        ret (assoc_put (fmt_to in_csc out_csc) (IList ts) cinfo))) w = (Ok d, w) /\
    True.
Proof.
  intros HT Hk. unfold leaves_are in Hk. rewrite forallb_forall in Hk.
  apply (fold_m_read_inv (fun _ => True) (read_inner (heap w)) items T);
    [exact HT | done |].
  intros k1 d1 inner acc Hinner Hin _.
  unfold read_inner in Hinner.
  destruct (read_dict _ d1) as [ditems|] eqn:Hdd; [|done].
  unfold mbind at 1, M_bind at 1, bind at 1.
  rewrite (dict_items_read _ _ _ Hdd).
  specialize (Hk _ Hin). cbn [snd] in Hk. rewrite forallb_forall in Hk.
  apply (fold_m_read_inv (fun _ => True) (read_list (heap w)) ditems inner);
    [exact Hinner | done |].
  intros k2 l elems acc2 Hl Hin2 _.
  unfold mbind at 1, M_bind at 1, bind at 1.
  rewrite (list_elems_read _ _ _ Hl).
  destruct (codec_types_run elems w (Hk _ Hin2)) as (ts & Ets).
  unfold mbind, M_bind, bind. rewrite Ets. eauto.
Qed.

Lemma leaf_codec_type_run (v : leaf) (w : World) :
  is_spec v = true -> exists s, leaf_codec_type v w = (Ok s, w).
Proof. destruct v; [eauto | done]. Qed.

Lemma leaf_decoder_name_run (v : leaf) (w : World) :
  is_decoder v = true -> exists s, leaf_decoder_name v w = (Ok s, w).
Proof. destruct v; [done | eauto]. Qed.

(** The report of [get_info] on a typed registry: whatever the first three
    loops collect, the entries "video-encoder" and "csc-module" come last
    in the "encoding" dictionary and hold the status dictionaries. *)
Lemma get_info_run (self : VideoHelper) (w : World) :
  registry_typed (heap w) self = true ->
  exists einfo dinfo cinfo,
    pairs_only einfo /\
    get_info self w =
    (Ok (IDict
           [("encoding",
             IDict (einfo ++
               [("video-encoder",
                 IDict (statuses ALL_VIDEO_ENCODER_OPTIONS
                          (first_installed_encoder (codecs w))
                          (video_encoders self) []));
                ("csc-module",
                 IDict (statuses ALL_CSC_MODULE_OPTIONS
                          (List.filter (installed get_csc_module_name (codecs w))
                             ALL_CSC_MODULE_OPTIONS)
                          (csc_modules self) []))]));
            ("decoding", IDict dinfo);
            ("csc", IDict cinfo)]), w).
Proof.
  unfold registry_typed.
  destruct (read_table _ (_video_encoder_specs self)) as [Te|] eqn:He; [|done].
  destruct (read_table _ (_csc_encoder_specs self)) as [Tc|] eqn:Hc; [|done].
  destruct (read_table _ (_video_decoder_specs self)) as [Td|] eqn:Hd; [|done].
  rewrite !andb_true_iff. intros [[Hke Hkc] Hkd].
  unfold read_table in He, Hc, Hd.
  destruct (read_dict _ (_video_encoder_specs self)) as [eitems|] eqn:Hde; [|done].
  destruct (read_dict _ (_csc_encoder_specs self)) as [citems|] eqn:Hdc; [|done].
  destruct (read_dict _ (_video_decoder_specs self)) as [ditems|] eqn:Hdd; [|done].
  destruct (leaves_loop_run is_spec leaf_codec_type true eitems Te w
              leaf_codec_type_run He Hke) as (einfo & Ee & Je).
  destruct (csc_loop_run citems Tc w Hc Hkc) as (cinfo & Ec & _).
  destruct (leaves_loop_run is_decoder leaf_decoder_name false ditems Td w
              leaf_decoder_name_run Hd Hkd) as (dinfo & Ed & Jd).
  exists einfo, dinfo, cinfo. split; [exact Je|].
  unfold get_info.
  unfold mbind at 1, M_bind at 1, bind at 1. rewrite (dict_items_read _ _ _ Hde).
  unfold mbind at 1, M_bind at 1, bind at 1. cbv beta iota in Ee. rewrite Ee.
  unfold mbind at 1, M_bind at 1, bind at 1. rewrite (dict_items_read _ _ _ Hdc).
  unfold mbind at 1, M_bind at 1, bind at 1. rewrite Ec.
  unfold mbind at 1, M_bind at 1, bind at 1. rewrite (dict_items_read _ _ _ Hdd).
  unfold mbind at 1, M_bind at 1, bind at 1. cbv beta iota in Ed. rewrite Ed.
  rewrite (pairs_only_assoc_None einfo "video-encoder" Je eq_refl).
  cbn [default]. cbv zeta.
  unfold mbind at 1, M_bind at 1, bind at 1.
  rewrite (status_loop_run get_DEFAULT_VIDEO_ENCODERS
             (first_installed_encoder (codecs w)) (video_encoders self)
             ALL_VIDEO_ENCODER_OPTIONS [] w (get_DEFAULT_VIDEO_ENCODERS_run w)).
  rewrite (assoc_set_app_None "video-encoder" _ einfo _
             (pairs_only_assoc_None einfo "video-encoder" Je eq_refl)).
  cbn [assoc_set String.eqb Ascii.eqb Bool.eqb].
  rewrite (assoc_app_None "csc-module" einfo _
             (pairs_only_assoc_None einfo "csc-module" Je eq_refl)).
  cbn [assoc String.eqb Ascii.eqb Bool.eqb default].
  unfold mbind at 1, M_bind at 1, bind at 1.
  rewrite (status_loop_run get_DEFAULT_CSC_MODULES _ (csc_modules self)
             ALL_CSC_MODULE_OPTIONS [] w (get_DEFAULT_CSC_MODULES_run w)).
  rewrite <- app_assoc.
  rewrite (assoc_set_app_None "csc-module" _ einfo _
             (pairs_only_assoc_None einfo "csc-module" Je eq_refl)).
  cbn [app assoc_set String.eqb Ascii.eqb Bool.eqb].
  reflexivity.
Qed.

(** [i[k]] for a report dictionary. *)
Definition info_get (k : string) (i : info) : option info :=
  match i with
  | IDict d => assoc k d
  | _ => None
  end.

(** [report["encoding"][group][x]] *)
Definition module_status (report : info) (group x : string) : option info :=
  match info_get "encoding" report with
  | Some e =>
      match info_get group e with
      | Some g => info_get x g
      | None => None
      end
  | None => None
  end.

(** Every key of a report, at any depth. *)
Fixpoint info_keys (i : info) : list string :=
  match i with
  | IDict d =>
      (fix keys (d : list (string * info)) : list string :=
         match d with
         | [] => []
         | (k, v) :: r => k :: info_keys v ++ keys r
         end) d
  | _ => []
  end.

Lemma module_status_report (einfo dinfo cinfo venc cscm : list (string * info))
  (x : string) :
  pairs_only einfo ->
  let report :=
    IDict [("encoding",
            IDict (einfo ++ [("video-encoder", IDict venc); ("csc-module", IDict cscm)]));
           ("decoding", IDict dinfo); ("csc", IDict cinfo)] in
  module_status report "video-encoder" x = assoc x venc /\
  module_status report "csc-module" x = assoc x cscm.
Proof.
  intros Je report. unfold module_status, report. cbn [info_get assoc String.eqb Ascii.eqb Bool.eqb].
  rewrite (assoc_app_None "video-encoder" einfo _
             (pairs_only_assoc_None einfo "video-encoder" Je eq_refl)).
  rewrite (assoc_app_None "csc-module" einfo _
             (pairs_only_assoc_None einfo "csc-module" Je eq_refl)).
  now cbn.
Qed.

(** C9, as the code has it. On a typed registry [get_info] returns a report
    that gives, for every encoder and every csc module of the catalog, a
    status under "encoding": "active" when the module is in the enabled
    list of the registry, "disabled" when it is not but is in the defaults
    probe computed at the time of the call, "not found" otherwise.  (No
    status is reported for decoders.) *)
Theorem get_info_module_status (self : VideoHelper) (w : World) :
  registry_typed (heap w) self = true ->
  exists report enc_defaults csc_defaults,
    get_info self w = (Ok report, w) /\
    get_DEFAULT_VIDEO_ENCODERS w = (Ok enc_defaults, w) /\
    get_DEFAULT_CSC_MODULES w = (Ok csc_defaults, w) /\
    (forall x, In x ALL_VIDEO_ENCODER_OPTIONS ->
       module_status report "video-encoder" x =
       Some (IStr (if str_in x (video_encoders self) then "active"
                   else if str_in x enc_defaults then "disabled"
                   else "not found"))) /\
    (forall x, In x ALL_CSC_MODULE_OPTIONS ->
       module_status report "csc-module" x =
       Some (IStr (if str_in x (csc_modules self) then "active"
                   else if str_in x csc_defaults then "disabled"
                   else "not found"))).
Proof.
  intros Ht. destruct (get_info_run self w Ht) as (einfo & dinfo & cinfo & Je & E).
  eexists _, _, _. split; [exact E|].
  split; [apply get_DEFAULT_VIDEO_ENCODERS_run|].
  split; [apply get_DEFAULT_CSC_MODULES_run|].
  split; intros x Hx.
  - rewrite (proj1 (module_status_report einfo dinfo cinfo _ _ x Je)).
    now apply statuses_assoc.
  - rewrite (proj2 (module_status_report einfo dinfo cinfo _ _ x Je)).
    now apply statuses_assoc.
Qed.

(** C10. [get_DEFAULT_VIDEO_ENCODERS] returns at most one name, the first
    encoder of the catalog whose codec the loader has, while
    [get_DEFAULT_CSC_MODULES] and [get_DEFAULT_VIDEO_DECODERS] return every
    entry of their catalogs whose codec the loader has.  So, for an encoder
    of the catalog that is not enabled, [get_info] reports "disabled" when
    it is that first installed encoder and "not found" otherwise. *)
Theorem default_encoders_first_only (self : VideoHelper) (w : World) :
  registry_typed (heap w) self = true ->
  (exists l,
     get_DEFAULT_VIDEO_ENCODERS w = (Ok l, w) /\
     length l <= 1 /\
     forall x, In x l <->
       List.find (installed get_encoder_module_name (codecs w))
         ALL_VIDEO_ENCODER_OPTIONS = Some x) /\
  (exists l,
     get_DEFAULT_CSC_MODULES w = (Ok l, w) /\
     forall x, In x l <->
       In x ALL_CSC_MODULE_OPTIONS /\
       installed get_csc_module_name (codecs w) x = true) /\
  (exists l,
     get_DEFAULT_VIDEO_DECODERS w = (Ok l, w) /\
     forall x, In x l <->
       In x ALL_VIDEO_DECODER_OPTIONS /\
       installed get_decoder_module_name (codecs w) x = true) /\
  exists report,
    get_info self w = (Ok report, w) /\
    forall x, In x ALL_VIDEO_ENCODER_OPTIONS ->
      str_in x (video_encoders self) = false ->
      module_status report "video-encoder" x =
      Some (IStr (match List.find (installed get_encoder_module_name (codecs w))
                          ALL_VIDEO_ENCODER_OPTIONS with
                  | Some y => if (x =? y)%string then "disabled" else "not found"
                  | None => "not found"
                  end)).
Proof.
  intros Ht. repeat split.
  - exists (first_installed_encoder (codecs w)).
    split; [apply get_DEFAULT_VIDEO_ENCODERS_run|].
    unfold first_installed_encoder.
    destruct (List.find _ _) as [y|]; simpl; split; try lia.
    + intros x. split; [intros [->|[]]; done | intros [= ->]; now left].
    + intros x. split; [done | done].
  - eexists. split; [apply get_DEFAULT_CSC_MODULES_run|].
    intros x. apply filter_In.
  - eexists. split; [apply get_DEFAULT_VIDEO_DECODERS_run|].
    intros x. apply filter_In.
  - destruct (get_info_run self w Ht) as (einfo & dinfo & cinfo & Je & E).
    eexists. split; [exact E|]. intros x Hx Hact.
    rewrite (proj1 (module_status_report einfo dinfo cinfo _ _ x Je)).
    rewrite (statuses_assoc _ _ _ _ _ Hx). unfold modstatus. rewrite Hact.
    unfold first_installed_encoder.
    destruct (List.find _ _) as [y|]; [|done].
    unfold str_in. simpl. now rewrite orb_false_r.
Qed.

(** ** Tables with their locations

    A located table lists, with every key, the location of the container
    stored under it: the layout of a table in the store and its content at
    once. *)

Definition linner : Type := list (string * (loc * list leaf)).
Definition ltable : Type := list (string * (loc * linner)).

(** A function applied to the values of an association list. *)
Definition vmap {A B} (f : A -> B) (d : list (string * A)) : list (string * B) :=
  map (fun x => (fst x, f (snd x))) d.

(** The items of the dictionary that holds [d]. *)
Definition skel {X} (d : list (string * (loc * X))) : list (string * loc) :=
  vmap fst d.

Definition inner_at (h : list obj) (l : loc) (I : linner) : Prop :=
  h !! l = Some (ODict (skel I)) /\
  Forall (fun y => h !! fst (snd y) = Some (OList (snd (snd y)))) I.

Definition table_at (h : list obj) (t : loc) (LT : ltable) : Prop :=
  h !! t = Some (ODict (skel LT)) /\
  Forall (fun x => inner_at h (fst (snd x)) (snd (snd x))) LT.

Definition inner_locs (I : linner) : list loc := map (fun y => fst (snd y)) I.

Definition entry_locs (x : string * (loc * linner)) : list loc :=
  fst (snd x) :: inner_locs (snd (snd x)).

(** Every location of the table at [t]: [t], the inner dictionaries, the
    lists. *)
Definition table_locs (t : loc) (LT : ltable) : list loc :=
  t :: flat_map entry_locs LT.

Definition inner_content_of (I : linner) : inner_content := vmap snd I.

Definition content (LT : ltable) : table_content :=
  vmap (fun p => inner_content_of (snd p)) LT.

(** Reading a located table out of the store. *)
Definition locate_list (h : list obj) (l : loc) : option (loc * list leaf) :=
  match read_list h l with
  | Some elems => Some (l, elems)
  | None => None
  end.

Definition locate_inner (h : list obj) (d : loc) : option (loc * linner) :=
  match read_dict h d with
  | Some items =>
      match read_all (locate_list h) items with
      | Some inner => Some (d, inner)
      | None => None
      end
  | None => None
  end.

Definition locate (h : list obj) (t : loc) : option ltable :=
  match read_dict h t with
  | Some items => read_all (locate_inner h) items
  | None => None
  end.

(** Keys are unique in every dictionary of the table. *)
Definition keys_ok (LT : ltable) : bool :=
  nodupb (map fst LT) && forallb (fun x => nodupb (map fst (snd (snd x)))) LT.

Definition is_nil {A} (l : list A) : bool :=
  match l with [] => true | _ :: _ => false end.

(** No inner dictionary and no list of the table is empty: what
    [table_add] builds. *)
Definition filled (LT : ltable) : bool :=
  forallb (fun x => negb (is_nil (snd (snd x))) &&
                    forallb (fun y => negb (is_nil (snd (snd y)))) (snd (snd x))) LT.

Fixpoint nodup_locs (l : list nat) : bool :=
  match l with
  | [] => true
  | x :: r => negb (existsb (Nat.eqb x) r) && nodup_locs r
  end.

(** The invariant of a registry: its three tables are dictionaries of
    dictionaries of lists, no container is shared between two places, keys
    are unique, and no inner container is empty. *)
Definition registry_ok (h : list obj) (self : VideoHelper) : bool :=
  match locate h (_video_encoder_specs self),
        locate h (_csc_encoder_specs self),
        locate h (_video_decoder_specs self) with
  | Some LTe, Some LTc, Some LTd =>
      nodup_locs (table_locs (_video_encoder_specs self) LTe ++
                  table_locs (_csc_encoder_specs self) LTc ++
                  table_locs (_video_decoder_specs self) LTd)
      && keys_ok LTe && keys_ok LTc && keys_ok LTd
      && filled LTe && filled LTc && filled LTd
  | _, _, _ => false
  end.

(** [table.setdefault(k1, {}).setdefault(k2, []).append(v)] on a located
    table, [n] being the first unused location. *)
Definition lt_add (n : nat) (k1 k2 : string) (v : leaf) (LT : ltable) : ltable :=
  match assoc k1 LT with
  | Some (l, inner) =>
      match assoc k2 inner with
      | Some (l2, elems) =>
          assoc_set k1 (l, assoc_set k2 (l2, elems ++ [v]) inner) LT
      | None => assoc_set k1 (l, inner ++ [(k2, (n, [v]))]) LT
      end
  | None => LT ++ [(k1, (n, [(k2, (S n, [v]))]))]
  end.

(** The same on the content alone. *)
Definition tadd (k1 k2 : string) (v : leaf) (T : table_content) : table_content :=
  match assoc k1 T with
  | Some inner =>
      match assoc k2 inner with
      | Some elems => assoc_set k1 (assoc_set k2 (elems ++ [v]) inner) T
      | None => assoc_set k1 (inner ++ [(k2, [v])]) T
      end
  | None => T ++ [(k1, [(k2, [v])])]
  end.

(** *** Runs of the store primitives *)

Lemma dict_setdefault_present (d : loc) (k : string) (mk : obj) (w : World)
  items l :
  heap w !! d = Some (ODict items) -> assoc k items = Some l ->
  dict_setdefault d k mk w = (Ok l, w).
Proof.
  intros Hd Hk. unfold dict_setdefault, dict_items, mbind, M_bind, bind, load.
  rewrite Hd. cbn. now rewrite Hk.
Qed.

Lemma dict_setdefault_absent (d : loc) (k : string) (mk : obj) (w : World) items :
  heap w !! d = Some (ODict items) -> assoc k items = None ->
  dict_setdefault d k mk w =
  (Ok (length (heap w)),
   set_heap (<[d := ODict (items ++ [(k, length (heap w))])]> (heap w ++ [mk])) w).
Proof.
  intros Hd Hk. unfold dict_setdefault, dict_items, mbind, M_bind, bind, load.
  rewrite Hd. cbn. now rewrite Hk.
Qed.

Lemma list_append_run (l : loc) (v : leaf) (w : World) elems :
  heap w !! l = Some (OList elems) ->
  list_append l v w = (Ok tt, set_heap (<[l := OList (elems ++ [v])]> (heap w)) w).
Proof.
  intros Hl. unfold list_append, mbind, M_bind, bind, load. now rewrite Hl.
Qed.

Lemma set_heap_set_heap (h1 h2 : list obj) (w : World) :
  set_heap h2 (set_heap h1 w) = set_heap h2 w.
Proof. reflexivity. Qed.

Lemma heap_set_heap (h : list obj) (w : World) : heap (set_heap h w) = h.
Proof. reflexivity. Qed.

Lemma lookup_snoc_at (h : list obj) (o : obj) (n : nat) :
  length h = n -> (h ++ [o]) !! n = Some o.
Proof. intros <-. apply lookup_snoc_new. Qed.

(** The three ways [table_add] can go, on the raw store. *)
Lemma table_add_new_key1 (t : loc) (k1 k2 : string) (v : leaf) (w : World) items :
  heap w !! t = Some (ODict items) -> assoc k1 items = None ->
  table_add t k1 k2 v w =
  (Ok tt,
   set_heap
     (<[S (length (heap w)) := OList [v]]>
        (<[length (heap w) := ODict [(k2, S (length (heap w)))]]>
           (<[t := ODict (items ++ [(k1, length (heap w))])]>
              (heap w ++ [ODict []]) ++ [OList []]))) w).
Proof.
  intros Ht Hk1. pose proof (lookup_lt_Some _ _ _ Ht) as Hlt.
  unfold table_add, mbind, M_bind, bind.
  rewrite (dict_setdefault_absent _ _ _ _ _ Ht Hk1).
  erewrite (dict_setdefault_absent (length (heap w)) k2 _ _ []); [|cbn|done].
  2:{ rewrite list_lookup_insert_ne by lia. apply lookup_snoc_new. }
  cbn [heap set_heap]. rewrite length_insert, length_app, Nat.add_1_r.
  erewrite (list_append_run _ _ _ []); [reflexivity|]. cbn [heap set_heap].
  rewrite list_lookup_insert_ne by lia.
  apply lookup_snoc_at. rewrite length_insert, length_app. simpl. lia.
Qed.

Lemma table_add_new_key2 (t : loc) (k1 k2 : string) (v : leaf) (w : World)
  items l ditems :
  heap w !! t = Some (ODict items) -> assoc k1 items = Some l ->
  heap w !! l = Some (ODict ditems) -> assoc k2 ditems = None ->
  table_add t k1 k2 v w =
  (Ok tt,
   set_heap
     (<[length (heap w) := OList [v]]>
        (<[l := ODict (ditems ++ [(k2, length (heap w))])]>
           (heap w ++ [OList []]))) w).
Proof.
  intros Ht Hk1 Hl Hk2. pose proof (lookup_lt_Some _ _ _ Hl) as Hlt.
  unfold table_add, mbind, M_bind, bind.
  rewrite (dict_setdefault_present _ _ _ _ _ _ Ht Hk1).
  rewrite (dict_setdefault_absent _ _ _ _ _ Hl Hk2).
  erewrite (list_append_run _ _ _ []); [reflexivity|]. cbn [heap set_heap].
  rewrite list_lookup_insert_ne by lia. apply lookup_snoc_new.
Qed.

Lemma table_add_old_keys (t : loc) (k1 k2 : string) (v : leaf) (w : World)
  items l ditems l2 elems :
  heap w !! t = Some (ODict items) -> assoc k1 items = Some l ->
  heap w !! l = Some (ODict ditems) -> assoc k2 ditems = Some l2 ->
  heap w !! l2 = Some (OList elems) ->
  table_add t k1 k2 v w =
  (Ok tt, set_heap (<[l2 := OList (elems ++ [v])]> (heap w)) w).
Proof.
  intros Ht Hk1 Hl Hk2 Hl2. unfold table_add, mbind, M_bind, bind.
  rewrite (dict_setdefault_present _ _ _ _ _ _ Ht Hk1).
  rewrite (dict_setdefault_present _ _ _ _ _ _ Hl Hk2).
  now rewrite (list_append_run _ _ _ _ Hl2).
Qed.

(** *** Association lists *)

Lemma assoc_split {V} (k : string) (v : V) (d : list (string * V)) :
  assoc k d = Some v ->
  exists d1 d2, d = d1 ++ (k, v) :: d2 /\ assoc k d1 = None.
Proof.
  induction d as [|[k' v'] r IH]; simpl; [done|].
  destruct (String.eqb_spec k k') as [->|Hne].
  - intros [= ->]. now exists [], r.
  - intros (d1 & d2 & -> & H1)%IH. exists ((k', v') :: d1), d2.
    split; [done|]. simpl. now apply String.eqb_neq in Hne as ->.
Qed.

Lemma assoc_set_split {V} (k : string) (v v' : V) (d1 d2 : list (string * V)) :
  assoc k d1 = None ->
  assoc_set k v' (d1 ++ (k, v) :: d2) = d1 ++ (k, v') :: d2.
Proof.
  intros H. rewrite (assoc_set_app_None _ _ _ _ H). simpl.
  now rewrite String.eqb_refl.
Qed.

Lemma assoc_skel {X} (k : string) (d : list (string * (loc * X))) :
  assoc k (skel d) = option_map fst (assoc k d).
Proof.
  induction d as [|[k' [l x]] r IH]; simpl; [done|].
  now destruct (k =? k')%string.
Qed.

Lemma skel_app {X} (d1 d2 : list (string * (loc * X))) :
  skel (d1 ++ d2) = skel d1 ++ skel d2.
Proof. unfold skel, vmap. apply map_app. Qed.

Lemma assoc_vmap {A B} (f : A -> B) (k : string) (d : list (string * A)) :
  assoc k (vmap f d) = option_map f (assoc k d).
Proof.
  induction d as [|[k' a] r IH]; simpl; [done|].
  now destruct (k =? k')%string.
Qed.

Lemma assoc_set_vmap {A B} (f : A -> B) (k : string) (a : A) (d : list (string * A)) :
  assoc_set k (f a) (vmap f d) = vmap f (assoc_set k a d).
Proof.
  induction d as [|[k' a'] r IH]; simpl; [done|].
  destruct (k =? k')%string; simpl; [done | now rewrite IH].
Qed.

Lemma vmap_app {A B} (f : A -> B) (d1 d2 : list (string * A)) :
  vmap f (d1 ++ d2) = vmap f d1 ++ vmap f d2.
Proof. unfold vmap. apply map_app. Qed.

Lemma map_fst_vmap {A B} (f : A -> B) (d : list (string * A)) :
  map fst (vmap f d) = map fst d.
Proof. unfold vmap. rewrite map_map. reflexivity. Qed.

Lemma map_fst_assoc_set {V} (k : string) (v : V) (d : list (string * V)) :
  map fst (assoc_set k v d) = map fst d.
Proof.
  induction d as [|[k' v'] r IH]; simpl; [done|].
  destruct (String.eqb_spec k k') as [->|Hne]; simpl; [done | now rewrite IH].
Qed.

Lemma NoDup_app_iff {A} (a b : list A) :
  List.NoDup (a ++ b) <->
  List.NoDup a /\ List.NoDup b /\ forall x, In x a -> ~ In x b.
Proof.
  induction a as [|y r IH]; simpl.
  - split; [intros H; repeat split; [constructor | exact H | tauto] | tauto].
  - rewrite !NoDup_cons_iff, IH, in_app_iff. split.
    + intros (Hy & Hr & Hb & Hd). repeat split; try tauto.
      intros x [->|Hx]; [tauto | now apply Hd].
    + intros ((Hy & Hr) & Hb & Hd). repeat split; try tauto.
      * intros [H|H]; [tauto | apply (Hd y); tauto].
      * intros x Hx. apply Hd. now right.
Qed.

(** *** Frames *)

Lemma inner_at_frame (h h' : list obj) (l : loc) (inner : linner) :
  inner_at h l inner ->
  (forall x, In x (l :: inner_locs inner) -> h' !! x = h !! x) ->
  inner_at h' l inner.
Proof.
  intros [Hl Hf] Hagree. split.
  - rewrite Hagree by now left. exact Hl.
  - rewrite Forall_forall in *. intros y Hy. rewrite Hagree; [now apply Hf|].
    right. unfold inner_locs. now apply (in_map (fun y => fst (snd y))).
Qed.

Lemma table_at_frame (h h' : list obj) (t : loc) (LT : ltable) :
  table_at h t LT ->
  (forall x, In x (table_locs t LT) -> h' !! x = h !! x) ->
  table_at h' t LT.
Proof.
  intros [Ht Hf] Hagree. split.
  - rewrite Hagree by now left. exact Ht.
  - rewrite Forall_forall in *. intros x Hx.
    apply (inner_at_frame h); [now apply Hf|].
    intros y Hy. apply Hagree. right. apply in_flat_map. now exists x.
Qed.

Lemma inner_at_bound (h : list obj) (l : loc) (inner : linner) (x : loc) :
  inner_at h l inner -> In x (l :: inner_locs inner) -> x < length h.
Proof.
  intros [Hl Hf] [<-|Hx]; [now apply lookup_lt_Some in Hl|].
  unfold inner_locs in Hx. apply in_map_iff in Hx as (y & <- & Hy).
  rewrite Forall_forall in Hf. apply Hf in Hy. now apply lookup_lt_Some in Hy.
Qed.

Lemma table_at_bound (h : list obj) (t : loc) (LT : ltable) (x : loc) :
  table_at h t LT -> In x (table_locs t LT) -> x < length h.
Proof.
  intros [Ht Hf] [<-|Hx]; [now apply lookup_lt_Some in Ht|].
  apply in_flat_map in Hx as (e & He & Hx).
  rewrite Forall_forall in Hf. apply Hf in He.
  eapply inner_at_bound; [exact He | exact Hx].
Qed.

Lemma table_locs_split (t : loc) (d1 d2 : ltable) (k : string) (l : loc)
  (inner : linner) :
  table_locs t (d1 ++ (k, (l, inner)) :: d2) =
  t :: flat_map entry_locs d1 ++ (l :: inner_locs inner) ++ flat_map entry_locs d2.
Proof. unfold table_locs. now rewrite flat_map_app. Qed.

Lemma inner_locs_split (i1 i2 : linner) (k : string) (l : loc) (elems : list leaf) :
  inner_locs (i1 ++ (k, (l, elems)) :: i2) = inner_locs i1 ++ l :: inner_locs i2.
Proof. unfold inner_locs. now rewrite map_app. Qed.

Lemma inner_locs_snoc (inner : linner) (k : string) (l : loc) (elems : list leaf) :
  inner_locs (inner ++ [(k, (l, elems))]) = inner_locs inner ++ [l].
Proof. unfold inner_locs. now rewrite map_app. Qed.

(** *** [table_add] on a located table *)

Ltac in_solve :=
  simpl; rewrite ?in_app_iff; simpl; rewrite ?in_app_iff; simpl; tauto.

Lemma table_add_spec (t : loc) (k1 k2 : string) (v : leaf) (w : World) (LT : ltable) :
  table_at (heap w) t LT ->
  List.NoDup (table_locs t LT) ->
  exists h',
    table_add t k1 k2 v w = (Ok tt, set_heap h' w) /\
    table_at h' t (lt_add (length (heap w)) k1 k2 v LT) /\
    length (heap w) <= length h' /\
    (forall x, x < length (heap w) -> ~ In x (table_locs t LT) ->
               h' !! x = heap w !! x).
Proof.
  intros Hat Hnd. pose proof Hat as [Ht Hf].
  pose proof (lookup_lt_Some _ _ _ Ht) as Htlt.
  unfold lt_add. destruct (assoc k1 LT) as [[l inner]|] eqn:E1.
  - (* the first key is there *)
    assert (Ek1 : assoc k1 (skel LT) = Some l) by (now rewrite assoc_skel, E1).
    destruct (assoc_split _ _ _ E1) as (d1 & d2 & -> & Hd1).
    rewrite table_locs_split in Hnd.
    apply Forall_app in Hf as [Hf1 Hf2].
    apply Forall_cons_iff in Hf2 as [[Hl Hfi] Hf2]. cbn [fst snd] in Hl, Hfi.
    pose proof (lookup_lt_Some _ _ _ Hl) as Hllt.
    destruct (assoc k2 inner) as [[l2 elems]|] eqn:E2.
    + (* both keys are there *)
      assert (Ek2 : assoc k2 (skel inner) = Some l2) by (now rewrite assoc_skel, E2).
      destruct (assoc_split _ _ _ E2) as (i1 & i2 & -> & Hi1).
      rewrite inner_locs_split in Hnd.
      apply Forall_app in Hfi as [Hfi1 Hfi2].
      apply Forall_cons_iff in Hfi2 as [Hl2 Hfi2]. cbn [fst snd] in Hl2.
      pose proof (lookup_lt_Some _ _ _ Hl2) as Hl2lt.
      exists (<[l2 := OList (elems ++ [v])]> (heap w)).
      split; [eapply table_add_old_keys; eauto|].
      rewrite !assoc_set_split by done.
      apply NoDup_cons_iff in Hnd as [Hnt Hnd].
      rewrite !NoDup_app_iff in Hnd. rewrite !in_app_iff in Hnt.
      destruct Hnd as (Hn1 & (Hnl & Hn2 & Hdl) & Hd1l).
      apply NoDup_cons_iff in Hnl as [Hnl Hni].
      rewrite !NoDup_app_iff in Hni. rewrite in_app_iff in Hnl.
      destruct Hni as (Hni1 & Hni2 & Hdi).
      apply NoDup_cons_iff in Hni2 as [Hnl2 Hni2].
      split; [|split].
      * split.
        { rewrite list_lookup_insert_ne.
          - rewrite Ht. do 2 f_equal. rewrite !skel_app. simpl.
            f_equal.
          - intros ->. apply Hnt. right. left. right. apply in_or_app.
            right. now left. }
        apply Forall_app. split; [|apply Forall_cons_iff; split].
        { rewrite Forall_forall in *. intros x Hx.
          apply (inner_at_frame (heap w)); [now apply Hf1|].
          intros y Hy. apply list_lookup_insert_ne. intros ->.
          apply (Hd1l y).
          - apply in_flat_map. now exists x.
          - apply in_or_app. left. right. apply in_or_app. right. now left. }
        { cbn [fst snd]. split.
          - rewrite list_lookup_insert_ne.
            + rewrite Hl. do 2 f_equal. rewrite !skel_app. simpl. f_equal.
            + intros ->. apply Hnl. right. now left.
          - apply Forall_app. split; [|apply Forall_cons_iff; split].
            + rewrite Forall_forall in *. intros y Hy.
              rewrite list_lookup_insert_ne; [now apply Hfi1|].
              intros E. apply (Hdi l2); [|now left].
              rewrite E. unfold inner_locs.
              now apply (in_map (fun y => fst (snd y))).
            + cbn [fst snd]. now apply list_lookup_insert_eq.
            + rewrite Forall_forall in *. intros y Hy.
              rewrite list_lookup_insert_ne; [now apply Hfi2|].
              intros E. apply Hnl2. rewrite E. unfold inner_locs.
              now apply (in_map (fun y => fst (snd y))). }
        { rewrite Forall_forall in *. intros x Hx.
          apply (inner_at_frame (heap w)); [now apply Hf2|].
          intros y Hy. apply list_lookup_insert_ne. intros ->.
          apply (Hdl y).
          - right. apply in_or_app. right. now left.
          - apply in_flat_map. now exists x. }
      * rewrite length_insert. lia.
      * intros x Hx Hnot. apply list_lookup_insert_ne. intros ->.
        apply Hnot. rewrite table_locs_split, inner_locs_split. in_solve.
    + (* a new second key *)
      assert (Ek2 : assoc k2 (skel inner) = None) by (now rewrite assoc_skel, E2).
      exists (<[length (heap w) := OList [v]]>
                (<[l := ODict (skel inner ++ [(k2, length (heap w))])]>
                   (heap w ++ [OList []]))).
      split; [eapply table_add_new_key2; eauto|].
      rewrite !assoc_set_split by done.
      apply NoDup_cons_iff in Hnd as [Hnt Hnd].
      rewrite !NoDup_app_iff in Hnd. rewrite !in_app_iff in Hnt.
      destruct Hnd as (Hn1 & (Hnl & Hn2 & Hdl) & Hd1l).
      apply NoDup_cons_iff in Hnl as [Hnl Hni].
      assert (Hold : forall x, x < length (heap w) -> x <> l ->
                (<[length (heap w) := OList [v]]>
                   (<[l := ODict (skel inner ++ [(k2, length (heap w))])]>
                      (heap w ++ [OList []]))) !! x = heap w !! x).
      { intros x Hx Hxl. rewrite !list_lookup_insert_ne by lia.
        now apply lookup_snoc_old. }
      split; [|split].
      * split.
        { rewrite Hold; [|lia|].
          - rewrite Ht. do 2 f_equal. rewrite !skel_app. simpl. f_equal.
          - intros ->. apply Hnt. right. left. now left. }
        apply Forall_app. split; [|apply Forall_cons_iff; split].
        { rewrite Forall_forall in *. intros x Hx.
          pose proof (Hf1 x Hx) as Hin.
          apply (inner_at_frame (heap w)); [exact Hin|].
          intros y Hy. apply Hold; [eapply inner_at_bound; eauto|].
          intros ->. apply (Hd1l l).
          - apply in_flat_map. now exists x.
          - apply in_or_app. left. now left. }
        { cbn [fst snd]. split.
          - rewrite list_lookup_insert_ne by lia.
            rewrite list_lookup_insert_eq by (rewrite length_app; lia).
            do 2 f_equal. rewrite skel_app. reflexivity.
          - apply Forall_app. split; [|apply Forall_cons_iff; split; [|constructor]].
            + rewrite Forall_forall in *. intros y Hy.
              pose proof (Hfi y Hy) as Hlk.
              rewrite Hold; [exact Hlk | now apply lookup_lt_Some in Hlk |].
              intros E. apply Hnl. rewrite <- E. unfold inner_locs.
              now apply (in_map (fun y => fst (snd y))).
            + cbn [fst snd]. apply list_lookup_insert_eq.
              rewrite length_insert, length_app. simpl. lia. }
        { rewrite Forall_forall in *. intros x Hx.
          pose proof (Hf2 x Hx) as Hin.
          apply (inner_at_frame (heap w)); [exact Hin|].
          intros y Hy. apply Hold; [eapply inner_at_bound; eauto|].
          intros ->. apply (Hdl l); [now left|].
          apply in_flat_map. now exists x. }
      * rewrite !length_insert, length_app. simpl. lia.
      * intros x Hx Hnot. apply Hold; [exact Hx|]. intros ->.
        apply Hnot. rewrite table_locs_split. in_solve.
  - (* a new first key *)
    assert (Ek1 : assoc k1 (skel LT) = None) by (now rewrite assoc_skel, E1).
    eexists. split; [eapply table_add_new_key1; eauto|].
    set (n := length (heap w)).
    assert (Hold : forall x, x < n -> x <> t ->
              (<[S n := OList [v]]>
                 (<[n := ODict [(k2, S n)]]>
                    (<[t := ODict (skel LT ++ [(k1, n)])]> (heap w ++ [ODict []])
                     ++ [OList []]))) !! x = heap w !! x).
    { intros x Hx Hxt. rewrite !list_lookup_insert_ne by lia.
      rewrite lookup_app_l by (rewrite length_insert, length_app; simpl; lia).
      rewrite list_lookup_insert_ne by lia. now apply lookup_snoc_old. }
    unfold table_locs in Hnd. apply NoDup_cons_iff in Hnd as [Hnt Hnd].
    split; [|split].
    + split.
      { rewrite !list_lookup_insert_ne by (subst n; lia).
        rewrite lookup_app_l by (rewrite length_insert, length_app; simpl; lia).
        rewrite list_lookup_insert_eq by (rewrite length_app; lia).
        do 2 f_equal. rewrite skel_app. reflexivity. }
      apply Forall_app. split; [|apply Forall_cons_iff; split; [|constructor]].
      * rewrite Forall_forall in *. intros x Hx.
        pose proof (Hf x Hx) as Hin.
        apply (inner_at_frame (heap w)); [exact Hin|].
        intros y Hy. apply Hold; [eapply inner_at_bound; eauto|].
        intros ->. apply Hnt. apply in_flat_map. now exists x.
      * cbn [fst snd]. split.
        { rewrite list_lookup_insert_ne by lia.
          apply list_lookup_insert_eq.
          rewrite length_app, length_insert, length_app. simpl. subst n. lia. }
        apply Forall_cons_iff. split; [|constructor]. cbn [fst snd].
        apply list_lookup_insert_eq.
        rewrite length_insert, length_app, length_insert, length_app.
        simpl. subst n. lia.
    + rewrite !length_insert, length_app, length_insert, length_app. simpl. lia.
    + intros x Hx Hnot. apply Hold; [exact Hx|]. intros ->. apply Hnot. now left.
Qed.

(** *** [lt_add] keeps the shape of a table *)

Lemma content_lt_add (n : nat) (k1 k2 : string) (v : leaf) (LT : ltable) :
  content (lt_add n k1 k2 v LT) = tadd k1 k2 v (content LT).
Proof.
  unfold lt_add, tadd, content, inner_content_of. rewrite assoc_vmap.
  destruct (assoc k1 LT) as [[l inner]|]; cbn [option_map snd].
  - rewrite assoc_vmap.
    destruct (assoc k2 inner) as [[l2 elems]|]; cbn [option_map snd].
    + pose proof (assoc_set_vmap snd k2 (l2, elems ++ [v]) inner) as E.
      cbn [snd] in E. rewrite E.
      exact (eq_sym (assoc_set_vmap (fun p => vmap snd (snd p)) k1
                       (l, assoc_set k2 (l2, elems ++ [v]) inner) LT)).
    + change (vmap snd inner ++ [(k2, [v])])
        with (vmap snd inner ++ vmap snd [(k2, (n, [v]))]).
      rewrite <- vmap_app.
      exact (eq_sym (assoc_set_vmap (fun p => vmap snd (snd p)) k1
                       (l, inner ++ [(k2, (n, [v]))]) LT)).
  - now rewrite vmap_app.
Qed.

Lemma forallb_assoc_set {V} (p : string * V -> bool) (k : string) (v : V)
  (d : list (string * V)) :
  forallb p d = true -> p (k, v) = true -> forallb p (assoc_set k v d) = true.
Proof.
  intros Hd Hv. induction d as [|[k' v'] r IH]; simpl in *; [done|].
  apply andb_true_iff in Hd as [H1 H2].
  destruct (String.eqb_spec k k') as [->|Hne]; simpl.
  - now rewrite Hv, H2.
  - now rewrite H1, IH.
Qed.

Lemma forallb_assoc {V} (p : string * V -> bool) (k : string) (v : V)
  (d : list (string * V)) :
  forallb p d = true -> assoc k d = Some v -> p (k, v) = true.
Proof.
  intros Hd Hk. apply assoc_In in Hk. rewrite forallb_forall in Hd. now apply Hd.
Qed.

Lemma nodupb_snoc (l : list string) (k : string) :
  nodupb l = true -> ~ In k l -> nodupb (l ++ [k]) = true.
Proof.
  rewrite !nodupb_NoDup. intros Hl Hk. apply NoDup_app_iff.
  repeat split; [exact Hl | repeat constructor; simpl; tauto |].
  intros x Hx [->|[]]. contradiction.
Qed.

Lemma keys_ok_lt_add (n : nat) (k1 k2 : string) (v : leaf) (LT : ltable) :
  keys_ok LT = true -> keys_ok (lt_add n k1 k2 v LT) = true.
Proof.
  unfold keys_ok. rewrite !andb_true_iff. intros [Hk Hi]. unfold lt_add.
  destruct (assoc k1 LT) as [[l inner]|] eqn:E1.
  - pose proof (forallb_assoc _ _ _ _ Hi E1) as Hin. cbn [snd] in Hin.
    destruct (assoc k2 inner) as [[l2 elems]|] eqn:E2.
    + rewrite map_fst_assoc_set. split; [exact Hk|].
      apply forallb_assoc_set; [exact Hi|]. cbn [snd].
      now rewrite map_fst_assoc_set.
    + rewrite map_fst_assoc_set. split; [exact Hk|].
      apply forallb_assoc_set; [exact Hi|]. cbn [snd].
      rewrite map_app. apply nodupb_snoc; [exact Hin|].
      now apply assoc_None_keys.
  - rewrite map_app, forallb_app. split.
    + apply nodupb_snoc; [exact Hk | now apply assoc_None_keys].
    + apply andb_true_iff. split; [exact Hi | reflexivity].
Qed.

Lemma filled_lt_add (n : nat) (k1 k2 : string) (v : leaf) (LT : ltable) :
  filled LT = true -> filled (lt_add n k1 k2 v LT) = true.
Proof.
  unfold filled. intros Hf. unfold lt_add.
  destruct (assoc k1 LT) as [[l inner]|] eqn:E1.
  - pose proof (forallb_assoc _ _ _ _ Hf E1) as Hin. cbn [snd] in Hin.
    apply andb_true_iff in Hin as [Hne Hin].
    destruct (assoc k2 inner) as [[l2 elems]|] eqn:E2.
    + apply forallb_assoc_set; [exact Hf|]. cbn [snd].
      apply andb_true_iff. split.
      * destruct inner; [done|]. simpl. now destruct p as [? ?], (k2 =? s)%string.
      * apply forallb_assoc_set; [exact Hin|]. cbn [snd]. now destruct elems.
    + apply forallb_assoc_set; [exact Hf|]. cbn [snd].
      apply andb_true_iff. split; [now destruct inner|].
      rewrite forallb_app. apply andb_true_iff. split; [exact Hin | reflexivity].
  - rewrite forallb_app. apply andb_true_iff. split; [exact Hf | reflexivity].
Qed.

(** The locations of the table after [lt_add]: the old ones and at most
    the two new ones. *)
Lemma table_locs_lt_add (t : loc) (n : nat) (k1 k2 : string) (v : leaf)
  (LT : ltable) :
  exists extra,
    Permutation (table_locs t (lt_add n k1 k2 v LT)) (extra ++ table_locs t LT) /\
    List.NoDup extra /\
    forall x, In x extra -> x = n \/ x = S n.
Proof.
  unfold lt_add. destruct (assoc k1 LT) as [[l inner]|] eqn:E1.
  - destruct (assoc_split _ _ _ E1) as (d1 & d2 & -> & Hd1).
    destruct (assoc k2 inner) as [[l2 elems]|] eqn:E2.
    + destruct (assoc_split _ _ _ E2) as (i1 & i2 & -> & Hi1).
      exists []. rewrite !assoc_set_split by done.
      rewrite !table_locs_split, !inner_locs_split.
      split; [reflexivity|]. split; [constructor | intros x []].
    + exists [n]. rewrite !assoc_set_split by done.
      rewrite !table_locs_split, inner_locs_snoc.
      split; [|split; [repeat constructor; simpl; tauto | intros x [<-|[]]; tauto]].
      assert (Ea : t :: flat_map entry_locs d1 ++
                     (l :: inner_locs inner ++ [n]) ++ flat_map entry_locs d2 =
                   (t :: flat_map entry_locs d1 ++ l :: inner_locs inner) ++
                     n :: flat_map entry_locs d2).
      { simpl. rewrite <- !app_assoc. reflexivity. }
      assert (Eb : t :: flat_map entry_locs d1 ++
                     (l :: inner_locs inner) ++ flat_map entry_locs d2 =
                   (t :: flat_map entry_locs d1 ++ l :: inner_locs inner) ++
                     flat_map entry_locs d2).
      { simpl. rewrite <- !app_assoc. reflexivity. }
      rewrite Ea, Eb. symmetry.
      exact (Permutation_middle
               (t :: flat_map entry_locs d1 ++ l :: inner_locs inner)
               (flat_map entry_locs d2) n).
  - exists [n; S n]. unfold table_locs. rewrite flat_map_app. simpl.
    split; [|split].
    + exact (Permutation_app_comm (t :: flat_map entry_locs LT) [n; S n]).
    + repeat constructor; simpl; [lia | tauto].
    + intros x [<-|[<-|[]]]; tauto.
Qed.

(** *** Well formed tables *)

Definition table_ok (h : list obj) (t : loc) (LT : ltable) : Prop :=
  table_at h t LT /\ List.NoDup (table_locs t LT) /\
  keys_ok LT = true /\ filled LT = true.

(** One [table_add] on a well formed table: the table is well formed
    again, its new locations are new in the store, and every location
    outside the table is as before. *)
Lemma table_add_step (t : loc) (k1 k2 : string) (v : leaf) (w : World) (LT : ltable) :
  table_ok (heap w) t LT ->
  exists h' LT',
    table_add t k1 k2 v w = (Ok tt, set_heap h' w) /\
    table_ok h' t LT' /\
    content LT' = tadd k1 k2 v (content LT) /\
    (forall x, In x (table_locs t LT') ->
               In x (table_locs t LT) \/ length (heap w) <= x) /\
    length (heap w) <= length h' /\
    (forall x, x < length (heap w) -> ~ In x (table_locs t LT) ->
               h' !! x = heap w !! x).
Proof.
  intros (Hat & Hnd & Hk & Hf).
  destruct (table_add_spec t k1 k2 v w LT Hat Hnd) as (h' & Hrun & Hat' & Hlen & Hfr).
  destruct (table_locs_lt_add t (length (heap w)) k1 k2 v LT)
    as (extra & Hperm & Hne & Hex).
  exists h', (lt_add (length (heap w)) k1 k2 v LT).
  split; [exact Hrun|].
  assert (Hin : forall x, In x (table_locs t (lt_add (length (heap w)) k1 k2 v LT)) ->
                  In x (table_locs t LT) \/ length (heap w) <= x).
  { intros x Hx. apply (Permutation_in _ Hperm) in Hx.
    apply in_app_or in Hx as [Hx|Hx]; [|now left].
    right. destruct (Hex x Hx); lia. }
  split; [|split; [apply content_lt_add | split; [exact Hin | split; [exact Hlen | exact Hfr]]]].
  split; [exact Hat'|]. split; [|split; [now apply keys_ok_lt_add | now apply filled_lt_add]].
  eapply Permutation_NoDup; [symmetry; exact Hperm|].
  apply NoDup_app_iff. repeat split; [exact Hne | exact Hnd |].
  intros x Hx Hx'. apply (table_at_bound _ _ _ _ Hat) in Hx'.
  destruct (Hex x Hx); lia.
Qed.

Lemma NoDup_replace (A B B' C : list nat) (n : nat) :
  List.NoDup (A ++ B ++ C) ->
  List.NoDup B' ->
  (forall x, In x B' -> In x B \/ n <= x) ->
  (forall x, In x A \/ In x C -> x < n) ->
  List.NoDup (A ++ B' ++ C).
Proof.
  rewrite !NoDup_app_iff. intros (HA & (HB & HC & HBC) & HABC) HB' Hsub Hlt.
  repeat split; try assumption.
  - intros x Hx Hc. destruct (Hsub x Hx) as [Hb|Hn].
    + now apply (HBC x).
    + specialize (Hlt x (or_intror Hc)). lia.
  - intros x Hx Hbc. apply in_app_or in Hbc as [Hb|Hc].
    + destruct (Hsub x Hb) as [Hb'|Hn].
      * apply (HABC x Hx). apply in_or_app. now left.
      * specialize (Hlt x (or_introl Hx)). lia.
    + apply (HABC x Hx). apply in_or_app. now right.
Qed.

(** The invariant of a registry, on located tables. *)
Definition registry_inv (self : VideoHelper) (h : list obj) : Prop :=
  exists LTe LTc LTd,
    table_ok h (_video_encoder_specs self) LTe /\
    table_ok h (_csc_encoder_specs self) LTc /\
    table_ok h (_video_decoder_specs self) LTd /\
    List.NoDup (table_locs (_video_encoder_specs self) LTe ++
                table_locs (_csc_encoder_specs self) LTc ++
                table_locs (_video_decoder_specs self) LTd).

(** A well formed table that an update elsewhere leaves alone. *)
Lemma table_ok_frame (h h' : list obj) (t : loc) (LT : ltable) :
  table_ok h t LT ->
  (forall x, In x (table_locs t LT) -> h' !! x = h !! x) ->
  table_ok h' t LT.
Proof.
  intros (Hat & Hrest) Hagree. split; [|exact Hrest].
  eapply table_at_frame; eauto.
Qed.

Lemma table_add_keeps_registry_inv (self : VideoHelper) t k1 k2 v :
  In t [_video_encoder_specs self; _csc_encoder_specs self;
        _video_decoder_specs self] ->
  keeps (registry_inv self) (table_add t k1 k2 v).
Proof.
  intros Ht w (LTe & LTc & LTd & He & Hc & Hd & Hnd).
  assert (Hbound : forall t' LT x, table_ok (heap w) t' LT ->
            In x (table_locs t' LT) -> x < length (heap w)).
  { intros t' LT x (Hat & _) Hx. eapply table_at_bound; eauto. }
  pose proof Hnd as Hnd0. rewrite !NoDup_app_iff in Hnd0.
  destruct Hnd0 as (_ & (_ & _ & Hcd) & Hecd).
  destruct Ht as [<-|[<-|[<-|[]]]].
  - destruct (table_add_step _ k1 k2 v w LTe He)
      as (h' & LT' & Hrun & Hok & _ & Hin & Hlen & Hfr).
    rewrite Hrun. cbn [heap set_heap].
    exists LT', LTc, LTd. split; [|split; [|split]].
    + exact Hok.
    + apply (table_ok_frame (heap w)); [exact Hc|]. intros x Hx.
      apply Hfr; [exact (Hbound _ _ _ Hc Hx)|]. intros Hx'.
      apply (Hecd x Hx'). apply in_or_app. now left.
    + apply (table_ok_frame (heap w)); [exact Hd|]. intros x Hx.
      apply Hfr; [exact (Hbound _ _ _ Hd Hx)|]. intros Hx'.
      apply (Hecd x Hx'). apply in_or_app. now right.
    + apply (NoDup_replace [] (table_locs (_video_encoder_specs self) LTe)
               (table_locs (_video_encoder_specs self) LT')
               (table_locs (_csc_encoder_specs self) LTc ++
                table_locs (_video_decoder_specs self) LTd)
               (length (heap w)));
        [exact Hnd | apply Hok | exact Hin |].
      intros x [[]|Hx]. apply in_app_or in Hx as [Hx|Hx];
        [exact (Hbound _ _ _ Hc Hx) | exact (Hbound _ _ _ Hd Hx)].
  - destruct (table_add_step _ k1 k2 v w LTc Hc)
      as (h' & LT' & Hrun & Hok & _ & Hin & Hlen & Hfr).
    rewrite Hrun. cbn [heap set_heap].
    exists LTe, LT', LTd. split; [|split; [|split]].
    + apply (table_ok_frame (heap w)); [exact He|]. intros x Hx.
      apply Hfr; [exact (Hbound _ _ _ He Hx)|]. intros Hx'.
      apply (Hecd x Hx). apply in_or_app. now left.
    + exact Hok.
    + apply (table_ok_frame (heap w)); [exact Hd|]. intros x Hx.
      apply Hfr; [exact (Hbound _ _ _ Hd Hx)|]. intros Hx'.
      now apply (Hcd x Hx').
    + apply (NoDup_replace _ (table_locs (_csc_encoder_specs self) LTc) _ _
               (length (heap w)) Hnd);
        [apply Hok | exact Hin |].
      intros x [Hx|Hx]; [exact (Hbound _ _ _ He Hx) | exact (Hbound _ _ _ Hd Hx)].
  - destruct (table_add_step _ k1 k2 v w LTd Hd)
      as (h' & LT' & Hrun & Hok & _ & Hin & Hlen & Hfr).
    rewrite Hrun. cbn [heap set_heap].
    exists LTe, LTc, LT'. split; [|split; [|split]].
    + apply (table_ok_frame (heap w)); [exact He|]. intros x Hx.
      apply Hfr; [exact (Hbound _ _ _ He Hx)|]. intros Hx'.
      apply (Hecd x Hx). apply in_or_app. now right.
    + apply (table_ok_frame (heap w)); [exact Hc|]. intros x Hx.
      apply Hfr; [exact (Hbound _ _ _ Hc Hx)|]. intros Hx'.
      now apply (Hcd x Hx).
    + exact Hok.
    + rewrite app_assoc. rewrite <- (app_nil_r (table_locs _ LT')).
      apply (NoDup_replace _ (table_locs (_video_decoder_specs self) LTd) _ _
               (length (heap w))).
      * rewrite app_nil_r, <- app_assoc. exact Hnd.
      * apply Hok.
      * exact Hin.
      * intros x [Hx|[]]. apply in_app_or in Hx as [Hx|Hx];
          [exact (Hbound _ _ _ He Hx) | exact (Hbound _ _ _ Hc Hx)].
Qed.

(** ** clone *)

(** Loops that change the world, with a ghost value that follows them. *)
Lemma for_each_acc {A S} (J : S -> World -> Prop) (g : S -> A -> S)
  (xs : list A) body (s0 : S) (w : World) :
  J s0 w ->
  (forall x s w1, In x xs -> J s w1 ->
     exists w2, body x w1 = (Ok tt, w2) /\ J (g s x) w2) ->
  exists w', for_each xs body w = (Ok tt, w') /\ J (fold_left g xs s0) w'.
Proof.
  revert s0 w. induction xs as [|x r IH]; intros s0 w H0 Hb.
  - exists w. split; [done | exact H0].
  - destruct (Hb x s0 w (or_introl eq_refl) H0) as (w1 & E1 & H1).
    cbn [for_each fold_left]. unfold mbind, M_bind, bind. rewrite E1.
    apply IH; [exact H1|]. intros y s w2 Hy. apply Hb. now right.
Qed.

Lemma for_each_read {A B S} (J : S -> World -> Prop) (f : A -> option B)
  (g : S -> string * B -> S) (xs : list (string * A)) (ys : list (string * B))
  body (s0 : S) (w : World) :
  read_all f xs = Some ys ->
  J s0 w ->
  (forall k a b s w1, f a = Some b -> In (k, b) ys -> J s w1 ->
     exists w2, body (k, a) w1 = (Ok tt, w2) /\ J (g s (k, b)) w2) ->
  exists w', for_each xs body w = (Ok tt, w') /\ J (fold_left g ys s0) w'.
Proof.
  revert ys s0 w. induction xs as [|[k a] r IH]; intros ys s0 w.
  - intros [= <-] H0 _. exists w. split; [done | exact H0].
  - intros (b & T' & Hb & Hr & ->)%read_all_cons H0 Hbody.
    destruct (Hbody k a b s0 w Hb (or_introl eq_refl) H0) as (w1 & E1 & H1).
    cbn [for_each fold_left]. unfold mbind, M_bind, bind. rewrite E1.
    apply (IH T'); [done | exact H1|].
    intros k' a' b' s w2 Hf Hin. apply (Hbody k' a' b' s w2 Hf). now right.
Qed.

(** The content [deepish_clone_dict] builds from the content [T]. *)
Definition copied (T : table_content) (acc : table_content) : table_content :=
  fold_left (fun acc kv =>
    fold_left (fun acc kv' =>
      fold_left (fun acc v => tadd (fst kv) (fst kv') v acc) (snd kv') acc)
      (snd kv) acc) T acc.

(** The state of the copy while [deepish_clone_dict] runs from the world
    [w0]: nothing but the store has changed, the store of [w0] is intact,
    and the copy is a well formed table of content [acc] made of new
    locations. *)
Definition copying (w0 : World) (outd : loc) (acc : table_content) (w : World)
  : Prop :=
  w = set_heap (heap w) w0 /\
  length (heap w0) <= length (heap w) /\
  (forall x, x < length (heap w0) -> heap w !! x = heap w0 !! x) /\
  exists LT,
    table_ok (heap w) outd LT /\
    (forall x, In x (table_locs outd LT) -> length (heap w0) <= x) /\
    content LT = acc.

Lemma copying_table_add (w0 : World) (outd : loc) (acc : table_content)
  (w : World) (k1 k2 : string) (v : leaf) :
  copying w0 outd acc w ->
  exists w', table_add outd k1 k2 v w = (Ok tt, w') /\
             copying w0 outd (tadd k1 k2 v acc) w'.
Proof.
  intros (Hw & Hlen & Hpre & LT & Hok & Hnew & Hc).
  destruct (table_add_step outd k1 k2 v w LT Hok)
    as (h' & LT' & Hrun & Hok' & Hc' & Hin & Hlen' & Hfr).
  exists (set_heap h' w). split; [exact Hrun|].
  split; [|split; [|split]].
  - cbn [heap set_heap]. rewrite Hw. reflexivity.
  - cbn [heap set_heap]. lia.
  - intros x Hx. cbn [heap set_heap]. rewrite Hfr; [now apply Hpre | lia |].
    intros Hx'. apply Hnew in Hx'. lia.
  - exists LT'. cbn [heap set_heap]. split; [exact Hok'|]. split.
    + intros x Hx. destruct (Hin x Hx) as [H|H]; [now apply Hnew | lia].
    + now rewrite Hc', Hc.
Qed.

Lemma read_dict_prefix (h0 h : list obj) (d : loc) items :
  (forall x, x < length h0 -> h !! x = h0 !! x) ->
  read_dict h0 d = Some items -> read_dict h d = Some items.
Proof.
  intros Hpre. unfold read_dict.
  destruct (h0 !! d) as [o|] eqn:E; [|done].
  rewrite (Hpre d) by (now apply lookup_lt_Some in E). now rewrite E.
Qed.

Lemma read_list_prefix (h0 h : list obj) (l : loc) elems :
  (forall x, x < length h0 -> h !! x = h0 !! x) ->
  read_list h0 l = Some elems -> read_list h l = Some elems.
Proof.
  intros Hpre. unfold read_list.
  destruct (h0 !! l) as [o|] eqn:E; [|done].
  rewrite (Hpre l) by (now apply lookup_lt_Some in E). now rewrite E.
Qed.

(** The three loops of [deepish_clone_dict]. *)
Lemma copy_loops (w0 : World) (outd : loc) (items : list (string * loc))
  (T : table_content) (acc : table_content) (w : World) :
  read_all (read_inner (heap w0)) items = Some T ->
  copying w0 outd acc w ->
  exists w',
    for_each items (fun '(enc, d) =>
      ditems ← dict_items d;
      for_each ditems (fun '(ifmt, l) =>
        vs ← list_elems l;
        for_each vs (fun v => table_add outd enc ifmt v))) w = (Ok tt, w') /\
    copying w0 outd (copied T acc) w'.
Proof.
  intros HT Hw. unfold copied.
  apply (for_each_read (copying w0 outd) (read_inner (heap w0))); [exact HT | exact Hw |].
  intros enc d inner s w1 Hinner _ Hs.
  unfold read_inner in Hinner.
  destruct (read_dict (heap w0) d) as [ditems|] eqn:Hd; [|done].
  pose proof Hs as (_ & _ & Hpre & _).
  unfold mbind at 1, M_bind at 1, bind at 1.
  rewrite (dict_items_read d w1 ditems (read_dict_prefix _ _ _ _ Hpre Hd)).
  cbn [fst snd].
  apply (for_each_read (copying w0 outd) (read_list (heap w0))); [exact Hinner | exact Hs |].
  intros ifmt l elems s2 w2 Hl _ Hs2.
  pose proof Hs2 as (_ & _ & Hpre2 & _).
  unfold mbind at 1, M_bind at 1, bind at 1.
  rewrite (list_elems_read l w2 elems (read_list_prefix _ _ _ _ Hpre2 Hl)).
  cbn [fst snd].
  apply (for_each_acc (copying w0 outd)); [exact Hs2|].
  intros v s3 w3 _ Hs3. now apply copying_table_add.
Qed.

(** *** What the copy holds *)

Definition opt_list (k : string) (elems : list leaf) : inner_content :=
  match elems with
  | [] => []
  | _ :: _ => [(k, elems)]
  end.

Definition opt_inner (k : string) (inner : inner_content) : table_content :=
  match inner with
  | [] => []
  | _ :: _ => [(k, inner)]
  end.

(** [T] without its empty lists and then without its empty inner
    dictionaries: [table_add] never makes either. *)
Definition pruned (T : table_content) : table_content :=
  flat_map (fun kv =>
    opt_inner (fst kv)
      (flat_map (fun kv' => opt_list (fst kv') (snd kv')) (snd kv))) T.

(** No inner dictionary and no list of the content is empty. *)
Definition full (T : table_content) : bool :=
  forallb (fun kv => negb (is_nil (snd kv)) &&
                     forallb (fun kv' => negb (is_nil (snd kv'))) (snd kv)) T.

Lemma pruned_full (T : table_content) : full T = true -> pruned T = T.
Proof.
  unfold full, pruned. induction T as [|[e inner] r IH]; [done|].
  cbn [forallb flat_map fst snd]. rewrite !andb_true_iff.
  intros [[Hne Hin] Hr]. rewrite (IH Hr).
  assert (E : flat_map (fun kv' => opt_list (fst kv') (snd kv')) inner = inner).
  { clear Hne. induction inner as [|[k es] r' IH']; [done|].
    cbn [forallb flat_map fst snd] in *. apply andb_true_iff in Hin as [H1 H2].
    rewrite (IH' H2). now destruct es. }
  rewrite E. now destruct inner.
Qed.

Lemma opt_inner_cons (k : string) (inner : inner_content) :
  inner <> [] -> opt_inner k inner = [(k, inner)].
Proof. now destruct inner. Qed.

Lemma tadd_state (acc : table_content) (inner : inner_content) (e k : string)
  (elems : list leaf) (v : leaf) :
  assoc e acc = None -> assoc k inner = None ->
  tadd e k v (acc ++ opt_inner e (inner ++ opt_list k elems)) =
  acc ++ opt_inner e (inner ++ opt_list k (elems ++ [v])).
Proof.
  intros He Hk. unfold tadd. rewrite (assoc_app_None _ _ _ He).
  assert (Hnew : opt_inner e (inner ++ opt_list k (elems ++ [v])) =
                 [(e, inner ++ [(k, elems ++ [v])])]).
  { assert (E : opt_list k (elems ++ [v]) = [(k, elems ++ [v])])
      by (now destruct elems).
    rewrite E. apply opt_inner_cons. now destruct inner. }
  rewrite Hnew. destruct elems as [|x xs].
  - cbn [opt_list]. rewrite app_nil_r. destruct inner as [|y ys].
    + cbn. now rewrite app_nil_r.
    + cbn [opt_inner assoc]. rewrite String.eqb_refl, Hk.
      rewrite (assoc_set_app_None _ _ _ _ He). cbn [assoc_set].
      now rewrite String.eqb_refl.
  - cbn [opt_list]. rewrite opt_inner_cons by (now destruct inner).
    cbn [assoc]. rewrite String.eqb_refl.
    rewrite (assoc_app_None _ _ _ Hk). cbn [assoc]. rewrite String.eqb_refl.
    rewrite (assoc_set_app_None _ _ _ _ He). cbn [assoc_set].
    rewrite String.eqb_refl. rewrite (assoc_set_app_None _ _ _ _ Hk).
    cbn [assoc_set]. now rewrite String.eqb_refl.
Qed.

Lemma copied_elems (acc : table_content) (inner : inner_content) (e k : string)
  (elems0 elems : list leaf) :
  assoc e acc = None -> assoc k inner = None ->
  fold_left (fun acc v => tadd e k v acc) elems
    (acc ++ opt_inner e (inner ++ opt_list k elems0)) =
  acc ++ opt_inner e (inner ++ opt_list k (elems0 ++ elems)).
Proof.
  intros He Hk. revert elems0. induction elems as [|v r IH]; intros elems0.
  - now rewrite app_nil_r.
  - cbn [fold_left]. rewrite (tadd_state _ _ _ _ _ _ He Hk), IH.
    now rewrite <- app_assoc.
Qed.

Lemma assoc_flat_opt_list (k : string) (xs : inner_content) :
  ~ In k (map fst xs) ->
  assoc k (flat_map (fun kv' => opt_list (fst kv') (snd kv')) xs) = None.
Proof.
  intros Hk. apply assoc_None_keys. intros Hin. apply Hk.
  apply in_map_iff in Hin as ([k' es] & <- & Hin).
  apply in_flat_map in Hin as ([k'' es'] & Hx & Hy).
  cbn [fst snd] in Hy. destruct es'; [done|]. destruct Hy as [[= <- <-]|[]].
  now apply (in_map fst) in Hx.
Qed.

Lemma copied_inner (acc : table_content) (e : string)
  (done_ todo : inner_content) :
  assoc e acc = None ->
  List.NoDup (map fst (done_ ++ todo)) ->
  fold_left (fun acc kv' =>
               fold_left (fun acc v => tadd e (fst kv') v acc) (snd kv') acc)
    todo
    (acc ++ opt_inner e (flat_map (fun kv' => opt_list (fst kv') (snd kv')) done_)) =
  acc ++ opt_inner e
           (flat_map (fun kv' => opt_list (fst kv') (snd kv')) (done_ ++ todo)).
Proof.
  intros He. revert done_. induction todo as [|[k es] r IH]; intros done_ Hnd.
  - now rewrite app_nil_r.
  - cbn [fold_left fst snd].
    assert (Hk : ~ In k (map fst done_)).
    { rewrite map_app in Hnd. apply NoDup_app_iff in Hnd as (_ & _ & Hd).
      intros Hin. apply (Hd k Hin). now left. }
    pose proof (copied_elems acc _ e k [] es He (assoc_flat_opt_list k done_ Hk)) as E.
    cbn [opt_list app] in E. rewrite app_nil_r in E. rewrite E.
    specialize (IH (done_ ++ [(k, es)])).
    rewrite <- app_assoc in IH. cbn [app] in IH.
    rewrite flat_map_app in IH. cbn [flat_map fst snd] in IH.
    rewrite app_nil_r in IH. now apply IH.
Qed.

Lemma copied_pruned (T acc : table_content) :
  table_wf T = true ->
  (forall k, In k (map fst T) -> assoc k acc = None) ->
  copied T acc = acc ++ pruned T.
Proof.
  unfold table_wf. rewrite andb_true_iff, nodupb_NoDup, forallb_forall.
  intros [Hnd Hinner]. revert acc. unfold copied.
  induction T as [|[e inner] r IH]; intros acc Hacc.
  - unfold pruned. simpl. now rewrite app_nil_r.
  - inversion Hnd as [|? ? Hnotin Hnd']; subst.
    cbn [fold_left fst snd].
    assert (He : assoc e acc = None) by (apply Hacc; now left).
    assert (Hk : List.NoDup (map fst inner)).
    { apply nodupb_NoDup. apply (Hinner (e, inner)). now left. }
    pose proof (copied_inner acc e [] inner He Hk) as E.
    cbn [flat_map opt_inner app] in E. rewrite app_nil_r in E. rewrite E.
    rewrite IH; [| exact Hnd' | intros x Hx; apply Hinner; now right |].
    + unfold pruned. cbn [flat_map fst snd]. now rewrite <- app_assoc.
    + intros k Hk'. rewrite assoc_app_None by (apply Hacc; now right).
      destruct (flat_map _ inner); [done|]. cbn [opt_inner assoc].
      destruct (String.eqb_spec k e) as [->|Hne]; [contradiction | done].
Qed.

(** *** Located tables and the readers *)

Lemma read_inner_of_inner_at (h : list obj) (l : loc) (inner : linner) :
  inner_at h l inner -> read_inner h l = Some (inner_content_of inner).
Proof.
  intros [Hl Hf]. unfold read_inner, read_dict. rewrite Hl. clear Hl.
  induction inner as [|[k [l2 elems]] r IH]; [done|].
  apply Forall_cons_iff in Hf as [H1 H2]. cbn [fst snd] in H1.
  cbn. unfold read_list at 1. rewrite H1.
  unfold skel, vmap in IH. now rewrite (IH H2).
Qed.

Lemma read_table_of_table_at (h : list obj) (t : loc) (LT : ltable) :
  table_at h t LT -> read_table h t = Some (content LT).
Proof.
  intros [Ht Hf]. unfold read_table, read_dict. rewrite Ht. clear Ht.
  induction LT as [|[k [l inner]] r IH]; [done|].
  apply Forall_cons_iff in Hf as [H1 H2]. cbn [fst snd] in H1.
  cbn. rewrite (read_inner_of_inner_at _ _ _ H1).
  unfold skel, vmap in IH. now rewrite (IH H2).
Qed.

Lemma inner_at_of_locate (h : list obj) (d : loc) (l : loc) (inner : linner) :
  locate_inner h d = Some (l, inner) -> l = d /\ inner_at h d inner.
Proof.
  unfold locate_inner, read_dict.
  destruct (h !! d) as [[items|?]|] eqn:Hd; [|done|done].
  destruct (read_all (locate_list h) items) as [I0|] eqn:Hr; [|done].
  intros [= <- <-]. split; [done|]. unfold inner_at. rewrite Hd. clear Hd.
  revert I0 Hr. induction items as [|[k l2] r IH]; intros I0.
  - intros [= <-]. split; [done | constructor].
  - intros (b & I' & Hb & Hr & ->)%read_all_cons.
    unfold locate_list, read_list in Hb.
    destruct (h !! l2) as [[?|elems]|] eqn:Hl2; [done| |done].
    injection Hb as <-. destruct (IH _ Hr) as [E Hf].
    split; [injection E as E; unfold skel, vmap in *; cbn; now rewrite <- E|].
    constructor; [exact Hl2 | exact Hf].
Qed.

Lemma table_at_of_locate (h : list obj) (t : loc) (LT : ltable) :
  locate h t = Some LT -> table_at h t LT.
Proof.
  unfold locate, read_dict.
  destruct (h !! t) as [[items|?]|] eqn:Ht; [|done|done].
  intros Hr. unfold table_at. rewrite Ht. clear Ht.
  revert LT Hr. induction items as [|[k d] r IH]; intros LT.
  - intros [= <-]. split; [done | constructor].
  - intros ([l inner] & LT' & Hb & Hr & ->)%read_all_cons.
    apply inner_at_of_locate in Hb as [-> Hin].
    destruct (IH _ Hr) as [E Hf].
    split; [injection E as E; unfold skel, vmap in *; cbn; now rewrite <- E|].
    constructor; [exact Hin | exact Hf].
Qed.

Lemma locate_of_inner_at (h : list obj) (l : loc) (inner : linner) :
  inner_at h l inner -> locate_inner h l = Some (l, inner).
Proof.
  intros [Hl Hf]. unfold locate_inner, read_dict. rewrite Hl.
  assert (E : read_all (locate_list h) (skel inner) = Some inner).
  { clear Hl. induction inner as [|[k [l2 elems]] r IH]; [done|].
    apply Forall_cons_iff in Hf as [H1 H2]. cbn [fst snd] in H1.
    cbn. unfold locate_list at 1, read_list. rewrite H1.
    unfold skel, vmap in IH. now rewrite (IH H2). }
  now rewrite E.
Qed.

Lemma locate_of_table_at (h : list obj) (t : loc) (LT : ltable) :
  table_at h t LT -> locate h t = Some LT.
Proof.
  intros [Ht Hf]. unfold locate, read_dict. rewrite Ht. clear Ht.
  induction LT as [|[k [l inner]] r IH]; [done|].
  apply Forall_cons_iff in Hf as [H1 H2]. cbn [fst snd] in H1.
  cbn. rewrite (locate_of_inner_at _ _ _ H1).
  unfold skel, vmap in IH. now rewrite (IH H2).
Qed.

Lemma nodup_locs_NoDup (l : list nat) : nodup_locs l = true <-> List.NoDup l.
Proof.
  induction l as [|x r IH]; simpl.
  - split; [constructor | done].
  - rewrite andb_true_iff, negb_true_iff, IH, NoDup_cons_iff.
    assert (E : existsb (Nat.eqb x) r = false <-> ~ In x r).
    { split.
      - intros H Hin. assert (existsb (Nat.eqb x) r = true); [|congruence].
        apply existsb_exists. exists x. split; [done | apply Nat.eqb_refl].
      - intros H. destruct (existsb (Nat.eqb x) r) eqn:E; [|done].
        apply existsb_exists in E as (y & Hy & ->%Nat.eqb_eq). contradiction. }
    now rewrite E.
Qed.

Lemma forallb_vmap {A B} (p : string * B -> bool) (q : string * A -> bool)
  (f : A -> B) (d : list (string * A)) :
  (forall x, p (fst x, f (snd x)) = q x) ->
  forallb p (vmap f d) = forallb q d.
Proof.
  intros H. induction d as [|x r IH]; [done|].
  cbn [vmap map forallb]. fold (vmap f r). now rewrite H, IH.
Qed.

Lemma table_wf_content (LT : ltable) : table_wf (content LT) = keys_ok LT.
Proof.
  unfold table_wf, keys_ok, content. rewrite map_fst_vmap. f_equal.
  apply forallb_vmap. intros [k [l inner]]. cbn [fst snd].
  unfold inner_content_of. now rewrite map_fst_vmap.
Qed.

Lemma full_content (LT : ltable) : full (content LT) = filled LT.
Proof.
  unfold full, filled, content.
  apply forallb_vmap. intros [k [l inner]]. cbn [fst snd]. f_equal.
  - now destruct inner.
  - unfold inner_content_of. apply forallb_vmap. now intros [k2 [l2 elems]].
Qed.

Lemma registry_ok_inv (h : list obj) (self : VideoHelper) :
  registry_ok h self = true <-> registry_inv self h.
Proof.
  unfold registry_ok, registry_inv, table_ok. split.
  - destruct (locate h (_video_encoder_specs self)) as [LTe|] eqn:He; [|done].
    destruct (locate h (_csc_encoder_specs self)) as [LTc|] eqn:Hc; [|done].
    destruct (locate h (_video_decoder_specs self)) as [LTd|] eqn:Hd; [|done].
    rewrite !andb_true_iff, nodup_locs_NoDup.
    intros [[[[[[Hnd ?] ?] ?] ?] ?] ?].
    pose proof Hnd as Hnd0. rewrite !NoDup_app_iff in Hnd0.
    destruct Hnd0 as (? & (? & ? & _) & _).
    exists LTe, LTc, LTd.
    split; [|split; [|split; [|exact Hnd]]];
      (split; [now apply table_at_of_locate | repeat split; assumption]).
  - intros (LTe & LTc & LTd & (He & _ & ? & ?) & (Hc & _ & ? & ?) &
            (Hd & _ & ? & ?) & Hnd).
    rewrite (locate_of_table_at _ _ _ He), (locate_of_table_at _ _ _ Hc),
      (locate_of_table_at _ _ _ Hd).
    rewrite !andb_true_iff, nodup_locs_NoDup. repeat split; assumption.
Qed.

(** *** The copies *)

(** At [l] the store [h] holds a well formed table of content [T] whose
    locations all lie in [[lo, hi)]. *)
Definition copy_in (lo hi : nat) (h : list obj) (T : table_content) (l : loc)
  : Prop :=
  exists LT,
    table_ok h l LT /\ content LT = T /\
    forall x, In x (table_locs l LT) -> lo <= x < hi.

Lemma copy_in_frame (lo hi : nat) (h h' : list obj) (T : table_content) (l : loc) :
  copy_in lo hi h T l ->
  (forall x, x < length h -> h' !! x = h !! x) ->
  copy_in lo hi h' T l.
Proof.
  intros (LT & Hok & Hc & Hin) Hpre. exists LT. split; [|split; assumption].
  apply (table_ok_frame h); [exact Hok|].
  intros x Hx. apply Hpre. destruct Hok as [Hat _].
  eapply table_at_bound; eauto.
Qed.

Lemma deepish_clone_dict_spec (src : loc) (w : World) (T : table_content) :
  read_table (heap w) src = Some T ->
  table_wf T = true -> full T = true ->
  exists h',
    deepish_clone_dict src w = (Ok (length (heap w)), set_heap h' w) /\
    length (heap w) < length h' /\
    (forall x, x < length (heap w) -> h' !! x = heap w !! x) /\
    copy_in (length (heap w)) (length h') h' T (length (heap w)).
Proof.
  intros Hread Hwf Hfull. unfold read_table in Hread.
  destruct (read_dict (heap w) src) as [items|] eqn:Hd; [|done].
  set (n := length (heap w)).
  set (w1 := set_heap (heap w ++ [ODict []]) w).
  assert (H1 : copying w n [] w1).
  { split; [reflexivity|]. split; [cbn; rewrite length_app; lia|].
    split; [intros x Hx; now apply lookup_snoc_old|].
    exists []. split; [|split; [|reflexivity]].
    - split; [|split; [|split; reflexivity]].
      + split; [apply lookup_snoc_new | constructor].
      + repeat constructor. simpl. tauto.
    - intros x [<-|[]]. subst n. lia. }
  destruct (copy_loops w n items T [] w1 Hread H1) as (w2 & Hrun & H2).
  rewrite (copied_pruned T [] Hwf (fun _ _ => eq_refl)) in H2.
  rewrite (pruned_full T Hfull) in H2. cbn [app] in H2.
  destruct H2 as (Hw2 & Hlen & Hpre & LT & Hok & Hnew & Hc).
  exists (heap w2). split; [|split; [|split]].
  - unfold deepish_clone_dict.
    unfold mbind at 1, M_bind at 1, bind at 1.
    change (alloc (ODict []) w) with (Ok n, w1). cbv beta iota.
    unfold mbind at 1, M_bind at 1, bind at 1.
    rewrite (dict_items_read src w1 items).
    + unfold mbind at 1, M_bind at 1, bind at 1.
      rewrite Hrun. unfold ret. apply f_equal2; [reflexivity | exact Hw2].
    + apply (read_dict_prefix (heap w)); [|exact Hd].
      intros x Hx. now apply lookup_snoc_old.
  - destruct Hok as (Hat & _).
    apply (table_at_bound _ _ _ n) in Hat; [exact Hat | now left].
  - exact Hpre.
  - exists LT. split; [exact Hok|]. split; [exact Hc|].
    intros x Hx. split; [now apply Hnew|].
    destruct Hok as (Hat & _). eapply table_at_bound; eauto.
Qed.

Lemma or_new_dict_spec (l : loc) (w : World) (lo hi : nat) (T : table_content) :
  copy_in lo hi (heap w) T l ->
  exists l' h' lo' hi',
    or_new_dict (Some l) w = (Ok l', set_heap h' w) /\
    (forall x, x < length (heap w) -> h' !! x = heap w !! x) /\
    copy_in lo' hi' h' T l' /\
    ((lo' = lo /\ hi' = hi /\ length h' = length (heap w)) \/
     (lo' = length (heap w) /\ hi' = S (length (heap w)) /\
      length h' = S (length (heap w)))).
Proof.
  intros (LT & Hok & Hc & Hin). pose proof Hok as ((Hl & Hf) & _).
  unfold or_new_dict, mbind, M_bind, bind, load. rewrite Hl.
  destruct LT as [|e r].
  - cbn [skel vmap map truthy].
    exists (length (heap w)), (heap w ++ [ODict []]), (length (heap w)),
      (S (length (heap w))).
    split; [reflexivity|]. split; [intros x Hx; now apply lookup_snoc_old|].
    split; [|right; rewrite length_app; simpl; lia].
    exists []. split; [|split; [exact Hc|]].
    + split; [|split; [|split; reflexivity]].
      * split; [apply lookup_snoc_new | constructor].
      * repeat constructor. simpl. tauto.
    + intros x [<-|[]]. lia.
  - cbn [skel vmap map truthy].
    exists l, (heap w), lo, hi. split; [now destruct w|].
    split; [done|]. split; [|left; auto].
    exists (e :: r). auto.
Qed.

(** [h'] holds every object of [h], unchanged. *)
Definition extends (h h' : list obj) : Prop :=
  length h <= length h' /\ forall x, x < length h -> h' !! x = h !! x.

Lemma extends_refl (h : list obj) : extends h h.
Proof. split; [lia | auto]. Qed.

Lemma extends_trans (h1 h2 h3 : list obj) :
  extends h1 h2 -> extends h2 h3 -> extends h1 h3.
Proof.
  intros [L1 P1] [L2 P2]. split; [lia|].
  intros x Hx. rewrite P2 by lia. now apply P1.
Qed.

Lemma table_ok_extends (h h' : list obj) (t : loc) (LT : ltable) :
  table_ok h t LT -> extends h h' -> table_ok h' t LT.
Proof.
  intros Hok [_ Hpre]. apply (table_ok_frame h); [exact Hok|].
  intros x Hx. apply Hpre. destruct Hok as [Hat _]. eapply table_at_bound; eauto.
Qed.

Lemma copy_in_extends (lo hi : nat) (h h' : list obj) (T : table_content) (l : loc) :
  copy_in lo hi h T l -> extends h h' -> copy_in lo hi h' T l.
Proof. intros Hc [_ Hpre]. eapply copy_in_frame; eauto. Qed.

Lemma table_ok_content (h : list obj) (t : loc) (LT : ltable) :
  table_ok h t LT ->
  read_table h t = Some (content LT) /\
  table_wf (content LT) = true /\ full (content LT) = true.
Proof.
  intros (Hat & _ & Hk & Hf). split; [now apply read_table_of_table_at|].
  now rewrite table_wf_content, full_content.
Qed.

(** One table copied: [deepish_clone_dict] on a well formed table. *)
Lemma deepish_clone_dict_ok (src : loc) (w : World) (LT : ltable) :
  table_ok (heap w) src LT ->
  exists h',
    deepish_clone_dict src w = (Ok (length (heap w)), set_heap h' w) /\
    length (heap w) < length h' /\
    extends (heap w) h' /\
    copy_in (length (heap w)) (length h') h' (content LT) (length (heap w)).
Proof.
  intros (Hread & Hwf & Hfull)%table_ok_content.
  destruct (deepish_clone_dict_spec src w _ Hread Hwf Hfull)
    as (h' & Hrun & Hlt & Hpre & Hc).
  exists h'. repeat split; try assumption. lia.
Qed.

Lemma or_new_dict_ok (l : loc) (w : World) (lo hi : nat) (T : table_content) :
  copy_in lo hi (heap w) T l ->
  exists l' h' lo' hi',
    or_new_dict (Some l) w = (Ok l', set_heap h' w) /\
    extends (heap w) h' /\
    copy_in lo' hi' h' T l' /\
    ((lo' = lo /\ hi' = hi /\ length h' = length (heap w)) \/
     (lo' = length (heap w) /\ hi' = S (length (heap w)) /\
      length h' = S (length (heap w)))).
Proof.
  intros Hc. destruct (or_new_dict_spec l w lo hi T Hc)
    as (l' & h' & lo' & hi' & Hrun & Hpre & Hc' & Hcase).
  exists l', h', lo', hi'. repeat split; try assumption.
  destruct Hcase as [(_ & _ & ->)|(_ & _ & ->)]; lia.
Qed.

(** The copying part of [clone]. *)
Lemma clone_run (self0 : VideoHelper) (enc csc dec : loc) (w : World)
  (LTe LTc LTd : ltable) :
  table_ok (heap w) enc LTe ->
  table_ok (heap w) csc LTc ->
  table_ok (heap w) dec LTd ->
  exists h' ce cc cd lo1 hi1 lo2 hi2 lo3 hi3,
    (ves ← deepish_clone_dict enc;
     ces ← deepish_clone_dict csc;
     vds ← deepish_clone_dict dec;
     c ← new_VideoHelper (Some ves) (Some ces) (Some vds) true;
     ret (self0, c)) w =
    (Ok (self0, mkVideoHelper ce cc cd [] [] [] [] true), set_heap h' w) /\
    extends (heap w) h' /\
    copy_in lo1 hi1 h' (content LTe) ce /\
    copy_in lo2 hi2 h' (content LTc) cc /\
    copy_in lo3 hi3 h' (content LTd) cd /\
    length (heap w) <= lo1 /\ length (heap w) <= lo2 /\ length (heap w) <= lo3 /\
    (hi1 <= lo2 \/ hi2 <= lo1) /\ (hi1 <= lo3 \/ hi3 <= lo1) /\
    (hi2 <= lo3 \/ hi3 <= lo2).
Proof.
  intros He Hc Hd.
  destruct (deepish_clone_dict_ok enc w LTe He) as (h2 & R2 & L2 & X2 & C2).
  destruct (deepish_clone_dict_ok csc (set_heap h2 w) LTc
              (table_ok_extends _ _ _ _ Hc X2))
    as (h3 & R3 & L3 & X3 & C3).
  assert (X13 : extends (heap w) h3) by (eapply extends_trans; eauto).
  destruct (deepish_clone_dict_ok dec (set_heap h3 (set_heap h2 w)) LTd
              (table_ok_extends _ _ _ _ Hd X13))
    as (h4 & R4 & L4 & X4 & C4).
  assert (X24 : extends h2 h4) by (eapply extends_trans; eauto).
  destruct (or_new_dict_ok (length (heap w))
              (set_heap h4 (set_heap h3 (set_heap h2 w))) _ _ _
              (copy_in_extends _ _ _ _ _ _ C2 X24))
    as (l1 & h5 & lo1 & hi1 & R5 & X5 & C5 & K5).
  assert (X35 : extends h3 h5) by (eapply extends_trans; eauto).
  destruct (or_new_dict_ok (length (heap (set_heap h2 w)))
              (set_heap h5 (set_heap h4 (set_heap h3 (set_heap h2 w)))) _ _ _
              (copy_in_extends _ _ _ _ _ _ C3 X35))
    as (l2 & h6 & lo2 & hi2 & R6 & X6 & C6 & K6).
  assert (X46 : extends h4 h6) by (eapply extends_trans; eauto).
  destruct (or_new_dict_ok (length (heap (set_heap h3 (set_heap h2 w))))
              (set_heap h6 (set_heap h5 (set_heap h4 (set_heap h3 (set_heap h2 w)))))
              _ _ _ (copy_in_extends _ _ _ _ _ _ C4 X46))
    as (l3 & h7 & lo3 & hi3 & R7 & X7 & C7 & K7).
  exists h7, l1, l2, l3, lo1, hi1, lo2, hi2, lo3, hi3.
  split.
  { unfold mbind at 1, M_bind at 1, bind at 1. rewrite R2.
    unfold mbind at 1, M_bind at 1, bind at 1. rewrite R3.
    unfold mbind at 1, M_bind at 1, bind at 1. rewrite R4.
    unfold mbind at 1, M_bind at 1, bind at 1. unfold new_VideoHelper.
    unfold mbind at 1, M_bind at 1, bind at 1. rewrite R5.
    unfold mbind at 1, M_bind at 1, bind at 1. rewrite R6.
    unfold mbind at 1, M_bind at 1, bind at 1. rewrite R7.
    reflexivity. }
  cbn [heap set_heap] in *.
  pose proof (proj1 X2). pose proof (proj1 X3). pose proof (proj1 X4).
  pose proof (proj1 X5). pose proof (proj1 X6). pose proof (proj1 X7).
  split.
  { apply (extends_trans _ h6); [|exact X7].
    apply (extends_trans _ h5); [|exact X6].
    apply (extends_trans _ h4); [|exact X5].
    apply (extends_trans _ h3); [exact X13 | exact X4]. }
  split; [apply (copy_in_extends _ _ h5); [exact C5 | eapply extends_trans; eauto]|].
  split; [apply (copy_in_extends _ _ h6); [exact C6 | exact X7]|].
  split; [exact C7|].
  destruct K5 as [(-> & -> & E5)|(-> & -> & E5)],
           K6 as [(-> & -> & E6)|(-> & -> & E6)],
           K7 as [(-> & -> & E7)|(-> & -> & E7)]; lia.
Qed.

(** * Further properties of the module selection *)

(** ** What [filt] returns for any selection *)

(** The names [filt] reports as unknown. *)
Definition unknown_names (inlist all_list : list string) : list string :=
  List.filter (fun x => nonempty x && negb (str_in x all_list))
              (excluded inlist ++ included inlist).

(** The warning of one call of [filt]: none with "all" in the selection,
    none when every name is known. *)
Definition filt_warnings (name : string) (inlist all_list : list string)
  : list log_record :=
  if str_in "all" (included inlist) then []
  else match unknown_names inlist all_list with
       | [] => []
       | notfound => [Warn "Warning: ignoring unknown %s: %s"
                        [AStr name; ACsv notfound]]
       end.

(** The list [filt] returns. *)
Definition selected (inlist all_list : list string) : list string :=
  List.filter (fun x => negb (str_in x (excluded inlist)))
    (if str_in "all" (included inlist) then all_list else included inlist).

Definition add_log (l : list log_record) (w : World) : World :=
  mkWorld (heap w) (codecs w) (log w ++ l) (teardowns w).

Lemma add_log_nil (w : World) : add_log [] w = w.
Proof. destruct w. unfold add_log. cbn. now rewrite app_nil_r. Qed.

Lemma add_log_add_log (l1 l2 : list log_record) (w : World) :
  add_log l2 (add_log l1 w) = add_log (l1 ++ l2) w.
Proof. unfold add_log. cbn. now rewrite app_assoc. Qed.

Lemma filt_run (name : string) (inlist all_list : list string) (w : World) :
  filt name inlist all_list w =
    (Ok (selected inlist all_list), add_log (filt_warnings name inlist all_list) w).
Proof.
  unfold filt, selected, filt_warnings, unknown_names.
  fold (excluded inlist). fold (included inlist).
  unfold mbind, M_bind, bind.
  destruct (str_in "all" (included inlist)).
  - cbn. now rewrite add_log_nil.
  - destruct (List.filter _ (excluded inlist ++ included inlist)) as [|x r].
    + cbn. now rewrite add_log_nil.
    + reflexivity.
Qed.

Lemma startswith_dash_inv (y : string) :
  startswith y "-" = true -> y = "-" +:+ str_tail y.
Proof.
  unfold startswith. destruct y as [|c r]; [done|]. cbn [String.prefix str_tail].
  destruct (ascii_dec "-" c) as [<-|]; [done | discriminate].
Qed.

Lemma In_excluded (x : string) (inlist : list string) :
  In x (excluded inlist) <-> In ("-" +:+ x) inlist.
Proof.
  unfold excluded. rewrite in_map_iff. split.
  - intros (y & <- & Hy). apply filter_In in Hy as [Hy Hp].
    apply andb_true_iff in Hp as [_ Hs].
    now rewrite <- (startswith_dash_inv y Hs).
  - intros H. exists ("-" +:+ x). split; [done|].
    apply filter_In. split; [exact H|]. now rewrite startswith_dash.
Qed.

Lemma In_included (x : string) (inlist : list string) :
  In x (included inlist) <->
  In x inlist /\ x <> "" /\ startswith x "-" = false.
Proof.
  unfold included. rewrite filter_In, andb_true_iff, negb_true_iff.
  unfold nonempty. rewrite negb_true_iff, String.eqb_neq. tauto.
Qed.

Lemma all_included (inlist : list string) :
  str_in "all" (included inlist) = str_in "all" inlist.
Proof.
  apply eq_true_iff_eq. rewrite !str_in_true, In_included.
  split; [tauto|]. intros H. split; [exact H|]. split; [discriminate | reflexivity].
Qed.

Lemma In_selected (x : string) (inlist all_list : list string) :
  In x (selected inlist all_list) <->
  ~ In ("-" +:+ x) inlist /\
  (if str_in "all" inlist then In x all_list
   else In x inlist /\ x <> "" /\ startswith x "-" = false).
Proof.
  unfold selected. rewrite filter_In, negb_true_iff, str_in_false, In_excluded.
  rewrite all_included. destruct (str_in "all" inlist); [tauto|].
  rewrite In_included. tauto.
Qed.

Lemma filter_all_true_on {A} (f : A -> bool) (l : list A) :
  (forall x, In x l -> f x = true) -> List.filter f l = l.
Proof.
  induction l as [|x r IH]; intros H; [done|]. cbn [List.filter].
  rewrite (H x) by now left. f_equal. apply IH. intros y Hy. apply H. now right.
Qed.

Lemma filter_none_on {A} (f : A -> bool) (l : list A) :
  (forall x, In x l -> f x = false) -> List.filter f l = [].
Proof.
  induction l as [|x r IH]; intros H; [done|]. cbn [List.filter].
  rewrite (H x) by now left. apply IH. intros y Hy. apply H. now right.
Qed.

Lemma set_modules_run (self : VideoHelper) (ve cm vd : list string) (w : World) :
  _initialized self = false ->
  set_modules self ve cm vd w =
    (Ok (set_enabled (selected ve ALL_VIDEO_ENCODER_OPTIONS)
           (selected cm ALL_CSC_MODULE_OPTIONS)
           (selected vd ALL_VIDEO_DECODER_OPTIONS) self),
     add_log (filt_warnings "video encoders" ve ALL_VIDEO_ENCODER_OPTIONS ++
              filt_warnings "csc modules" cm ALL_CSC_MODULE_OPTIONS ++
              filt_warnings "video decoders" vd ALL_VIDEO_DECODER_OPTIONS) w).
Proof.
  intros Hinit. unfold set_modules, mbind, M_bind, bind, assert_.
  rewrite Hinit. cbn [negb ret]. rewrite !filt_run.
  now rewrite !add_log_add_log.
Qed.

(** ** The catalog *)

(** The probe of [try_import_modules] for one codec name. *)
Definition probed (codec_name : string) : bool :=
  match assoc codec_name CODEC_TO_MODULE with
  | Some module_name => has_codec_module module_name
  | None => false
  end.

Lemma try_import_modules_known (codec_names : list string) :
  Forall (fun n => is_Some (assoc n CODEC_TO_MODULE)) codec_names ->
  try_import_modules codec_names = Some (List.filter probed codec_names).
Proof.
  induction 1 as [|n r [m Hm] Hr IH]; [done|].
  cbn [try_import_modules List.filter]. unfold probed at 1.
  rewrite Hm, IH. now destruct (has_codec_module m).
Qed.

Lemma try_import_modules_unknown (codec_names : list string) :
  Exists (fun n => assoc n CODEC_TO_MODULE = None) codec_names ->
  try_import_modules codec_names = None.
Proof.
  induction 1 as [n r Hn|n r Hr IH]; cbn [try_import_modules].
  - now rewrite Hn.
  - rewrite IH. now destruct (assoc n CODEC_TO_MODULE).
Qed.

(** A name that can be given to [set_modules] to mean itself. *)
Definition plain_name (x : string) : bool :=
  nonempty x && negb (startswith x "-") && negb (x =? "all")%string.

Lemma catalog_filter (names : list string) :
  Forall (fun n => is_Some (assoc n CODEC_TO_MODULE)) names ->
  default [] (try_import_modules names) = List.filter probed names.
Proof. intros H. now rewrite try_import_modules_known. Qed.

Lemma known_literal (names : list string) :
  forallb (fun n => match assoc n CODEC_TO_MODULE with
                    | Some _ => true | None => false end) names = true ->
  Forall (fun n => is_Some (assoc n CODEC_TO_MODULE)) names.
Proof.
  rewrite forallb_forall, List.Forall_forall. intros H n Hn.
  specialize (H n Hn). now destruct (assoc n CODEC_TO_MODULE).
Qed.

Lemma ALL_VIDEO_ENCODER_OPTIONS_eq :
  ALL_VIDEO_ENCODER_OPTIONS =
  List.filter probed ["x264"; "vpx"; "x265"; "nvenc"; "ffmpeg"].
Proof. apply catalog_filter, known_literal. reflexivity. Qed.

Lemma HARDWARE_ENCODER_OPTIONS_eq :
  HARDWARE_ENCODER_OPTIONS = List.filter probed ["nvenc"].
Proof. apply catalog_filter, known_literal. reflexivity. Qed.

Lemma ALL_CSC_MODULE_OPTIONS_eq :
  ALL_CSC_MODULE_OPTIONS = List.filter probed ["swscale"; "cython"; "libyuv"].
Proof. apply catalog_filter, known_literal. reflexivity. Qed.

Lemma ALL_VIDEO_DECODER_OPTIONS_eq :
  ALL_VIDEO_DECODER_OPTIONS = List.filter probed ["avcodec2"; "vpx"].
Proof. apply catalog_filter, known_literal. reflexivity. Qed.

Lemma forallb_filter_of {A} (p q : A -> bool) (l : list A) :
  forallb p l = true -> forallb p (List.filter q l) = true.
Proof.
  rewrite !forallb_forall. intros H x Hx. apply filter_In in Hx as [Hx _]. auto.
Qed.

Lemma catalogs_plain :
  forallb plain_name ALL_VIDEO_ENCODER_OPTIONS = true /\
  forallb plain_name ALL_CSC_MODULE_OPTIONS = true /\
  forallb plain_name ALL_VIDEO_DECODER_OPTIONS = true.
Proof.
  rewrite ALL_VIDEO_ENCODER_OPTIONS_eq, ALL_CSC_MODULE_OPTIONS_eq,
    ALL_VIDEO_DECODER_OPTIONS_eq.
  repeat split; apply forallb_filter_of; reflexivity.
Qed.

(** Plain names of the catalog are selected as they are, and no warning
    is due. *)
Lemma plain_selection (name : string) (inlist all_list : list string) :
  forallb plain_name inlist = true ->
  incl inlist all_list ->
  selected inlist all_list = inlist /\ filt_warnings name inlist all_list = [].
Proof.
  intros Hp Hincl. rewrite forallb_forall in Hp.
  assert (Hx : forall x, In x inlist ->
             x <> "" /\ startswith x "-" = false /\ x <> "all").
  { intros x Hin. specialize (Hp x Hin). unfold plain_name, nonempty in Hp.
    rewrite !andb_true_iff, !negb_true_iff, !String.eqb_neq in Hp. tauto. }
  assert (Hinc : included inlist = inlist).
  { unfold included. apply filter_all_true_on. intros x Hin.
    destruct (Hx x Hin) as (H1 & H2 & _). unfold nonempty.
    rewrite H2. apply String.eqb_neq in H1. now rewrite H1. }
  assert (Hexc : excluded inlist = []).
  { unfold excluded. rewrite (filter_none_on _ inlist); [done|].
    intros x Hin. destruct (Hx x Hin) as (_ & H2 & _). rewrite H2.
    apply andb_false_r. }
  assert (Hall : str_in "all" (included inlist) = false).
  { rewrite Hinc. apply str_in_false. intros Hin.
    now destruct (Hx _ Hin) as (_ & _ & H3). }
  unfold selected, filt_warnings, unknown_names. rewrite Hall, Hinc, Hexc.
  cbn [app]. split.
  - apply filter_all_true_on. intros x _. reflexivity.
  - rewrite (filter_none_on _ inlist); [done|].
    intros x Hin. apply andb_false_iff. right.
    apply negb_false_iff, str_in_true, Hincl, Hin.
Qed.

Lemma In_unknown_names (x : string) (inlist all_list : list string) :
  In x (unknown_names inlist all_list) <->
  x <> "" /\ ~ In x all_list /\
  (In ("-" +:+ x) inlist \/ (In x inlist /\ startswith x "-" = false)).
Proof.
  unfold unknown_names. rewrite filter_In, in_app_iff, In_excluded, In_included.
  rewrite andb_true_iff, negb_true_iff, str_in_false. unfold nonempty.
  rewrite negb_true_iff, String.eqb_neq. tauto.
Qed.

(** ** set_modules on any selection *)

(** [set_modules] on a registry that is not initialized returns for every
    selection.  A name is enabled exactly when the selection does not
    exclude it (no entry "-name") and either the selection has "all" and
    the name is in the catalog, or the selection names it (a non-empty
    entry without a leading "-"): in or out of the catalog.  The tables,
    the cleanup list, the flag and the store are as before. *)
Theorem set_modules_selection (self : VideoHelper) (ve cm vd : list string)
  (w : World) :
  _initialized self = false ->
  exists self' w',
    set_modules self ve cm vd w = (Ok self', w') /\
    (forall x, In x (video_encoders self') <->
       ~ In ("-" +:+ x) ve /\
       (if str_in "all" ve then In x ALL_VIDEO_ENCODER_OPTIONS
        else In x ve /\ x <> "" /\ startswith x "-" = false)) /\
    (forall x, In x (csc_modules self') <->
       ~ In ("-" +:+ x) cm /\
       (if str_in "all" cm then In x ALL_CSC_MODULE_OPTIONS
        else In x cm /\ x <> "" /\ startswith x "-" = false)) /\
    (forall x, In x (video_decoders self') <->
       ~ In ("-" +:+ x) vd /\
       (if str_in "all" vd then In x ALL_VIDEO_DECODER_OPTIONS
        else In x vd /\ x <> "" /\ startswith x "-" = false)) /\
    _video_encoder_specs self' = _video_encoder_specs self /\
    _csc_encoder_specs self' = _csc_encoder_specs self /\
    _video_decoder_specs self' = _video_decoder_specs self /\
    _cleanup_modules self' = _cleanup_modules self /\
    _initialized self' = false /\
    heap w' = heap w /\ codecs w' = codecs w /\ teardowns w' = teardowns w.
Proof.
  intros Hinit. eexists _, _. split; [now apply set_modules_run|].
  cbn [video_encoders csc_modules video_decoders set_enabled
       _video_encoder_specs _csc_encoder_specs _video_decoder_specs
       _cleanup_modules _initialized heap codecs teardowns add_log].
  split; [intros x; apply In_selected|].
  split; [intros x; apply In_selected|].
  split; [intros x; apply In_selected|].
  repeat split. exact Hinit.
Qed.

(** [set_modules] logs at most one warning for each of the three
    selections, in the order encoders, csc modules, decoders, and nothing
    else.  The warning of a selection is logged exactly when the selection
    does not have "all" and some non-empty name it includes or excludes is
    not in the catalog; it lists those names, the excluded ones first. *)
Theorem set_modules_warnings (self : VideoHelper) (ve cm vd : list string)
  (w : World) :
  _initialized self = false ->
  exists self' w' We Wc Wd,
    set_modules self ve cm vd w = (Ok self', w') /\
    log w' = log w ++ We ++ Wc ++ Wd /\
    (forall W name inlist all_list,
       In (W, name, inlist, all_list)
          [(We, "video encoders", ve, ALL_VIDEO_ENCODER_OPTIONS);
           (Wc, "csc modules", cm, ALL_CSC_MODULE_OPTIONS);
           (Wd, "video decoders", vd, ALL_VIDEO_DECODER_OPTIONS)] ->
       exists notfound,
         (forall x, In x notfound <->
            x <> "" /\ ~ In x all_list /\
            (In ("-" +:+ x) inlist \/ (In x inlist /\ startswith x "-" = false))) /\
         W = if str_in "all" inlist then []
             else match notfound with
                  | [] => []
                  | _ :: _ => [Warn "Warning: ignoring unknown %s: %s"
                                 [AStr name; ACsv notfound]]
                  end).
Proof.
  intros Hinit.
  exists (set_enabled (selected ve ALL_VIDEO_ENCODER_OPTIONS)
            (selected cm ALL_CSC_MODULE_OPTIONS)
            (selected vd ALL_VIDEO_DECODER_OPTIONS) self).
  eexists _, (filt_warnings "video encoders" ve ALL_VIDEO_ENCODER_OPTIONS),
    (filt_warnings "csc modules" cm ALL_CSC_MODULE_OPTIONS),
    (filt_warnings "video decoders" vd ALL_VIDEO_DECODER_OPTIONS).
  split; [now apply set_modules_run|]. split; [reflexivity|].
  intros W name inlist all_list HW.
  assert (E : W = filt_warnings name inlist all_list).
  { destruct HW as [HW|[HW|[HW|[]]]]; now inversion HW. }
  subst W. exists (unknown_names inlist all_list).
  split; [intros x; apply In_unknown_names|].
  unfold filt_warnings. rewrite all_included.
  destruct (str_in "all" inlist); [done|].
  now destruct (unknown_names inlist all_list).
Qed.

(** The call of [main]: given the three catalogs themselves, [set_modules]
    enables each catalog as it is and logs no warning, whatever modules
    can be imported. *)
Theorem set_modules_catalogs (self : VideoHelper) (w : World) :
  _initialized self = false ->
  set_modules self ALL_VIDEO_ENCODER_OPTIONS ALL_CSC_MODULE_OPTIONS
    ALL_VIDEO_DECODER_OPTIONS w =
  (Ok (set_enabled ALL_VIDEO_ENCODER_OPTIONS ALL_CSC_MODULE_OPTIONS
         ALL_VIDEO_DECODER_OPTIONS self), w).
Proof.
  intros Hinit. rewrite set_modules_run by exact Hinit.
  destruct catalogs_plain as (Pe & Pc & Pd).
  destruct (plain_selection "video encoders" _ _ Pe (incl_refl _)) as [-> ->].
  destruct (plain_selection "csc modules" _ _ Pc (incl_refl _)) as [-> ->].
  destruct (plain_selection "video decoders" _ _ Pd (incl_refl _)) as [-> ->].
  cbn [app]. now rewrite add_log_nil.
Qed.

(** The catalogs: [try_import_modules] keeps, in the order given, the
    names whose module of [CODEC_TO_MODULE] can be imported, and fails (the
    [KeyError] of the lookup) as soon as one name is not in that table.
    Hence every hardware encoder of the catalog is in the encoder catalog,
    and "vpx", probed through the one module "vpx", is in the encoder
    catalog exactly when it is in the decoder catalog. *)
Theorem try_import_modules_spec (codec_names : list string) :
  (Forall (fun n => is_Some (assoc n CODEC_TO_MODULE)) codec_names ->
   exists names,
     try_import_modules codec_names = Some names /\
     names = List.filter probed codec_names /\
     forall x, In x names <->
       In x codec_names /\
       exists module_name,
         assoc x CODEC_TO_MODULE = Some module_name /\
         importable ("xpra.codecs." +:+ module_name) = true) /\
  (Exists (fun n => assoc n CODEC_TO_MODULE = None) codec_names ->
   try_import_modules codec_names = None) /\
  incl HARDWARE_ENCODER_OPTIONS ALL_VIDEO_ENCODER_OPTIONS /\
  (In "vpx" ALL_VIDEO_ENCODER_OPTIONS <-> In "vpx" ALL_VIDEO_DECODER_OPTIONS).
Proof.
  split; [|split; [apply try_import_modules_unknown | split]].
  - intros Hk. exists (List.filter probed codec_names).
    split; [now apply try_import_modules_known|]. split; [reflexivity|].
    intros x. rewrite filter_In. unfold probed, has_codec_module.
    split.
    + intros [Hin Hp]. split; [exact Hin|].
      destruct (assoc x CODEC_TO_MODULE) as [m|]; [eauto | discriminate].
    + intros [Hin (m & -> & Hm)]. auto.
  - rewrite HARDWARE_ENCODER_OPTIONS_eq, ALL_VIDEO_ENCODER_OPTIONS_eq.
    intros x. rewrite !filter_In. intros [[<-|[]] Hp]. split; [|exact Hp].
    simpl. tauto.
  - rewrite ALL_VIDEO_ENCODER_OPTIONS_eq, ALL_VIDEO_DECODER_OPTIONS_eq.
    rewrite !filter_In. simpl. intuition congruence.
Qed.

(** * Further properties of the tables *)

(** ** Adding to a table, on its content *)

Lemma assoc_assoc_set_eq {V} (k : string) (v : V) (d : list (string * V)) :
  is_Some (assoc k d) -> assoc k (assoc_set k v d) = Some v.
Proof.
  induction d as [|[k' v'] r IH]; simpl; [intros [? [=]]|].
  destruct (String.eqb_spec k k') as [->|Hne]; simpl.
  - now rewrite String.eqb_refl.
  - apply String.eqb_neq in Hne as ->. exact IH.
Qed.

Lemma assoc_assoc_set_ne {V} (k k' : string) (v : V) (d : list (string * V)) :
  k' <> k -> assoc k' (assoc_set k v d) = assoc k' d.
Proof.
  intros Hne. induction d as [|[k0 v0] r IH]; simpl; [done|].
  destruct (String.eqb_spec k k0) as [->|Hne0]; simpl.
  - now apply String.eqb_neq in Hne as ->.
  - now rewrite IH.
Qed.

Lemma assoc_snoc_eq {V} (k : string) (v : V) (d : list (string * V)) :
  assoc k d = None -> assoc k (d ++ [(k, v)]) = Some v.
Proof.
  intros H. rewrite (assoc_app_None _ _ _ H). simpl. now rewrite String.eqb_refl.
Qed.

Lemma assoc_snoc_ne {V} (k k' : string) (v : V) (d : list (string * V)) :
  k' <> k -> assoc k' (d ++ [(k, v)]) = assoc k' d.
Proof.
  intros Hne. induction d as [|[k0 v0] r IH]; simpl.
  - now apply String.eqb_neq in Hne as ->.
  - now rewrite IH.
Qed.

(** The list stored under [(k1, k2)], empty when there is none:
    [table.get(k1, {}).get(k2, [])]. *)
Definition specs_at (T : table_content) (k1 k2 : string) : list leaf :=
  match assoc k1 T with
  | Some inner => default [] (assoc k2 inner)
  | None => []
  end.

Lemma specs_at_tadd_eq (k1 k2 : string) (v : leaf) (T : table_content) :
  specs_at (tadd k1 k2 v T) k1 k2 = specs_at T k1 k2 ++ [v].
Proof.
  unfold specs_at, tadd. destruct (assoc k1 T) as [inner|] eqn:E1.
  - destruct (assoc k2 inner) as [elems|] eqn:E2.
    + rewrite assoc_assoc_set_eq by (rewrite E1; eauto).
      rewrite assoc_assoc_set_eq by (rewrite E2; eauto). reflexivity.
    + rewrite assoc_assoc_set_eq by (rewrite E1; eauto).
      now rewrite assoc_snoc_eq.
  - rewrite assoc_snoc_eq by exact E1. simpl. now rewrite String.eqb_refl.
Qed.

Lemma specs_at_tadd_ne (k1 k2 k1' k2' : string) (v : leaf) (T : table_content) :
  (k1', k2') <> (k1, k2) ->
  specs_at (tadd k1 k2 v T) k1' k2' = specs_at T k1' k2'.
Proof.
  intros Hne. unfold specs_at, tadd.
  destruct (String.eqb_spec k1' k1) as [->|H1].
  - assert (H2 : k2' <> k2) by congruence.
    destruct (assoc k1 T) as [inner|] eqn:E1.
    + destruct (assoc k2 inner) as [elems|] eqn:E2;
        rewrite assoc_assoc_set_eq by (rewrite E1; eauto).
      * now rewrite assoc_assoc_set_ne.
      * now rewrite assoc_snoc_ne.
    + rewrite assoc_snoc_eq by exact E1. simpl.
      now apply String.eqb_neq in H2 as ->.
  - destruct (assoc k1 T) as [inner|] eqn:E1.
    + destruct (assoc k2 inner); now rewrite assoc_assoc_set_ne.
    + now rewrite assoc_snoc_ne.
Qed.

Lemma keys_tadd (k1 k2 : string) (v : leaf) (T : table_content) :
  map fst (tadd k1 k2 v T) =
  if str_in k1 (map fst T) then map fst T else map fst T ++ [k1].
Proof.
  unfold tadd. destruct (assoc k1 T) as [inner|] eqn:E1.
  - assert (H : str_in k1 (map fst T) = true).
    { apply str_in_true. destruct (in_dec string_dec k1 (map fst T)) as [|Hn]; [done|].
      apply assoc_None_keys in Hn. congruence. }
    rewrite H. destruct (assoc k2 inner); apply map_fst_assoc_set.
  - assert (H : str_in k1 (map fst T) = false).
    { apply str_in_false. now apply assoc_None_keys. }
    rewrite H. now rewrite map_app.
Qed.

Lemma leaves_are_tadd (kind : leaf -> bool) (k1 k2 : string) (v : leaf)
  (T : table_content) :
  kind v = true -> leaves_are kind T = true ->
  leaves_are kind (tadd k1 k2 v T) = true.
Proof.
  intros Hv HT. unfold leaves_are, tadd in *.
  destruct (assoc k1 T) as [inner|] eqn:E1.
  - pose proof (forallb_assoc _ _ _ _ HT E1) as Hin. cbn [snd] in Hin.
    destruct (assoc k2 inner) as [elems|] eqn:E2.
    + apply forallb_assoc_set; [exact HT|]. cbn [snd].
      apply forallb_assoc_set; [exact Hin|]. cbn [snd].
      pose proof (forallb_assoc _ _ _ _ Hin E2) as He. cbn [snd] in He.
      rewrite forallb_app. apply andb_true_iff. split; [exact He|].
      simpl. now rewrite Hv.
    + apply forallb_assoc_set; [exact HT|]. cbn [snd].
      rewrite forallb_app. apply andb_true_iff. split; [exact Hin|].
      simpl. now rewrite Hv.
  - rewrite forallb_app. apply andb_true_iff. split; [exact HT|].
    simpl. now rewrite Hv.
Qed.

(** ** Adding to one of the three tables of a registry *)

(** One [table_add] on the first of three separate tables. *)
Lemma table_add_first (t1 t2 t3 : loc) (k1 k2 : string) (v : leaf) (w : World)
  (LT1 LT2 LT3 : ltable) :
  table_ok (heap w) t1 LT1 -> table_ok (heap w) t2 LT2 ->
  table_ok (heap w) t3 LT3 ->
  List.NoDup (table_locs t1 LT1 ++ table_locs t2 LT2 ++ table_locs t3 LT3) ->
  exists h' LT1',
    table_add t1 k1 k2 v w = (Ok tt, set_heap h' w) /\
    table_ok h' t1 LT1' /\
    content LT1' = tadd k1 k2 v (content LT1) /\
    table_ok h' t2 LT2 /\ table_ok h' t3 LT3 /\
    List.NoDup (table_locs t1 LT1' ++ table_locs t2 LT2 ++ table_locs t3 LT3) /\
    length (heap w) <= length h'.
Proof.
  intros H1 H2 H3 Hnd.
  assert (Hbound : forall t' LT x, table_ok (heap w) t' LT ->
            In x (table_locs t' LT) -> x < length (heap w)).
  { intros t' LT x (Hat & _) Hx. eapply table_at_bound; eauto. }
  pose proof Hnd as Hnd0. rewrite !NoDup_app_iff in Hnd0.
  destruct Hnd0 as (_ & _ & Hsep).
  destruct (table_add_step t1 k1 k2 v w LT1 H1)
    as (h' & LT' & Hrun & Hok & Hc & Hin & Hlen & Hfr).
  exists h', LT'. split; [exact Hrun|]. split; [exact Hok|]. split; [exact Hc|].
  split; [|split; [|split; [|exact Hlen]]].
  - apply (table_ok_frame (heap w)); [exact H2|]. intros x Hx.
    apply Hfr; [exact (Hbound _ _ _ H2 Hx)|]. intros Hx'.
    apply (Hsep x Hx'). apply in_or_app. now left.
  - apply (table_ok_frame (heap w)); [exact H3|]. intros x Hx.
    apply Hfr; [exact (Hbound _ _ _ H3 Hx)|]. intros Hx'.
    apply (Hsep x Hx'). apply in_or_app. now right.
  - apply (NoDup_replace [] (table_locs t1 LT1) (table_locs t1 LT')
             (table_locs t2 LT2 ++ table_locs t3 LT3) (length (heap w)));
      [exact Hnd | apply Hok | exact Hin |].
    intros x [[]|Hx]. apply in_app_or in Hx as [Hx|Hx];
      [exact (Hbound _ _ _ H2 Hx) | exact (Hbound _ _ _ H3 Hx)].
Qed.

(** The registry [self] is well formed in the store [h] and its tables
    hold [Te], [Tc] and [Td]. *)
Definition registry_holds (h : list obj) (self : VideoHelper)
  (Te Tc Td : table_content) : Prop :=
  exists LTe LTc LTd,
    table_ok h (_video_encoder_specs self) LTe /\
    table_ok h (_csc_encoder_specs self) LTc /\
    table_ok h (_video_decoder_specs self) LTd /\
    List.NoDup (table_locs (_video_encoder_specs self) LTe ++
                table_locs (_csc_encoder_specs self) LTc ++
                table_locs (_video_decoder_specs self) LTd) /\
    content LTe = Te /\ content LTc = Tc /\ content LTd = Td.

Lemma registry_holds_inv (h : list obj) (self : VideoHelper) Te Tc Td :
  registry_holds h self Te Tc Td -> registry_inv self h.
Proof.
  intros (LTe & LTc & LTd & He & Hc & Hd & Hnd & _). now exists LTe, LTc, LTd.
Qed.

Lemma registry_inv_holds (h : list obj) (self : VideoHelper) :
  registry_inv self h -> exists Te Tc Td, registry_holds h self Te Tc Td.
Proof.
  intros (LTe & LTc & LTd & He & Hc & Hd & Hnd).
  exists (content LTe), (content LTc), (content LTd), LTe, LTc, LTd. auto 10.
Qed.

Lemma registry_holds_read (h : list obj) (self : VideoHelper) Te Tc Td :
  registry_holds h self Te Tc Td ->
  read_table h (_video_encoder_specs self) = Some Te /\
  read_table h (_csc_encoder_specs self) = Some Tc /\
  read_table h (_video_decoder_specs self) = Some Td.
Proof.
  intros (LTe & LTc & LTd & He & Hc & Hd & _ & <- & <- & <-).
  repeat split; apply read_table_of_table_at;
    [apply He | apply Hc | apply Hd].
Qed.

Lemma add_encoder_spec_step (self : VideoHelper) (e c : string) (v : leaf)
  (w : World) Te Tc Td :
  registry_holds (heap w) self Te Tc Td ->
  exists h',
    table_add (_video_encoder_specs self) e c v w = (Ok tt, set_heap h' w) /\
    registry_holds h' self (tadd e c v Te) Tc Td /\
    length (heap w) <= length h'.
Proof.
  intros (LTe & LTc & LTd & He & Hc & Hd & Hnd & <- & <- & <-).
  destruct (table_add_first _ _ _ e c v w LTe LTc LTd He Hc Hd Hnd)
    as (h' & LT' & Hrun & H1 & Hcont & H2 & H3 & Hnd' & Hlen).
  exists h'. split; [exact Hrun|]. split; [|exact Hlen].
  exists LT', LTc, LTd. auto 10.
Qed.

Lemma add_csc_spec_step (self : VideoHelper) (e c : string) (v : leaf)
  (w : World) Te Tc Td :
  registry_holds (heap w) self Te Tc Td ->
  exists h',
    table_add (_csc_encoder_specs self) e c v w = (Ok tt, set_heap h' w) /\
    registry_holds h' self Te (tadd e c v Tc) Td /\
    length (heap w) <= length h'.
Proof.
  intros (LTe & LTc & LTd & He & Hc & Hd & Hnd & <- & <- & <-).
  assert (Hnd2 : List.NoDup (table_locs (_csc_encoder_specs self) LTc ++
                             table_locs (_video_encoder_specs self) LTe ++
                             table_locs (_video_decoder_specs self) LTd)).
  { eapply Permutation_NoDup; [|exact Hnd]. apply Permutation_app_swap_app. }
  destruct (table_add_first _ _ _ e c v w LTc LTe LTd Hc He Hd Hnd2)
    as (h' & LT' & Hrun & H1 & Hcont & H2 & H3 & Hnd' & Hlen).
  exists h'. split; [exact Hrun|]. split; [|exact Hlen].
  exists LTe, LT', LTd.
  split; [exact H2|]. split; [exact H1|]. split; [exact H3|].
  split; [|auto].
  eapply Permutation_NoDup; [|exact Hnd']. apply Permutation_app_swap_app.
Qed.

Lemma add_decoder_step (self : VideoHelper) (e c : string) (v : leaf)
  (w : World) Te Tc Td :
  registry_holds (heap w) self Te Tc Td ->
  exists h',
    table_add (_video_decoder_specs self) e c v w = (Ok tt, set_heap h' w) /\
    registry_holds h' self Te Tc (tadd e c v Td) /\
    length (heap w) <= length h'.
Proof.
  intros (LTe & LTc & LTd & He & Hc & Hd & Hnd & <- & <- & <-).
  assert (Hnd2 : List.NoDup (table_locs (_video_decoder_specs self) LTd ++
                             table_locs (_video_encoder_specs self) LTe ++
                             table_locs (_csc_encoder_specs self) LTc)).
  { eapply Permutation_NoDup; [|exact Hnd].
    rewrite app_assoc. apply Permutation_app_comm. }
  destruct (table_add_first _ _ _ e c v w LTd LTe LTc Hd He Hc Hnd2)
    as (h' & LT' & Hrun & H1 & Hcont & H2 & H3 & Hnd' & Hlen).
  exists h'. split; [exact Hrun|]. split; [|exact Hlen].
  exists LTe, LTc, LT'.
  split; [exact H2|]. split; [exact H3|]. split; [exact H1|].
  split; [|auto].
  eapply Permutation_NoDup; [|exact Hnd'].
  rewrite (app_assoc (table_locs _ LTe)). apply Permutation_app_comm.
Qed.

(** ** The invariant of a registry with typed leaves *)

Definition typed (Te Tc Td : table_content) : bool :=
  leaves_are is_spec Te && leaves_are is_spec Tc && leaves_are is_decoder Td.

(** [self] is well formed in [h], with specs in its encoder and csc
    tables and decoder entries in its decoder table. *)
Definition registry_good (self : VideoHelper) (h : list obj) : Prop :=
  exists Te Tc Td, registry_holds h self Te Tc Td /\ typed Te Tc Td = true.

Lemma registry_good_iff (self : VideoHelper) (h : list obj) :
  registry_good self h <->
  registry_ok h self = true /\ registry_typed h self = true.
Proof.
  split.
  - intros (Te & Tc & Td & Hh & Ht). split.
    + apply registry_ok_inv. eapply registry_holds_inv; eauto.
    + unfold registry_typed.
      destruct (registry_holds_read _ _ _ _ _ Hh) as (-> & -> & ->). exact Ht.
  - intros [Hok Ht]. apply registry_ok_inv, registry_inv_holds in Hok.
    destruct Hok as (Te & Tc & Td & Hh). exists Te, Tc, Td. split; [exact Hh|].
    unfold registry_typed in Ht.
    destruct (registry_holds_read _ _ _ _ _ Hh) as (E1 & E2 & E3).
    now rewrite E1, E2, E3 in Ht.
Qed.

Lemma add_encoder_spec_good (self : VideoHelper) (e c : string) (spec : Spec) :
  keeps (registry_good self) (add_encoder_spec self e c spec).
Proof.
  intros w (Te & Tc & Td & Hh & Ht). unfold add_encoder_spec.
  destruct (add_encoder_spec_step self e c (LSpec spec) w Te Tc Td Hh)
    as (h' & Hrun & Hh' & _).
  rewrite Hrun. cbn [heap set_heap]. eexists _, _, _. split; [exact Hh'|].
  unfold typed in *. rewrite !andb_true_iff in *.
  destruct Ht as [[H1 H2] H3]. repeat split; try assumption.
  now apply leaves_are_tadd.
Qed.

Lemma add_csc_spec_good (self : VideoHelper) (e c : string) (spec : Spec) :
  keeps (registry_good self) (add_csc_spec self e c spec).
Proof.
  intros w (Te & Tc & Td & Hh & Ht). unfold add_csc_spec.
  destruct (add_csc_spec_step self e c (LSpec spec) w Te Tc Td Hh)
    as (h' & Hrun & Hh' & _).
  rewrite Hrun. cbn [heap set_heap]. eexists _, _, _. split; [exact Hh'|].
  unfold typed in *. rewrite !andb_true_iff in *.
  destruct Ht as [[H1 H2] H3]. repeat split; try assumption.
  now apply leaves_are_tadd.
Qed.

Lemma add_decoder_good (self : VideoHelper) (e c : string)
  (decoder_name : string) (decoder_module : Codec.module) :
  keeps (registry_good self) (add_decoder self e c decoder_name decoder_module).
Proof.
  intros w (Te & Tc & Td & Hh & Ht). unfold add_decoder.
  destruct (add_decoder_step self e c (LDecoder decoder_name decoder_module)
              w Te Tc Td Hh) as (h' & Hrun & Hh' & _).
  rewrite Hrun. cbn [heap set_heap]. eexists _, _, _. split; [exact Hh'|].
  unfold typed in *. rewrite !andb_true_iff in *.
  destruct Ht as [[H1 H2] H3]. repeat split; try assumption.
  now apply leaves_are_tadd.
Qed.

(** ** The loops at the end of [init_csc_options] on a typed csc table *)

(** The csc table can be read and holds specs only. *)
Definition csc_typed (self : VideoHelper) (h : list obj) : Prop :=
  exists Tc,
    read_table h (_csc_encoder_specs self) = Some Tc /\
    leaves_are is_spec Tc = true.

Lemma registry_good_csc_typed (self : VideoHelper) (h : list obj) :
  registry_good self h -> csc_typed self h.
Proof.
  intros (Te & Tc & Td & Hh & Ht). exists Tc.
  destruct (registry_holds_read _ _ _ _ _ Hh) as (_ & Hc & _).
  split; [exact Hc|]. unfold typed in Ht. rewrite !andb_true_iff in Ht. tauto.
Qed.

Lemma sorted_codec_types_run (specs : loc) (w : World) (elems : list leaf) :
  read_list (heap w) specs = Some elems -> forallb is_spec elems = true ->
  exists ts, sorted_codec_types specs w = (Ok ts, w).
Proof.
  unfold read_list. intros Hl Hs.
  destruct (codec_types_run elems w Hs) as (ts & Hts).
  exists (sorted ts). unfold sorted_codec_types, mbind, M_bind, bind, load.
  destruct (heap w !! specs) as [[?|?]|]; [done| |done].
  injection Hl as ->. now rewrite Hts.
Qed.

(** On such a table the loops return. *)
Lemma log_csc_options_run (self : VideoHelper) (w : World) :
  csc_typed self (heap w) -> log_csc_options self w = (Ok tt, w).
Proof.
  intros (Tc & Hread & Ht). unfold read_table in Hread.
  destruct (read_dict (heap w) (_csc_encoder_specs self)) as [items|] eqn:Hd;
    [|done].
  unfold log_csc_options. unfold mbind at 1, M_bind at 1, bind at 1.
  rewrite (dict_items_read _ _ _ Hd).
  assert (Hall : forall src inner dst elems,
            In (src, inner) (sorted_items Tc) ->
            In (dst, elems) (sorted_items inner) ->
            forallb is_spec elems = true).
  { intros src inner dst elems H1 H2.
    apply (Permutation_in _ (sorted_items_perm _)) in H1.
    apply (Permutation_in _ (sorted_items_perm _)) in H2.
    unfold leaves_are in Ht. rewrite forallb_forall in Ht.
    specialize (Ht _ H1). cbn [snd] in Ht. rewrite forallb_forall in Ht.
    exact (Ht _ H2). }
  apply read_all_sorted_items in Hread.
  match goal with |- for_each _ ?body w = _ =>
    destruct (for_each_read (fun (_ : unit) w1 => w1 = w) (read_inner (heap w))
                (fun s _ => s) (sorted_items items) (sorted_items Tc) body tt w
                Hread eq_refl) as (w' & Hrun & ->); [|exact Hrun]
  end.
  intros src d inner [] w1 Hinner Hin ->. exists w. split; [|done].
  unfold read_inner in Hinner.
  destruct (read_dict (heap w) d) as [ditems|] eqn:Hdd; [|done].
  unfold mbind at 1, M_bind at 1, bind at 1. rewrite (dict_items_read _ _ _ Hdd).
  apply read_all_sorted_items in Hinner.
  match goal with |- for_each _ ?body w = _ =>
    destruct (for_each_read (fun (_ : unit) w1 => w1 = w) (read_list (heap w))
                (fun s _ => s) (sorted_items ditems) (sorted_items inner) body
                tt w Hinner eq_refl) as (w' & Hrun & ->); [|exact Hrun]
  end.
  intros dst specs elems [] w1 Hl Hin2 ->. exists w. split; [|done].
  destruct (sorted_codec_types_run specs w elems Hl (Hall _ _ _ _ Hin Hin2))
    as (ts & Hts).
  unfold mbind, M_bind, bind. now rewrite Hts.
Qed.

(** ** init, for a property that each of the three add methods keeps *)

Section InitKeepsTyped.

Variable I : list obj -> Prop.
Variable self : VideoHelper.
Hypothesis add_encoder_spec_keeps :
  forall e c spec, keeps I (add_encoder_spec self e c spec).
Hypothesis add_csc_spec_keeps :
  forall e c spec, keeps I (add_csc_spec self e c spec).
Hypothesis add_decoder_keeps :
  forall e c n m, keeps I (add_decoder self e c n m).
Hypothesis I_csc_typed : forall h, I h -> csc_typed self h.

Lemma init_video_encoder_option_keeps_typed name :
  keeps I (init_video_encoder_option self name).
Proof.
  unfold init_video_encoder_option.
  repeat keeps_step; apply add_encoder_spec_keeps.
Qed.

Lemma init_csc_option_keeps_typed name : keeps I (init_csc_option self name).
Proof.
  unfold init_csc_option.
  repeat keeps_step; apply add_csc_spec_keeps.
Qed.

Lemma init_video_decoder_option_keeps_typed name :
  keeps I (init_video_decoder_option self name).
Proof.
  unfold init_video_decoder_option.
  repeat keeps_step; apply add_decoder_keeps.
Qed.

Lemma init_video_encoders_options_safe_typed :
  safe I (init_video_encoders_options self).
Proof.
  unfold init_video_encoders_options. cbv zeta.
  repeat keeps_step; apply init_video_encoder_option_keeps_typed.
Qed.

Lemma log_csc_options_safe_typed : safe I (log_csc_options self).
Proof.
  intros w Hw. rewrite (log_csc_options_run self w (I_csc_typed _ Hw)). exact Hw.
Qed.

Lemma init_csc_options_safe_typed : safe I (init_csc_options self).
Proof.
  unfold init_csc_options. cbv zeta.
  apply safe_bind; [|intros ?; apply log_csc_options_safe_typed].
  repeat keeps_step; apply init_csc_option_keeps_typed.
Qed.

Lemma init_video_decoders_options_safe_typed :
  safe I (init_video_decoders_options self).
Proof.
  unfold init_video_decoders_options. cbv zeta.
  repeat keeps_step; apply init_video_decoder_option_keeps_typed.
Qed.

Lemma init_hoare_typed :
  hoare (fun w => I (heap w)) (init self)
    (fun s w => s = set_initialized true self /\ I (heap w)) (fun _ _ => False).
Proof.
  unfold init. destruct (_initialized self) eqn:Hi.
  - apply hoare_ret. intros w Hw. split; [|done].
    destruct self; simpl in *. now subst.
  - eapply hoare_bind; [apply init_video_encoders_options_safe_typed | intros ?].
    eapply hoare_bind; [apply init_csc_options_safe_typed | intros ?].
    eapply hoare_bind; [apply init_video_decoders_options_safe_typed | intros ?].
    apply hoare_ret. auto.
Qed.

Lemma init_safe_typed (w : World) :
  I (heap w) ->
  exists w', init self w = (Ok (set_initialized true self), w') /\ I (heap w').
Proof.
  intros Hw. pose proof (init_hoare_typed w Hw) as H.
  destruct (init self w) as [[s|e] w']; [|contradiction].
  destruct H as [-> H]. eauto.
Qed.

End InitKeepsTyped.

(** ** The constructor *)

Lemma lookup_fresh3 (h : list obj) (a b c : obj) :
  (h ++ [a; b; c]) !! length h = Some a /\
  (h ++ [a; b; c]) !! S (length h) = Some b /\
  (h ++ [a; b; c]) !! S (S (length h)) = Some c.
Proof.
  repeat split; rewrite lookup_app_r by lia.
  - now replace (length h - length h) with 0 by lia.
  - now replace (S (length h) - length h) with 1 by lia.
  - now replace (S (S (length h)) - length h) with 2 by lia.
Qed.

Lemma extends_app (h l : list obj) : extends h (h ++ l).
Proof.
  split; [rewrite length_app; lia|]. intros x Hx. now apply lookup_app_l.
Qed.

Lemma new_VideoHelper_run (b : bool) (w : World) :
  new_VideoHelper None None None b w =
  (Ok (mkVideoHelper (length (heap w)) (S (length (heap w)))
         (S (S (length (heap w)))) [] [] [] [] b),
   set_heap (heap w ++ [ODict []; ODict []; ODict []]) w).
Proof.
  unfold new_VideoHelper, or_new_dict, mbind, M_bind, bind, alloc, ret.
  cbn [heap set_heap codecs log teardowns].
  rewrite !length_app. cbn [length]. rewrite <- !app_assoc. cbn [app].
  rewrite !set_heap_set_heap.
  replace (length (heap w) + 1 + 1) with (S (S (length (heap w)))) by lia.
  now replace (length (heap w) + 1) with (S (length (heap w))) by lia.
Qed.

(** Three new empty tables make a well formed registry. *)
Lemma empty_registry_good (h : list obj) (ve cm vd : list string)
  (cl : list Codec.module) (b : bool) :
  registry_good
    (mkVideoHelper (length h) (S (length h)) (S (S (length h))) ve cm vd cl b)
    (h ++ [ODict []; ODict []; ODict []]).
Proof.
  destruct (lookup_fresh3 h (ODict []) (ODict []) (ODict [])) as (L1 & L2 & L3).
  exists [], [], []. split; [|reflexivity].
  exists [], [], []. cbn [_video_encoder_specs _csc_encoder_specs _video_decoder_specs].
  assert (T : forall n, (h ++ [ODict []; ODict []; ODict []]) !! n = Some (ODict []) ->
                table_ok (h ++ [ODict []; ODict []; ODict []]) n []).
  { intros n Hn. split; [split; [exact Hn | constructor]|].
    split; [|split; reflexivity]. repeat constructor. simpl. tauto. }
  split; [now apply T|]. split; [now apply T|]. split; [now apply T|].
  split; [|auto]. cbn [table_locs flat_map app].
  repeat constructor; simpl; lia.
Qed.

(** The constructor called without tables makes three new empty
    dictionaries, one for each table, and a registry that is well formed
    over them, with no module enabled, an empty cleanup list and the flag
    it was given; every older object of the store is as before. *)
Theorem new_VideoHelper_fresh (b : bool) (w : World) :
  exists self w',
    new_VideoHelper None None None b w = (Ok self, w') /\
    extends (heap w) (heap w') /\
    length (heap w) <= _video_encoder_specs self /\
    length (heap w) <= _csc_encoder_specs self /\
    length (heap w) <= _video_decoder_specs self /\
    read_table (heap w') (_video_encoder_specs self) = Some [] /\
    read_table (heap w') (_csc_encoder_specs self) = Some [] /\
    read_table (heap w') (_video_decoder_specs self) = Some [] /\
    registry_ok (heap w') self = true /\
    registry_typed (heap w') self = true /\
    video_encoders self = [] /\ csc_modules self = [] /\
    video_decoders self = [] /\ _cleanup_modules self = [] /\
    _initialized self = b /\
    codecs w' = codecs w /\ log w' = log w /\ teardowns w' = teardowns w.
Proof.
  eexists _, _. split; [apply new_VideoHelper_run|].
  cbn [heap set_heap codecs log teardowns _video_encoder_specs
       _csc_encoder_specs _video_decoder_specs video_encoders csc_modules
       video_decoders _cleanup_modules _initialized].
  destruct (lookup_fresh3 (heap w) (ODict []) (ODict []) (ODict []))
    as (L1 & L2 & L3).
  pose proof (empty_registry_good (heap w) [] [] [] [] b) as Hg.
  apply registry_good_iff in Hg as [Hok Ht].
  split; [apply extends_app|].
  split; [lia|]. split; [lia|]. split; [lia|].
  unfold read_table, read_dict. rewrite L1, L2, L3. cbn [read_all].
  repeat split; assumption.
Qed.

(** [vencspecs or {}]: the constructor takes a table it is given as its
    own, the same object, when that table is not empty; an empty table is
    not taken and a new empty dictionary is made in its place. *)
Theorem new_VideoHelper_adopts (l : loc) (items : list (string * loc))
  (b : bool) (w : World) :
  heap w !! l = Some (ODict items) ->
  exists self w',
    new_VideoHelper (Some l) None None b w = (Ok self, w') /\
    extends (heap w) (heap w') /\
    match items with
    | _ :: _ => _video_encoder_specs self = l
    | [] => _video_encoder_specs self = length (heap w) /\
            heap w' !! length (heap w) = Some (ODict [])
    end /\
    length (heap w) <= _csc_encoder_specs self /\
    length (heap w) <= _video_decoder_specs self /\
    _csc_encoder_specs self <> _video_decoder_specs self /\
    _csc_encoder_specs self <> _video_encoder_specs self /\
    _video_decoder_specs self <> _video_encoder_specs self /\
    heap w' !! _csc_encoder_specs self = Some (ODict []) /\
    heap w' !! _video_decoder_specs self = Some (ODict []).
Proof.
  intros Hl. pose proof (lookup_lt_Some _ _ _ Hl) as Hlt.
  unfold new_VideoHelper, or_new_dict, mbind, M_bind, bind, load.
  rewrite Hl. destruct items as [|kv r]; cbn [truthy ret alloc heap set_heap].
  - eexists _, _. split; [reflexivity|].
    cbn [heap set_heap _video_encoder_specs _csc_encoder_specs _video_decoder_specs].
    rewrite !length_app. cbn [length]. rewrite <- !app_assoc. cbn [app].
    replace (length (heap w) + 1 + 1) with (S (S (length (heap w)))) by lia.
    replace (length (heap w) + 1) with (S (length (heap w))) by lia.
    destruct (lookup_fresh3 (heap w) (ODict []) (ODict []) (ODict []))
      as (L1 & L2 & L3).
    split; [apply extends_app|]. repeat split; try lia; assumption.
  - eexists _, _. split; [reflexivity|].
    cbn [heap set_heap _video_encoder_specs _csc_encoder_specs _video_decoder_specs].
    rewrite !length_app. cbn [length]. rewrite <- !app_assoc. cbn [app].
    replace (length (heap w) + 1) with (S (length (heap w))) by lia.
    split; [apply extends_app|]. split; [reflexivity|].
    repeat split; try lia.
    + rewrite lookup_app_r by lia.
      now replace (length (heap w) - length (heap w)) with 0 by lia.
    + rewrite lookup_app_r by lia.
      now replace (S (length (heap w)) - length (heap w)) with 1 by lia.
Qed.

(** ** clone *)

Lemma kinds_kept_length (h0 h : list obj) : kinds_kept h0 h -> length h0 <= length h.
Proof.
  intros H. destruct (Nat.le_gt_cases (length h0) (length h)) as [|Hlt]; [done|].
  destruct (proj2 (lookup_lt_is_Some h0 (length h)) Hlt) as [o Ho].
  destruct (H _ _ Ho) as (o' & Ho' & _). apply lookup_lt_Some in Ho'. lia.
Qed.

(** The first step of [clone]: [self] is initialized if it was not. *)
Lemma clone_first_step (self : VideoHelper) (w : World) :
  registry_inv self (heap w) ->
  (_initialized self = false -> registry_typed (heap w) self = true) ->
  exists w1,
    (if negb (_initialized self) then init self else ret self) w =
      (Ok (set_initialized true self), w1) /\
    registry_inv self (heap w1) /\
    length (heap w) <= length (heap w1) /\
    (_initialized self = true -> w1 = w).
Proof.
  intros Hinv Hty. destruct (_initialized self) eqn:Hi; cbn [negb].
  - exists w. split; [|split; [exact Hinv | split; [lia | done]]].
    unfold ret. do 2 f_equal. destruct self; simpl in *. now subst.
  - destruct (init_safe_typed
                (fun h => registry_good self h /\ kinds_kept (heap w) h) self)
      with (w := w) as (w1 & Hrun & Hg1 & Hk).
    + intros e c spec w0 [H1 H2].
      pose proof (add_encoder_spec_good self e c spec w0 H1) as K1.
      pose proof (table_add_keeps_kinds (heap w) (_video_encoder_specs self)
                    e c (LSpec spec) w0 H2) as K2.
      unfold add_encoder_spec in *.
      destruct (table_add (_video_encoder_specs self) e c (LSpec spec) w0)
        as [[u|e'] w0']; auto.
    + intros e c spec w0 [H1 H2].
      pose proof (add_csc_spec_good self e c spec w0 H1) as K1.
      pose proof (table_add_keeps_kinds (heap w) (_csc_encoder_specs self)
                    e c (LSpec spec) w0 H2) as K2.
      unfold add_csc_spec in *.
      destruct (table_add (_csc_encoder_specs self) e c (LSpec spec) w0)
        as [[u|e'] w0']; auto.
    + intros e c n m w0 [H1 H2].
      pose proof (add_decoder_good self e c n m w0 H1) as K1.
      pose proof (table_add_keeps_kinds (heap w) (_video_decoder_specs self)
                    e c (LDecoder n m) w0 H2) as K2.
      unfold add_decoder in *.
      destruct (table_add (_video_decoder_specs self) e c (LDecoder n m) w0)
        as [[u|e'] w0']; auto.
    + intros h [Hg _]. now apply registry_good_csc_typed.
    + split; [|apply kinds_kept_refl]. apply registry_good_iff.
      split; [now apply registry_ok_inv | now apply Hty].
    + exists w1. split; [exact Hrun|]. split.
      * apply registry_ok_inv. now apply (registry_good_iff self).
      * split; [now apply kinds_kept_length | done].
Qed.

Lemma NoDup_intervals3 (A B C : list nat) (lo1 hi1 lo2 hi2 lo3 hi3 : nat) :
  List.NoDup A -> List.NoDup B -> List.NoDup C ->
  (forall x, In x A -> lo1 <= x < hi1) ->
  (forall x, In x B -> lo2 <= x < hi2) ->
  (forall x, In x C -> lo3 <= x < hi3) ->
  hi1 <= lo2 \/ hi2 <= lo1 -> hi1 <= lo3 \/ hi3 <= lo1 ->
  hi2 <= lo3 \/ hi3 <= lo2 ->
  List.NoDup (A ++ B ++ C).
Proof.
  intros HA HB HC IA IB IC H12 H13 H23. rewrite !NoDup_app_iff.
  repeat split; try assumption.
  - intros x Hx Hy. specialize (IB x Hx). specialize (IC x Hy). lia.
  - intros x Hx Hy. specialize (IA x Hx).
    apply in_app_or in Hy as [Hy|Hy];
      [specialize (IB x Hy) | specialize (IC x Hy)]; lia.
Qed.

(** Every location of the three tables of a registry. *)
Definition registry_locs (h : list obj) (self : VideoHelper) : list loc :=
  match locate h (_video_encoder_specs self),
        locate h (_csc_encoder_specs self),
        locate h (_video_decoder_specs self) with
  | Some LTe, Some LTc, Some LTd =>
      table_locs (_video_encoder_specs self) LTe ++
      table_locs (_csc_encoder_specs self) LTc ++
      table_locs (_video_decoder_specs self) LTd
  | _, _, _ => []
  end.

Lemma get_encodings_frame (r : VideoHelper) (w1 w2 : World) :
  heap w2 !! _video_encoder_specs r = heap w1 !! _video_encoder_specs r ->
  fst (get_encodings r w2) = fst (get_encodings r w1).
Proof.
  intros H. unfold get_encodings, dict_keys, dict_items, mbind, M_bind, bind, load.
  rewrite H. now destruct (heap w1 !! _video_encoder_specs r) as [[?|?]|].
Qed.

(** Adding a spec to the encoder table of [a] leaves alone every location
    of the store that is not of that table. *)
Lemma add_encoder_spec_frame (a : VideoHelper) (w : World) (LT : ltable)
  (encoding colorspace : string) (spec : Spec) (x : loc) :
  table_ok (heap w) (_video_encoder_specs a) LT ->
  x < length (heap w) -> ~ In x (table_locs (_video_encoder_specs a) LT) ->
  heap (snd (add_encoder_spec a encoding colorspace spec w)) !! x = heap w !! x.
Proof.
  intros Hok Hx Hnot. unfold add_encoder_spec.
  destruct (table_add_step _ encoding colorspace (LSpec spec) w LT Hok)
    as (h' & LT' & Hrun & _ & _ & _ & _ & Hfr).
  rewrite Hrun. cbn [snd heap set_heap]. now apply Hfr.
Qed.

(** C3. [clone] on a well formed registry, with typed leaves when it is
    not yet initialized ([clone] then runs [init], which evaluates
    [spec.codec_type] on the leaves of the csc table), returns, after
    initializing [self] if it was not, a registry [c] marked initialized
    that is well formed in its turn; every container of [c], outer
    dictionary, inner dictionary or list, is at a location that was not in
    the store before the call and is no container of [self]; each table of
    [c] has the same content as the table of [self], key by key and leaf
    by leaf; an initialized [self] and its store are as before.  Adding a
    spec to the encoder table of [c] changes neither [get_encodings] of
    [self] nor the content of its encoder table, and leaves [self] well
    formed; adding one to [self] does the same for [c]. *)
Theorem clone_independent (self : VideoHelper) (w : World) :
  registry_ok (heap w) self = true ->
  (_initialized self = false -> registry_typed (heap w) self = true) ->
  exists self' c w',
    clone self w = (Ok (self', c), w') /\
    self' = set_initialized true self /\
    _initialized c = true /\
    (_initialized self = true -> extends (heap w) (heap w')) /\
    registry_ok (heap w') self' = true /\
    registry_ok (heap w') c = true /\
    (forall x, In x (registry_locs (heap w') c) ->
       length (heap w) <= x /\ ~ In x (registry_locs (heap w') self')) /\
    (exists Te Tc Td,
       read_table (heap w') (_video_encoder_specs self') = Some Te /\
       read_table (heap w') (_video_encoder_specs c) = Some Te /\
       read_table (heap w') (_csc_encoder_specs self') = Some Tc /\
       read_table (heap w') (_csc_encoder_specs c) = Some Tc /\
       read_table (heap w') (_video_decoder_specs self') = Some Td /\
       read_table (heap w') (_video_decoder_specs c) = Some Td) /\
    (forall encoding colorspace spec,
       let after_c := snd (add_encoder_spec c encoding colorspace spec w') in
       let after_self := snd (add_encoder_spec self' encoding colorspace spec w') in
       fst (get_encodings self' after_c) = fst (get_encodings self' w') /\
       fst (get_encodings c after_self) = fst (get_encodings c w') /\
       read_table (heap after_c) (_video_encoder_specs self') =
         read_table (heap w') (_video_encoder_specs self') /\
       read_table (heap after_self) (_video_encoder_specs c) =
         read_table (heap w') (_video_encoder_specs c) /\
       registry_ok (heap after_c) self' = true /\
       registry_ok (heap after_self) c = true).
Proof.
  intros Hok Hty. apply registry_ok_inv in Hok.
  destruct (clone_first_step self w Hok Hty)
    as (w1 & Hstep & Hinv1 & Hlen1 & Hsame).
  destruct Hinv1 as (LTe & LTc & LTd & He & Hc & Hd & Hnd).
  destruct (clone_run (set_initialized true self) (_video_encoder_specs self)
              (_csc_encoder_specs self) (_video_decoder_specs self) w1
              LTe LTc LTd He Hc Hd)
    as (h' & ce & cc & cd & lo1 & hi1 & lo2 & hi2 & lo3 & hi3 &
        Hrun & Hext & C1 & C2 & C3 & B1 & B2 & B3 & D12 & D13 & D23).
  set (self' := set_initialized true self).
  set (c := mkVideoHelper ce cc cd [] [] [] [] true).
  (* the source in the final store *)
  pose proof (table_ok_extends _ _ _ _ He Hext) as He'.
  pose proof (table_ok_extends _ _ _ _ Hc Hext) as Hc'.
  pose proof (table_ok_extends _ _ _ _ Hd Hext) as Hd'.
  assert (Hinv_self : registry_inv self' h').
  { exists LTe, LTc, LTd. auto. }
  assert (Hsrc : forall x,
            In x (table_locs (_video_encoder_specs self) LTe ++
                  table_locs (_csc_encoder_specs self) LTc ++
                  table_locs (_video_decoder_specs self) LTd) ->
            x < length (heap w1)).
  { intros x Hx.
    apply in_app_or in Hx as [Hx|Hx];
      [exact (table_at_bound _ _ _ _ (proj1 He) Hx)|].
    apply in_app_or in Hx as [Hx|Hx];
      [exact (table_at_bound _ _ _ _ (proj1 Hc) Hx)
      |exact (table_at_bound _ _ _ _ (proj1 Hd) Hx)]. }
  (* the copy in the final store *)
  destruct C1 as (LT1 & O1 & E1 & I1).
  destruct C2 as (LT2 & O2 & E2 & I2).
  destruct C3 as (LT3 & O3 & E3 & I3).
  assert (Hinv_c : registry_inv c h').
  { exists LT1, LT2, LT3. split; [exact O1|]. split; [exact O2|].
    split; [exact O3|].
    eapply NoDup_intervals3; try eassumption; [apply O1 | apply O2 | apply O3]. }
  assert (Hlocs_c : registry_locs h' c =
            table_locs ce LT1 ++ table_locs cc LT2 ++ table_locs cd LT3).
  { unfold registry_locs. cbn [_video_encoder_specs _csc_encoder_specs
                                _video_decoder_specs c].
    now rewrite (locate_of_table_at _ _ _ (proj1 O1)),
      (locate_of_table_at _ _ _ (proj1 O2)), (locate_of_table_at _ _ _ (proj1 O3)). }
  assert (Hlocs_self : registry_locs h' self' =
            table_locs (_video_encoder_specs self) LTe ++
            table_locs (_csc_encoder_specs self) LTc ++
            table_locs (_video_decoder_specs self) LTd).
  { unfold registry_locs. cbn [_video_encoder_specs _csc_encoder_specs
                                _video_decoder_specs self' set_initialized].
    now rewrite (locate_of_table_at _ _ _ (proj1 He')),
      (locate_of_table_at _ _ _ (proj1 Hc')), (locate_of_table_at _ _ _ (proj1 Hd')). }
  assert (Hnew : forall x, In x (registry_locs h' c) -> length (heap w1) <= x).
  { intros x. rewrite Hlocs_c. intros Hx.
    apply in_app_or in Hx as [Hx|Hx]; [specialize (I1 x Hx); lia|].
    apply in_app_or in Hx as [Hx|Hx];
      [specialize (I2 x Hx) | specialize (I3 x Hx)]; lia. }
  exists self', c, (set_heap h' w1).
  split.
  { unfold clone. unfold mbind at 1, M_bind at 1, bind at 1. rewrite Hstep.
    exact Hrun. }
  split; [reflexivity|]. split; [reflexivity|].
  split; [intros Hi; rewrite <- (Hsame Hi); exact Hext|].
  cbn [heap set_heap].
  split; [now apply registry_ok_inv|]. split; [now apply registry_ok_inv|].
  split.
  { intros x Hx. specialize (Hnew x Hx). split; [lia|].
    rewrite Hlocs_self. intros Hx'. specialize (Hsrc x Hx'). lia. }
  split.
  { exists (content LTe), (content LTc), (content LTd).
    rewrite <- E1 at 2. rewrite <- E2 at 2. rewrite <- E3 at 2.
    repeat split; apply read_table_of_table_at;
      first [apply He' | apply Hc' | apply Hd' | apply O1 | apply O2 | apply O3]. }
  intros encoding colorspace spec.
  set (after_c := snd (add_encoder_spec c encoding colorspace spec (set_heap h' w1))).
  set (after_self :=
         snd (add_encoder_spec self' encoding colorspace spec (set_heap h' w1))).
  assert (Hroot_self : forall x, In x (registry_locs h' self') ->
            heap after_c !! x = h' !! x).
  { intros x Hx. rewrite Hlocs_self in Hx. specialize (Hsrc x Hx).
    apply (add_encoder_spec_frame c (set_heap h' w1) LT1); [exact O1 | |].
    - cbn [heap set_heap]. destruct Hext. lia.
    - intros Hx'. specialize (I1 x Hx'). lia. }
  assert (Hroot_c : forall x, In x (registry_locs h' c) ->
            heap after_self !! x = h' !! x).
  { intros x Hx. pose proof (Hnew x Hx) as Hge. rewrite Hlocs_c in Hx.
    apply (add_encoder_spec_frame self' (set_heap h' w1) LTe); [exact He' | |].
    - cbn [heap set_heap].
      apply in_app_or in Hx as [Hx|Hx];
        [exact (table_at_bound _ _ _ _ (proj1 O1) Hx)|].
      apply in_app_or in Hx as [Hx|Hx];
        [exact (table_at_bound _ _ _ _ (proj1 O2) Hx)
        |exact (table_at_bound _ _ _ _ (proj1 O3) Hx)].
    - intros Hx'. assert (x < length (heap w1)); [|lia].
      apply Hsrc. apply in_or_app. now left. }
  assert (Te_after : table_ok (heap after_c) (_video_encoder_specs self) LTe).
  { apply (table_ok_frame h'); [exact He'|]. intros x Hx.
    apply Hroot_self. rewrite Hlocs_self.
    apply in_or_app; left; exact Hx. }
  assert (T1_after : table_ok (heap after_self) ce LT1).
  { apply (table_ok_frame h'); [exact O1|]. intros y Hy.
    apply Hroot_c. rewrite Hlocs_c.
    apply in_or_app; left; exact Hy. }
  split; [|split; [|split; [|split; [|split]]]].
  - apply get_encodings_frame. cbn [heap set_heap].
    apply Hroot_self. rewrite Hlocs_self. now left.
  - apply get_encodings_frame. cbn [heap set_heap].
    apply Hroot_c. rewrite Hlocs_c. now left.
  - cbn [heap set_heap _video_encoder_specs self' set_initialized].
    rewrite (read_table_of_table_at _ _ _ (proj1 Te_after)).
    now rewrite (read_table_of_table_at _ _ _ (proj1 He')).
  - cbn [heap set_heap _video_encoder_specs c].
    rewrite (read_table_of_table_at _ _ _ (proj1 T1_after)).
    now rewrite (read_table_of_table_at _ _ _ (proj1 O1)).
  - apply registry_ok_inv. exists LTe, LTc, LTd.
    split; [|split; [|split; [|exact Hnd]]].
    + apply (table_ok_frame h'); [exact He'|]. intros x Hx.
      apply Hroot_self. rewrite Hlocs_self.
      apply in_or_app; left; exact Hx.
    + apply (table_ok_frame h'); [exact Hc'|]. intros x Hx.
      apply Hroot_self. rewrite Hlocs_self.
      apply in_or_app; right; apply in_or_app; left; exact Hx.
    + apply (table_ok_frame h'); [exact Hd'|]. intros x Hx.
      apply Hroot_self. rewrite Hlocs_self.
      apply in_or_app; right; apply in_or_app; right; exact Hx.
  - apply registry_ok_inv. exists LT1, LT2, LT3.
    split; [|split; [|split]].
    + apply (table_ok_frame h'); [exact O1|]. intros y Hy.
      apply Hroot_c. rewrite Hlocs_c.
      apply in_or_app; left; exact Hy.
    + apply (table_ok_frame h'); [exact O2|]. intros y Hy.
      apply Hroot_c. rewrite Hlocs_c.
      apply in_or_app; right; apply in_or_app; left; exact Hy.
    + apply (table_ok_frame h'); [exact O3|]. intros y Hy.
      apply Hroot_c. rewrite Hlocs_c.
      apply in_or_app; right; apply in_or_app; right; exact Hy.
    + eapply NoDup_intervals3; try eassumption; [apply O1 | apply O2 | apply O3].
Qed.

(** ** The accessors after init *)

(** C8. On a registry whose table fields hold dictionaries, which every
    operation of the class maintains, the three accessors always return:
    the inner mapping stored under the key or, when the key is absent, an
    empty mapping.  [init] keeps the three fields dictionaries, so after
    an [init] that has returned [get_encoder_specs(e)] is an empty mapping
    for every [e] that is not among [get_encodings()]; and [init] does
    return on a well formed registry with typed leaves.  (On a csc table
    with a leaf that is no spec, the loops at the end of
    [init_csc_options] raise.) *)
Theorem accessors_never_fail (self : VideoHelper) (w : World) (key : string) :
  has_tables (heap w) self = true ->
  returns_inner_or_empty (_video_encoder_specs self) key
    (get_encoder_specs self key) w /\
  returns_inner_or_empty (_csc_encoder_specs self) key
    (get_csc_specs self key) w /\
  returns_inner_or_empty (_video_decoder_specs self) key
    (get_decoder_specs self key) w /\
  (forall self1 w1,
     init self w = (Ok self1, w1) ->
     exists encodings,
       get_encodings self1 w1 = (Ok encodings, w1) /\
       (~ In key encodings ->
        exists l w2, get_encoder_specs self1 key w1 = (Ok l, w2) /\
                     read_dict (heap w2) l = Some [])) /\
  (registry_ok (heap w) self = true -> registry_typed (heap w) self = true ->
   exists self1 w1, init self w = (Ok self1, w1)).
Proof.
  unfold has_tables. rewrite !andb_true_iff. intros [[He Hc] Hd].
  split; [now apply dict_get_default_spec|].
  split; [now apply dict_get_default_spec|].
  split; [now apply dict_get_default_spec|].
  split.
  - intros self1 w1 Hinit.
    destruct (init_returned (kinds_kept (heap w)) self
                (fun t k1 k2 v _ => table_add_keeps_kinds (heap w) t k1 k2 v)
                w w1 self1 (kinds_kept_refl _) Hinit) as [-> Hk].
    pose proof (is_dict_kept _ _ _ Hk He) as He1.
    destruct (is_dict_read _ _ He1) as (items & Hitems).
    exists (map fst items). split.
    + unfold get_encodings, dict_keys, mbind, M_bind, bind.
      cbn [_video_encoder_specs set_initialized].
      now rewrite (dict_items_read _ _ _ Hitems).
    + intros Hnot. apply assoc_None_keys in Hnot.
      destruct (dict_get_default_spec (_video_encoder_specs self) key w1 He1)
        as (items' & l & w2 & Hitems' & Hrun & Hres).
      rewrite Hitems in Hitems'. injection Hitems' as <-.
      rewrite Hnot in Hres. exists l, w2. split; [exact Hrun | apply Hres].
  - intros Hok Ht.
    destruct (init_safe_typed (registry_good self) self
                (add_encoder_spec_good self) (add_csc_spec_good self)
                (add_decoder_good self) (registry_good_csc_typed self) w)
      as (w1 & Hrun & _).
    + apply registry_good_iff. auto.
    + eauto.
Qed.

(** ** init keeps a registry well formed *)

(** [init] on a well formed registry with typed leaves always returns, and
    the registry it leaves, marked initialized, is well formed with typed
    leaves again: whatever the loader and the modules answer or raise, no
    container becomes shared, no key is repeated, no inner container is
    left empty, the encoder and csc tables hold only specs and the decoder
    table only decoder entries. *)
Theorem init_keeps_well_formed (self : VideoHelper) (w : World) :
  registry_ok (heap w) self = true ->
  registry_typed (heap w) self = true ->
  exists w',
    init self w = (Ok (set_initialized true self), w') /\
    registry_ok (heap w') (set_initialized true self) = true /\
    registry_typed (heap w') (set_initialized true self) = true.
Proof.
  intros Hok Ht.
  destruct (init_safe_typed (registry_good self) self
              (add_encoder_spec_good self) (add_csc_spec_good self)
              (add_decoder_good self) (registry_good_csc_typed self) w)
    as (w' & Hrun & Hg).
  { apply registry_good_iff. auto. }
  exists w'. split; [exact Hrun|].
  apply (registry_good_iff (set_initialized true self)). exact Hg.
Qed.

(** A registry made by the constructor, configured by [set_modules] with
    any selection and brought up by [init] is well formed with typed
    leaves, whatever the loader holds: the three calls all return. *)
Theorem bring_up_well_formed (ve cm vd : list string) (w : World) :
  exists self0 w0 self1 w1 w2,
    new_VideoHelper None None None false w = (Ok self0, w0) /\
    set_modules self0 ve cm vd w0 = (Ok self1, w1) /\
    init self1 w1 = (Ok (set_initialized true self1), w2) /\
    registry_ok (heap w2) (set_initialized true self1) = true /\
    registry_typed (heap w2) (set_initialized true self1) = true.
Proof.
  eexists _, _, _, _. 
  pose proof (empty_registry_good (heap w)
                (selected ve ALL_VIDEO_ENCODER_OPTIONS)
                (selected cm ALL_CSC_MODULE_OPTIONS)
                (selected vd ALL_VIDEO_DECODER_OPTIONS) [] false) as Hg.
  match type of Hg with registry_good ?s ?h =>
    destruct (init_safe_typed (registry_good s) s
                (add_encoder_spec_good s) (add_csc_spec_good s)
                (add_decoder_good s) (registry_good_csc_typed s)
                (add_log (filt_warnings "video encoders" ve ALL_VIDEO_ENCODER_OPTIONS ++
                          filt_warnings "csc modules" cm ALL_CSC_MODULE_OPTIONS ++
                          filt_warnings "video decoders" vd ALL_VIDEO_DECODER_OPTIONS)
                   (set_heap h w)) Hg) as (w2 & Hrun & Hg2)
  end.
  exists w2. split; [apply new_VideoHelper_run|].
  split; [apply set_modules_run; reflexivity|].
  split; [exact Hrun|].
  apply (registry_good_iff (set_initialized true _)). exact Hg2.
Qed.

(** ** The life cycle *)

Lemma cleanup_run (self : VideoHelper) (w : World) :
  _initialized self = true ->
  cleanup self w =
  (Ok (mkVideoHelper (length (heap w)) (S (length (heap w)))
         (S (S (length (heap w)))) [] [] [] [] false),
   mkWorld (heap w ++ [ODict []; ODict []; ODict []]) (codecs w)
     (log w ++ teardown_errors (_cleanup_modules self))
     (teardowns w ++ _cleanup_modules self)).
Proof.
  intros Hi. unfold cleanup. rewrite Hi. cbn [negb].
  unfold mbind, M_bind, bind. rewrite teardown_loop.
  unfold alloc, ret, set_heap. cbn [heap codecs log teardowns].
  rewrite !length_app. cbn [length]. rewrite <- !app_assoc. cbn [app].
  replace (length (heap w) + 1 + 1) with (S (S (length (heap w)))) by lia.
  now replace (length (heap w) + 1) with (S (length (heap w))) by lia.
Qed.

(** [init] returns on a well formed registry with typed leaves, whatever
    the loader and the modules answer or raise. *)
Lemma init_returns (self : VideoHelper) (w : World) :
  registry_ok (heap w) self = true -> registry_typed (heap w) self = true ->
  exists w', init self w = (Ok (set_initialized true self), w').
Proof.
  intros Hok Ht.
  destruct (init_safe_typed (registry_good self) self
              (add_encoder_spec_good self) (add_csc_spec_good self)
              (add_decoder_good self) (registry_good_csc_typed self) w)
    as (w' & Hrun & _); [|eauto].
  apply registry_good_iff. auto.
Qed.

(** [set_modules] is open only while the registry is not initialized.
    On a well formed registry with typed leaves [init] returns, whatever
    the loader and the modules are; from then on every call of
    [set_modules] raises the assertion error "too late ..." and changes
    nothing; [cleanup] returns and makes [set_modules] return again, for
    every selection. *)
Theorem set_modules_only_before_init (self : VideoHelper) (w : World) :
  registry_ok (heap w) self = true -> registry_typed (heap w) self = true ->
  exists self1 w1 self2 w2,
    init self w = (Ok self1, w1) /\
    _initialized self1 = true /\
    (forall ve cm vd,
       set_modules self1 ve cm vd w1 =
       (Raise (AssertionError
                 "too late to set modules, the helper is already initialized!"),
        w1)) /\
    cleanup self1 w1 = (Ok self2, w2) /\
    _initialized self2 = false /\
    (forall ve cm vd, exists self3 w3,
       set_modules self2 ve cm vd w2 = (Ok self3, w3) /\
       _initialized self3 = false).
Proof.
  intros Hok Ht. destruct (init_returns self w Hok Ht) as (w1 & Hinit).
  eexists _, w1, _, _. split; [exact Hinit|]. split; [reflexivity|].
  split; [intros ve cm vd; reflexivity|].
  split; [now apply cleanup_run|]. split; [reflexivity|].
  intros ve cm vd. eexists _, _. split; [now apply set_modules_run|].
  reflexivity.
Qed.

Lemma dict_keys_read (t : loc) (w : World) (T : table_content) :
  read_table (heap w) t = Some T -> dict_keys t w = (Ok (map fst T), w).
Proof.
  unfold read_table. destruct (read_dict (heap w) t) as [items|] eqn:Hd; [|done].
  intros HT. unfold dict_keys, mbind, M_bind, bind.
  rewrite (dict_items_read _ _ _ Hd). now rewrite (read_all_keys _ _ _ HT).
Qed.

(** With no module enabled, [init] loads nothing and only sets the flag. *)
Lemma init_nothing_enabled (self : VideoHelper) (w : World) :
  _initialized self = false ->
  video_encoders self = [] -> csc_modules self = [] -> video_decoders self = [] ->
  csc_typed self (heap w) ->
  init self w = (Ok (set_initialized true self), w).
Proof.
  intros Hi He Hc Hd Ht. unfold init. rewrite Hi.
  unfold init_video_encoders_options, init_csc_options,
    init_video_decoders_options.
  rewrite He, Hc, Hd. cbn [for_each]. unfold mbind, M_bind, bind, ret.
  now rewrite (log_csc_options_run self w Ht).
Qed.

(** [cleanup] empties the enabled lists with the tables, so an [init]
    that follows it has no module to load: it sets the flag and changes
    nothing else, the loader is not called, and the registry offers no
    encoding, no decoding and no csc input. *)
Theorem cleanup_then_init (self : VideoHelper) (w : World) :
  _initialized self = true ->
  exists self1 w1,
    cleanup self w = (Ok self1, w1) /\
    init self1 w1 = (Ok (set_initialized true self1), w1) /\
    get_encodings (set_initialized true self1) w1 = (Ok [], w1) /\
    get_decodings (set_initialized true self1) w1 = (Ok [], w1) /\
    get_csc_inputs (set_initialized true self1) w1 = (Ok [], w1) /\
    registry_ok (heap w1) (set_initialized true self1) = true.
Proof.
  intros Hi. eexists _, _. split; [now apply cleanup_run|].
  destruct (lookup_fresh3 (heap w) (ODict []) (ODict []) (ODict []))
    as (L1 & L2 & L3).
  split.
  { apply init_nothing_enabled; try reflexivity.
    exists []. split; [|reflexivity].
    unfold read_table, read_dict. cbn [heap _csc_encoder_specs].
    now rewrite L2. }
  pose proof (empty_registry_good (heap w) [] [] [] [] true) as Hg.
  apply registry_good_iff in Hg as [Hok _].
  unfold get_encodings, get_decodings, get_csc_inputs.
  cbn [set_initialized _video_encoder_specs _csc_encoder_specs
       _video_decoder_specs heap].
  repeat split; try exact Hok;
    apply (dict_keys_read _ _ []); unfold read_table, read_dict;
    cbn [heap]; rewrite ?L1, ?L2, ?L3; reflexivity.
Qed.

(** [cleanup] binds new dictionaries to the three table fields; it clears
    no container.  Every object of the store is as before, so the old
    tables can still be read through a reference taken earlier, and any
    registry that was well formed, a clone for one, is well formed after
    the call and holds the same tables. *)
Theorem cleanup_keeps_store (self other : VideoHelper) (w : World) :
  registry_ok (heap w) other = true ->
  exists self1 w1,
    cleanup self w = (Ok self1, w1) /\
    extends (heap w) (heap w1) /\
    codecs w1 = codecs w /\
    registry_ok (heap w1) other = true /\
    read_table (heap w1) (_video_encoder_specs other) =
      read_table (heap w) (_video_encoder_specs other) /\
    read_table (heap w1) (_csc_encoder_specs other) =
      read_table (heap w) (_csc_encoder_specs other) /\
    read_table (heap w1) (_video_decoder_specs other) =
      read_table (heap w) (_video_decoder_specs other).
Proof.
  intros Hok. apply registry_ok_inv in Hok.
  destruct Hok as (LTe & LTc & LTd & He & Hc & Hd & Hnd).
  assert (K : forall h', extends (heap w) h' ->
            registry_ok h' other = true /\
            read_table h' (_video_encoder_specs other) =
              read_table (heap w) (_video_encoder_specs other) /\
            read_table h' (_csc_encoder_specs other) =
              read_table (heap w) (_csc_encoder_specs other) /\
            read_table h' (_video_decoder_specs other) =
              read_table (heap w) (_video_decoder_specs other)).
  { intros h' Hext.
    pose proof (table_ok_extends _ _ _ _ He Hext) as He'.
    pose proof (table_ok_extends _ _ _ _ Hc Hext) as Hc'.
    pose proof (table_ok_extends _ _ _ _ Hd Hext) as Hd'.
    split; [apply registry_ok_inv; exists LTe, LTc, LTd; auto|].
    rewrite (read_table_of_table_at _ _ _ (proj1 He)),
      (read_table_of_table_at _ _ _ (proj1 Hc)),
      (read_table_of_table_at _ _ _ (proj1 Hd)),
      (read_table_of_table_at _ _ _ (proj1 He')),
      (read_table_of_table_at _ _ _ (proj1 Hc')),
      (read_table_of_table_at _ _ _ (proj1 Hd')). auto. }
  destruct (_initialized self) eqn:Hi.
  - eexists _, _. split; [now apply cleanup_run|]. cbn [heap codecs].
    split; [apply extends_app|]. split; [reflexivity|].
    apply K, extends_app.
  - exists self, w. split; [unfold cleanup; now rewrite Hi|].
    split; [apply extends_refl|]. split; [reflexivity|].
    apply K, extends_refl.
Qed.

(** ** Adding a spec and looking it up *)

Lemma tadd_assoc (k1 k2 : string) (v : leaf) (T : table_content) :
  exists inner',
    assoc k1 (tadd k1 k2 v T) = Some inner' /\
    assoc k2 inner' = Some (specs_at T k1 k2 ++ [v]).
Proof.
  unfold specs_at, tadd. destruct (assoc k1 T) as [inner|] eqn:E1.
  - destruct (assoc k2 inner) as [elems|] eqn:E2.
    + eexists. split; [apply assoc_assoc_set_eq; rewrite E1; eauto|].
      apply assoc_assoc_set_eq. rewrite E2. eauto.
    + eexists. split; [apply assoc_assoc_set_eq; rewrite E1; eauto|].
      now apply assoc_snoc_eq.
  - eexists. split; [now apply assoc_snoc_eq|]. simpl. now rewrite String.eqb_refl.
Qed.

Lemma read_all_assoc {A B} (f : A -> option B) (items : list (string * A))
  (T : list (string * B)) (k : string) (b : B) :
  read_all f items = Some T -> assoc k T = Some b ->
  exists a, assoc k items = Some a /\ f a = Some b.
Proof.
  revert T. induction items as [|[k' a] r IH]; intros T.
  - now intros [= <-].
  - intros (b' & T' & Hb & Hr & ->)%read_all_cons. simpl.
    destruct (k =? k')%string; [intros [= <-]; eauto | eauto].
Qed.

(** The accessor on a key that is there. *)
Lemma dict_get_default_found (t : loc) (k : string) (w : World)
  (T : table_content) (inner : inner_content) :
  read_table (heap w) t = Some T -> assoc k T = Some inner ->
  exists l, dict_get_default t k w = (Ok l, w) /\
            read_inner (heap w) l = Some inner.
Proof.
  unfold read_table. destruct (read_dict (heap w) t) as [items|] eqn:Hd; [|done].
  intros HT Hk. destruct (read_all_assoc _ _ _ _ _ HT Hk) as (l & Hl & Hin).
  exists l. split; [|exact Hin].
  unfold dict_get_default, mbind, M_bind, bind.
  rewrite (dict_items_read _ _ _ Hd). now rewrite Hl.
Qed.

(** What one [table_add] on a table of content [T] changes for a reader of
    the table [t] in the store [h']. *)
Definition added (h' : list obj) (t : loc) (k1 k2 : string) (v : leaf)
  (T : table_content) (w' : World) : Prop :=
  exists T',
    read_table h' t = Some T' /\
    specs_at T' k1 k2 = specs_at T k1 k2 ++ [v] /\
    (forall k1' k2', (k1', k2') <> (k1, k2) ->
       specs_at T' k1' k2' = specs_at T k1' k2') /\
    dict_keys t w' =
      (Ok (if str_in k1 (map fst T) then map fst T else map fst T ++ [k1]), w') /\
    exists l inner',
      dict_get_default t k1 w' = (Ok l, w') /\
      read_inner h' l = Some inner' /\
      assoc k2 inner' = Some (specs_at T k1 k2 ++ [v]).

Lemma added_tadd (t : loc) (k1 k2 : string) (v : leaf) (T : table_content)
  (w' : World) :
  read_table (heap w') t = Some (tadd k1 k2 v T) ->
  added (heap w') t k1 k2 v T w'.
Proof.
  intros Hr. exists (tadd k1 k2 v T). split; [exact Hr|].
  split; [apply specs_at_tadd_eq|].
  split; [intros k1' k2'; apply specs_at_tadd_ne|].
  split; [rewrite (dict_keys_read _ _ _ Hr); now rewrite keys_tadd|].
  destruct (tadd_assoc k1 k2 v T) as (inner' & Ha & Hc).
  destruct (dict_get_default_found _ _ _ _ _ Hr Ha) as (l & Hrun & Hin).
  eauto.
Qed.

(** [add_encoder_spec] on a well formed registry returns and leaves it
    well formed.  Afterwards the list under [(encoding, colorspace)] is the
    former list followed by the new spec (nothing is replaced, nothing is
    deduplicated), every other list of the table is as before,
    [get_encodings] has [encoding] at its end if it was not offered and is
    unchanged if it was, and [get_encoder_specs(encoding)] returns the inner
    mapping that holds the list.  The csc and decoder tables, the loader
    and the log are untouched. *)
Theorem add_encoder_spec_lookup (self : VideoHelper) (w : World)
  (encoding colorspace : string) (spec : Spec) :
  registry_ok (heap w) self = true ->
  exists Te Tc Td w',
    read_table (heap w) (_video_encoder_specs self) = Some Te /\
    read_table (heap w) (_csc_encoder_specs self) = Some Tc /\
    read_table (heap w) (_video_decoder_specs self) = Some Td /\
    add_encoder_spec self encoding colorspace spec w = (Ok tt, w') /\
    codecs w' = codecs w /\ log w' = log w /\ teardowns w' = teardowns w /\
    registry_ok (heap w') self = true /\
    (exists Te',
       read_table (heap w') (_video_encoder_specs self) = Some Te' /\
       specs_at Te' encoding colorspace =
         specs_at Te encoding colorspace ++ [LSpec spec] /\
       (forall e' c', (e', c') <> (encoding, colorspace) ->
          specs_at Te' e' c' = specs_at Te e' c') /\
       get_encodings self w' =
         (Ok (if str_in encoding (map fst Te) then map fst Te
              else map fst Te ++ [encoding]), w') /\
       exists l inner',
         get_encoder_specs self encoding w' = (Ok l, w') /\
         read_inner (heap w') l = Some inner' /\
         assoc colorspace inner' =
           Some (specs_at Te encoding colorspace ++ [LSpec spec])) /\
    read_table (heap w') (_csc_encoder_specs self) = Some Tc /\
    read_table (heap w') (_video_decoder_specs self) = Some Td.
Proof.
  intros Hok. apply registry_ok_inv, registry_inv_holds in Hok.
  destruct Hok as (Te & Tc & Td & Hh).
  destruct (registry_holds_read _ _ _ _ _ Hh) as (R1 & R2 & R3).
  destruct (add_encoder_spec_step self encoding colorspace (LSpec spec) w
              Te Tc Td Hh) as (h' & Hrun & Hh' & _).
  destruct (registry_holds_read _ _ _ _ _ Hh') as (R1' & R2' & R3').
  exists Te, Tc, Td, (set_heap h' w).
  split; [exact R1|]. split; [exact R2|]. split; [exact R3|].
  split; [exact Hrun|]. cbn [set_heap heap codecs log teardowns].
  split; [reflexivity|]. split; [reflexivity|]. split; [reflexivity|].
  split; [apply registry_ok_inv; eapply registry_holds_inv; eauto|].
  split; [|auto].
  exact (added_tadd (_video_encoder_specs self) encoding colorspace (LSpec spec)
           Te (set_heap h' w) R1').
Qed.

(** [add_csc_spec] and [add_decoder] behave in the same way on their own
    tables: the new leaf comes last in the list under its two keys, the
    other lists and the other two tables are as before, and
    [get_csc_inputs], [get_csc_specs], [get_decodings] and
    [get_decoder_specs] see it. *)
Theorem add_csc_spec_add_decoder_lookup (self : VideoHelper) (w : World)
  (k1 k2 : string) (spec : Spec) (decoder_name : string)
  (decoder_module : Codec.module) :
  registry_ok (heap w) self = true ->
  exists Te Tc Td,
    read_table (heap w) (_video_encoder_specs self) = Some Te /\
    read_table (heap w) (_csc_encoder_specs self) = Some Tc /\
    read_table (heap w) (_video_decoder_specs self) = Some Td /\
    (exists w',
       add_csc_spec self k1 k2 spec w = (Ok tt, w') /\
       codecs w' = codecs w /\ log w' = log w /\ teardowns w' = teardowns w /\
       registry_ok (heap w') self = true /\
       read_table (heap w') (_video_encoder_specs self) = Some Te /\
       read_table (heap w') (_video_decoder_specs self) = Some Td /\
       exists Tc',
         read_table (heap w') (_csc_encoder_specs self) = Some Tc' /\
         specs_at Tc' k1 k2 = specs_at Tc k1 k2 ++ [LSpec spec] /\
         (forall k1' k2', (k1', k2') <> (k1, k2) ->
            specs_at Tc' k1' k2' = specs_at Tc k1' k2') /\
         get_csc_inputs self w' =
           (Ok (if str_in k1 (map fst Tc) then map fst Tc
                else map fst Tc ++ [k1]), w') /\
         exists l inner',
           get_csc_specs self k1 w' = (Ok l, w') /\
           read_inner (heap w') l = Some inner' /\
           assoc k2 inner' = Some (specs_at Tc k1 k2 ++ [LSpec spec])) /\
    (exists w',
       add_decoder self k1 k2 decoder_name decoder_module w = (Ok tt, w') /\
       codecs w' = codecs w /\ log w' = log w /\ teardowns w' = teardowns w /\
       registry_ok (heap w') self = true /\
       read_table (heap w') (_video_encoder_specs self) = Some Te /\
       read_table (heap w') (_csc_encoder_specs self) = Some Tc /\
       exists Td',
         read_table (heap w') (_video_decoder_specs self) = Some Td' /\
         specs_at Td' k1 k2 =
           specs_at Td k1 k2 ++ [LDecoder decoder_name decoder_module] /\
         (forall k1' k2', (k1', k2') <> (k1, k2) ->
            specs_at Td' k1' k2' = specs_at Td k1' k2') /\
         get_decodings self w' =
           (Ok (if str_in k1 (map fst Td) then map fst Td
                else map fst Td ++ [k1]), w') /\
         exists l inner',
           get_decoder_specs self k1 w' = (Ok l, w') /\
           read_inner (heap w') l = Some inner' /\
           assoc k2 inner' =
             Some (specs_at Td k1 k2 ++ [LDecoder decoder_name decoder_module])).
Proof.
  intros Hok. apply registry_ok_inv, registry_inv_holds in Hok.
  destruct Hok as (Te & Tc & Td & Hh).
  destruct (registry_holds_read _ _ _ _ _ Hh) as (R1 & R2 & R3).
  exists Te, Tc, Td.
  split; [exact R1|]. split; [exact R2|]. split; [exact R3|]. split.
  - destruct (add_csc_spec_step self k1 k2 (LSpec spec) w Te Tc Td Hh)
      as (h' & Hrun & Hh' & _).
    destruct (registry_holds_read _ _ _ _ _ Hh') as (R1' & R2' & R3').
    exists (set_heap h' w). split; [exact Hrun|].
    cbn [set_heap heap codecs log teardowns].
    split; [reflexivity|]. split; [reflexivity|]. split; [reflexivity|].
    split; [apply registry_ok_inv; eapply registry_holds_inv; eauto|].
    split; [exact R1'|]. split; [exact R3'|].
    exact (added_tadd (_csc_encoder_specs self) k1 k2 (LSpec spec)
             Tc (set_heap h' w) R2').
  - destruct (add_decoder_step self k1 k2 (LDecoder decoder_name decoder_module)
                w Te Tc Td Hh) as (h' & Hrun & Hh' & _).
    destruct (registry_holds_read _ _ _ _ _ Hh') as (R1' & R2' & R3').
    exists (set_heap h' w). split; [exact Hrun|].
    cbn [set_heap heap codecs log teardowns].
    split; [reflexivity|]. split; [reflexivity|]. split; [reflexivity|].
    split; [apply registry_ok_inv; eapply registry_holds_inv; eauto|].
    split; [exact R1'|]. split; [exact R2'|].
    exact (added_tadd (_video_decoder_specs self) k1 k2
             (LDecoder decoder_name decoder_module) Td (set_heap h' w) R3').
Qed.

(** ** Module names *)

(** [get_encoder_module_name] maps every name to a name that contains
    "enc", and leaves such a name alone: applied twice it gives what it
    gives applied once. *)
Theorem get_encoder_module_name_idempotent (x : string) :
  is_Some (str_find (get_encoder_module_name x) "enc") /\
  get_encoder_module_name (get_encoder_module_name x) =
    get_encoder_module_name x /\
  (str_find x "enc" = None -> get_encoder_module_name x = "enc_" +:+ x).
Proof.
  assert (H : is_Some (str_find (get_encoder_module_name x) "enc")).
  { unfold get_encoder_module_name.
    destruct (str_find x "enc") as [n|] eqn:E; [rewrite E; eauto|].
    exists 0. reflexivity. }
  split; [exact H|]. split.
  - destruct H as [n Hn]. unfold get_encoder_module_name at 1. now rewrite Hn.
  - intros E. unfold get_encoder_module_name. now rewrite E.
Qed.

(** * Further properties of clone *)

(** The copying part of [clone] on a well formed registry: the copy holds
    the same tables and is well formed in its turn. *)
Lemma clone_copy (self0 self : VideoHelper) (w : World) Te Tc Td :
  registry_holds (heap w) self Te Tc Td ->
  exists c h',
    (ves ← deepish_clone_dict (_video_encoder_specs self);
     ces ← deepish_clone_dict (_csc_encoder_specs self);
     vds ← deepish_clone_dict (_video_decoder_specs self);
     c ← new_VideoHelper (Some ves) (Some ces) (Some vds) true;
     ret (self0, c)) w = (Ok (self0, c), set_heap h' w) /\
    extends (heap w) h' /\
    registry_holds h' self Te Tc Td /\
    registry_holds h' c Te Tc Td /\
    video_encoders c = [] /\ csc_modules c = [] /\ video_decoders c = [] /\
    _cleanup_modules c = [] /\ _initialized c = true.
Proof.
  intros (LTe & LTc & LTd & He & Hc & Hd & Hnd & <- & <- & <-).
  destruct (clone_run self0 (_video_encoder_specs self)
              (_csc_encoder_specs self) (_video_decoder_specs self) w
              LTe LTc LTd He Hc Hd)
    as (h' & ce & cc & cd & lo1 & hi1 & lo2 & hi2 & lo3 & hi3 &
        Hrun & Hext & C1 & C2 & C3 & B1 & B2 & B3 & D12 & D13 & D23).
  exists (mkVideoHelper ce cc cd [] [] [] [] true), h'.
  split; [exact Hrun|]. split; [exact Hext|]. split.
  { exists LTe, LTc, LTd.
    split; [exact (table_ok_extends _ _ _ _ He Hext)|].
    split; [exact (table_ok_extends _ _ _ _ Hc Hext)|].
    split; [exact (table_ok_extends _ _ _ _ Hd Hext)|]. auto. }
  split; [|auto 10].
  destruct C1 as (LT1 & O1 & E1 & I1).
  destruct C2 as (LT2 & O2 & E2 & I2).
  destruct C3 as (LT3 & O3 & E3 & I3).
  exists LT1, LT2, LT3.
  cbn [_video_encoder_specs _csc_encoder_specs _video_decoder_specs].
  split; [exact O1|]. split; [exact O2|]. split; [exact O3|].
  split; [|auto].
  eapply NoDup_intervals3; try eassumption; [apply O1 | apply O2 | apply O3].
Qed.

Lemma clone_unfold (self self1 : VideoHelper) (w w1 : World) :
  (if negb (_initialized self) then init self else ret self) w = (Ok self1, w1) ->
  clone self w =
  (ves ← deepish_clone_dict (_video_encoder_specs self1);
   ces ← deepish_clone_dict (_csc_encoder_specs self1);
   vds ← deepish_clone_dict (_video_decoder_specs self1);
   c ← new_VideoHelper (Some ves) (Some ces) (Some vds) true;
   ret (self1, c)) w1.
Proof.
  intros H. unfold clone. unfold mbind at 1, M_bind at 1, bind at 1.
  now rewrite H.
Qed.

Lemma first_step_good (self : VideoHelper) (w : World) :
  registry_good self (heap w) ->
  exists w1,
    (if negb (_initialized self) then init self else ret self) w =
      (Ok (set_initialized true self), w1) /\
    registry_good self (heap w1).
Proof.
  intros Hg. destruct (_initialized self) eqn:Hi; cbn [negb].
  - exists w. split; [|exact Hg]. unfold ret. do 2 f_equal.
    destruct self; simpl in *. now subst.
  - exact (init_safe_typed (registry_good self) self
             (add_encoder_spec_good self) (add_csc_spec_good self)
             (add_decoder_good self) (registry_good_csc_typed self) w Hg).
Qed.

(** [clone] on a well formed registry with typed leaves. *)
Lemma clone_good (self : VideoHelper) (w : World) :
  registry_good self (heap w) ->
  exists c w' Te Tc Td,
    clone self w = (Ok (set_initialized true self, c), w') /\
    registry_holds (heap w') (set_initialized true self) Te Tc Td /\
    registry_holds (heap w') c Te Tc Td /\
    typed Te Tc Td = true /\
    video_encoders c = [] /\ csc_modules c = [] /\ video_decoders c = [] /\
    _cleanup_modules c = [] /\ _initialized c = true.
Proof.
  intros Hg. destruct (first_step_good self w Hg) as (w1 & Hstep & Hg1).
  destruct Hg1 as (Te & Tc & Td & Hh & Ht).
  destruct (clone_copy (set_initialized true self) (set_initialized true self)
              w1 Te Tc Td Hh)
    as (c & h' & Hrun & Hext & Hs & Hc & F).
  exists c, (set_heap h' w1), Te, Tc, Td.
  split; [rewrite (clone_unfold _ _ _ _ Hstep); exact Hrun|].
  cbn [heap set_heap]. auto.
Qed.

(** [clone] on a well formed registry, with typed leaves when [clone] has
    to initialize it. *)
Lemma clone_well_formed (self : VideoHelper) (w : World) :
  registry_inv self (heap w) ->
  (_initialized self = false -> registry_typed (heap w) self = true) ->
  exists c w' Te Tc Td,
    clone self w = (Ok (set_initialized true self, c), w') /\
    registry_holds (heap w') (set_initialized true self) Te Tc Td /\
    registry_holds (heap w') c Te Tc Td /\
    video_encoders c = [] /\ csc_modules c = [] /\ video_decoders c = [] /\
    _cleanup_modules c = [] /\ _initialized c = true.
Proof.
  intros Hinv Hty.
  destruct (clone_first_step self w Hinv Hty) as (w1 & Hstep & Hinv1 & _).
  destruct (registry_inv_holds _ _ Hinv1) as (Te & Tc & Td & Hh).
  destruct (clone_copy (set_initialized true self) (set_initialized true self)
              w1 Te Tc Td Hh)
    as (c & h' & Hrun & Hext & Hs & Hc & F).
  exists c, (set_heap h' w1), Te, Tc, Td.
  split; [rewrite (clone_unfold _ _ _ _ Hstep); exact Hrun|].
  cbn [heap set_heap]. auto.
Qed.

(** * Further properties of the queries *)

(** ** The queries change nothing *)

(** [m] leaves the world as it found it, whether it returns or raises. *)
Definition reads {A} (m : M A) : Prop := forall w, snd (m w) = w.

Lemma reads_ret {A} (a : A) : reads (ret a).
Proof. now intros w. Qed.

Lemma reads_raise {A} (e : exn) : reads (@raise A e).
Proof. now intros w. Qed.

Lemma reads_call {A} (r : Res A) : reads (call r).
Proof. now intros w. Qed.

Lemma reads_load (l : loc) : reads (load l).
Proof. intros w. unfold load. now destruct (heap w !! l). Qed.

Lemma reads_get_codec (name : string) : reads (get_codec name).
Proof. now intros w. Qed.

Lemma reads_bind {A B} (m : M A) (k : A -> M B) :
  reads m -> (forall a, reads (k a)) -> reads (m ≫= k).
Proof.
  intros Hm Hk w. unfold mbind, M_bind, bind. specialize (Hm w).
  destruct (m w) as [[a|e] w']; cbn [snd] in Hm; subst w'; [apply Hk | done].
Qed.

Lemma reads_fold_m {A S} (xs : list A) (acc : S) (body : A -> S -> M S) :
  (forall x s, reads (body x s)) -> reads (fold_m xs acc body).
Proof.
  intros Hb. revert acc. induction xs as [|x r IH]; intros acc.
  - apply reads_ret.
  - cbn [fold_m]. apply reads_bind; [apply Hb | intros a; apply IH].
Qed.

Ltac reads_step :=
  match goal with
  | |- reads (_ ≫= _) => apply reads_bind; [|intros ?]
  | |- reads (fold_m _ _ _) => apply reads_fold_m; intros ? ?
  | |- reads (ret _) => apply reads_ret
  | |- reads (raise _) => apply reads_raise
  | |- reads (call _) => apply reads_call
  | |- reads (load _) => apply reads_load
  | |- reads (get_codec _) => apply reads_get_codec
  | |- reads (match ?x with _ => _ end) => destruct x
  | |- reads ((match ?x with _ => _ end) _) => destruct x
  end.

Lemma reads_dict_items (d : loc) : reads (dict_items d).
Proof. unfold dict_items. repeat reads_step. Qed.

Lemma reads_list_elems (l : loc) : reads (list_elems l).
Proof. unfold list_elems. repeat reads_step. Qed.

Lemma reads_dict_keys (d : loc) : reads (dict_keys d).
Proof. unfold dict_keys. apply reads_bind; [apply reads_dict_items|]. intros ?. apply reads_ret. Qed.

Lemma reads_get_server_full_csc_modes (self : VideoHelper) (modes : list string) :
  reads (get_server_full_csc_modes self modes).
Proof.
  unfold get_server_full_csc_modes.
  apply reads_bind; [apply reads_dict_items | intros items].
  apply reads_fold_m. intros [e d] acc.
  apply reads_bind; [apply reads_dict_items | intros inner].
  apply reads_fold_m. intros [cs l] acc'.
  apply reads_bind; [apply reads_list_elems | intros entries].
  apply reads_fold_m. intros entry acc''. repeat reads_step.
Qed.

Lemma reads_csc_reaches (rgb : list string) (specs : list (string * loc)) :
  reads (csc_reaches rgb specs).
Proof.
  induction specs as [|[dst l] r IH]; cbn [csc_reaches]; [apply reads_ret|].
  destruct (str_in dst rgb); [|exact IH].
  apply reads_bind; [apply reads_load | intros o].
  destruct (truthy o); [apply reads_ret | exact IH].
Qed.

Lemma reads_rgb_supported_csc_modes (self : VideoHelper) (rgb : list string) :
  reads (rgb_supported_csc_modes self rgb).
Proof.
  unfold rgb_supported_csc_modes.
  apply reads_bind; [apply reads_dict_items | intros items].
  apply reads_fold_m. intros [src specs] acc.
  apply reads_bind; [apply reads_dict_items | intros sitems].
  apply reads_bind; [apply reads_csc_reaches | intros found]. apply reads_ret.
Qed.

Lemma reads_codec_types (specs : list leaf) : reads (codec_types specs).
Proof.
  induction specs as [|v r IH]; cbn [codec_types]; [apply reads_ret|].
  apply reads_bind; [unfold leaf_codec_type; repeat reads_step|]. intros t.
  apply reads_bind; [exact IH|]. intros ts. apply reads_ret.
Qed.

Lemma reads_default_encoders_loop (xs encoders : list string) :
  reads (default_encoders_loop xs encoders).
Proof. intros w. now rewrite default_encoders_loop_run. Qed.

Lemma reads_default_modules_loop (f : string -> string) (xs found : list string) :
  reads (default_modules_loop f xs found).
Proof. intros w. now rewrite default_modules_loop_run. Qed.

Ltac reads_query :=
  repeat first
    [ apply reads_dict_items | apply reads_list_elems | apply reads_dict_keys
    | apply reads_codec_types | apply reads_default_encoders_loop
    | apply reads_default_modules_loop | reads_step ].

Lemma reads_get_info (self : VideoHelper) : reads (get_info self).
Proof.
  unfold get_info, info_setdefault_append, info_setitem, leaf_codec_type,
    leaf_decoder_name, get_DEFAULT_VIDEO_ENCODERS, get_DEFAULT_CSC_MODULES.
  cbv zeta. reads_query.
Qed.

(** The queries of the registry are read-only.  In every world, and
    whether the call returns or raises, [get_encodings], [get_decodings],
    [get_csc_inputs], [get_server_full_csc_modes],
    [get_server_full_csc_modes_for_rgb], [get_info] and the three defaults
    probes leave the store, the loader, the log and the teardown record
    exactly as they were. *)
Theorem queries_read_only (self : VideoHelper) (w : World) :
  snd (get_encodings self w) = w /\
  snd (get_decodings self w) = w /\
  snd (get_csc_inputs self w) = w /\
  (forall modes, snd (get_server_full_csc_modes self modes w) = w) /\
  (forall rgb, snd (get_server_full_csc_modes_for_rgb self rgb w) = w) /\
  snd (get_info self w) = w /\
  snd (get_DEFAULT_VIDEO_ENCODERS w) = w /\
  snd (get_DEFAULT_CSC_MODULES w) = w /\
  snd (get_DEFAULT_VIDEO_DECODERS w) = w.
Proof.
  split; [apply reads_dict_keys|]. split; [apply reads_dict_keys|].
  split; [apply reads_dict_keys|].
  split; [intros modes; apply reads_get_server_full_csc_modes|].
  split.
  { intros rgb. unfold get_server_full_csc_modes_for_rgb.
    apply reads_bind; [apply reads_rgb_supported_csc_modes|].
    intros l. apply reads_get_server_full_csc_modes. }
  split; [apply reads_get_info|].
  split; [apply reads_default_encoders_loop|].
  split; apply reads_default_modules_loop.
Qed.

(** ** The colorspace query as a function of the decoder table *)

(** A loop that stops at the first exception. *)
Fixpoint fold_res {A S} (xs : list A) (acc : S) (g : S -> A -> Res S) : Res S :=
  match xs with
  | [] => Ok acc
  | x :: r =>
      match g acc x with
      | Ok acc' => fold_res r acc' g
      | Raise e => Raise e
      end
  end.

Lemma fold_m_res {A S} (xs : list A) (acc : S) body (g : S -> A -> Res S)
  (w : World) :
  (forall x a, In x xs -> body x a w = (g a x, w)) ->
  fold_m xs acc body w = (fold_res xs acc g, w).
Proof.
  revert acc. induction xs as [|x r IH]; intros acc Hb; [done|].
  cbn [fold_m fold_res]. unfold mbind, M_bind, bind.
  rewrite Hb by now left. destruct (g acc x) as [a|e]; [|done].
  apply IH. intros y a' Hy. apply Hb. now right.
Qed.

Lemma fold_m_read_res {A B S} (f : A -> option B) (xs : list (string * A))
  (ys : list (string * B)) (acc : S) body (g : S -> string * B -> Res S)
  (w : World) :
  read_all f xs = Some ys ->
  (forall k a b s, f a = Some b -> In (k, b) ys ->
     body (k, a) s w = (g s (k, b), w)) ->
  fold_m xs acc body w = (fold_res ys acc g, w).
Proof.
  revert ys acc. induction xs as [|[k a] r IH]; intros ys acc.
  - now intros [= <-] _.
  - intros (b & T' & Hb & Hr & ->)%read_all_cons Hbody.
    cbn [fold_m fold_res]. unfold mbind, M_bind, bind.
    rewrite (Hbody k a b acc Hb) by now left.
    destruct (g acc (k, b)) as [a'|e]; [|done].
    apply IH; [done|]. intros k' a0 b' s Hf Hin. apply Hbody; [done | now right].
Qed.

(** One decoder entry of [get_server_full_csc_modes]. *)
Definition entry_res (modes : list string) (encoding colorspace : string)
  (full_csc_modes : list (string * list string)) (entry : leaf)
  : Res (list (string * list string)) :=
  match entry with
  | LDecoder _ decoder_module =>
      match Codec.get_output_colorspace decoder_module encoding colorspace with
      | Ok out =>
          Ok (if str_in out modes
              then record_colorspace full_csc_modes encoding colorspace
              else full_csc_modes)
      | Raise e => Raise e
      end
  | LSpec _ => Raise TypeError
  end.

(** The result of [get_server_full_csc_modes] on a decoder table of
    content [T]. *)
Definition csc_modes_res (modes : list string) (T : table_content)
  : Res (list (string * list string)) :=
  fold_res T [] (fun acc kv =>
    fold_res (sorted_items (snd kv)) acc (fun acc kv' =>
      fold_res (snd kv') acc (entry_res modes (fst kv) (fst kv')))).

Lemma get_server_full_csc_modes_res (self : VideoHelper) (modes : list string)
  (w : World) (T : table_content) :
  read_table (heap w) (_video_decoder_specs self) = Some T ->
  get_server_full_csc_modes self modes w = (csc_modes_res modes T, w).
Proof.
  unfold read_table. destruct (read_dict _ _) as [items|] eqn:Hd; [|done].
  intros HT. unfold get_server_full_csc_modes, mbind, M_bind, bind.
  rewrite (dict_items_read _ _ _ Hd).
  unfold csc_modes_res.
  apply (fold_m_read_res (read_inner (heap w))); [exact HT|].
  intros e d inner acc Hinner Hin.
  unfold read_inner in Hinner.
  destruct (read_dict _ d) as [ditems|] eqn:Hdd; [|done].
  rewrite (dict_items_read _ _ _ Hdd). cbn [fst snd].
  apply (fold_m_read_res (read_list (heap w))); [now apply read_all_sorted_items|].
  intros cs l entries acc' Hl Hin'.
  rewrite (list_elems_read _ _ _ Hl). cbn [fst snd].
  apply fold_m_res. intros entry a Hentry.
  destruct entry as [sp|nm m]; [done|]. cbn [entry_res].
  unfold call. destruct (Codec.get_output_colorspace m e cs) as [out|]; [|done].
  now destruct (str_in out modes).
Qed.

Lemma fold_res_ok {A S} (xs : list A) (acc : S) (g : S -> A -> Res S)
  (p : A -> bool) :
  (forall s x, In x xs -> ((exists a, g s x = Ok a) <-> p x = true)) ->
  (exists a, fold_res xs acc g = Ok a) <-> forallb p xs = true.
Proof.
  revert acc. induction xs as [|x r IH]; intros acc Hg.
  - simpl. split; eauto.
  - cbn [fold_res forallb]. rewrite andb_true_iff.
    pose proof (Hg acc x (or_introl eq_refl)) as Hx.
    destruct (g acc x) as [a|e].
    + rewrite IH by (intros s y Hy; apply Hg; now right).
      split; [intros H; split; [apply Hx; eauto | exact H] | tauto].
    + split; [intros [a [=]]|]. intros [Hp _]. apply Hx in Hp as [a [=]].
Qed.

Lemma csc_modes_res_ok (modes : list string) (T : table_content) :
  (exists res, csc_modes_res modes T = Ok res) <-> decoders_answer T = true.
Proof.
  unfold csc_modes_res, decoders_answer. apply fold_res_ok.
  intros acc [e inner] _. cbn [fst snd].
  rewrite <- (forallb_sorted_items _ inner). apply fold_res_ok.
  intros acc' [cs entries] _. cbn [fst snd]. apply fold_res_ok.
  intros acc'' entry _. rewrite bool_decide_eq_true.
  unfold entry_res, output_of. destruct entry as [sp|nm m].
  - split; [intros [a [=]] | intros [a [=]]].
  - destruct (Codec.get_output_colorspace m e cs) as [out|x]; split; eauto.
    + intros [a [=]].
    + intros [a [=]].
Qed.

(** [get_server_full_csc_modes] fails as a whole.  It returns exactly when
    every entry of the decoder table answers [get_output_colorspace] for
    its own encoding and colorspace; one entry that raises makes the query
    raise, whatever the peer colorspaces are and whatever the other entries
    would have contributed.  Either way the world is unchanged. *)
Theorem get_server_full_csc_modes_fails_as_a_whole (self : VideoHelper)
  (w : World) (modes : list string) (T : table_content) :
  read_table (heap w) (_video_decoder_specs self) = Some T ->
  (decoders_answer T = true ->
   exists res, get_server_full_csc_modes self modes w = (Ok res, w)) /\
  (decoders_answer T = false ->
   exists e, get_server_full_csc_modes self modes w = (Raise e, w)).
Proof.
  intros HT. rewrite (get_server_full_csc_modes_res _ modes _ _ HT).
  pose proof (csc_modes_res_ok modes T) as Hok.
  destruct (csc_modes_res modes T) as [res|e]; split.
  - eauto.
  - intros Hf. rewrite Hf in Hok. destruct Hok as [Hok _].
    discriminate Hok. eauto.
  - intros Ht. apply Hok in Ht as [res [=]].
  - eauto.
Qed.

(** A registry and its clone answer alike.  [clone] returns on a well
    formed registry, with typed leaves when it is not yet initialized and
    [clone] has to run [init]; right after it, the source and the copy
    offer the same encodings, decodings and csc inputs in the same order,
    and [get_server_full_csc_modes] and
    [get_server_full_csc_modes_for_rgb] give the same result on both, or
    raise the same exception, for every peer set. *)
Theorem clone_answers_like_source (self : VideoHelper) (w : World) :
  registry_ok (heap w) self = true ->
  (_initialized self = false -> registry_typed (heap w) self = true) ->
  exists self' c w',
    clone self w = (Ok (self', c), w') /\
    get_encodings c w' = get_encodings self' w' /\
    get_decodings c w' = get_decodings self' w' /\
    get_csc_inputs c w' = get_csc_inputs self' w' /\
    (forall modes,
       get_server_full_csc_modes c modes w' =
       get_server_full_csc_modes self' modes w') /\
    (forall rgb,
       get_server_full_csc_modes_for_rgb c rgb w' =
       get_server_full_csc_modes_for_rgb self' rgb w').
Proof.
  intros Hok Hty. apply registry_ok_inv in Hok.
  destruct (clone_well_formed self w Hok Hty)
    as (c & w' & Te & Tc & Td & Hrun & Hs & Hc & _).
  destruct (registry_holds_read _ _ _ _ _ Hs) as (S1 & S2 & S3).
  destruct (registry_holds_read _ _ _ _ _ Hc) as (C1 & C2 & C3).
  exists (set_initialized true self), c, w'. split; [exact Hrun|].
  unfold get_encodings, get_decodings, get_csc_inputs.
  rewrite (dict_keys_read _ _ _ S1), (dict_keys_read _ _ _ S2),
    (dict_keys_read _ _ _ S3), (dict_keys_read _ _ _ C1),
    (dict_keys_read _ _ _ C2), (dict_keys_read _ _ _ C3).
  split; [reflexivity|]. split; [reflexivity|]. split; [reflexivity|].
  split.
  - intros modes.
    now rewrite (get_server_full_csc_modes_res _ modes _ _ S3),
      (get_server_full_csc_modes_res _ modes _ _ C3).
  - intros rgb. unfold get_server_full_csc_modes_for_rgb, mbind, M_bind, bind.
    rewrite (rgb_supported_csc_modes_run _ rgb _ _ S2),
      (rgb_supported_csc_modes_run _ rgb _ _ C2).
    now rewrite (get_server_full_csc_modes_res _ _ _ _ S3),
      (get_server_full_csc_modes_res _ _ _ _ C3).
Qed.

(** ** The colorspace query grows with the peer set *)

Lemma viable_mono (m1 m2 : list string) (e cs : string) (entries : list leaf) :
  incl m1 m2 -> viable m1 e cs entries = true -> viable m2 e cs entries = true.
Proof.
  intros Hincl. rewrite !viable_true.
  intros (nm & m & out & H1 & H2 & H3). exists nm, m, out. auto.
Qed.

Lemma viable_nil (e cs : string) (entries : list leaf) :
  viable [] e cs entries = false.
Proof.
  destruct (viable [] e cs entries) eqn:E; [|done].
  apply viable_true in E as (nm & m & out & _ & _ & []).
Qed.

Lemma expected_csc_modes_nil (T : table_content) : expected_csc_modes [] T = [].
Proof.
  unfold expected_csc_modes. induction T as [|[e inner] r IH]; [done|].
  cbn [flat_map fst snd]. rewrite IH. unfold viable_colorspaces.
  rewrite (filter_none_on _ (sorted_items inner)); [done|].
  intros [cs entries] _. apply viable_nil.
Qed.

Lemma expected_csc_modes_mono (m1 m2 : list string) (T : table_content)
  (e : string) (l : list string) :
  table_wf T = true -> incl m1 m2 ->
  assoc e (expected_csc_modes m1 T) = Some l ->
  exists l', assoc e (expected_csc_modes m2 T) = Some l' /\ incl l l'.
Proof.
  intros Hwf Hincl (inner & Hin & -> & Hne)%(expected_csc_modes_assoc _ _ _ _ Hwf).
  assert (Hsub : incl (viable_colorspaces m1 e inner) (viable_colorspaces m2 e inner)).
  { intros cs. rewrite !viable_colorspaces_In.
    intros (entries & H1 & H2). exists entries. split; [exact H1|].
    now apply (viable_mono m1). }
  exists (viable_colorspaces m2 e inner). split; [|exact Hsub].
  apply (expected_csc_modes_assoc _ _ _ _ Hwf). exists inner.
  split; [exact Hin|]. split; [reflexivity|].
  destruct (viable_colorspaces m1 e inner) as [|cs r]; [done|].
  intros E. specialize (Hsub cs (or_introl eq_refl)). now rewrite E in Hsub.
Qed.

Lemma csc_modes_expected (self : VideoHelper) (modes : list string) (w : World)
  (T : table_content) :
  read_table (heap w) (_video_decoder_specs self) = Some T ->
  table_wf T = true -> decoders_answer T = true ->
  get_server_full_csc_modes self modes w = (Ok (expected_csc_modes modes T), w).
Proof.
  intros HT Hwf Hans. rewrite (get_server_full_csc_modes_run _ _ _ _ HT Hans).
  rewrite full_csc_modes_of_expected; [done|].
  unfold table_wf in Hwf. apply andb_true_iff in Hwf as [Hnd _].
  now apply nodupb_NoDup.
Qed.

(** [get_server_full_csc_modes] is monotone in the peer colorspaces: with
    more of them, every encoding that was offered is still offered, with at
    least the colorspaces it had.  With none, nothing is offered; and no
    encoding is ever offered that is not among [get_decodings]. *)
Theorem get_server_full_csc_modes_monotone (self : VideoHelper) (w : World)
  (modes modes' : list string) (T : table_content) :
  read_table (heap w) (_video_decoder_specs self) = Some T ->
  table_wf T = true -> decoders_answer T = true ->
  incl modes modes' ->
  exists res res' decodings,
    get_server_full_csc_modes self modes w = (Ok res, w) /\
    get_server_full_csc_modes self modes' w = (Ok res', w) /\
    get_decodings self w = (Ok decodings, w) /\
    get_server_full_csc_modes self [] w = (Ok [], w) /\
    (forall e l, assoc e res = Some l ->
       exists l', assoc e res' = Some l' /\ incl l l') /\
    (forall e, In e (map fst res) -> In e decodings).
Proof.
  intros HT Hwf Hans Hincl.
  exists (expected_csc_modes modes T), (expected_csc_modes modes' T), (map fst T).
  split; [now apply csc_modes_expected|].
  split; [now apply csc_modes_expected|].
  split; [now apply dict_keys_read|].
  split; [rewrite <- (expected_csc_modes_nil T); now apply csc_modes_expected|].
  split; [intros e l; now apply expected_csc_modes_mono|].
  intros e. apply expected_csc_modes_keys.
Qed.

(** [get_server_full_csc_modes_for_rgb] offers at least what
    [get_server_full_csc_modes] offers for the same formats: every encoding
    of the plain query is in the extended one with at least the same
    colorspaces.  When the csc table is empty the two results are equal. *)
Theorem get_server_full_csc_modes_for_rgb_extends (self : VideoHelper)
  (w : World) (rgb : list string) (Tc Td : table_content) :
  read_table (heap w) (_csc_encoder_specs self) = Some Tc ->
  read_table (heap w) (_video_decoder_specs self) = Some Td ->
  table_wf Td = true -> decoders_answer Td = true ->
  exists res res',
    get_server_full_csc_modes self rgb w = (Ok res, w) /\
    get_server_full_csc_modes_for_rgb self rgb w = (Ok res', w) /\
    (forall e l, assoc e res = Some l ->
       exists l', assoc e res' = Some l' /\ incl l l') /\
    (Tc = [] -> res' = res).
Proof.
  intros Hc Hd Hwf Hans.
  exists (expected_csc_modes rgb Td),
    (expected_csc_modes (sorted (rgb ++ rgb_sources rgb Tc)) Td).
  split; [now apply csc_modes_expected|].
  split.
  { unfold get_server_full_csc_modes_for_rgb, mbind, M_bind, bind.
    rewrite (rgb_supported_csc_modes_run _ rgb _ _ Hc).
    now apply csc_modes_expected. }
  split.
  - intros e l. apply expected_csc_modes_mono; [exact Hwf|].
    intros x Hx. apply sorted_In, in_or_app. now left.
  - intros ->. cbn [rgb_sources List.filter map]. rewrite app_nil_r.
    assert (E : get_server_full_csc_modes self (sorted rgb) w =
                get_server_full_csc_modes self rgb w).
    { apply get_server_full_csc_modes_ext, str_in_ext. intros x. apply sorted_In. }
    rewrite !(csc_modes_expected _ _ _ _ Hd Hwf Hans) in E. congruence.
Qed.

(** ** What the clone does not take over *)

(** [clone] copies the tables only.  The copy has no module enabled and
    an empty cleanup list, whatever the source has, and the source keeps
    its own.  So [get_info] on the copy reports no encoder and no csc
    module as "active" (each is "disabled" or "not found", by the defaults
    probe), [cleanup] on the copy tears no module down and logs nothing,
    and [set_modules] on the copy raises: the copy is born initialized. *)
Theorem clone_forgets_selection (self : VideoHelper) (w : World) :
  registry_ok (heap w) self = true ->
  registry_typed (heap w) self = true ->
  exists self' c w' report enc_defaults csc_defaults,
    clone self w = (Ok (self', c), w') /\
    video_encoders self' = video_encoders self /\
    csc_modules self' = csc_modules self /\
    video_decoders self' = video_decoders self /\
    _cleanup_modules self' = _cleanup_modules self /\
    video_encoders c = [] /\ csc_modules c = [] /\ video_decoders c = [] /\
    _cleanup_modules c = [] /\
    get_info c w' = (Ok report, w') /\
    get_DEFAULT_VIDEO_ENCODERS w' = (Ok enc_defaults, w') /\
    get_DEFAULT_CSC_MODULES w' = (Ok csc_defaults, w') /\
    (forall x, In x ALL_VIDEO_ENCODER_OPTIONS ->
       module_status report "video-encoder" x =
       Some (IStr (if str_in x enc_defaults then "disabled" else "not found"))) /\
    (forall x, In x ALL_CSC_MODULE_OPTIONS ->
       module_status report "csc-module" x =
       Some (IStr (if str_in x csc_defaults then "disabled" else "not found"))) /\
    (exists c2 w2,
       cleanup c w' = (Ok c2, w2) /\
       teardowns w2 = teardowns w' /\ log w2 = log w') /\
    (forall ve cm vd, exists e, set_modules c ve cm vd w' = (Raise e, w')).
Proof.
  intros Hok Ht.
  assert (Hg : registry_good self (heap w)) by (apply registry_good_iff; auto).
  destruct (clone_good self w Hg)
    as (c & w' & Te & Tc & Td & Hrun & Hs & Hc & Hty & F1 & F2 & F3 & F4 & F5).
  assert (Hgc : registry_good c (heap w')) by (exists Te, Tc, Td; auto).
  apply registry_good_iff in Hgc as [_ Htc].
  destruct (get_info_run c w' Htc) as (einfo & dinfo & cinfo & Je & E).
  exists (set_initialized true self), c, w'.
  eexists _, _, _. split; [exact Hrun|].
  split; [reflexivity|]. split; [reflexivity|]. split; [reflexivity|].
  split; [reflexivity|].
  split; [exact F1|]. split; [exact F2|]. split; [exact F3|]. split; [exact F4|].
  split; [exact E|].
  split; [apply get_DEFAULT_VIDEO_ENCODERS_run|].
  split; [apply get_DEFAULT_CSC_MODULES_run|].
  split; [|split; [|split]].
  - intros x Hx.
    rewrite (proj1 (module_status_report einfo dinfo cinfo _ _ x Je)).
    rewrite (statuses_assoc _ _ _ _ _ Hx). unfold modstatus.
    now rewrite F1.
  - intros x Hx.
    rewrite (proj2 (module_status_report einfo dinfo cinfo _ _ x Je)).
    rewrite (statuses_assoc _ _ _ _ _ Hx). unfold modstatus.
    now rewrite F2.
  - eexists _, _. split; [apply cleanup_run; exact F5|].
    rewrite F4. cbn [teardowns log teardown_errors flat_map].
    now rewrite !app_nil_r.
  - intros ve cm vd. eexists. unfold set_modules, assert_, mbind, M_bind, bind.
    rewrite F5. reflexivity.
Qed.

Lemma read_all_ext {A B} (f g : A -> option B) (items : list (string * A))
  (T : list (string * B)) :
  (forall a b, f a = Some b -> g a = Some b) ->
  read_all f items = Some T -> read_all g items = Some T.
Proof.
  intros H. revert T. induction items as [|[k a] r IH]; intros T; [done|].
  intros (b & T' & Hb & Hr & ->)%read_all_cons. cbn [read_all].
  now rewrite (H _ _ Hb), (IH _ Hr).
Qed.

Lemma read_inner_prefix (h0 h : list obj) (d : loc) (inner : inner_content) :
  (forall x, x < length h0 -> h !! x = h0 !! x) ->
  read_inner h0 d = Some inner -> read_inner h d = Some inner.
Proof.
  intros Hpre. unfold read_inner.
  destruct (read_dict h0 d) as [items|] eqn:Hd; [|done].
  rewrite (read_dict_prefix _ _ _ _ Hpre Hd).
  apply read_all_ext. intros l elems. now apply read_list_prefix.
Qed.

Lemma read_table_prefix (h0 h : list obj) (t : loc) (T : table_content) :
  (forall x, x < length h0 -> h !! x = h0 !! x) ->
  read_table h0 t = Some T -> read_table h t = Some T.
Proof.
  intros Hpre. unfold read_table.
  destruct (read_dict h0 t) as [items|] eqn:Hd; [|done].
  rewrite (read_dict_prefix _ _ _ _ Hpre Hd).
  apply read_all_ext. intros l elems. now apply read_inner_prefix.
Qed.

(** ** The deep-ish copy of a table with empty containers *)

Lemma In_pruned_keys (T : table_content) (e : string) :
  In e (map fst (pruned T)) <->
  exists inner c l, In (e, inner) T /\ In (c, l) inner /\ l <> [].
Proof.
  assert (K : forall inner : inner_content,
            flat_map (fun kv' => opt_list (fst kv') (snd kv')) inner <> [] <->
            exists c l, In (c, l) inner /\ l <> []).
  { induction inner as [|[c l] r IH]; cbn [flat_map fst snd].
    - split; [done | intros (? & ? & [] & _)].
    - destruct l as [|v l]; cbn [opt_list app].
      + rewrite IH. split.
        * intros (c' & l' & Hin & Hne). exists c', l'. split; [now right | done].
        * intros (c' & l' & [[= <- <-]|Hin] & Hne); [done|]. eauto.
      + split; [|done]. intros _. exists c, (v :: l). split; [now left | done]. }
  unfold pruned. induction T as [|[k inner] r IH]; cbn [flat_map fst snd].
  - simpl. split; [done | intros (? & ? & ? & [] & _)].
  - rewrite map_app, in_app_iff, IH. split.
    + intros [H|(inner' & c & l & Hin & H)].
      * destruct (flat_map _ inner) as [|y ys] eqn:E; [done|].
        cbn [opt_inner map fst] in H. destruct H as [<-|[]].
        assert (Hne : flat_map (fun kv' => opt_list (fst kv') (snd kv')) inner <> [])
          by now rewrite E.
        apply K in Hne as (c & l & Hin & Hl). exists inner, c, l.
        split; [now left | done].
      * exists inner', c, l. split; [now right | done].
    + intros (inner' & c & l & [[= <- <-]|Hin] & Hc & Hl).
      * left. assert (Hne : flat_map (fun kv' => opt_list (fst kv') (snd kv')) inner <> []).
        { apply K. eauto. }
        destruct (flat_map _ inner); [done|]. now left.
      * right. exists inner', c, l. auto.
Qed.

(** [deepish_clone_dict] makes the containers of the copy as it copies the
    leaves into them, so a list with no leaf and an inner dictionary with
    no leaf are not copied.  On any table with unique keys the copy is a
    new dictionary that holds the source without its empty lists and
    without the encodings left with no list: an encoding of the source is
    in the copy exactly when one of its lists has a leaf.  The source and
    every older object are as before. *)
Theorem deepish_clone_dict_prunes (src : loc) (w : World) (T : table_content) :
  read_table (heap w) src = Some T ->
  table_wf T = true ->
  exists h',
    deepish_clone_dict src w = (Ok (length (heap w)), set_heap h' w) /\
    extends (heap w) h' /\
    read_table h' (length (heap w)) = Some (pruned T) /\
    read_table h' src = Some T /\
    (forall e, In e (map fst (pruned T)) <->
       exists inner c l, In (e, inner) T /\ In (c, l) inner /\ l <> []) /\
    (full T = true -> pruned T = T).
Proof.
  intros Hread Hwf. pose proof Hread as Hread0. unfold read_table in Hread.
  destruct (read_dict (heap w) src) as [items|] eqn:Hd; [|done].
  set (n := length (heap w)).
  set (w1 := set_heap (heap w ++ [ODict []]) w).
  assert (H1 : copying w n [] w1).
  { split; [reflexivity|]. split; [cbn; rewrite length_app; lia|].
    split; [intros x Hx; now apply lookup_snoc_old|].
    exists []. split; [|split; [|reflexivity]].
    - split; [|split; [|split; reflexivity]].
      + split; [apply lookup_snoc_new | constructor].
      + repeat constructor. simpl. tauto.
    - intros x [<-|[]]. subst n. lia. }
  destruct (copy_loops w n items T [] w1 Hread H1) as (w2 & Hrun & H2).
  rewrite (copied_pruned T [] Hwf (fun _ _ => eq_refl)) in H2.
  cbn [app] in H2.
  destruct H2 as (Hw2 & Hlen & Hpre & LT & Hok & Hnew & Hc).
  exists (heap w2). split; [|split; [|split; [|split; [|split]]]].
  - unfold deepish_clone_dict.
    unfold mbind at 1, M_bind at 1, bind at 1.
    change (alloc (ODict []) w) with (Ok n, w1). cbv beta iota.
    unfold mbind at 1, M_bind at 1, bind at 1.
    rewrite (dict_items_read src w1 items).
    + unfold mbind at 1, M_bind at 1, bind at 1.
      rewrite Hrun. unfold ret. apply f_equal2; [reflexivity | exact Hw2].
    + apply (read_dict_prefix (heap w)); [|exact Hd].
      intros x Hx. now apply lookup_snoc_old.
  - split; [exact Hlen | exact Hpre].
  - rewrite <- Hc. apply read_table_of_table_at, Hok.
  - apply (read_table_prefix (heap w)); [exact Hpre | exact Hread0].
  - apply In_pruned_keys.
  - apply pruned_full.
Qed.

(** ** init only appends *)

(** [T'] is [T] with more in it: the keys of [T] come first among the
    keys of [T'], in their order, and every list of [T] is the beginning
    of the list of [T'] under the same two keys. *)
Definition grows (T T' : table_content) : Prop :=
  (exists ks, map fst T' = map fst T ++ ks) /\
  forall k1 k2, exists l, specs_at T' k1 k2 = specs_at T k1 k2 ++ l.

Lemma grows_refl (T : table_content) : grows T T.
Proof.
  split; [exists []; now rewrite app_nil_r|].
  intros k1 k2. exists []. now rewrite app_nil_r.
Qed.

Lemma grows_trans (T1 T2 T3 : table_content) :
  grows T1 T2 -> grows T2 T3 -> grows T1 T3.
Proof.
  intros [[ks1 K1] S1] [[ks2 K2] S2]. split.
  - exists (ks1 ++ ks2). now rewrite K2, K1, app_assoc.
  - intros k1 k2. destruct (S1 k1 k2) as [l1 E1]. destruct (S2 k1 k2) as [l2 E2].
    exists (l1 ++ l2). now rewrite E2, E1, app_assoc.
Qed.

Lemma grows_tadd (k1 k2 : string) (v : leaf) (T : table_content) :
  grows T (tadd k1 k2 v T).
Proof.
  split.
  - rewrite keys_tadd. destruct (str_in k1 (map fst T)).
    + exists []. now rewrite app_nil_r.
    + now exists [k1].
  - intros k1' k2'.
    destruct (string_dec k1' k1) as [->|H1]; [destruct (string_dec k2' k2) as [->|H2]|].
    + exists [v]. apply specs_at_tadd_eq.
    + exists []. rewrite app_nil_r. apply specs_at_tadd_ne. congruence.
    + exists []. rewrite app_nil_r. apply specs_at_tadd_ne. congruence.
Qed.

(** The registry is well formed and its tables have grown from [Te0],
    [Tc0] and [Td0]. *)
Definition grown (self : VideoHelper) (Te0 Tc0 Td0 : table_content)
  (h : list obj) : Prop :=
  exists Te Tc Td,
    registry_holds h self Te Tc Td /\
    grows Te0 Te /\ grows Tc0 Tc /\ grows Td0 Td.

Lemma add_encoder_spec_grown (self : VideoHelper) Te0 Tc0 Td0
  (e c : string) (spec : Spec) :
  keeps (grown self Te0 Tc0 Td0) (add_encoder_spec self e c spec).
Proof.
  intros w (Te & Tc & Td & Hh & G1 & G2 & G3). unfold add_encoder_spec.
  destruct (add_encoder_spec_step self e c (LSpec spec) w Te Tc Td Hh)
    as (h' & Hrun & Hh' & _).
  rewrite Hrun. cbn [heap set_heap]. eexists _, _, _. split; [exact Hh'|].
  split; [|auto]. eapply grows_trans; [exact G1 | apply grows_tadd].
Qed.

Lemma add_csc_spec_grown (self : VideoHelper) Te0 Tc0 Td0
  (e c : string) (spec : Spec) :
  keeps (grown self Te0 Tc0 Td0) (add_csc_spec self e c spec).
Proof.
  intros w (Te & Tc & Td & Hh & G1 & G2 & G3). unfold add_csc_spec.
  destruct (add_csc_spec_step self e c (LSpec spec) w Te Tc Td Hh)
    as (h' & Hrun & Hh' & _).
  rewrite Hrun. cbn [heap set_heap]. eexists _, _, _. split; [exact Hh'|].
  split; [exact G1|]. split; [|exact G3].
  eapply grows_trans; [exact G2 | apply grows_tadd].
Qed.

Lemma add_decoder_grown (self : VideoHelper) Te0 Tc0 Td0
  (e c : string) (decoder_name : string) (decoder_module : Codec.module) :
  keeps (grown self Te0 Tc0 Td0)
    (add_decoder self e c decoder_name decoder_module).
Proof.
  intros w (Te & Tc & Td & Hh & G1 & G2 & G3). unfold add_decoder.
  destruct (add_decoder_step self e c (LDecoder decoder_name decoder_module)
              w Te Tc Td Hh) as (h' & Hrun & Hh' & _).
  rewrite Hrun. cbn [heap set_heap]. eexists _, _, _. split; [exact Hh'|].
  split; [exact G1|]. split; [exact G2|].
  eapply grows_trans; [exact G3 | apply grows_tadd].
Qed.

Lemma keeps_and {A} (I J : list obj -> Prop) (m : M A) :
  keeps I m -> keeps J m -> keeps (fun h => I h /\ J h) m.
Proof.
  intros HI HJ w [H1 H2]. specialize (HI w H1). specialize (HJ w H2).
  destruct (m w) as [[a|e] w']; auto.
Qed.

(** [init] only appends to the tables, and never takes back what it has
    added.  On a well formed registry with typed leaves, whatever the
    loader finds and
    whatever the modules answer or raise, the encodings, csc inputs and
    decodings offered before the call are still offered after it, first
    and in the same order, and every list of specs or decoders that was
    there is the beginning of the list found under the same keys after
    the call.  A module that fails half way leaves in the tables what it
    had registered before it failed. *)
Theorem init_only_appends (self : VideoHelper) (w : World) :
  registry_ok (heap w) self = true ->
  registry_typed (heap w) self = true ->
  exists Te Tc Td Te' Tc' Td' w',
    read_table (heap w) (_video_encoder_specs self) = Some Te /\
    read_table (heap w) (_csc_encoder_specs self) = Some Tc /\
    read_table (heap w) (_video_decoder_specs self) = Some Td /\
    init self w = (Ok (set_initialized true self), w') /\
    read_table (heap w') (_video_encoder_specs self) = Some Te' /\
    read_table (heap w') (_csc_encoder_specs self) = Some Tc' /\
    read_table (heap w') (_video_decoder_specs self) = Some Td' /\
    grows Te Te' /\ grows Tc Tc' /\ grows Td Td' /\
    (exists ks, get_encodings self w' = (Ok (map fst Te ++ ks), w')) /\
    (exists ks, get_csc_inputs self w' = (Ok (map fst Tc ++ ks), w')) /\
    (exists ks, get_decodings self w' = (Ok (map fst Td ++ ks), w')).
Proof.
  intros Hok Hty.
  assert (Hg : registry_good self (heap w)) by (apply registry_good_iff; auto).
  apply registry_ok_inv, registry_inv_holds in Hok.
  destruct Hok as (Te & Tc & Td & Hh).
  destruct (registry_holds_read _ _ _ _ _ Hh) as (R1 & R2 & R3).
  destruct (init_safe_typed
              (fun h => grown self Te Tc Td h /\ registry_good self h) self
              (fun e c spec =>
                 keeps_and _ _ _ (add_encoder_spec_grown self Te Tc Td e c spec)
                   (add_encoder_spec_good self e c spec))
              (fun e c spec =>
                 keeps_and _ _ _ (add_csc_spec_grown self Te Tc Td e c spec)
                   (add_csc_spec_good self e c spec))
              (fun e c n m =>
                 keeps_and _ _ _ (add_decoder_grown self Te Tc Td e c n m)
                   (add_decoder_good self e c n m))
              (fun h H => registry_good_csc_typed self h (proj2 H)) w)
    as (w' & Hrun & (Te' & Tc' & Td' & Hh' & G1 & G2 & G3) & _).
  { split; [|exact Hg].
    exists Te, Tc, Td. split; [exact Hh|]. repeat split; apply grows_refl. }
  destruct (registry_holds_read _ _ _ _ _ Hh') as (R1' & R2' & R3').
  exists Te, Tc, Td, Te', Tc', Td', w'.
  split; [exact R1|]. split; [exact R2|]. split; [exact R3|].
  split; [exact Hrun|].
  split; [exact R1'|]. split; [exact R2'|]. split; [exact R3'|].
  split; [exact G1|]. split; [exact G2|]. split; [exact G3|].
  unfold get_encodings, get_csc_inputs, get_decodings.
  rewrite (dict_keys_read _ _ _ R1'), (dict_keys_read _ _ _ R2'),
    (dict_keys_read _ _ _ R3').
  destruct G1 as [[k1 ->] _], G2 as [[k2 ->] _], G3 as [[k3 ->] _].
  split; [now exists k1|]. split; [now exists k2 | now exists k3].
Qed.

(** * What init registers for one module *)

(** The outcome of a piece of [init], as far as the registry can tell: the
    leaves added to one table, in order, the warnings logged, and the
    exception raised, if any. *)
Record trace : Type := mkTrace {
  adds : list (string * string * leaf);
  logs : list log_record;
  exc : option exn
}.

Definition tr_ok : trace := mkTrace [] [] None.
Definition tr_raise (e : exn) : trace := mkTrace [] [] (Some e).
Definition tr_add (k1 k2 : string) (v : leaf) : trace :=
  mkTrace [(k1, k2, v)] [] None.
Definition tr_log (r : log_record) : trace := mkTrace [] [r] None.

(** [t1] and then, unless [t1] raises, [t2]. *)
Definition tr_seq (t1 t2 : trace) : trace :=
  match exc t1 with
  | Some _ => t1
  | None => mkTrace (adds t1 ++ adds t2) (logs t1 ++ logs t2) (exc t2)
  end.

(** A call of an entry point, and what follows when it returns. *)
Definition tr_call {A} (r : Res A) (k : A -> trace) : trace :=
  match r with
  | Ok a => k a
  | Raise e => tr_raise e
  end.

(** A loop, left at the first exception. *)
Fixpoint tr_each {A} (xs : list A) (f : A -> trace) : trace :=
  match xs with
  | [] => tr_ok
  | x :: r => tr_seq (f x) (tr_each r f)
  end.

(** [try: t except Exception as e: h(e)] *)
Definition tr_try (t : trace) (h : exn -> trace) : trace :=
  match exc t with
  | None => t
  | Some e => mkTrace (adds t ++ adds (h e)) (logs t ++ logs (h e)) (exc (h e))
  end.

Definition res_of (o : option exn) : Res unit :=
  match o with
  | None => Ok tt
  | Some e => Raise e
  end.

(** The leaves of a trace added to a table, in order. *)
Definition tadd_all (l : list (string * string * leaf)) (T : table_content)
  : table_content :=
  fold_left (fun T x => tadd (fst (fst x)) (snd (fst x)) (snd x) T) l T.

Lemma set_heap_id (w : World) : set_heap (heap w) w = w.
Proof. now destruct w. Qed.

Lemma set_heap_add_log (h : list obj) (l : list log_record) (w : World) :
  set_heap h (add_log l w) = add_log l (set_heap h w).
Proof. reflexivity. Qed.

Section Runs.

(** [P h T]: in the store [h] the table that is being filled holds [T]
    (and the registry is well formed). *)
Variable P : list obj -> table_content -> Prop.

(** [m] behaves as the trace [t] says. *)
Definition runs (m : M unit) (t : trace) : Prop :=
  forall w T, P (heap w) T ->
    exists h',
      m w = (res_of (exc t), add_log (logs t) (set_heap h' w)) /\
      P h' (tadd_all (adds t) T).

Lemma runs_ret : runs (ret tt) tr_ok.
Proof.
  intros w T HP. exists (heap w). split; [|exact HP].
  cbn. now rewrite set_heap_id, add_log_nil.
Qed.

Lemma runs_raise (e : exn) : runs (raise e) (tr_raise e).
Proof.
  intros w T HP. exists (heap w). split; [|exact HP].
  cbn. now rewrite set_heap_id, add_log_nil.
Qed.

Lemma runs_log_warn (fmt : string) (args : list log_arg) :
  runs (log_warn fmt args) (tr_log (Warn fmt args)).
Proof.
  intros w T HP. exists (heap w). split; [|exact HP].
  cbn. now rewrite set_heap_id.
Qed.

Lemma runs_assert (c : bool) (msg : string) :
  runs (assert_ c msg) (if c then tr_ok else tr_raise (AssertionError msg)).
Proof. destruct c; [apply runs_ret | apply runs_raise]. Qed.

Lemma runs_seq (m k : M unit) (t1 t2 : trace) :
  runs m t1 -> runs k t2 -> runs (m ;; k) (tr_seq t1 t2).
Proof.
  intros Hm Hk w T HP. destruct (Hm w T HP) as (h1 & E1 & P1).
  unfold mbind, M_bind, bind, tr_seq. rewrite E1.
  destruct (exc t1) as [e|] eqn:Ee; cbn [res_of].
  - exists h1. rewrite Ee. auto.
  - destruct (Hk (add_log (logs t1) (set_heap h1 w)) _ P1) as (h2 & E2 & P2).
    exists h2. cbn [adds logs exc]. split.
    + rewrite E2. f_equal.
      now rewrite set_heap_add_log, set_heap_set_heap, add_log_add_log.
    + unfold tadd_all in *. now rewrite fold_left_app.
Qed.

Lemma runs_call {A} (r : Res A) (k : A -> M unit) (kt : A -> trace) :
  (forall a, r = Ok a -> runs (k a) (kt a)) ->
  runs (call r ≫= k) (tr_call r kt).
Proof.
  intros Hk w T HP. unfold mbind, M_bind, bind, call, tr_call.
  destruct r as [a|e].
  - exact (Hk a eq_refl w T HP).
  - exists (heap w). split; [|exact HP]. cbn. now rewrite set_heap_id, add_log_nil.
Qed.

Lemma runs_for_each {A} (xs : list A) (body : A -> M unit) (f : A -> trace) :
  (forall x, In x xs -> runs (body x) (f x)) ->
  runs (for_each xs body) (tr_each xs f).
Proof.
  induction xs as [|x r IH]; intros Hb; cbn [for_each tr_each].
  - apply runs_ret.
  - apply runs_seq; [apply Hb; now left|]. apply IH. intros y Hy. apply Hb. now right.
Qed.

Lemma runs_try (body : M unit) (handler : exn -> M unit) (t : trace)
  (h : exn -> trace) :
  runs body t -> (forall e, exc t = Some e -> runs (handler e) (h e)) ->
  runs (try_except body handler) (tr_try t h).
Proof.
  intros Hb Hh w T HP. destruct (Hb w T HP) as (h1 & E1 & P1).
  unfold try_except, tr_try. rewrite E1.
  destruct (exc t) as [e|] eqn:Ee; cbn [res_of].
  - destruct (Hh e eq_refl (add_log (logs t) (set_heap h1 w)) _ P1)
      as (h2 & E2 & P2).
    exists h2. cbn [adds logs exc]. split.
    + rewrite E2. f_equal.
      now rewrite set_heap_add_log, set_heap_set_heap, add_log_add_log.
    + unfold tadd_all in *. now rewrite fold_left_app.
  - exists h1. rewrite Ee. auto.
Qed.

End Runs.

(** *** Facts on traces *)

Lemma tr_each_In {A} (xs : list A) (f : A -> trace) (x : A) :
  exc (tr_each xs f) = None -> In x xs ->
  exc (f x) = None /\ incl (adds (f x)) (adds (tr_each xs f)).
Proof.
  induction xs as [|y r IH]; [intros _ []|].
  cbn [tr_each]. unfold tr_seq.
  destruct (exc (f y)) as [e|] eqn:Ey; [intros H; congruence|].
  cbn [exc adds]. intros Hr [->|Hin].
  - split; [exact Ey|]. intros a Ha. apply in_or_app. now left.
  - destruct (IH Hr Hin) as [H1 H2]. split; [exact H1|].
    intros a Ha. apply in_or_app. right. now apply H2.
Qed.

Lemma tr_each_no_adds {A} (xs : list A) (f : A -> trace) :
  (forall x, In x xs -> adds (f x) = []) -> adds (tr_each xs f) = [].
Proof.
  induction xs as [|y r IH]; intros H; [done|].
  cbn [tr_each]. unfold tr_seq.
  destruct (exc (f y)); [apply H; now left|]. cbn [adds].
  rewrite (H y) by now left. apply IH. intros x Hx. apply H. now right.
Qed.

Lemma specs_at_tadd_In (k1 k2 k1' k2' : string) (v v' : leaf) (T : table_content) :
  In v (specs_at T k1 k2) -> In v (specs_at (tadd k1' k2' v' T) k1 k2).
Proof.
  intros H. destruct (proj2 (grows_tadd k1' k2' v' T) k1 k2) as [l ->].
  apply in_or_app. now left.
Qed.

Lemma tadd_all_In (l : list (string * string * leaf)) (T : table_content)
  (k1 k2 : string) (v : leaf) :
  In (k1, k2, v) l \/ In v (specs_at T k1 k2) ->
  In v (specs_at (tadd_all l T) k1 k2).
Proof.
  revert T. induction l as [|[[a b] u] r IH]; intros T.
  - intros [[]|H]. exact H.
  - cbn [tadd_all fold_left fst snd]. fold (tadd_all r (tadd a b u T)).
    intros [[[= -> -> ->]|Hin]|H]; apply IH.
    + right. rewrite specs_at_tadd_eq. apply in_or_app. right. now left.
    + now left.
    + right. now apply specs_at_tadd_In.
Qed.

(** *** The three kinds of module *)

(** What [init_video_encoder_option] asks of an encoder module, in order:
    its type, its encodings, for each encoding its input colorspaces, for
    each colorspace the spec, which is added to the encoder table. *)
Definition encoder_declares (m : Codec.module) : trace :=
  tr_call (Codec.get_type m) (fun _ =>
  tr_call (Codec.get_encodings m) (fun encodings =>
  tr_each encodings (fun encoding =>
    tr_call (Codec.get_input_colorspaces m encoding) (fun colorspaces =>
    tr_each colorspaces (fun colorspace =>
      tr_call (Codec.get_spec m encoding colorspace) (fun spec =>
      tr_add encoding colorspace (LSpec spec))))))).

(** What [init_csc_option] asks of a csc module. *)
Definition csc_declares (m : Codec.module) : trace :=
  tr_call (Codec.get_input_colorspaces0 m) (fun in_cscs =>
  tr_each in_cscs (fun in_csc =>
    tr_call (Codec.get_output_colorspaces m in_csc) (fun out_cscs =>
    tr_call (Codec.get_type m) (fun _ =>
    tr_each out_cscs (fun out_csc =>
      tr_call (Codec.get_spec m in_csc out_csc) (fun spec =>
      tr_add in_csc out_csc (LSpec spec))))))).

(** What [init_video_decoder_option] asks of a decoder module; the check
    of its [Decoder] attribute and the registration are under a
    [try/except] of their own, which logs a warning. *)
Definition decoder_declares (decoder_name : string) (m : Codec.module) : trace :=
  tr_call (Codec.get_type m) (fun _ =>
  tr_call (Codec.get_encodings m) (fun encodings =>
  tr_each encodings (fun encoding =>
    tr_call (Codec.get_input_colorspaces m encoding) (fun colorspaces =>
    tr_each colorspaces (fun colorspace =>
      tr_call (Codec.get_output_colorspace m encoding colorspace) (fun _ =>
      tr_try
        (tr_call (Codec.Decoder m) (fun has_decoder =>
           tr_seq (if (has_decoder : bool) then tr_ok
                   else tr_raise (AssertionError ""))
                  (tr_add encoding colorspace (LDecoder decoder_name m))))
        (fun e => tr_log (Warn "failed to add decoder %s: %s"
                            [AModule m; AExn e])))))))).

Lemma runs_add_encoder_spec (self : VideoHelper) (Tc Td : table_content)
  (e c : string) (spec : Spec) :
  runs (fun h T => registry_holds h self T Tc Td)
    (add_encoder_spec self e c spec) (tr_add e c (LSpec spec)).
Proof.
  intros w T HP. unfold add_encoder_spec.
  destruct (add_encoder_spec_step self e c (LSpec spec) w T Tc Td HP)
    as (h' & Hrun & Hh' & _).
  exists h'. split; [|exact Hh']. rewrite Hrun. cbn. now rewrite add_log_nil.
Qed.

Lemma runs_add_csc_spec (self : VideoHelper) (Te Td : table_content)
  (e c : string) (spec : Spec) :
  runs (fun h T => registry_holds h self Te T Td)
    (add_csc_spec self e c spec) (tr_add e c (LSpec spec)).
Proof.
  intros w T HP. unfold add_csc_spec.
  destruct (add_csc_spec_step self e c (LSpec spec) w Te T Td HP)
    as (h' & Hrun & Hh' & _).
  exists h'. split; [|exact Hh']. rewrite Hrun. cbn. now rewrite add_log_nil.
Qed.

Lemma runs_add_decoder (self : VideoHelper) (Te Tc : table_content)
  (e c : string) (decoder_name : string) (m : Codec.module) :
  runs (fun h T => registry_holds h self Te Tc T)
    (add_decoder self e c decoder_name m) (tr_add e c (LDecoder decoder_name m)).
Proof.
  intros w T HP. unfold add_decoder.
  destruct (add_decoder_step self e c (LDecoder decoder_name m) w Te Tc T HP)
    as (h' & Hrun & Hh' & _).
  exists h'. split; [|exact Hh']. rewrite Hrun. cbn. now rewrite add_log_nil.
Qed.

Lemma init_video_encoder_option_runs (self : VideoHelper) (name : string)
  (m : Codec.module) (w : World) (Te Tc Td : table_content) :
  loader_get_codec name (codecs w) = Some m ->
  registry_holds (heap w) self Te Tc Td ->
  exists h',
    init_video_encoder_option self name w =
      (res_of (exc (encoder_declares m)),
       add_log (logs (encoder_declares m)) (set_heap h' w)) /\
    registry_holds h' self (tadd_all (adds (encoder_declares m)) Te) Tc Td.
Proof.
  intros Hm HP. unfold init_video_encoder_option.
  unfold mbind at 1, M_bind at 1, bind at 1. unfold get_codec. rewrite Hm.
  clear Hm. revert w Te HP.
  change (runs (fun h T => registry_holds h self T Tc Td)
            (encoder_type ← call (Codec.get_type m);
             encodings ← call (Codec.get_encodings m);
             for_each encodings (fun encoding =>
               colorspaces ← call (Codec.get_input_colorspaces m encoding);
               for_each colorspaces (fun colorspace =>
                 spec ← call (Codec.get_spec m encoding colorspace);
                 add_encoder_spec self encoding colorspace spec)))
            (encoder_declares m)).
  unfold encoder_declares.
  apply runs_call. intros ty _. apply runs_call. intros es _.
  apply runs_for_each. intros e _. apply runs_call. intros cs _.
  apply runs_for_each. intros c _. apply runs_call. intros s _.
  apply runs_add_encoder_spec.
Qed.

Lemma init_csc_option_runs (self : VideoHelper) (name : string)
  (m : Codec.module) (w : World) (Te Tc Td : table_content) :
  loader_get_codec name (codecs w) = Some m ->
  registry_holds (heap w) self Te Tc Td ->
  exists h',
    init_csc_option self name w =
      (res_of (exc (csc_declares m)),
       add_log (logs (csc_declares m)) (set_heap h' w)) /\
    registry_holds h' self Te (tadd_all (adds (csc_declares m)) Tc) Td.
Proof.
  intros Hm HP. unfold init_csc_option.
  unfold mbind at 1, M_bind at 1, bind at 1. unfold get_codec. rewrite Hm.
  clear Hm. revert w Tc HP.
  change (runs (fun h T => registry_holds h self Te T Td)
            (in_cscs ← call (Codec.get_input_colorspaces0 m);
             for_each in_cscs (fun in_csc =>
               out_cscs ← call (Codec.get_output_colorspaces m in_csc);
               call (Codec.get_type m) ;;
               for_each out_cscs (fun out_csc =>
                 spec ← call (Codec.get_spec m in_csc out_csc);
                 add_csc_spec self in_csc out_csc spec)))
            (csc_declares m)).
  unfold csc_declares.
  apply runs_call. intros ins _. apply runs_for_each. intros i _.
  apply runs_call. intros outs _. apply runs_call. intros ty _.
  apply runs_for_each. intros o _. apply runs_call. intros s _.
  apply runs_add_csc_spec.
Qed.

Lemma init_video_decoder_option_runs (self : VideoHelper) (name : string)
  (m : Codec.module) (w : World) (Te Tc Td : table_content) :
  loader_get_codec name (codecs w) = Some m ->
  registry_holds (heap w) self Te Tc Td ->
  exists h',
    init_video_decoder_option self name w =
      (res_of (exc (decoder_declares name m)),
       add_log (logs (decoder_declares name m)) (set_heap h' w)) /\
    registry_holds h' self Te Tc (tadd_all (adds (decoder_declares name m)) Td).
Proof.
  intros Hm HP. unfold init_video_decoder_option.
  unfold mbind at 1, M_bind at 1, bind at 1. unfold get_codec. rewrite Hm.
  clear Hm. revert w Td HP.
  change (runs (fun h T => registry_holds h self Te Tc T)
            (decoder_type ← call (Codec.get_type m);
             encodings ← call (Codec.get_encodings m);
             for_each encodings (fun encoding =>
               colorspaces ← call (Codec.get_input_colorspaces m encoding);
               for_each colorspaces (fun colorspace =>
                 output_colorspace ←
                   call (Codec.get_output_colorspace m encoding colorspace);
                 try_except
                   (has_decoder ← call (Codec.Decoder m);
                    assert_ has_decoder "" ;;
                    add_decoder self encoding colorspace name m)
                   (fun e =>
                      log_warn "failed to add decoder %s: %s"
                        [AModule m; AExn e]))))
            (decoder_declares name m)).
  unfold decoder_declares.
  apply runs_call. intros ty _. apply runs_call. intros es _.
  apply runs_for_each. intros e _. apply runs_call. intros cs _.
  apply runs_for_each. intros c _. apply runs_call. intros out _.
  apply runs_try.
  - apply runs_call. intros has _. apply runs_seq;
      [apply runs_assert | apply runs_add_decoder].
  - intros x _. apply runs_log_warn.
Qed.

Lemma tr_call_no_logs {A} (r : Res A) (k : A -> trace) :
  (forall a, logs (k a) = []) -> logs (tr_call r k) = [].
Proof. intros H. destruct r; [apply H | reflexivity]. Qed.

Lemma tr_each_no_logs {A} (xs : list A) (f : A -> trace) :
  (forall x, logs (f x) = []) -> logs (tr_each xs f) = [].
Proof.
  intros H. induction xs as [|y r IH]; [done|].
  cbn [tr_each]. unfold tr_seq.
  destruct (exc (f y)); [apply H|]. cbn [logs]. now rewrite H, IH.
Qed.

Lemma tr_call_no_adds {A} (r : Res A) (k : A -> trace) :
  (forall a, adds (k a) = []) -> adds (tr_call r k) = [].
Proof. intros H. destruct r; [apply H | reflexivity]. Qed.

Lemma encoder_declares_logs (m : Codec.module) : logs (encoder_declares m) = [].
Proof.
  unfold encoder_declares.
  apply tr_call_no_logs; intros ?. apply tr_call_no_logs; intros ?.
  apply tr_each_no_logs; intros ?. apply tr_call_no_logs; intros ?.
  apply tr_each_no_logs; intros ?. now apply tr_call_no_logs.
Qed.

Lemma csc_declares_logs (m : Codec.module) : logs (csc_declares m) = [].
Proof.
  unfold csc_declares.
  apply tr_call_no_logs; intros ?. apply tr_each_no_logs; intros ?.
  apply tr_call_no_logs; intros ?. apply tr_call_no_logs; intros ?.
  apply tr_each_no_logs; intros ?. now apply tr_call_no_logs.
Qed.

(** [init_video_encoder_option] for a module the loader does not have
    does nothing.  For a module it has, on a well formed registry, it adds
    to the encoder table the specs the module gives for its encodings and
    their input colorspaces, in the order of the two loops, up to the
    first call of the module that raises; that exception is raised to the
    caller and what was added stays.  When no call raises, the spec of
    every declared pair is in the list of its pair.  The csc and decoder
    tables, the loader and the log are untouched, and the registry stays
    well formed. *)
Theorem init_video_encoder_option_registers (self : VideoHelper) (w : World)
  (encoder_name : string) :
  registry_ok (heap w) self = true ->
  exists Te Tc Td,
    read_table (heap w) (_video_encoder_specs self) = Some Te /\
    read_table (heap w) (_csc_encoder_specs self) = Some Tc /\
    read_table (heap w) (_video_decoder_specs self) = Some Td /\
    (loader_get_codec encoder_name (codecs w) = None ->
     init_video_encoder_option self encoder_name w = (Ok tt, w)) /\
    (forall m, loader_get_codec encoder_name (codecs w) = Some m ->
     exists w',
       init_video_encoder_option self encoder_name w =
         (res_of (exc (encoder_declares m)), w') /\
       codecs w' = codecs w /\ log w' = log w /\ teardowns w' = teardowns w /\
       registry_ok (heap w') self = true /\
       read_table (heap w') (_video_encoder_specs self) =
         Some (tadd_all (adds (encoder_declares m)) Te) /\
       read_table (heap w') (_csc_encoder_specs self) = Some Tc /\
       read_table (heap w') (_video_decoder_specs self) = Some Td /\
       (exc (encoder_declares m) = None ->
        forall encodings encoding colorspaces colorspace spec,
          Codec.get_encodings m = Ok encodings -> In encoding encodings ->
          Codec.get_input_colorspaces m encoding = Ok colorspaces ->
          In colorspace colorspaces ->
          Codec.get_spec m encoding colorspace = Ok spec ->
          In (LSpec spec)
             (specs_at (tadd_all (adds (encoder_declares m)) Te)
                encoding colorspace))).
Proof.
  intros Hok. apply registry_ok_inv, registry_inv_holds in Hok.
  destruct Hok as (Te & Tc & Td & Hh).
  destruct (registry_holds_read _ _ _ _ _ Hh) as (R1 & R2 & R3).
  exists Te, Tc, Td.
  split; [exact R1|]. split; [exact R2|]. split; [exact R3|]. split.
  { intros Hn. unfold init_video_encoder_option, mbind, M_bind, bind, get_codec.
    now rewrite Hn. }
  intros m Hm.
  destruct (init_video_encoder_option_runs self encoder_name m w Te Tc Td Hm Hh)
    as (h' & Hrun & Hh').
  destruct (registry_holds_read _ _ _ _ _ Hh') as (R1' & R2' & R3').
  rewrite encoder_declares_logs, add_log_nil in Hrun.
  exists (set_heap h' w). split; [exact Hrun|].
  cbn [set_heap heap codecs log teardowns].
  split; [reflexivity|]. split; [reflexivity|]. split; [reflexivity|].
  split; [apply registry_ok_inv; eapply registry_holds_inv; eauto|].
  split; [exact R1'|]. split; [exact R2'|]. split; [exact R3'|].
  intros Hexc encodings e cs c spec He Hine Hcs Hinc Hs.
  apply tadd_all_In. left. revert Hexc. unfold encoder_declares.
  destruct (Codec.get_type m) as [ty|x]; [|discriminate].
  rewrite He. cbn [tr_call]. intros Hexc.
  destruct (tr_each_In _ _ e Hexc Hine) as [Hexc1 Hincl1].
  apply Hincl1. revert Hexc1. rewrite Hcs. cbn [tr_call]. intros Hexc1.
  destruct (tr_each_In _ _ c Hexc1 Hinc) as [_ Hincl2].
  apply Hincl2. rewrite Hs. now left.
Qed.

(** [init_csc_option] does the same for a csc module and the csc table:
    for every input colorspace of the module and every output colorspace
    it gives for it, the spec is added under (input, output), up to the
    first call that raises. *)
Theorem init_csc_option_registers (self : VideoHelper) (w : World)
  (csc_name : string) :
  registry_ok (heap w) self = true ->
  exists Te Tc Td,
    read_table (heap w) (_video_encoder_specs self) = Some Te /\
    read_table (heap w) (_csc_encoder_specs self) = Some Tc /\
    read_table (heap w) (_video_decoder_specs self) = Some Td /\
    (loader_get_codec csc_name (codecs w) = None ->
     init_csc_option self csc_name w = (Ok tt, w)) /\
    (forall m, loader_get_codec csc_name (codecs w) = Some m ->
     exists w',
       init_csc_option self csc_name w = (res_of (exc (csc_declares m)), w') /\
       codecs w' = codecs w /\ log w' = log w /\ teardowns w' = teardowns w /\
       registry_ok (heap w') self = true /\
       read_table (heap w') (_video_encoder_specs self) = Some Te /\
       read_table (heap w') (_csc_encoder_specs self) =
         Some (tadd_all (adds (csc_declares m)) Tc) /\
       read_table (heap w') (_video_decoder_specs self) = Some Td /\
       (exc (csc_declares m) = None ->
        forall in_cscs in_csc out_cscs out_csc spec,
          Codec.get_input_colorspaces0 m = Ok in_cscs -> In in_csc in_cscs ->
          Codec.get_output_colorspaces m in_csc = Ok out_cscs ->
          In out_csc out_cscs ->
          Codec.get_spec m in_csc out_csc = Ok spec ->
          In (LSpec spec)
             (specs_at (tadd_all (adds (csc_declares m)) Tc) in_csc out_csc))).
Proof.
  intros Hok. apply registry_ok_inv, registry_inv_holds in Hok.
  destruct Hok as (Te & Tc & Td & Hh).
  destruct (registry_holds_read _ _ _ _ _ Hh) as (R1 & R2 & R3).
  exists Te, Tc, Td.
  split; [exact R1|]. split; [exact R2|]. split; [exact R3|]. split.
  { intros Hn. unfold init_csc_option, mbind, M_bind, bind, get_codec.
    now rewrite Hn. }
  intros m Hm.
  destruct (init_csc_option_runs self csc_name m w Te Tc Td Hm Hh)
    as (h' & Hrun & Hh').
  destruct (registry_holds_read _ _ _ _ _ Hh') as (R1' & R2' & R3').
  rewrite csc_declares_logs, add_log_nil in Hrun.
  exists (set_heap h' w). split; [exact Hrun|].
  cbn [set_heap heap codecs log teardowns].
  split; [reflexivity|]. split; [reflexivity|]. split; [reflexivity|].
  split; [apply registry_ok_inv; eapply registry_holds_inv; eauto|].
  split; [exact R1'|]. split; [exact R2'|]. split; [exact R3'|].
  intros Hexc ins i outs o spec Hi Hini Ho Hino Hs.
  apply tadd_all_In. left. revert Hexc. unfold csc_declares.
  rewrite Hi. cbn [tr_call]. intros Hexc.
  destruct (tr_each_In _ _ i Hexc Hini) as [Hexc1 Hincl1].
  apply Hincl1. revert Hexc1. rewrite Ho. cbn [tr_call].
  destruct (Codec.get_type m) as [ty|x]; [|discriminate]. cbn [tr_call].
  intros Hexc1.
  destruct (tr_each_In _ _ o Hexc1 Hino) as [_ Hincl2].
  apply Hincl2. rewrite Hs. now left.
Qed.

(** [init_video_decoder_option] registers the module itself, with its
    name, under every (encoding, input colorspace) pair it declares, up to
    the first of its queries that raises.  The registration of a pair is
    guarded: when the module has no usable [Decoder], every pair logs the
    warning "failed to add decoder" and nothing at all is registered, yet
    the loop goes on and this is no error for the caller. *)
Theorem init_video_decoder_option_registers (self : VideoHelper) (w : World)
  (decoder_name : string) :
  registry_ok (heap w) self = true ->
  exists Te Tc Td,
    read_table (heap w) (_video_encoder_specs self) = Some Te /\
    read_table (heap w) (_csc_encoder_specs self) = Some Tc /\
    read_table (heap w) (_video_decoder_specs self) = Some Td /\
    (loader_get_codec decoder_name (codecs w) = None ->
     init_video_decoder_option self decoder_name w = (Ok tt, w)) /\
    (forall m, loader_get_codec decoder_name (codecs w) = Some m ->
     let D := decoder_declares decoder_name m in
     exists w',
       init_video_decoder_option self decoder_name w = (res_of (exc D), w') /\
       codecs w' = codecs w /\ log w' = log w ++ logs D /\
       teardowns w' = teardowns w /\
       registry_ok (heap w') self = true /\
       read_table (heap w') (_video_encoder_specs self) = Some Te /\
       read_table (heap w') (_csc_encoder_specs self) = Some Tc /\
       read_table (heap w') (_video_decoder_specs self) =
         Some (tadd_all (adds D) Td) /\
       (Codec.Decoder m <> Ok true -> adds D = []) /\
       (Codec.Decoder m = Ok true -> logs D = []) /\
       (exc D = None -> Codec.Decoder m = Ok true ->
        forall encodings encoding colorspaces colorspace,
          Codec.get_encodings m = Ok encodings -> In encoding encodings ->
          Codec.get_input_colorspaces m encoding = Ok colorspaces ->
          In colorspace colorspaces ->
          In (LDecoder decoder_name m)
             (specs_at (tadd_all (adds D) Td) encoding colorspace))).
Proof.
  intros Hok. apply registry_ok_inv, registry_inv_holds in Hok.
  destruct Hok as (Te & Tc & Td & Hh).
  destruct (registry_holds_read _ _ _ _ _ Hh) as (R1 & R2 & R3).
  exists Te, Tc, Td.
  split; [exact R1|]. split; [exact R2|]. split; [exact R3|]. split.
  { intros Hn. unfold init_video_decoder_option, mbind, M_bind, bind, get_codec.
    now rewrite Hn. }
  intros m Hm D.
  destruct (init_video_decoder_option_runs self decoder_name m w Te Tc Td Hm Hh)
    as (h' & Hrun & Hh').
  destruct (registry_holds_read _ _ _ _ _ Hh') as (R1' & R2' & R3').
  exists (add_log (logs D) (set_heap h' w)). split; [exact Hrun|].
  cbn [add_log set_heap heap codecs log teardowns].
  split; [reflexivity|]. split; [reflexivity|]. split; [reflexivity|].
  split; [apply registry_ok_inv; eapply registry_holds_inv; eauto|].
  split; [exact R1'|]. split; [exact R2'|]. split; [exact R3'|].
  split; [|split].
  - intros Hno. unfold D, decoder_declares.
    apply tr_call_no_adds; intros ?. apply tr_call_no_adds; intros ?.
    apply tr_each_no_adds; intros ? _. apply tr_call_no_adds; intros ?.
    apply tr_each_no_adds; intros ? _. apply tr_call_no_adds; intros ?.
    destruct (Codec.Decoder m) as [[|]|err]; [congruence | reflexivity | reflexivity].
  - intros Hyes. unfold D, decoder_declares.
    apply tr_call_no_logs; intros ?. apply tr_call_no_logs; intros ?.
    apply tr_each_no_logs; intros ?. apply tr_call_no_logs; intros ?.
    apply tr_each_no_logs; intros ?. apply tr_call_no_logs; intros ?.
    now rewrite Hyes.
  - intros Hexc Hyes encodings e cs c He Hine Hcs Hinc.
    apply tadd_all_In. left. revert Hexc. unfold D, decoder_declares.
    destruct (Codec.get_type m) as [ty|x]; [|discriminate].
    rewrite He. cbn [tr_call]. intros Hexc.
    destruct (tr_each_In _ _ e Hexc Hine) as [Hexc1 Hincl1].
    apply Hincl1. revert Hexc1. rewrite Hcs. cbn [tr_call]. intros Hexc1.
    destruct (tr_each_In _ _ c Hexc1 Hinc) as [Hexc2 Hincl2].
    apply Hincl2. revert Hexc2.
    destruct (Codec.get_output_colorspace m e c) as [out|err]; [|discriminate].
    intros _. rewrite Hyes. now left.
Qed.

(** * What get_info reports of the tables *)

(** [d.setdefault(k, []).append(v)] on a report dictionary. *)
Definition app_info_res (d : list (string * info)) (k v : string)
  : Res (list (string * info)) :=
  match assoc k d with
  | None => Ok (d ++ [(k, IList [v])])
  | Some (IList l) => Ok (assoc_set k (IList (l ++ [v])) d)
  | Some _ => Raise AttributeError
  end.

Definition key_of (swap : bool) (k1 k2 : string) : string :=
  if swap then fmt_to k2 k1 else fmt_to k1 k2.

(** The loop of [get_info] over the encoder table ([swap], with
    [spec.codec_type]) and over the decoder table (with [decoder[0]]). *)
Definition leaves_loop_res (swap : bool) (read_res : leaf -> Res string)
  (T : table_content) : Res (list (string * info)) :=
  fold_res T [] (fun acc kv =>
    fold_res (snd kv) acc (fun acc kv' =>
      fold_res (snd kv') acc (fun acc v =>
        match read_res v with
        | Ok t => app_info_res acc (key_of swap (fst kv) (fst kv')) t
        | Raise e => Raise e
        end))).

Lemma leaves_loop_is_res (swap : bool) (read : leaf -> M string)
  (read_res : leaf -> Res string) (items : list (string * loc))
  (T : table_content) (w : World) :
  (forall v w', read v w' = (read_res v, w')) ->
  read_all (read_inner (heap w)) items = Some T ->
  fold_m items [] (fun '(k1, inner_loc) acc =>
    inner ← dict_items inner_loc;
    fold_m inner acc (fun '(k2, elems_loc) acc =>
      elems ← list_elems elems_loc;
      fold_m elems acc (fun v acc =>
        t ← read v;
        info_setdefault_append acc
          (if swap then fmt_to k2 k1 else fmt_to k1 k2) t))) w =
  (leaves_loop_res swap read_res T, w).
Proof.
  intros Hread HT. unfold leaves_loop_res.
  apply (fold_m_read_res (read_inner (heap w))); [exact HT|].
  intros k1 d1 inner acc Hinner Hin.
  unfold read_inner in Hinner.
  destruct (read_dict _ d1) as [ditems|] eqn:Hdd; [|done].
  unfold mbind at 1, M_bind at 1, bind at 1.
  rewrite (dict_items_read _ _ _ Hdd). cbn [fst snd].
  apply (fold_m_read_res (read_list (heap w))); [exact Hinner|].
  intros k2 l elems acc2 Hl Hin2.
  unfold mbind at 1, M_bind at 1, bind at 1.
  rewrite (list_elems_read _ _ _ Hl). cbn [fst snd].
  apply fold_m_res. intros v acc3 Hv.
  unfold mbind, M_bind, bind. rewrite Hread.
  destruct (read_res v) as [t|e]; [|done].
  unfold info_setdefault_append, app_info_res, key_of.
  destruct swap; (destruct (assoc _ acc3) as [[s|l0|d0]|]; reflexivity).
Qed.

(** The strings collected under the key [k]: for every pair of keys of the
    table that makes [k], in the order of the table, what is read from the
    leaves of its list. *)
Definition summary (swap : bool) (read_res : leaf -> Res string)
  (T : table_content) (k : string) : list string :=
  flat_map (fun kv =>
    flat_map (fun kv' =>
      if (key_of swap (fst kv) (fst kv') =? k)%string
      then flat_map (fun v => match read_res v with
                              | Ok t => [t]
                              | Raise _ => []
                              end) (snd kv')
      else []) (snd kv)) T.

(** Every value of the dictionary is a list that is not empty. *)
Definition lists_ok (d : list (string * info)) : Prop :=
  forall k i, assoc k d = Some i -> exists l, i = IList l /\ l <> [].

(** The list under [k], empty when there is none. *)
Definition vals (k : string) (d : list (string * info)) : list string :=
  match assoc k d with
  | Some (IList l) => l
  | _ => []
  end.

Lemma app_info_res_ok (d d' : list (string * info)) (k v k0 : string) :
  lists_ok d -> app_info_res d k v = Ok d' ->
  lists_ok d' /\
  vals k0 d' = vals k0 d ++ (if (k =? k0)%string then [v] else []).
Proof.
  intros Hd. unfold app_info_res.
  destruct (assoc k d) as [i|] eqn:E.
  - destruct (Hd _ _ E) as (l & -> & Hl). intros [= <-]. split.
    + intros k1 i1. destruct (String.eqb_spec k1 k) as [->|Hne].
      * rewrite assoc_assoc_set_eq by (rewrite E; eauto).
        intros [= <-]. eexists. split; [reflexivity|]. now destruct l.
      * rewrite assoc_assoc_set_ne by exact Hne. apply Hd.
    + unfold vals. destruct (String.eqb_spec k k0) as [<-|Hne].
      * rewrite assoc_assoc_set_eq by (rewrite E; eauto). now rewrite E.
      * rewrite assoc_assoc_set_ne by congruence. now rewrite app_nil_r.
  - intros [= <-]. split.
    + intros k1 i1. destruct (String.eqb_spec k1 k) as [->|Hne].
      * rewrite assoc_snoc_eq by exact E. intros [= <-]. eauto.
      * rewrite assoc_snoc_ne by exact Hne. apply Hd.
    + unfold vals. destruct (String.eqb_spec k k0) as [<-|Hne].
      * rewrite assoc_snoc_eq by exact E. now rewrite E.
      * rewrite assoc_snoc_ne by congruence. now rewrite app_nil_r.
Qed.

Lemma leaves_loop_res_vals (swap : bool) (read_res : leaf -> Res string)
  (T : table_content) (d : list (string * info)) (k : string) :
  leaves_loop_res swap read_res T = Ok d ->
  lists_ok d /\ vals k d = summary swap read_res T k.
Proof.
  unfold leaves_loop_res, summary.
  assert (H0 : lists_ok []) by (intros ? ? [=]).
  enough (G : forall acc, lists_ok acc ->
            fold_res T acc (fun acc kv =>
              fold_res (snd kv) acc (fun acc kv' =>
                fold_res (snd kv') acc (fun acc v =>
                  match read_res v with
                  | Ok t => app_info_res acc (key_of swap (fst kv) (fst kv')) t
                  | Raise e => Raise e
                  end))) = Ok d ->
            lists_ok d /\
            vals k d = vals k acc ++
              flat_map (fun kv =>
                flat_map (fun kv' =>
                  if (key_of swap (fst kv) (fst kv') =? k)%string
                  then flat_map (fun v => match read_res v with
                                          | Ok t => [t]
                                          | Raise _ => []
                                          end) (snd kv')
                  else []) (snd kv)) T).
  { intros H. exact (G [] H0 H). }
  induction T as [|[k1 inner] r IH]; intros acc Hacc.
  - cbn. intros [= <-]. split; [exact Hacc | now rewrite app_nil_r].
  - cbn [fold_res flat_map fst snd].
    assert (Gi : forall acc1 d1, lists_ok acc1 ->
              fold_res inner acc1 (fun acc kv' =>
                fold_res (snd kv') acc (fun acc v =>
                  match read_res v with
                  | Ok t => app_info_res acc (key_of swap k1 (fst kv')) t
                  | Raise e => Raise e
                  end)) = Ok d1 ->
              lists_ok d1 /\
              vals k d1 = vals k acc1 ++
                flat_map (fun kv' =>
                  if (key_of swap k1 (fst kv') =? k)%string
                  then flat_map (fun v => match read_res v with
                                          | Ok t => [t]
                                          | Raise _ => []
                                          end) (snd kv')
                  else []) inner).
    { clear IH. induction inner as [|[k2 elems] r2 IH2]; intros acc1 d1 Hacc1.
      - cbn. intros [= <-]. split; [exact Hacc1 | now rewrite app_nil_r].
      - cbn [fold_res flat_map fst snd].
        assert (Ge : forall acc2 d2, lists_ok acc2 ->
                  fold_res elems acc2 (fun acc v =>
                    match read_res v with
                    | Ok t => app_info_res acc (key_of swap k1 k2) t
                    | Raise e => Raise e
                    end) = Ok d2 ->
                  lists_ok d2 /\
                  vals k d2 = vals k acc2 ++
                    (if (key_of swap k1 k2 =? k)%string
                     then flat_map (fun v => match read_res v with
                                             | Ok t => [t]
                                             | Raise _ => []
                                             end) elems
                     else [])).
        { clear IH2. induction elems as [|v r3 IH3]; intros acc2 d2 Hacc2.
          - cbn. intros [= <-]. split; [exact Hacc2|].
            destruct (_ =? _)%string; now rewrite app_nil_r.
          - cbn [fold_res flat_map].
            destruct (read_res v) as [t|e]; [|discriminate].
            destruct (app_info_res acc2 (key_of swap k1 k2) t) as [a3|e] eqn:E3;
              [|discriminate].
            destruct (app_info_res_ok _ _ _ _ k Hacc2 E3) as [H3 V3].
            intros Hr. destruct (IH3 a3 d2 H3 Hr) as [H4 V4].
            split; [exact H4|]. rewrite V4, V3.
            destruct (key_of swap k1 k2 =? k)%string; cbn [app];
              now rewrite <- ?app_assoc, ?app_nil_r. }
        destruct (fold_res elems acc1 _) as [a2|e] eqn:E2; [|discriminate].
        destruct (Ge acc1 a2 Hacc1 E2) as [H2 V2].
        intros Hr. destruct (IH2 a2 d1 H2 Hr) as [H3 V3].
        split; [exact H3|]. rewrite V3, V2. now rewrite <- app_assoc. }
    destruct (fold_res inner acc _) as [a1|e] eqn:E1; [|discriminate].
    destruct (Gi acc a1 Hacc E1) as [H1 V1].
    intros Hr. destruct (IH a1 H1 Hr) as [H2 V2].
    split; [exact H2|]. rewrite V2, V1. now rewrite <- app_assoc.
Qed.

(** [spec.codec_type] and [decoder[0]] as results. *)
Definition leaf_codec_type_res (v : leaf) : Res string :=
  match v with
  | LSpec spec => Ok (codec_type spec)
  | LDecoder _ _ => Raise AttributeError
  end.

Definition leaf_decoder_name_res (v : leaf) : Res string :=
  match v with
  | LDecoder decoder_name _ => Ok decoder_name
  | LSpec _ => Raise TypeError
  end.

Lemma leaf_codec_type_is_res (v : leaf) (w : World) :
  leaf_codec_type v w = (leaf_codec_type_res v, w).
Proof. now destruct v. Qed.

Lemma leaf_decoder_name_is_res (v : leaf) (w : World) :
  leaf_decoder_name v w = (leaf_decoder_name_res v, w).
Proof. now destruct v. Qed.

(** [[spec.codec_type for spec in specs]] *)
Fixpoint codec_types_res (specs : list leaf) : Res (list string) :=
  match specs with
  | [] => Ok []
  | spec :: r =>
      match leaf_codec_type_res spec with
      | Ok t =>
          match codec_types_res r with
          | Ok ts => Ok (t :: ts)
          | Raise e => Raise e
          end
      | Raise e => Raise e
      end
  end.

Lemma codec_types_is_res (specs : list leaf) (w : World) :
  codec_types specs w = (codec_types_res specs, w).
Proof.
  induction specs as [|v r IH]; [done|].
  cbn [codec_types codec_types_res]. unfold mbind, M_bind, bind.
  rewrite leaf_codec_type_is_res. destruct (leaf_codec_type_res v); [|done].
  rewrite IH. now destruct (codec_types_res r).
Qed.

(** The codec types of a list of specs. *)
Definition spec_types (specs : list leaf) : list string :=
  flat_map (fun v => match v with
                     | LSpec spec => [codec_type spec]
                     | LDecoder _ _ => []
                     end) specs.

Lemma codec_types_res_ok (specs : list leaf) (ts : list string) :
  codec_types_res specs = Ok ts -> ts = spec_types specs.
Proof.
  revert ts. induction specs as [|[sp|nm m] r IH]; intros ts; cbn.
  - now intros [= <-].
  - destruct (codec_types_res r) as [ts'|]; [|discriminate].
    intros [= <-]. f_equal. now apply IH.
  - discriminate.
Qed.

(** The second loop of [get_info], over the csc table. *)
Definition csc_loop_res (T : table_content) : Res (list (string * info)) :=
  fold_res T [] (fun acc kv =>
    fold_res (snd kv) acc (fun acc kv' =>
      match codec_types_res (snd kv') with
      | Ok ts => Ok (assoc_put (fmt_to (fst kv) (fst kv')) (IList ts) acc)
      | Raise e => Raise e
      end)).

Lemma csc_loop_is_res (items : list (string * loc)) (T : table_content)
  (w : World) :
  read_all (read_inner (heap w)) items = Some T ->
  fold_m items [] (fun '(in_csc, out_specs) cinfo =>
    inner ← dict_items out_specs;
    fold_m inner cinfo (fun '(out_csc, specs) cinfo =>
      elems ← list_elems specs;
      ts ← codec_types elems;
      ret (assoc_put (fmt_to in_csc out_csc) (IList ts) cinfo))) w =
  (csc_loop_res T, w).
Proof.
  intros HT. unfold csc_loop_res.
  apply (fold_m_read_res (read_inner (heap w))); [exact HT|].
  intros k1 d1 inner acc Hinner Hin.
  unfold read_inner in Hinner.
  destruct (read_dict _ d1) as [ditems|] eqn:Hdd; [|done].
  unfold mbind at 1, M_bind at 1, bind at 1.
  rewrite (dict_items_read _ _ _ Hdd). cbn [fst snd].
  apply (fold_m_read_res (read_list (heap w))); [exact Hinner|].
  intros k2 l elems acc2 Hl Hin2.
  unfold mbind at 1, M_bind at 1, bind at 1.
  rewrite (list_elems_read _ _ _ Hl). cbn [fst snd].
  unfold mbind, M_bind, bind. rewrite codec_types_is_res.
  now destruct (codec_types_res elems).
Qed.

(** The pairs of keys of a table with their lists, in table order. *)
Definition entries (T : table_content) : list (string * string * list leaf) :=
  flat_map (fun kv => map (fun kv' => (fst kv, fst kv', snd kv')) (snd kv)) T.

Lemma In_entries (T : table_content) (k1 k2 : string) (l : list leaf) :
  In (k1, k2, l) (entries T) <->
  exists inner, In (k1, inner) T /\ In (k2, l) inner.
Proof.
  unfold entries. rewrite in_flat_map. split.
  - intros ([k inner] & Hin & H). cbn [fst snd] in H.
    apply in_map_iff in H as ([k' l'] & [= <- <- <-] & H'). eauto.
  - intros (inner & Hin & H). exists (k1, inner). split; [exact Hin|].
    cbn [fst snd]. apply in_map_iff. exists (k2, l). auto.
Qed.

Lemma fold_res_app {A S} (l1 l2 : list A) (a : S) (f : S -> A -> Res S) :
  fold_res (l1 ++ l2) a f =
  match fold_res l1 a f with
  | Ok a' => fold_res l2 a' f
  | Raise e => Raise e
  end.
Proof.
  revert a. induction l1 as [|x r IH]; intros a; [done|].
  cbn [app fold_res]. destruct (f a x); [apply IH | done].
Qed.

Lemma fold_res_map {A B S} (h : A -> B) (l : list A) (a : S) (f : S -> B -> Res S) :
  fold_res (map h l) a f = fold_res l a (fun a x => f a (h x)).
Proof.
  revert a. induction l as [|x r IH]; intros a; [done|].
  cbn [map fold_res]. destruct (f a (h x)); [apply IH | done].
Qed.

Lemma csc_loop_res_entries (T : table_content) :
  csc_loop_res T =
  fold_res (entries T) [] (fun acc e =>
    match codec_types_res (snd e) with
    | Ok ts => Ok (assoc_put (fmt_to (fst (fst e)) (snd (fst e))) (IList ts) acc)
    | Raise x => Raise x
    end).
Proof.
  unfold csc_loop_res, entries. generalize (@nil (string * info)).
  induction T as [|[k inner] r IH]; intros acc; [done|].
  cbn [fold_res flat_map fst snd]. rewrite fold_res_app, fold_res_map.
  cbn [fst snd].
  destruct (fold_res inner acc _) as [a|e]; [apply IH | done].
Qed.

(** After the csc loop every key of the dictionary is the key of a pair
    of the table and holds the codec types of such a pair, and the key of
    every pair is there. *)
Lemma csc_loop_res_spec (T : table_content) (d : list (string * info))
  (k : string) :
  csc_loop_res T = Ok d ->
  match assoc k d with
  | Some v => exists k1 k2 specs,
                In (k1, k2, specs) (entries T) /\ fmt_to k1 k2 = k /\
                v = IList (spec_types specs)
  | None => forall k1 k2 specs,
              In (k1, k2, specs) (entries T) -> fmt_to k1 k2 <> k
  end.
Proof.
  rewrite csc_loop_res_entries.
  enough (G : forall es acc d,
            match assoc k acc with
            | Some v => exists k1 k2 specs,
                In (k1, k2, specs) (entries T) /\ fmt_to k1 k2 = k /\
                v = IList (spec_types specs)
            | None => True
            end ->
            incl es (entries T) ->
            fold_res es acc (fun acc e =>
              match codec_types_res (snd e) with
              | Ok ts => Ok (assoc_put (fmt_to (fst (fst e)) (snd (fst e)))
                               (IList ts) acc)
              | Raise x => Raise x
              end) = Ok d ->
            match assoc k d with
            | Some v => exists k1 k2 specs,
                In (k1, k2, specs) (entries T) /\ fmt_to k1 k2 = k /\
                v = IList (spec_types specs)
            | None => (assoc k acc = None) /\
                      forall k1 k2 specs, In (k1, k2, specs) es -> fmt_to k1 k2 <> k
            end).
  { intros H. specialize (G (entries T) [] d I (incl_refl _) H).
    destruct (assoc k d); [exact G | apply G]. }
  induction es as [|[[k1 k2] specs] r IH]; intros acc d0 Hacc Hincl.
  - cbn. intros [= <-]. destruct (assoc k acc); [exact Hacc|].
    split; [reflexivity | intros ? ? ? []].
  - cbn [fold_res fst snd].
    destruct (codec_types_res specs) as [ts|e] eqn:Ets; [|discriminate].
    apply codec_types_res_ok in Ets. subst ts. intros Hr.
    assert (Hacc' : match assoc k (assoc_put (fmt_to k1 k2)
                                     (IList (spec_types specs)) acc) with
                    | Some v => exists k1 k2 specs,
                        In (k1, k2, specs) (entries T) /\ fmt_to k1 k2 = k /\
                        v = IList (spec_types specs)
                    | None => True
                    end).
    { destruct (String.eqb_spec k (fmt_to k1 k2)) as [->|Hne].
      - rewrite assoc_assoc_put_eq. exists k1, k2, specs.
        split; [apply Hincl; now left | auto].
      - rewrite assoc_assoc_put_ne by exact Hne. exact Hacc. }
    specialize (IH _ d0 Hacc' (fun x Hx => Hincl x (or_intror Hx)) Hr).
    destruct (assoc k d0) as [v|]; [exact IH|].
    destruct IH as [Hn Hall].
    destruct (String.eqb_spec k (fmt_to k1 k2)) as [->|Hne].
    + now rewrite assoc_assoc_put_eq in Hn.
    + rewrite assoc_assoc_put_ne in Hn by exact Hne. split; [exact Hn|].
      intros a b c [[= <- <- <-]|Hin]; [congruence | exact (Hall a b c Hin)].
Qed.

Lemma lists_ok_assoc (d : list (string * info)) (k : string) (l : list string) :
  lists_ok d -> vals k d = l ->
  assoc k d = match l with [] => None | _ :: _ => Some (IList l) end.
Proof.
  intros Hd <-. unfold vals. destruct (assoc k d) as [i|] eqn:E; [|done].
  destruct (Hd _ _ E) as (l & -> & Hl). now destruct l.
Qed.

(** The report of [get_info], with what its three loops over the tables
    collect. *)
Lemma get_info_run_tables (self : VideoHelper) (w : World) Te Tc Td :
  read_table (heap w) (_video_encoder_specs self) = Some Te ->
  read_table (heap w) (_csc_encoder_specs self) = Some Tc ->
  read_table (heap w) (_video_decoder_specs self) = Some Td ->
  typed Te Tc Td = true ->
  exists einfo dinfo cinfo,
    leaves_loop_res true leaf_codec_type_res Te = Ok einfo /\
    leaves_loop_res false leaf_decoder_name_res Td = Ok dinfo /\
    csc_loop_res Tc = Ok cinfo /\
    get_info self w =
    (Ok (IDict
           [("encoding",
             IDict (einfo ++
               [("video-encoder",
                 IDict (statuses ALL_VIDEO_ENCODER_OPTIONS
                          (first_installed_encoder (codecs w))
                          (video_encoders self) []));
                ("csc-module",
                 IDict (statuses ALL_CSC_MODULE_OPTIONS
                          (List.filter (installed get_csc_module_name (codecs w))
                             ALL_CSC_MODULE_OPTIONS)
                          (csc_modules self) []))]));
            ("decoding", IDict dinfo);
            ("csc", IDict cinfo)]), w).
Proof.
  intros He Hc Hd. unfold typed.
  rewrite !andb_true_iff. intros [[Hke Hkc] Hkd].
  unfold read_table in He, Hc, Hd.
  destruct (read_dict _ (_video_encoder_specs self)) as [eitems|] eqn:Hde; [|done].
  destruct (read_dict _ (_csc_encoder_specs self)) as [citems|] eqn:Hdc; [|done].
  destruct (read_dict _ (_video_decoder_specs self)) as [ditems|] eqn:Hdd; [|done].
  destruct (leaves_loop_run is_spec leaf_codec_type true eitems Te w
              leaf_codec_type_run He Hke) as (einfo & Ee & Je).
  destruct (csc_loop_run citems Tc w Hc Hkc) as (cinfo & Ec & _).
  destruct (leaves_loop_run is_decoder leaf_decoder_name false ditems Td w
              leaf_decoder_name_run Hd Hkd) as (dinfo & Ed & Jd).
  exists einfo, dinfo, cinfo.
  split.
  { pose proof (leaves_loop_is_res true leaf_codec_type leaf_codec_type_res
                  eitems Te w leaf_codec_type_is_res He) as E.
    cbv beta iota in E, Ee. rewrite Ee in E. now injection E. }
  split.
  { pose proof (leaves_loop_is_res false leaf_decoder_name leaf_decoder_name_res
                  ditems Td w leaf_decoder_name_is_res Hd) as E.
    cbv beta iota in E, Ed. rewrite Ed in E. now injection E. }
  split.
  { pose proof (csc_loop_is_res citems Tc w Hc) as E.
    rewrite Ec in E. now injection E. }
  unfold get_info.
  unfold mbind at 1, M_bind at 1, bind at 1. rewrite (dict_items_read _ _ _ Hde).
  unfold mbind at 1, M_bind at 1, bind at 1. cbv beta iota in Ee. rewrite Ee.
  unfold mbind at 1, M_bind at 1, bind at 1. rewrite (dict_items_read _ _ _ Hdc).
  unfold mbind at 1, M_bind at 1, bind at 1. rewrite Ec.
  unfold mbind at 1, M_bind at 1, bind at 1. rewrite (dict_items_read _ _ _ Hdd).
  unfold mbind at 1, M_bind at 1, bind at 1. cbv beta iota in Ed. rewrite Ed.
  rewrite (pairs_only_assoc_None einfo "video-encoder" Je eq_refl).
  cbn [default]. cbv zeta.
  unfold mbind at 1, M_bind at 1, bind at 1.
  rewrite (status_loop_run get_DEFAULT_VIDEO_ENCODERS
             (first_installed_encoder (codecs w)) (video_encoders self)
             ALL_VIDEO_ENCODER_OPTIONS [] w (get_DEFAULT_VIDEO_ENCODERS_run w)).
  rewrite (assoc_set_app_None "video-encoder" _ einfo _
             (pairs_only_assoc_None einfo "video-encoder" Je eq_refl)).
  cbn [assoc_set String.eqb Ascii.eqb Bool.eqb].
  rewrite (assoc_app_None "csc-module" einfo _
             (pairs_only_assoc_None einfo "csc-module" Je eq_refl)).
  cbn [assoc String.eqb Ascii.eqb Bool.eqb default].
  unfold mbind at 1, M_bind at 1, bind at 1.
  rewrite (status_loop_run get_DEFAULT_CSC_MODULES _ (csc_modules self)
             ALL_CSC_MODULE_OPTIONS [] w (get_DEFAULT_CSC_MODULES_run w)).
  rewrite <- app_assoc.
  rewrite (assoc_set_app_None "csc-module" _ einfo _
             (pairs_only_assoc_None einfo "csc-module" Je eq_refl)).
  cbn [app assoc_set String.eqb Ascii.eqb Bool.eqb].
  reflexivity.
Qed.

(** The report of [get_info] on a registry with typed leaves has the
    three sections "encoding", "decoding" and "csc", in this order.  Under
    "encoding", the key "<colorspace>_to_<encoding>" holds the codec types
    of the encoder specs registered for the pair, in the order of the
    table, and the two status dictionaries come after these keys.  Under
    "decoding", the key "<encoding>_to_<colorspace>" holds the names of the
    decoders registered for the pair.  Under "csc", every key is
    "<input>_to_<output>" for a pair of the csc table and holds the codec
    types of the specs of such a pair, and every pair has its key.  A pair
    whose list is empty has no key in the first two sections. *)
Theorem get_info_tables (self : VideoHelper) (w : World) :
  registry_typed (heap w) self = true ->
  exists Te Tc Td einfo dinfo cinfo venc cscm,
    read_table (heap w) (_video_encoder_specs self) = Some Te /\
    read_table (heap w) (_csc_encoder_specs self) = Some Tc /\
    read_table (heap w) (_video_decoder_specs self) = Some Td /\
    get_info self w =
      (Ok (IDict
             [("encoding",
               IDict (einfo ++ [("video-encoder", IDict venc);
                                ("csc-module", IDict cscm)]));
              ("decoding", IDict dinfo);
              ("csc", IDict cinfo)]), w) /\
    (forall k,
       assoc k einfo =
       match summary true leaf_codec_type_res Te k with
       | [] => None
       | l => Some (IList l)
       end) /\
    (forall k,
       assoc k dinfo =
       match summary false leaf_decoder_name_res Td k with
       | [] => None
       | l => Some (IList l)
       end) /\
    (forall k,
       match assoc k cinfo with
       | Some v =>
           exists in_csc out_csc inner specs,
             In (in_csc, inner) Tc /\ In (out_csc, specs) inner /\
             fmt_to in_csc out_csc = k /\ v = IList (spec_types specs)
       | None =>
           forall in_csc out_csc inner specs,
             In (in_csc, inner) Tc -> In (out_csc, specs) inner ->
             fmt_to in_csc out_csc <> k
       end).
Proof.
  unfold registry_typed.
  destruct (read_table _ (_video_encoder_specs self)) as [Te|] eqn:He; [|done].
  destruct (read_table _ (_csc_encoder_specs self)) as [Tc|] eqn:Hc; [|done].
  destruct (read_table _ (_video_decoder_specs self)) as [Td|] eqn:Hd; [|done].
  intros Ht.
  destruct (get_info_run_tables self w Te Tc Td He Hc Hd Ht)
    as (einfo & dinfo & cinfo & Le & Ld & Lc & Hrun).
  exists Te, Tc, Td, einfo, dinfo, cinfo. eexists _, _.
  split; [reflexivity|]. split; [reflexivity|]. split; [reflexivity|].
  split; [exact Hrun|].
  split; [|split].
  - intros k. destruct (leaves_loop_res_vals _ _ _ _ k Le) as [Hl Hv].
    rewrite (lists_ok_assoc _ _ _ Hl Hv).
    now destruct (summary true leaf_codec_type_res Te k).
  - intros k. destruct (leaves_loop_res_vals _ _ _ _ k Ld) as [Hl Hv].
    rewrite (lists_ok_assoc _ _ _ Hl Hv).
    now destruct (summary false leaf_decoder_name_res Td k).
  - intros k. pose proof (csc_loop_res_spec Tc cinfo k Lc) as H.
    destruct (assoc k cinfo) as [v|].
    + destruct H as (k1 & k2 & specs & Hin & Hk & Hv).
      apply In_entries in Hin as (inner & H1 & H2). eauto 10.
    + intros k1 k2 inner specs H1 H2. apply (H k1 k2 specs).
      apply In_entries. eauto.
Qed.

(** ** The order of the result of the colorspace query *)

Lemma string_compare_trans (s1 s2 s3 : string) :
  String.compare s1 s2 <> Gt -> String.compare s2 s3 <> Gt ->
  String.compare s1 s3 <> Gt.
Proof.
  revert s2 s3. induction s1 as [|c1 r1 IH]; intros [|c2 r2] [|c3 r3];
    cbn [String.compare]; try congruence.
  unfold Ascii.compare.
  destruct (N.compare_spec (N_of_ascii c1) (N_of_ascii c2)) as [E12|L12|G12];
    destruct (N.compare_spec (N_of_ascii c2) (N_of_ascii c3)) as [E23|L23|G23];
    destruct (N.compare_spec (N_of_ascii c1) (N_of_ascii c3)) as [E13|L13|G13];
    try congruence; try lia.
  apply IH.
Qed.

Lemma leb_trans (s1 s2 s3 : string) :
  String.leb s1 s2 = true -> String.leb s2 s3 = true -> String.leb s1 s3 = true.
Proof.
  unfold String.leb. intros H12 H23.
  pose proof (string_compare_trans s1 s2 s3) as T.
  destruct (String.compare s1 s2); destruct (String.compare s2 s3);
    destruct (String.compare s1 s3); try reflexivity; try discriminate;
    exfalso; apply T; congruence.
Qed.

(** In order by name. *)
Definition in_order (l : list string) : Prop :=
  StronglySorted (fun a b => String.leb a b = true) l.

Definition items_in_order {V} (l : list (string * V)) : Prop :=
  StronglySorted (fun a b => String.leb (fst a) (fst b) = true) l.

Lemma insert_item_in_order {V} (x : string * V) (l : list (string * V)) :
  items_in_order l -> items_in_order (insert_item x l).
Proof.
  unfold items_in_order. induction l as [|y r IH]; cbn [insert_item]; intros Hs.
  - repeat constructor.
  - apply StronglySorted_inv in Hs as [Hr Hy].
    destruct (String.ltb (fst x) (fst y)) eqn:E.
    + constructor; [now constructor|]. constructor; [now apply ltb_leb|].
      eapply Forall_impl; [|exact Hy]. intros z Hz. cbv beta in *.
      eapply leb_trans; [apply ltb_leb; exact E | exact Hz].
    + constructor; [now apply IH|].
      eapply Permutation_Forall; [symmetry; apply insert_item_perm|].
      constructor; [now apply not_ltb_leb | exact Hy].
Qed.

Lemma sorted_items_in_order {V} (l : list (string * V)) :
  items_in_order (sorted_items l).
Proof.
  induction l as [|x r IH]; cbn [sorted_items fold_right]; [constructor|].
  now apply insert_item_in_order.
Qed.

Lemma in_order_map_filter {V} (p : string * V -> bool) (l : list (string * V)) :
  items_in_order l -> in_order (map fst (List.filter p l)).
Proof.
  unfold items_in_order, in_order. induction 1 as [|x r Hs IH Hx]; [constructor|].
  cbn [List.filter]. destruct (p x); [|exact IH].
  cbn [map]. constructor; [exact IH|].
  apply Forall_map. rewrite List.Forall_forall in *.
  intros y Hy. apply filter_In in Hy as [Hy _]. now apply Hx.
Qed.

Lemma keys_of_filter {V} (p : string * V -> bool) (l : list (string * V)) :
  List.NoDup (map fst l) ->
  List.filter (fun k => str_in k (map fst (List.filter p l))) (map fst l) =
  map fst (List.filter p l).
Proof.
  induction l as [|[k v] r IH]; [done|]. cbn [map fst]. intros Hnd.
  inversion Hnd as [|? ? Hk Hr]; subst. specialize (IH Hr).
  assert (Hrest : forall q : list string,
            List.filter (fun k0 => str_in k0 (k :: q)) (map fst r) =
            List.filter (fun k0 => str_in k0 q) (map fst r)).
  { intros q. apply filter_ext_in. intros a Ha. unfold str_in. cbn [existsb].
    destruct (String.eqb_spec a k) as [->|]; [contradiction | reflexivity]. }
  cbn [List.filter]. destruct (p (k, v)); cbn [map fst List.filter].
  - unfold str_in at 1. cbn [existsb]. rewrite String.eqb_refl. cbn [orb].
    f_equal. now rewrite Hrest.
  - assert (E : str_in k (map fst (List.filter p r)) = false).
    { apply str_in_false. intros Hin. apply Hk.
      apply in_map_iff in Hin as (x & <- & Hx). apply filter_In in Hx as [Hx _].
      now apply in_map. }
    now rewrite E.
Qed.

Lemma expected_csc_modes_keys_filter (modes : list string) (T : table_content) :
  map fst (expected_csc_modes modes T) =
  map fst (List.filter
             (fun kv => negb (is_nil (dedup_first
                                        (viable_colorspaces modes (fst kv) (snd kv)))))
             T).
Proof.
  unfold expected_csc_modes. induction T as [|[e inner] r IH]; [done|].
  cbn [flat_map List.filter fst snd]. rewrite map_app, IH.
  now destruct (dedup_first (viable_colorspaces modes e inner)).
Qed.

(** The result of [get_server_full_csc_modes] is in a fixed order.  Its
    encodings come in the order of [get_decodings], the encodings with no
    viable colorspace left out; and the colorspaces of every encoding are
    sorted by name, each once, whatever the order in which the decoders
    were registered. *)
Theorem get_server_full_csc_modes_order (self : VideoHelper) (w : World)
  (modes : list string) (T : table_content) :
  read_table (heap w) (_video_decoder_specs self) = Some T ->
  table_wf T = true -> decoders_answer T = true ->
  exists res decodings,
    get_server_full_csc_modes self modes w = (Ok res, w) /\
    get_decodings self w = (Ok decodings, w) /\
    map fst res = List.filter (fun e => str_in e (map fst res)) decodings /\
    (forall e l, assoc e res = Some l ->
       StronglySorted (fun a b => String.leb a b = true) l /\ List.NoDup l).
Proof.
  intros HT Hwf Hans.
  exists (expected_csc_modes modes T), (map fst T).
  split; [now apply csc_modes_expected|].
  split; [now apply dict_keys_read|].
  pose proof Hwf as Hwf'. unfold table_wf in Hwf'.
  apply andb_true_iff in Hwf' as [Hnd Hinner]. apply nodupb_NoDup in Hnd.
  rewrite forallb_forall in Hinner.
  split.
  - rewrite expected_csc_modes_keys_filter. symmetry. now apply keys_of_filter.
  - intros e l (inner & Hin & -> & _)%(expected_csc_modes_assoc _ _ _ _ Hwf).
    split.
    + unfold viable_colorspaces. apply in_order_map_filter, sorted_items_in_order.
    + apply viable_colorspaces_NoDup, nodupb_NoDup. exact (Hinner _ Hin).
Qed.

End Registry.

(** * sound_pipeline.py: fault injection *)

Module SoundPipeline.

(** The module state of [inject_fault]: the rate read from the
    environment and the call counter. *)
Record FaultState : Type := mkFaultState { FAULT_RATE : Z; _counter : Z }.

(** [inject_fault()] *)
Definition inject_fault (s : FaultState) : bool * FaultState :=
  if (FAULT_RATE s <=? 0)%Z then (false, s)
  else
    let counter := (_counter s + 1)%Z in
    ((counter mod FAULT_RATE s =? 0)%Z, mkFaultState (FAULT_RATE s) counter).

(** [n] calls in a row: their results, first call first, and the state
    they leave. *)
Fixpoint calls (n : nat) (s : FaultState) : list bool * FaultState :=
  match n with
  | O => ([], s)
  | S k =>
      let (r, s1) := inject_fault s in
      let (rs, s2) := calls k s1 in
      (r :: rs, s2)
  end.

(** The number of faults among the results. *)
Definition faults (rs : list bool) : Z :=
  Z.of_nat (length (List.filter (fun b => b) rs)).

Lemma calls_off (n : nat) (s : FaultState) :
  (FAULT_RATE s <= 0)%Z -> calls n s = (repeat false n, s).
Proof.
  intros H. induction n as [|k IH]; [done|].
  cbn [calls repeat]. unfold inject_fault.
  destruct (Z.leb_spec (FAULT_RATE s) 0); [|lia]. now rewrite IH.
Qed.

Lemma calls_on (n : nat) (s : FaultState) :
  (0 < FAULT_RATE s)%Z ->
  snd (calls n s) = mkFaultState (FAULT_RATE s) (_counter s + Z.of_nat n) /\
  length (fst (calls n s)) = n /\
  (forall k, k < n ->
     nth k (fst (calls n s)) false =
     ((_counter s + Z.of_nat (S k)) mod FAULT_RATE s =? 0)%Z).
Proof.
  revert s. induction n as [|n IH]; intros s H.
  - cbn. split; [|split; [done | intros k Hk; lia]].
    destruct s. cbn. f_equal. lia.
  - cbn [calls]. unfold inject_fault.
    destruct (Z.leb_spec (FAULT_RATE s) 0); [lia|].
    set (s1 := mkFaultState (FAULT_RATE s) (_counter s + 1)).
    destruct (IH s1 H) as (E & L & N).
    destruct (calls n s1) as [rs s2]. cbn [fst snd] in *.
    split; [|split].
    + rewrite E. cbn. f_equal. lia.
    + cbn. now rewrite L.
    + intros [|k] Hk; cbn [nth].
      * first [reflexivity | f_equal; f_equal; lia].
      * rewrite N by lia. cbn [FAULT_RATE _counter s1].
        first [reflexivity | f_equal; f_equal; lia].
Qed.

Lemma div_succ (r n : Z) :
  (0 < r)%Z -> (0 <= n)%Z ->
  ((n + 1) / r = n / r + (if ((n + 1) mod r =? 0) then 1 else 0))%Z.
Proof.
  intros Hr Hn.
  pose proof (Z.div_mod n r ltac:(lia)) as E.
  pose proof (Z.mod_pos_bound n r Hr) as B.
  destruct (Z.eq_dec (n mod r + 1)%Z r) as [Heq|Hne].
  - assert (E1 : (n + 1 = r * (n / r + 1))%Z) by lia.
    assert (M : ((n + 1) mod r = 0)%Z).
    { rewrite E1, Z.mul_comm. apply Z.mod_mul. lia. }
    rewrite M. cbn. rewrite E1 at 1. rewrite Z.mul_comm, Z.div_mul; lia.
  - assert (M : ((n + 1) mod r = n mod r + 1)%Z).
    { symmetry. apply (Z.mod_unique _ _ (n / r)%Z); lia. }
    assert (D : ((n + 1) / r = n / r)%Z).
    { symmetry. apply (Z.div_unique _ _ _ (n mod r + 1)%Z); lia. }
    rewrite M, D. destruct (Z.eqb_spec (n mod r + 1)%Z 0%Z); lia.
Qed.

Lemma faults_calls (n : nat) (s : FaultState) :
  (0 < FAULT_RATE s)%Z -> (0 <= _counter s)%Z ->
  faults (fst (calls n s)) =
  ((_counter s + Z.of_nat n) / FAULT_RATE s - _counter s / FAULT_RATE s)%Z.
Proof.
  revert s. induction n as [|n IH]; intros s Hr Hc.
  - cbn [calls fst Z.of_nat]. rewrite Z.add_0_r, Z.sub_diag. reflexivity.
  - cbn [calls]. unfold inject_fault.
    destruct (Z.leb_spec (FAULT_RATE s) 0); [lia|].
    set (s1 := mkFaultState (FAULT_RATE s) (_counter s + 1)).
    specialize (IH s1 Hr). cbn [_counter FAULT_RATE s1] in IH.
    specialize (IH ltac:(lia)).
    destruct (calls n s1) as [rs s2]. cbn [fst] in *.
    replace (_counter s + Z.of_nat (S n))%Z
      with (_counter s + 1 + Z.of_nat n)%Z by lia.
    pose proof (div_succ (FAULT_RATE s) (_counter s) Hr Hc) as D.
    unfold faults in *. cbn [List.filter].
    destruct ((_counter s + 1) mod FAULT_RATE s =? 0)%Z; cbn [length]; lia.
Qed.

(** [inject_fault] with a rate that is zero or negative never reports a
    fault and leaves the counter alone.  With a rate [r > 0] and the
    counter at zero, as it is when the module is loaded, the k-th call
    reports a fault exactly when [r] divides [k]; so [n] calls report
    [n / r] faults, and the counter counts the calls. *)
Theorem inject_fault_every_rate (rate : Z) (n : nat) :
  let s := mkFaultState rate 0 in
  ((rate <= 0)%Z ->
   calls n s = (repeat false n, s)) /\
  ((0 < rate)%Z ->
   length (fst (calls n s)) = n /\
   snd (calls n s) = mkFaultState rate (Z.of_nat n) /\
   (forall k, 1 <= k <= n ->
      nth (k - 1) (fst (calls n s)) false = true <-> (rate | Z.of_nat k)%Z) /\
   faults (fst (calls n s)) = (Z.of_nat n / rate)%Z).
Proof.
  intros s. split; [intros H; now apply calls_off|].
  intros Hr. destruct (calls_on n s Hr) as (E & L & N).
  split; [exact L|]. split; [rewrite E; cbn; f_equal; lia|]. split.
  - intros k Hk. rewrite N by lia. cbn [_counter FAULT_RATE s].
    replace (S (k - 1)) with k by lia. rewrite Z.add_0_l, Z.eqb_eq.
    rewrite Z.mod_divide by lia. reflexivity.
  - rewrite (faults_calls n s Hr) by (cbn; lia). cbn [_counter FAULT_RATE s].
    rewrite Z.div_0_l by lia. rewrite Z.add_0_l. lia.
Qed.

End SoundPipeline.

(** * A concrete loader and registry *)

Module Demo.

(** A decoder module for the encoding "V1": input "YUV420P", output "RGB". *)
Definition decoder : Codec.module :=
  Codec.mk "dec_avcodec2" (Ok "avcodec2") (Ok ["V1"])
    (fun _ => Ok ["YUV420P"]) (Raise TypeError) (fun _ => Raise AttributeError)
    (fun _ _ => Ok "RGB") (fun _ _ => Raise AttributeError)
    (Ok true) (Ok tt).

(** An encoder module for "V1" from "YUV420P" and "YUV444P"; its teardown
    raises. *)
Definition encoder : Codec.module :=
  Codec.mk "enc_x264" (Ok "x264") (Ok ["V1"])
    (fun _ => Ok ["YUV420P"; "YUV444P"]) (Raise TypeError)
    (fun _ => Raise AttributeError) (fun _ _ => Raise AttributeError)
    (fun encoding colorspace => Ok (mkSpec "x264" 1))
    (Raise AttributeError) (Raise (ModuleError "teardown failed")).

(** A csc module converting "YUV444P" to "RGB". *)
Definition csc : Codec.module :=
  Codec.mk "csc_swscale" (Ok "swscale") (Raise AttributeError)
    (fun _ => Raise TypeError) (Ok ["YUV444P"]) (fun _ => Ok ["RGB"])
    (fun _ _ => Raise AttributeError)
    (fun in_csc out_csc => Ok (mkSpec "swscale" 2))
    (Raise AttributeError) (Ok tt).

(** The loader knows three modules; its state is the list of the names
    loaded so far. *)
Definition known : list (string * Codec.module) :=
  [("dec_avcodec2", decoder); ("enc_x264", encoder); ("csc_swscale", csc)].

Definition load (name : string) (loaded : list string) : Res unit * list string :=
  match assoc name known with
  | Some _ => (Ok tt, name :: loaded)
  | None => (Raise (ModuleError name), loaded)
  end.

Definition get (name : string) (loaded : list string) : option Codec.module :=
  if str_in name loaded then assoc name known else None.

(** Every top module can be imported. *)
Definition importable (name : string) : bool := true.

(** A new registry: three empty tables. *)
Definition fresh_world : @World (list string) :=
  mkWorld [ODict []; ODict []; ODict []] [] [] [].

Definition fresh : VideoHelper := mkVideoHelper 0 1 2 [] [] [] [] false.

(** An initialized registry with one decoder entry for ("V1", "YUV420P")
    and one csc spec "YUV444P" -> "RGB"; nothing is enabled and the encoder
    module is due for teardown. *)
Definition world : @World (list string) :=
  mkWorld
    [ ODict []; ODict [("YUV444P", 5)]; ODict [("V1", 3)];
      ODict [("YUV420P", 4)]; OList [LDecoder "dec_avcodec2" decoder];
      ODict [("RGB", 6)]; OList [LSpec (mkSpec "swscale" 2)] ]
    ["enc_x264"] [] [].

Definition helper : VideoHelper :=
  mkVideoHelper 0 1 2 [] [] [] [encoder; decoder] true.

End Demo.

(** * Checks on the concrete registry *)

Lemma get_server_full_csc_modes_spec_witness :
  exists res,
    get_server_full_csc_modes Demo.helper ["RGB"] Demo.world = (Ok res, Demo.world) /\
    res = [("V1", ["YUV420P"])].
Proof.
  destruct (get_server_full_csc_modes_spec Demo.load Demo.get Demo.importable
              Demo.helper Demo.world ["RGB"]
              [("V1", [("YUV420P", [LDecoder "dec_avcodec2" Demo.decoder])])]
              eq_refl eq_refl eq_refl)
    as (res & Hrun & _ & _ & _ & _ & Hex).
  exists res. split; [exact Hrun|].
  now apply (Hex "dec_avcodec2" Demo.decoder eq_refl eq_refl).
Defined.

Lemma get_server_full_csc_modes_for_rgb_spec_witness :
  get_server_full_csc_modes_for_rgb Demo.helper ["RGB"] Demo.world =
  get_server_full_csc_modes Demo.helper ["RGB"; "YUV444P"] Demo.world.
Proof.
  exact (proj1 (get_server_full_csc_modes_for_rgb_spec Demo.load Demo.get
                  Demo.importable Demo.helper Demo.world ["RGB"]
                  [("YUV444P", [("RGB", [LSpec (mkSpec "swscale" 2)])])]
                  eq_refl)).
Defined.

Lemma set_modules_all_then_exclusions_witness :
  set_modules Demo.importable Demo.fresh ["all"; "-x264"] ["all"; "-cython"]
    ["all"; "-vpx"] Demo.fresh_world =
  (Ok (set_enabled ["vpx"; "x265"; "nvenc"; "ffmpeg"] ["swscale"; "libyuv"]
         ["avcodec2"] Demo.fresh), Demo.fresh_world).
Proof.
  exact (proj1 (proj2 (set_modules_all_then_exclusions
                         Demo.importable Demo.fresh Demo.fresh_world
                         "x264" "cython" "vpx" eq_refl))).
Defined.

Lemma init_idempotent_witness :
  init Demo.load Demo.get Demo.helper Demo.world = (Ok Demo.helper, Demo.world).
Proof.
  exact (init_idempotent Demo.load Demo.get Demo.helper Demo.world eq_refl).
Defined.

Lemma get_info_module_status_witness :
  exists report,
    get_info Demo.get Demo.importable Demo.helper Demo.world = (Ok report, Demo.world) /\
    module_status report "video-encoder" "x264" = Some (IStr "disabled") /\
    module_status report "video-encoder" "vpx" = Some (IStr "not found").
Proof.
  destruct (get_info_module_status Demo.load Demo.get Demo.importable
              Demo.helper Demo.world eq_refl)
    as (report & ed & cd & Hrun & Hed & _ & Henc & _).
  exists report. split; [exact Hrun|].
  injection Hed as <-.
  split; [apply (Henc "x264") | apply (Henc "vpx")]; vm_compute; tauto.
Defined.

Lemma default_encoders_first_only_witness :
  exists l,
    get_DEFAULT_VIDEO_ENCODERS Demo.get Demo.importable Demo.world = (Ok l, Demo.world) /\
    length l <= 1.
Proof.
  destruct (default_encoders_first_only Demo.load Demo.get Demo.importable
              Demo.helper Demo.world eq_refl)
    as ((l & Hrun & Hlen & _) & _).
  exists l. split; [exact Hrun | exact Hlen].
Defined.

(** * More concrete registries *)

Module Example.

(** A registry that is not initialized yet, with one module of each kind
    enabled, over three empty tables. *)
Definition configured : VideoHelper :=
  mkVideoHelper 0 1 2 ["x264"] ["swscale"] ["avcodec2"] [] false.

(** The store of [Demo.world] with the three modules loaded. *)
Definition loaded_world : @World (list string) :=
  mkWorld (heap Demo.world) ["enc_x264"; "csc_swscale"; "dec_avcodec2"] [] [].

(** A table with an encoding "V2" whose inner dictionary is empty and a
    list under ("V1", "YUV444P") that is empty. *)
Definition sparse_world : @World (list string) :=
  mkWorld
    [ ODict [("V1", 1); ("V2", 4)];
      ODict [("YUV420P", 2); ("YUV444P", 3)];
      OList [LSpec (mkSpec "x264" 1)]; OList [];
      ODict [] ]
    [] [] [].

Definition decoder_table : table_content :=
  [("V1", [("YUV420P", [LDecoder "dec_avcodec2" Demo.decoder])])].

Definition csc_table : table_content :=
  [("YUV444P", [("RGB", [LSpec (mkSpec "swscale" 2)])])].

(** A decoder table with "V2" registered before "V1", and "YUV444P"
    registered before "YUV420P" under "V2". *)
Definition unordered_world : @World (list string) :=
  mkWorld
    [ ODict []; ODict []; ODict [("V2", 3); ("V1", 4)];
      ODict [("YUV444P", 5); ("YUV420P", 6)]; ODict [("YUV420P", 7)];
      OList [LDecoder "dec_avcodec2" Demo.decoder];
      OList [LDecoder "dec_avcodec2" Demo.decoder];
      OList [LDecoder "dec_avcodec2" Demo.decoder] ]
    [] [] [].

Definition unordered_table : table_content :=
  [("V2", [("YUV444P", [LDecoder "dec_avcodec2" Demo.decoder]);
           ("YUV420P", [LDecoder "dec_avcodec2" Demo.decoder])]);
   ("V1", [("YUV420P", [LDecoder "dec_avcodec2" Demo.decoder])])].

End Example.

Lemma accessors_never_fail_witness :
  returns_inner_or_empty 0 "V9" (get_encoder_specs Example.configured "V9")
    Example.loaded_world /\
  exists self1 w1 l w2,
    init Demo.load Demo.get Example.configured Example.loaded_world =
      (Ok self1, w1) /\
    get_encodings self1 w1 = (Ok ["V1"], w1) /\
    get_encoder_specs self1 "V9" w1 = (Ok l, w2) /\
    read_dict (heap w2) l = Some [].
Proof.
  destruct (accessors_never_fail Demo.load Demo.get Demo.importable
              Example.configured Example.loaded_world "V9" eq_refl)
    as (Hacc & _ & _ & Hafter & Hret).
  split; [exact Hacc|].
  destruct (Hret eq_refl eq_refl) as (self1 & w1 & Hinit).
  destruct (Hafter self1 w1 Hinit) as (encodings & Henc & Hnot).
  assert (E : encodings = ["V1"]).
  { pose proof Hinit as Hc. vm_compute in Hc. injection Hc as <- <-.
    vm_compute in Henc. now injection Henc as <-. }
  subst encodings.
  destruct Hnot as (l & w2 & Hget & Hempty).
  { intros [H|[]]. discriminate H. }
  exists self1, w1, l, w2. auto.
Defined.

Lemma clone_independent_witness :
  exists self' c w',
    clone Demo.load Demo.get Example.configured Example.loaded_world =
      (Ok (self', c), w') /\
    _initialized c = true /\
    get_encodings c w' = (Ok ["V1"], w') /\
    fst (get_encodings self'
           (snd (add_encoder_spec c "V9" "YUV420P" (mkSpec "x264" 7) w'))) =
      Ok ["V1"].
Proof.
  destruct (clone_independent Demo.load Demo.get Demo.importable
              Example.configured Example.loaded_world eq_refl
              (fun _ => eq_refl))
    as (self' & c & w' & Hrun & _ & Hinit & _ & _ & _ & _ & _ & Hadd).
  pose proof (proj1 (Hadd "V9" "YUV420P" (mkSpec "x264" 7))) as Hsame.
  exists self', c, w'. split; [exact Hrun|]. split; [exact Hinit|].
  rewrite Hsame. clear Hsame Hadd Hinit.
  pose proof Hrun as Hc. vm_compute in Hc. injection Hc as <- <- <-.
  split; reflexivity.
Defined.

Lemma set_modules_selection_witness :
  exists self' w',
    set_modules Demo.importable Demo.fresh ["x264"; "-vpx"; "foo"] ["all"] []
      Demo.fresh_world = (Ok self', w') /\
    In "foo" (video_encoders self').
Proof.
  destruct (set_modules_selection Demo.load Demo.get Demo.importable Demo.fresh
              ["x264"; "-vpx"; "foo"] ["all"] [] Demo.fresh_world eq_refl)
    as (self' & w' & Hrun & He & _).
  exists self', w'. split; [exact Hrun|].
  apply He. vm_compute. split; [|split; [tauto | split; [discriminate | reflexivity]]].
  intros [H|[H|[H|[]]]]; discriminate H.
Defined.

Lemma set_modules_warnings_witness :
  exists self' w' We Wc Wd,
    set_modules Demo.importable Demo.fresh ["foo"] ["all"] [] Demo.fresh_world =
      (Ok self', w') /\
    log w' = log Demo.fresh_world ++ We ++ Wc ++ Wd.
Proof.
  destruct (set_modules_warnings Demo.load Demo.get Demo.importable Demo.fresh
              ["foo"] ["all"] [] Demo.fresh_world eq_refl)
    as (self' & w' & We & Wc & Wd & Hrun & Hlog & _).
  exists self', w', We, Wc, Wd. split; [exact Hrun | exact Hlog].
Defined.

Lemma set_modules_catalogs_witness :
  set_modules Demo.importable Demo.fresh
    (ALL_VIDEO_ENCODER_OPTIONS Demo.importable)
    (ALL_CSC_MODULE_OPTIONS Demo.importable)
    (ALL_VIDEO_DECODER_OPTIONS Demo.importable) Demo.fresh_world =
  (Ok (set_enabled (ALL_VIDEO_ENCODER_OPTIONS Demo.importable)
         (ALL_CSC_MODULE_OPTIONS Demo.importable)
         (ALL_VIDEO_DECODER_OPTIONS Demo.importable) Demo.fresh),
   Demo.fresh_world).
Proof.
  exact (set_modules_catalogs Demo.load Demo.get Demo.importable Demo.fresh
           Demo.fresh_world eq_refl).
Defined.

Lemma try_import_modules_spec_witness :
  try_import_modules Demo.importable ["x264"; "nosuch"] = None.
Proof.
  apply (proj1 (proj2 (try_import_modules_spec Demo.importable ["x264"; "nosuch"]))).
  apply Exists_cons_tl, Exists_cons_hd. reflexivity.
Defined.

Lemma new_VideoHelper_adopts_witness :
  exists self w',
    new_VideoHelper (Some 1) None None true Demo.world = (Ok self, w') /\
    _video_encoder_specs self = 1.
Proof.
  destruct (new_VideoHelper_adopts 1 [("YUV444P", 5)] true Demo.world eq_refl)
    as (self & w' & Hrun & _ & Hl & _).
  exists self, w'. split; [exact Hrun | exact Hl].
Defined.

Lemma init_keeps_well_formed_witness :
  exists w',
    init Demo.load Demo.get Example.configured Demo.fresh_world =
      (Ok (set_initialized true Example.configured), w') /\
    registry_ok (heap w') (set_initialized true Example.configured) = true.
Proof.
  destruct (init_keeps_well_formed Demo.load Demo.get Demo.importable
              Example.configured Demo.fresh_world eq_refl eq_refl)
    as (w' & Hrun & Hok & _).
  exists w'. split; [exact Hrun | exact Hok].
Defined.

Lemma set_modules_only_before_init_witness :
  exists self1 w1,
    init Demo.load Demo.get Example.configured Example.loaded_world =
      (Ok self1, w1) /\
    set_modules Demo.importable self1 ["all"] [] [] w1 =
      (Raise (AssertionError
                "too late to set modules, the helper is already initialized!"),
       w1).
Proof.
  destruct (set_modules_only_before_init Demo.load Demo.get Demo.importable
              Example.configured Example.loaded_world eq_refl eq_refl)
    as (self1 & w1 & self2 & w2 & Hinit & _ & Hlate & _).
  exists self1, w1. split; [exact Hinit | apply Hlate].
Defined.

Lemma cleanup_then_init_witness :
  exists self1 w1,
    cleanup Demo.helper Demo.world = (Ok self1, w1) /\
    get_encodings (set_initialized true self1) w1 = (Ok [], w1).
Proof.
  destruct (cleanup_then_init Demo.load Demo.get Demo.helper Demo.world eq_refl)
    as (self1 & w1 & Hrun & _ & He & _).
  exists self1, w1. split; [exact Hrun | exact He].
Defined.

Lemma cleanup_keeps_store_witness :
  exists self1 w1,
    cleanup Demo.helper Demo.world = (Ok self1, w1) /\
    read_table (heap w1) (_video_decoder_specs Demo.helper) =
      read_table (heap Demo.world) (_video_decoder_specs Demo.helper).
Proof.
  destruct (cleanup_keeps_store Demo.helper Demo.helper Demo.world eq_refl)
    as (self1 & w1 & Hrun & _ & _ & _ & _ & _ & Hd).
  exists self1, w1. split; [exact Hrun | exact Hd].
Defined.

Lemma add_encoder_spec_lookup_witness :
  exists w',
    add_encoder_spec Demo.helper "V1" "YUV420P" (mkSpec "x264" 1) Demo.world =
      (Ok tt, w') /\
    registry_ok (heap w') Demo.helper = true.
Proof.
  destruct (add_encoder_spec_lookup Demo.load Demo.get Demo.importable
              Demo.helper Demo.world "V1" "YUV420P" (mkSpec "x264" 1) eq_refl)
    as (Te & Tc & Td & w' & _ & _ & _ & Hrun & _ & _ & _ & Hok & _).
  exists w'. split; [exact Hrun | exact Hok].
Defined.

Lemma add_csc_spec_add_decoder_lookup_witness :
  exists w',
    add_decoder Demo.helper "V1" "YUV420P" "dec_avcodec2" Demo.decoder Demo.world =
      (Ok tt, w') /\
    registry_ok (heap w') Demo.helper = true.
Proof.
  destruct (add_csc_spec_add_decoder_lookup Demo.load Demo.get Demo.importable
              Demo.helper Demo.world "V1" "YUV420P" (mkSpec "swscale" 2)
              "dec_avcodec2" Demo.decoder eq_refl)
    as (Te & Tc & Td & _ & _ & _ & _ & (w' & Hrun & _ & _ & _ & Hok & _)).
  exists w'. split; [exact Hrun | exact Hok].
Defined.

Lemma get_encoder_module_name_idempotent_witness :
  get_encoder_module_name "x264" = "enc_x264".
Proof.
  exact (proj2 (proj2 (get_encoder_module_name_idempotent "x264")) eq_refl).
Defined.

Lemma get_server_full_csc_modes_fails_as_a_whole_witness :
  exists res,
    get_server_full_csc_modes Demo.helper ["BGR"] Demo.world = (Ok res, Demo.world).
Proof.
  exact (proj1 (get_server_full_csc_modes_fails_as_a_whole Demo.helper Demo.world
                  ["BGR"] Example.decoder_table eq_refl) eq_refl).
Defined.

Lemma clone_answers_like_source_witness :
  exists self' c w',
    clone Demo.load Demo.get Example.configured Example.loaded_world =
      (Ok (self', c), w') /\
    get_decodings c w' = get_decodings self' w'.
Proof.
  destruct (clone_answers_like_source Demo.load Demo.get Demo.importable
              Example.configured Example.loaded_world eq_refl
              (fun _ => eq_refl))
    as (self' & c & w' & Hrun & _ & Hd & _).
  exists self', c, w'. split; [exact Hrun | exact Hd].
Defined.

Lemma get_server_full_csc_modes_monotone_witness :
  exists res res',
    get_server_full_csc_modes Demo.helper ["RGB"] Demo.world = (Ok res, Demo.world) /\
    get_server_full_csc_modes Demo.helper ["RGB"; "BGR"] Demo.world =
      (Ok res', Demo.world).
Proof.
  destruct (get_server_full_csc_modes_monotone Demo.load Demo.get Demo.importable
              Demo.helper Demo.world ["RGB"] ["RGB"; "BGR"]
              Example.decoder_table eq_refl eq_refl eq_refl
              (incl_appl ["BGR"] (incl_refl ["RGB"])))
    as (res & res' & d & H1 & H2 & _).
  exists res, res'. split; [exact H1 | exact H2].
Defined.

Lemma get_server_full_csc_modes_for_rgb_extends_witness :
  exists res res',
    get_server_full_csc_modes Demo.helper ["RGB"] Demo.world = (Ok res, Demo.world) /\
    get_server_full_csc_modes_for_rgb Demo.helper ["RGB"] Demo.world =
      (Ok res', Demo.world).
Proof.
  destruct (get_server_full_csc_modes_for_rgb_extends Demo.load Demo.get
              Demo.importable Demo.helper Demo.world ["RGB"]
              Example.csc_table Example.decoder_table
              eq_refl eq_refl eq_refl eq_refl)
    as (res & res' & H1 & H2 & _).
  exists res, res'. split; [exact H1 | exact H2].
Defined.

Lemma clone_forgets_selection_witness :
  exists self' c w',
    clone Demo.load Demo.get Example.configured Demo.fresh_world =
      (Ok (self', c), w') /\
    video_encoders self' = ["x264"] /\ video_encoders c = [].
Proof.
  destruct (clone_forgets_selection Demo.load Demo.get Demo.importable
              Example.configured Demo.fresh_world eq_refl eq_refl)
    as (self' & c & w' & report & ed & cd & Hrun & H1 & _ & _ & _ & H2 & _).
  exists self', c, w'. split; [exact Hrun|]. split; [exact H1 | exact H2].
Defined.

Lemma deepish_clone_dict_prunes_witness :
  exists h',
    deepish_clone_dict 0 Example.sparse_world =
      (Ok 5, set_heap h' Example.sparse_world) /\
    read_table h' 5 =
      Some [("V1", [("YUV420P", [LSpec (mkSpec "x264" 1)])])].
Proof.
  destruct (deepish_clone_dict_prunes Demo.load Demo.get Demo.importable
              0 Example.sparse_world
              [("V1", [("YUV420P", [LSpec (mkSpec "x264" 1)]); ("YUV444P", [])]);
               ("V2", [])] eq_refl eq_refl)
    as (h' & Hrun & _ & Hr & _).
  exists h'. split; [exact Hrun | exact Hr].
Defined.

Lemma init_only_appends_witness :
  exists w' ks,
    init Demo.load Demo.get Example.configured Example.loaded_world =
      (Ok (set_initialized true Example.configured), w') /\
    get_decodings Example.configured w' = (Ok ("V1" :: ks), w').
Proof.
  destruct (init_only_appends Demo.load Demo.get Demo.importable
              Example.configured Example.loaded_world eq_refl eq_refl)
    as (Te & Tc & Td & Te' & Tc' & Td' & w' & _ & _ & R3 & Hrun & _ & _ & _ &
        _ & _ & _ & _ & _ & (ks & Hd)).
  vm_compute in R3. injection R3 as <-.
  exists w', ks. split; [exact Hrun | exact Hd].
Defined.

Lemma init_video_encoder_option_registers_witness :
  exists w',
    init_video_encoder_option Demo.get Demo.helper "enc_x264" Example.loaded_world =
      (Ok tt, w') /\
    registry_ok (heap w') Demo.helper = true.
Proof.
  destruct (init_video_encoder_option_registers Demo.load Demo.get Demo.importable
              Demo.helper Example.loaded_world "enc_x264" eq_refl)
    as (Te & Tc & Td & _ & _ & _ & _ & Hm).
  destruct (Hm Demo.encoder eq_refl) as (w' & Hrun & _ & _ & _ & Hok & _).
  exists w'. split; [exact Hrun | exact Hok].
Defined.

Lemma init_csc_option_registers_witness :
  exists w',
    init_csc_option Demo.get Demo.helper "csc_swscale" Example.loaded_world =
      (Ok tt, w') /\
    registry_ok (heap w') Demo.helper = true.
Proof.
  destruct (init_csc_option_registers Demo.load Demo.get Demo.importable
              Demo.helper Example.loaded_world "csc_swscale" eq_refl)
    as (Te & Tc & Td & _ & _ & _ & _ & Hm).
  destruct (Hm Demo.csc eq_refl) as (w' & Hrun & _ & _ & _ & Hok & _).
  exists w'. split; [exact Hrun | exact Hok].
Defined.

Lemma init_video_decoder_option_registers_witness :
  exists w',
    init_video_decoder_option Demo.get Demo.helper "dec_avcodec2"
      Example.loaded_world = (Ok tt, w') /\
    registry_ok (heap w') Demo.helper = true.
Proof.
  destruct (init_video_decoder_option_registers Demo.load Demo.get Demo.importable
              Demo.helper Example.loaded_world "dec_avcodec2" eq_refl)
    as (Te & Tc & Td & _ & _ & _ & _ & Hm).
  destruct (Hm Demo.decoder eq_refl) as (w' & Hrun & _ & _ & _ & Hok & _).
  exists w'. split; [exact Hrun | exact Hok].
Defined.

Lemma get_info_tables_witness :
  exists report,
    get_info Demo.get Demo.importable Demo.helper Demo.world = (Ok report, Demo.world).
Proof.
  destruct (get_info_tables Demo.load Demo.get Demo.importable Demo.helper
              Demo.world eq_refl)
    as (Te & Tc & Td & e & d & c & venc & cscm & _ & _ & _ & Hrun & _).
  eexists. exact Hrun.
Defined.

Lemma get_server_full_csc_modes_order_witness :
  get_server_full_csc_modes Demo.helper ["RGB"] Example.unordered_world =
    (Ok [("V2", ["YUV420P"; "YUV444P"]); ("V1", ["YUV420P"])],
     Example.unordered_world) /\
  exists res,
    get_server_full_csc_modes Demo.helper ["RGB"] Example.unordered_world =
      (Ok res, Example.unordered_world) /\
    map fst res = List.filter (fun e => str_in e (map fst res)) ["V2"; "V1"].
Proof.
  split; [reflexivity|].
  destruct (get_server_full_csc_modes_order Demo.load Demo.get Demo.importable
              Demo.helper Example.unordered_world ["RGB"]
              Example.unordered_table eq_refl eq_refl eq_refl)
    as (res & d & Hrun & Hd & Hkeys & _).
  exists res. split; [exact Hrun|].
  vm_compute in Hd. injection Hd as <-. exact Hkeys.
Defined.

Lemma inject_fault_every_rate_witness :
  SoundPipeline.calls 4 (SoundPipeline.mkFaultState 0 0) =
  (repeat false 4, SoundPipeline.mkFaultState 0 0).
Proof.
  apply (proj1 (SoundPipeline.inject_fault_every_rate 0 4)). lia.
Defined.

(** C9, as stated, fails for decoders: "avcodec2" is in the decoder catalog
    and the report of [get_info] has no entry for it at any depth. *)
Lemma get_info_no_decoder_status :
  In "avcodec2" (ALL_VIDEO_DECODER_OPTIONS Demo.importable) /\
  exists report,
    get_info Demo.get Demo.importable Demo.helper Demo.world = (Ok report, Demo.world) /\
    ~ In "avcodec2" (info_keys report).
Proof.
  split; [vm_compute; tauto|].
  eexists. split; [vm_compute; reflexivity|].
  vm_compute. intros H.
  repeat (destruct H as [H|H]; [discriminate H|]). exact H.
Qed.

(** C4, at an input where the code departs from it: the name "foo" is in no
    catalog; [set_modules] warns that it ignores it and yet leaves it in the
    list of enabled encoders.  With "all" next to it, "foo" is dropped and
    no warning is logged. *)
Lemma set_modules_keeps_unknown_name :
  set_modules Demo.importable Demo.fresh ["foo"] [] [] Demo.fresh_world =
    (Ok (set_enabled ["foo"] [] [] Demo.fresh),
     mkWorld (heap Demo.fresh_world) (codecs Demo.fresh_world)
       [Warn "Warning: ignoring unknown %s: %s"
          [AStr "video encoders"; ACsv ["foo"]]]
       (teardowns Demo.fresh_world)) /\
  set_modules Demo.importable Demo.fresh ["all"; "foo"] [] [] Demo.fresh_world =
    (Ok (set_enabled ["x264"; "vpx"; "x265"; "nvenc"; "ffmpeg"] [] [] Demo.fresh),
     Demo.fresh_world).
Proof. split; reflexivity. Qed.

(** C7, at an input where the code departs from it.  A registry is made by
    the constructor, one module of each kind is selected, and [init] loads
    the three modules and registers what they declare.  [cleanup] then
    returns and clears the registry, but calls the [cleanup_module] of none
    of the three: its loop runs over [_cleanup_modules], which the
    constructor sets to the empty list and to which nothing is appended. *)
Lemma cleanup_skips_loaded_modules :
  exists self0 w0 self1 w1 self2 w2 self3 w3,
    new_VideoHelper None None None false (mkWorld [] ([] : list string) [] []) =
      (Ok self0, w0) /\
    set_modules Demo.importable self0 ["x264"] ["swscale"] ["avcodec2"] w0 =
      (Ok self1, w1) /\
    init Demo.load Demo.get self1 w1 = (Ok self2, w2) /\
    codecs w2 = ["dec_avcodec2"; "csc_swscale"; "enc_x264"] /\
    get_encodings self2 w2 = (Ok ["V1"], w2) /\
    get_csc_inputs self2 w2 = (Ok ["YUV444P"], w2) /\
    get_decodings self2 w2 = (Ok ["V1"], w2) /\
    _cleanup_modules self2 = [] /\
    cleanup self2 w2 = (Ok self3, w3) /\
    teardowns w3 = [] /\
    log w3 = [] /\
    _initialized self3 = false.
Proof.
  do 8 eexists.
  split; [vm_compute; reflexivity|]. split; [vm_compute; reflexivity|].
  split; [vm_compute; reflexivity|]. split; [vm_compute; reflexivity|].
  split; [vm_compute; reflexivity|]. split; [vm_compute; reflexivity|].
  split; [vm_compute; reflexivity|]. split; [vm_compute; reflexivity|].
  split; [vm_compute; reflexivity|]. split; [vm_compute; reflexivity|].
  split; vm_compute; reflexivity.
Qed.
